(** * GANDALF numerical core: ghosts, smoothing lengths, pair forces,
      leapfrog drift and the MPI league calendar

    A shallow embedding of the routines of [Ghosts.cpp], [GradhSph.cpp],
    [SM2012Sph.cpp], [IsothermalEOS.cpp], [NbodyLeapfrogDKD.cpp] and
    [MpiControl.cpp] that the specification talks about, followed by the
    properties established (or refuted) for them.

    Conventions of the embedding.
    - [FLOAT] and [DOUBLE] values are exact rationals ([Q]); equalities
      between computed values are stated with [==].  Round-off, infinities
      and NaN are not represented ([1/0] is [0] in [Q]).
    - [int] values are unbounded integers ([Z]); every counter of the
      modelled routines stays far below [2^31].
    - A C array is a list.  Reading or writing outside it is undefined in
      C++; the embedding stops with [OutOfBounds] at the offending index.
    - [ExceptionHandler::raise] never returns to its caller; the embedding
      stops with [Raised] and the message.
    - A [do ... while] loop is unrolled a bounded number of times;
      [Unfinished] marks a loop still running after that many passes, and
      is shown not to occur. *)

From Stdlib Require Import ZArith QArith Qabs Qround Lia Lqa String.
From stdpp Require Import base list.

Local Open Scope string_scope.
Local Open Scope Z_scope.

(** ** Outcomes of a routine *)

Inductive result (A : Type) : Type :=
| Done (x : A)
| Raised (msg : string)
| OutOfBounds (index : Z)
| Unfinished.
Arguments Done {A} x.
Arguments Raised {A} msg.
Arguments OutOfBounds {A} index.
Arguments Unfinished {A}.

#[global] Instance result_ret : MRet result := fun A x => Done x.
#[global] Instance result_bind : MBind result := fun A B f c =>
  match c with
  | Done x => f x
  | Raised msg => Raised msg
  | OutOfBounds i => OutOfBounds i
  | Unfinished => Unfinished
  end.

(** Modelled from the spec: [Exception.cpp] is not among the sources, only
    the declaration in [Exception.h].  The error sink either terminates the
    process or throws an error object back to the host, so control never
    comes back to the statement after the call. *)
Definition raise {A : Type} (message : string) : result A := Raised message.

(** [arr[i]] as an rvalue and [arr[i] = x]. *)
Definition rd {A : Type} (arr : list A) (i : Z) : result A :=
  if i <? 0 then OutOfBounds i
  else match arr !! Z.to_nat i with
       | Some x => Done x
       | None => OutOfBounds i
       end.

Definition wr {A : Type} (arr : list A) (i : Z) (x : A) : result (list A) :=
  if (0 <=? i) && (i <? Z.of_nat (length arr))
  then Done (<[Z.to_nat i := x]> arr)
  else OutOfBounds i.

(** [for (i = lo; i < hi; i++) body], with [hi] fixed at loop entry. *)
Fixpoint for_upto {S : Type} (count : nat) (i : Z)
    (body : Z -> S -> result S) (s : S) : result S :=
  match count with
  | O => Done s
  | Datatypes.S c => s' ← body i s; for_upto c (i + 1) body s'
  end.

Definition for_range {S : Type} (lo hi : Z)
    (body : Z -> S -> result S) (s : S) : result S :=
  for_upto (Z.to_nat (hi - lo)) lo body s.

(** ** Floating-point scalars and [ndim]-vectors *)

Definition Qltb (x y : Q) : bool :=
  match (x ?= y)%Q with Lt => true | _ => false end.

(** [std::min] and [std::max]. *)
Definition fmin (x y : Q) : Q := if Qltb y x then y else x.
Definition fmax (x y : Q) : Q := if Qltb x y then y else x.

Abbreviation vec := (list Q).
Definition vget (x : vec) (k : nat) : Q := nth k x 0%Q.
Definition vset (x : vec) (k : nat) (y : Q) : vec := <[k := y]> x.
(** The vector written by [for (k=0; k<ndim; k++) x[k] = f k]. *)
Definition vbuild (ndim : nat) (f : nat -> Q) : vec := map f (seq 0 ndim).

(** Modelled from the spec: [InlineFuncs.h] is not among the sources.
    [DotProduct(x,y,ndim)] is the [ndim]-term scalar product that the spec
    writes [v_ij . r_ij]. *)
Definition DotProduct (x y : vec) (ndim : nat) : Q :=
  fold_right (fun k acc => (vget x k * vget y k + acc)%Q) 0%Q (seq 0 ndim).

(** What the routines take from outside the sources: [sqrt] and [pow] with
    a fractional exponent from [<math.h>], which have no exact counterpart
    on the rationals, and the constant [small_number] of [Constants.h].
    A power with an [int] exponent is the exact power [x ^ n]. *)
Record Numerics : Type := mkNumerics {
  sqrt : Q -> Q;
  pow : Q -> Q -> Q;
  small_number : Q
}.

(** [fabs]. *)
Definition fabs (x : Q) : Q := Qabs x.

(** [(FLOAT) n] for an [int] [n]. *)
Definition to_float (n : Z) : Q := inject_Z n.

(** ** Particles *)

(** Modelled from the spec: [SphParticle.h] is not among the sources.  The
    kind tag of a particle is one of the twelve ghost kinds named in
    [Ghosts.cpp], or a non-ghost kind. *)
Inductive ptype : Type :=
| x_lhs_periodic | x_lhs_mirror | x_rhs_periodic | x_rhs_mirror
| y_lhs_periodic | y_lhs_mirror | y_rhs_periodic | y_rhs_mirror
| z_lhs_periodic | z_lhs_mirror | z_rhs_periodic | z_rhs_mirror
| real_particle.

#[global] Instance ptype_eq_dec : EqDecision ptype.
Proof. solve_decision. Defined.

(** The fields of [SphParticle<ndim>] that the modelled routines touch. *)
Record SphParticle : Type := mkSphParticle {
  active : bool;
  potmin : bool;
  iorig : Z;
  itype : ptype;
  level : Z;
  levelneib : Z;
  sinkid : Z;
  r : vec;
  v : vec;
  a : vec;
  agrav : vec;
  m : Q;
  h : Q;
  invh : Q;
  hfactor : Q;
  hrangesqd : Q;
  rho : Q;
  invrho : Q;
  u : Q;
  dudt : Q;
  pfactor : Q;
  invomega : Q;
  zeta : Q;
  chi : Q;
  q : Q;
  invq : Q;
  gpot : Q;
  sound : Q;
  div_v : Q;
  alpha : Q
}.

(** Field assignments [p.f = x]. *)
Definition set_active (x : bool) (p : SphParticle) : SphParticle :=
  mkSphParticle x (potmin p) (iorig p) (itype p) (level p) (levelneib p)
    (sinkid p) (r p) (v p) (a p) (agrav p) (m p) (h p) (invh p) (hfactor p)
    (hrangesqd p) (rho p) (invrho p) (u p) (dudt p) (pfactor p) (invomega p)
    (zeta p) (chi p) (q p) (invq p) (gpot p) (sound p) (div_v p) (alpha p).
Definition set_potmin (x : bool) (p : SphParticle) : SphParticle :=
  mkSphParticle (active p) x (iorig p) (itype p) (level p) (levelneib p)
    (sinkid p) (r p) (v p) (a p) (agrav p) (m p) (h p) (invh p) (hfactor p)
    (hrangesqd p) (rho p) (invrho p) (u p) (dudt p) (pfactor p) (invomega p)
    (zeta p) (chi p) (q p) (invq p) (gpot p) (sound p) (div_v p) (alpha p).
Definition set_iorig (x : Z) (p : SphParticle) : SphParticle :=
  mkSphParticle (active p) (potmin p) x (itype p) (level p) (levelneib p)
    (sinkid p) (r p) (v p) (a p) (agrav p) (m p) (h p) (invh p) (hfactor p)
    (hrangesqd p) (rho p) (invrho p) (u p) (dudt p) (pfactor p) (invomega p)
    (zeta p) (chi p) (q p) (invq p) (gpot p) (sound p) (div_v p) (alpha p).
Definition set_itype (x : ptype) (p : SphParticle) : SphParticle :=
  mkSphParticle (active p) (potmin p) (iorig p) x (level p) (levelneib p)
    (sinkid p) (r p) (v p) (a p) (agrav p) (m p) (h p) (invh p) (hfactor p)
    (hrangesqd p) (rho p) (invrho p) (u p) (dudt p) (pfactor p) (invomega p)
    (zeta p) (chi p) (q p) (invq p) (gpot p) (sound p) (div_v p) (alpha p).
Definition set_levelneib (x : Z) (p : SphParticle) : SphParticle :=
  mkSphParticle (active p) (potmin p) (iorig p) (itype p) (level p) x
    (sinkid p) (r p) (v p) (a p) (agrav p) (m p) (h p) (invh p) (hfactor p)
    (hrangesqd p) (rho p) (invrho p) (u p) (dudt p) (pfactor p) (invomega p)
    (zeta p) (chi p) (q p) (invq p) (gpot p) (sound p) (div_v p) (alpha p).
Definition set_r (x : vec) (p : SphParticle) : SphParticle :=
  mkSphParticle (active p) (potmin p) (iorig p) (itype p) (level p)
    (levelneib p) (sinkid p) x (v p) (a p) (agrav p) (m p) (h p) (invh p)
    (hfactor p) (hrangesqd p) (rho p) (invrho p) (u p) (dudt p) (pfactor p)
    (invomega p) (zeta p) (chi p) (q p) (invq p) (gpot p) (sound p) (div_v p)
    (alpha p).
Definition set_v (x : vec) (p : SphParticle) : SphParticle :=
  mkSphParticle (active p) (potmin p) (iorig p) (itype p) (level p)
    (levelneib p) (sinkid p) (r p) x (a p) (agrav p) (m p) (h p) (invh p)
    (hfactor p) (hrangesqd p) (rho p) (invrho p) (u p) (dudt p) (pfactor p)
    (invomega p) (zeta p) (chi p) (q p) (invq p) (gpot p) (sound p) (div_v p)
    (alpha p).
Definition set_a (x : vec) (p : SphParticle) : SphParticle :=
  mkSphParticle (active p) (potmin p) (iorig p) (itype p) (level p)
    (levelneib p) (sinkid p) (r p) (v p) x (agrav p) (m p) (h p) (invh p)
    (hfactor p) (hrangesqd p) (rho p) (invrho p) (u p) (dudt p) (pfactor p)
    (invomega p) (zeta p) (chi p) (q p) (invq p) (gpot p) (sound p) (div_v p)
    (alpha p).
Definition set_agrav (x : vec) (p : SphParticle) : SphParticle :=
  mkSphParticle (active p) (potmin p) (iorig p) (itype p) (level p)
    (levelneib p) (sinkid p) (r p) (v p) (a p) x (m p) (h p) (invh p)
    (hfactor p) (hrangesqd p) (rho p) (invrho p) (u p) (dudt p) (pfactor p)
    (invomega p) (zeta p) (chi p) (q p) (invq p) (gpot p) (sound p) (div_v p)
    (alpha p).
Definition set_h (x : Q) (p : SphParticle) : SphParticle :=
  mkSphParticle (active p) (potmin p) (iorig p) (itype p) (level p)
    (levelneib p) (sinkid p) (r p) (v p) (a p) (agrav p) (m p) x (invh p)
    (hfactor p) (hrangesqd p) (rho p) (invrho p) (u p) (dudt p) (pfactor p)
    (invomega p) (zeta p) (chi p) (q p) (invq p) (gpot p) (sound p) (div_v p)
    (alpha p).
Definition set_invh (x : Q) (p : SphParticle) : SphParticle :=
  mkSphParticle (active p) (potmin p) (iorig p) (itype p) (level p)
    (levelneib p) (sinkid p) (r p) (v p) (a p) (agrav p) (m p) (h p) x
    (hfactor p) (hrangesqd p) (rho p) (invrho p) (u p) (dudt p) (pfactor p)
    (invomega p) (zeta p) (chi p) (q p) (invq p) (gpot p) (sound p) (div_v p)
    (alpha p).
Definition set_hfactor (x : Q) (p : SphParticle) : SphParticle :=
  mkSphParticle (active p) (potmin p) (iorig p) (itype p) (level p)
    (levelneib p) (sinkid p) (r p) (v p) (a p) (agrav p) (m p) (h p) (invh p)
    x (hrangesqd p) (rho p) (invrho p) (u p) (dudt p) (pfactor p) (invomega p)
    (zeta p) (chi p) (q p) (invq p) (gpot p) (sound p) (div_v p) (alpha p).
Definition set_hrangesqd (x : Q) (p : SphParticle) : SphParticle :=
  mkSphParticle (active p) (potmin p) (iorig p) (itype p) (level p)
    (levelneib p) (sinkid p) (r p) (v p) (a p) (agrav p) (m p) (h p) (invh p)
    (hfactor p) x (rho p) (invrho p) (u p) (dudt p) (pfactor p) (invomega p)
    (zeta p) (chi p) (q p) (invq p) (gpot p) (sound p) (div_v p) (alpha p).
Definition set_rho (x : Q) (p : SphParticle) : SphParticle :=
  mkSphParticle (active p) (potmin p) (iorig p) (itype p) (level p)
    (levelneib p) (sinkid p) (r p) (v p) (a p) (agrav p) (m p) (h p) (invh p)
    (hfactor p) (hrangesqd p) x (invrho p) (u p) (dudt p) (pfactor p)
    (invomega p) (zeta p) (chi p) (q p) (invq p) (gpot p) (sound p) (div_v p)
    (alpha p).
Definition set_invrho (x : Q) (p : SphParticle) : SphParticle :=
  mkSphParticle (active p) (potmin p) (iorig p) (itype p) (level p)
    (levelneib p) (sinkid p) (r p) (v p) (a p) (agrav p) (m p) (h p) (invh p)
    (hfactor p) (hrangesqd p) (rho p) x (u p) (dudt p) (pfactor p)
    (invomega p) (zeta p) (chi p) (q p) (invq p) (gpot p) (sound p) (div_v p)
    (alpha p).
Definition set_u (x : Q) (p : SphParticle) : SphParticle :=
  mkSphParticle (active p) (potmin p) (iorig p) (itype p) (level p)
    (levelneib p) (sinkid p) (r p) (v p) (a p) (agrav p) (m p) (h p) (invh p)
    (hfactor p) (hrangesqd p) (rho p) (invrho p) x (dudt p) (pfactor p)
    (invomega p) (zeta p) (chi p) (q p) (invq p) (gpot p) (sound p) (div_v p)
    (alpha p).
Definition set_dudt (x : Q) (p : SphParticle) : SphParticle :=
  mkSphParticle (active p) (potmin p) (iorig p) (itype p) (level p)
    (levelneib p) (sinkid p) (r p) (v p) (a p) (agrav p) (m p) (h p) (invh p)
    (hfactor p) (hrangesqd p) (rho p) (invrho p) (u p) x (pfactor p)
    (invomega p) (zeta p) (chi p) (q p) (invq p) (gpot p) (sound p) (div_v p)
    (alpha p).
Definition set_pfactor (x : Q) (p : SphParticle) : SphParticle :=
  mkSphParticle (active p) (potmin p) (iorig p) (itype p) (level p)
    (levelneib p) (sinkid p) (r p) (v p) (a p) (agrav p) (m p) (h p) (invh p)
    (hfactor p) (hrangesqd p) (rho p) (invrho p) (u p) (dudt p) x (invomega p)
    (zeta p) (chi p) (q p) (invq p) (gpot p) (sound p) (div_v p) (alpha p).
Definition set_invomega (x : Q) (p : SphParticle) : SphParticle :=
  mkSphParticle (active p) (potmin p) (iorig p) (itype p) (level p)
    (levelneib p) (sinkid p) (r p) (v p) (a p) (agrav p) (m p) (h p) (invh p)
    (hfactor p) (hrangesqd p) (rho p) (invrho p) (u p) (dudt p) (pfactor p) x
    (zeta p) (chi p) (q p) (invq p) (gpot p) (sound p) (div_v p) (alpha p).
Definition set_zeta (x : Q) (p : SphParticle) : SphParticle :=
  mkSphParticle (active p) (potmin p) (iorig p) (itype p) (level p)
    (levelneib p) (sinkid p) (r p) (v p) (a p) (agrav p) (m p) (h p) (invh p)
    (hfactor p) (hrangesqd p) (rho p) (invrho p) (u p) (dudt p) (pfactor p)
    (invomega p) x (chi p) (q p) (invq p) (gpot p) (sound p) (div_v p)
    (alpha p).
Definition set_chi (x : Q) (p : SphParticle) : SphParticle :=
  mkSphParticle (active p) (potmin p) (iorig p) (itype p) (level p)
    (levelneib p) (sinkid p) (r p) (v p) (a p) (agrav p) (m p) (h p) (invh p)
    (hfactor p) (hrangesqd p) (rho p) (invrho p) (u p) (dudt p) (pfactor p)
    (invomega p) (zeta p) x (q p) (invq p) (gpot p) (sound p) (div_v p)
    (alpha p).
Definition set_q (x : Q) (p : SphParticle) : SphParticle :=
  mkSphParticle (active p) (potmin p) (iorig p) (itype p) (level p)
    (levelneib p) (sinkid p) (r p) (v p) (a p) (agrav p) (m p) (h p) (invh p)
    (hfactor p) (hrangesqd p) (rho p) (invrho p) (u p) (dudt p) (pfactor p)
    (invomega p) (zeta p) (chi p) x (invq p) (gpot p) (sound p) (div_v p)
    (alpha p).
Definition set_invq (x : Q) (p : SphParticle) : SphParticle :=
  mkSphParticle (active p) (potmin p) (iorig p) (itype p) (level p)
    (levelneib p) (sinkid p) (r p) (v p) (a p) (agrav p) (m p) (h p) (invh p)
    (hfactor p) (hrangesqd p) (rho p) (invrho p) (u p) (dudt p) (pfactor p)
    (invomega p) (zeta p) (chi p) (q p) x (gpot p) (sound p) (div_v p)
    (alpha p).
Definition set_gpot (x : Q) (p : SphParticle) : SphParticle :=
  mkSphParticle (active p) (potmin p) (iorig p) (itype p) (level p)
    (levelneib p) (sinkid p) (r p) (v p) (a p) (agrav p) (m p) (h p) (invh p)
    (hfactor p) (hrangesqd p) (rho p) (invrho p) (u p) (dudt p) (pfactor p)
    (invomega p) (zeta p) (chi p) (q p) (invq p) x (sound p) (div_v p)
    (alpha p).
Definition set_sound (x : Q) (p : SphParticle) : SphParticle :=
  mkSphParticle (active p) (potmin p) (iorig p) (itype p) (level p)
    (levelneib p) (sinkid p) (r p) (v p) (a p) (agrav p) (m p) (h p) (invh p)
    (hfactor p) (hrangesqd p) (rho p) (invrho p) (u p) (dudt p) (pfactor p)
    (invomega p) (zeta p) (chi p) (q p) (invq p) (gpot p) x (div_v p)
    (alpha p).
Definition set_div_v (x : Q) (p : SphParticle) : SphParticle :=
  mkSphParticle (active p) (potmin p) (iorig p) (itype p) (level p)
    (levelneib p) (sinkid p) (r p) (v p) (a p) (agrav p) (m p) (h p) (invh p)
    (hfactor p) (hrangesqd p) (rho p) (invrho p) (u p) (dudt p) (pfactor p)
    (invomega p) (zeta p) (chi p) (q p) (invq p) (gpot p) (sound p) x
    (alpha p).

(** The fields of [NbodyParticle<ndim>] (and of its subclass
    [StarParticle<ndim>]) that the modelled routines touch. *)
Module Star.
Record NbodyParticle : Type := mkNbodyParticle {
  active : bool;
  nstep : Z;
  nlast : Z;
  r : vec;
  v : vec;
  a : vec;
  r0 : vec;
  v0 : vec;
  a0 : vec;
  m : Q;
  h : Q;
  gpot : Q
}.
End Star.

(** The members of [Nbody<ndim>] read by the smoothing-length routine. *)
Record Nbody : Type := mkNbody {
  nbody_softening : Z;
  Nstar : Z;
  stardata : list Star.NbodyParticle
}.

(** ** Kernel and equation of state interfaces *)

(** The kernel interface ([SphKernel.h] is not among the sources; the
    members are those the routines call). *)
Record SphKernel : Type := mkSphKernel {
  kernrange : Q;
  invkernrange : Q;
  kernrangesqd : Q;
  kernnorm : Q;
  w0 : Q -> Q;
  w0_s2 : Q -> Q;
  w1 : Q -> Q;
  womega_s2 : Q -> Q;
  wzeta_s2 : Q -> Q;
  wgrav : Q -> Q;
  wpot : Q -> Q
}.

(** The equation of state interface: the virtual functions defined in
    [IsothermalEOS.cpp]. *)
Record EOS : Type := mkEOS {
  Pressure : SphParticle -> Q;
  EntropicFunction : SphParticle -> Q;
  SoundSpeed : SphParticle -> Q;
  SpecificInternalEnergy : SphParticle -> Q;
  Temperature : SphParticle -> Q
}.

(** [IsothermalEOS.cpp].  [gammam1] and [gamma] are members of the base
    class, set by its constructor. *)
Module Isothermal.
Section Isothermal.
Variable nm : Numerics.
Variables temp0 mu_bar gamma gammam1 : Q.

Definition Pressure (part : SphParticle) : Q :=
  (gammam1 * rho part * u part)%Q.
Definition EntropicFunction (part : SphParticle) : Q :=
  (gammam1 * u part * pow nm (rho part) (1 - gamma))%Q.
Definition SoundSpeed (part : SphParticle) : Q :=
  sqrt nm (gammam1 * u part)%Q.
Definition SpecificInternalEnergy (part : SphParticle) : Q :=
  (temp0 / gammam1 / mu_bar)%Q.
Definition Temperature (part : SphParticle) : Q := temp0.

Definition eos : EOS :=
  mkEOS Pressure EntropicFunction SoundSpeed SpecificInternalEnergy
    Temperature.
End Isothermal.
End Isothermal.

(** Modelled from the spec: [Sph.h] is not among the sources.  The choices
    of artificial viscosity and conductivity are the tags tested in
    [GradhSph.cpp], or none. *)
Inductive aviscenum : Type := noav | mon97 | mon97td.
Inductive acondenum : Type := noac | wadsley2008 | price2008.

#[global] Instance aviscenum_eq_dec : EqDecision aviscenum.
Proof. solve_decision. Defined.
#[global] Instance acondenum_eq_dec : EqDecision acondenum.
Proof. solve_decision. Defined.

(** ** Simulation box and particle store *)

Record DomainBox : Type := mkDomainBox {
  x_boundary_lhs : string;
  x_boundary_rhs : string;
  y_boundary_lhs : string;
  y_boundary_rhs : string;
  z_boundary_lhs : string;
  z_boundary_rhs : string;
  boxmin : vec;
  boxmax : vec;
  boxsize : vec
}.

(** The members of [Sph<ndim>] (and of its subclasses [GradhSph] and
    [SM2012Sph], whose kernel member [kern] is what [kernp] points to)
    that the modelled routines use. *)
Record Sph : Type := mkSph {
  Nsph : Z;
  Nghost : Z;
  NPeriodicGhost : Z;
  Nghostmax : Z;
  Nsphmax : Z;
  Ntot : Z;
  create_sinks : Z;
  h_fac : Q;
  h_converge : Q;
  hmin_sink : Q;
  alpha_visc : Q;
  beta_visc : Q;
  kernfac : Q;
  kernfacsqd : Q;
  avisc : aviscenum;
  acond : acondenum;
  kernp : SphKernel;
  eos : EOS;
  sphdata : list SphParticle
}.

(** [Sph<ndim>::invndim], the constant [1/ndim]. *)
Definition invndim (ndim : nat) : Q := (1 / inject_Z (Z.of_nat ndim))%Q.

Definition set_Nghost (x : Z) (s : Sph) : Sph :=
  mkSph (Nsph s) x (NPeriodicGhost s) (Nghostmax s) (Nsphmax s) (Ntot s)
    (create_sinks s) (h_fac s) (h_converge s) (hmin_sink s) (alpha_visc s)
    (beta_visc s) (kernfac s) (kernfacsqd s) (avisc s) (acond s) (kernp s)
    (eos s) (sphdata s).
Definition set_NPeriodicGhost (x : Z) (s : Sph) : Sph :=
  mkSph (Nsph s) (Nghost s) x (Nghostmax s) (Nsphmax s) (Ntot s)
    (create_sinks s) (h_fac s) (h_converge s) (hmin_sink s) (alpha_visc s)
    (beta_visc s) (kernfac s) (kernfacsqd s) (avisc s) (acond s) (kernp s)
    (eos s) (sphdata s).
Definition set_Nghostmax (x : Z) (s : Sph) : Sph :=
  mkSph (Nsph s) (Nghost s) (NPeriodicGhost s) x (Nsphmax s) (Ntot s)
    (create_sinks s) (h_fac s) (h_converge s) (hmin_sink s) (alpha_visc s)
    (beta_visc s) (kernfac s) (kernfacsqd s) (avisc s) (acond s) (kernp s)
    (eos s) (sphdata s).
Definition set_Ntot (x : Z) (s : Sph) : Sph :=
  mkSph (Nsph s) (Nghost s) (NPeriodicGhost s) (Nghostmax s) (Nsphmax s) x
    (create_sinks s) (h_fac s) (h_converge s) (hmin_sink s) (alpha_visc s)
    (beta_visc s) (kernfac s) (kernfacsqd s) (avisc s) (acond s) (kernp s)
    (eos s) (sphdata s).
Definition set_sphdata (x : list SphParticle) (s : Sph) : Sph :=
  mkSph (Nsph s) (Nghost s) (NPeriodicGhost s) (Nghostmax s) (Nsphmax s)
    (Ntot s) (create_sinks s) (h_fac s) (h_converge s) (hmin_sink s)
    (alpha_visc s) (beta_visc s) (kernfac s) (kernfacsqd s) (avisc s)
    (acond s) (kernp s) (eos s) x.

(** ** [Ghosts.cpp]: periodic and mirror ghosts *)

Module PeriodicGhosts.

(** [PeriodicGhosts::CreateGhostParticle]. *)
Definition CreateGhostParticle (i : Z) (k : nat) (rk vk : Q) (sph : Sph)
    (ghosttype : ptype) : result Sph :=
  _ ← (if Nghostmax sph <? Nghost sph
       then raise "Not enough memory for new ghost"
       else Done tt);
  orig ← rd (sphdata sph) i;
  let ghost :=
    set_iorig i
      (set_itype ghosttype
        (set_active false
          (set_v (vset (v orig) k vk)
            (set_r (vset (r orig) k rk) orig)))) in
  data ← wr (sphdata sph) (Nsph sph + Nghost sph) ghost;
  Done (set_Nghost (Nghost sph + 1) (set_sphdata data sph)).

(** One pass of the loop over [i] in the block of dimension [k] of
    [SearchGhostParticles]; the three blocks differ in [k], in the two
    boundary strings and in the four kind tags only. *)
Definition ghosts_of_particle (ghost_range tghost : Q) (simbox : DomainBox)
    (k : nat) (lhs rhs : string) (lhs_periodic lhs_mirror : ptype)
    (rhs_periodic rhs_mirror : ptype) (i : Z) (sph : Sph) : result Sph :=
  let kernrange := (kernrange (kernp sph) * kernfac sph)%Q in
  p ← rd (sphdata sph) i;
  sph ← (if Qltb (vget (r p) k + fmin 0 (vget (v p) k * tghost))
                 (vget (boxmin simbox) k + ghost_range * kernrange * h p)
         then
           sph ← (if String.eqb lhs "periodic"
                  then CreateGhostParticle i k
                         (vget (r p) k + vget (boxsize simbox) k)%Q
                         (vget (v p) k) sph lhs_periodic
                  else Done sph);
           p ← rd (sphdata sph) i;
           if String.eqb lhs "mirror"
           then CreateGhostParticle i k
                  (2 * vget (boxmin simbox) k - vget (r p) k)%Q
                  (- vget (v p) k)%Q sph lhs_mirror
           else Done sph
         else Done sph);
  p ← rd (sphdata sph) i;
  if Qltb (vget (boxmax simbox) k - ghost_range * kernrange * h p)
          (vget (r p) k + fmax 0 (vget (v p) k * tghost))
  then
    sph ← (if String.eqb rhs "periodic"
           then CreateGhostParticle i k
                  (vget (r p) k - vget (boxsize simbox) k)%Q
                  (vget (v p) k) sph rhs_periodic
           else Done sph);
    p ← rd (sphdata sph) i;
    if String.eqb rhs "mirror"
    then CreateGhostParticle i k
           (2 * vget (boxmax simbox) k - vget (r p) k)%Q
           (- vget (v p) k)%Q sph rhs_mirror
    else Done sph
  else Done sph.

Definition ghosts_along (ghost_range tghost : Q) (simbox : DomainBox)
    (k : nat) (lhs rhs : string) (lhs_periodic lhs_mirror : ptype)
    (rhs_periodic rhs_mirror : ptype) (sph : Sph) : result Sph :=
  if negb (String.eqb lhs "open" && String.eqb rhs "open") then
    sph ← for_range 0 (Ntot sph)
            (ghosts_of_particle ghost_range tghost simbox k lhs rhs
               lhs_periodic lhs_mirror rhs_periodic rhs_mirror) sph;
    Done (set_Ntot (Nsph sph + Nghost sph) sph)
  else Done sph.

(** [PeriodicGhosts::SearchGhostParticles]; [ghost_range] is a constant of
    the class, declared in [Ghosts.h]. *)
Definition SearchGhostParticles (ndim : nat) (ghost_range tghost : Q)
    (simbox : DomainBox) (sph : Sph) : result Sph :=
  let sph := set_Nghost 0 sph in
  let sph := set_NPeriodicGhost 0 sph in
  let sph := set_Nghostmax (Nsphmax sph - Nsph sph) sph in
  let sph := set_Ntot (Nsph sph) sph in
  if String.eqb (x_boundary_lhs simbox) "open"
     && String.eqb (x_boundary_rhs simbox) "open"
     && String.eqb (y_boundary_lhs simbox) "open"
     && String.eqb (y_boundary_rhs simbox) "open"
     && String.eqb (z_boundary_lhs simbox) "open"
     && String.eqb (z_boundary_rhs simbox) "open"
  then Done sph
  else
    sph ← ghosts_along ghost_range tghost simbox 0
            (x_boundary_lhs simbox) (x_boundary_rhs simbox)
            x_lhs_periodic x_lhs_mirror x_rhs_periodic x_rhs_mirror sph;
    sph ← (if (2 <=? ndim)%nat
           then ghosts_along ghost_range tghost simbox 1
                  (y_boundary_lhs simbox) (y_boundary_rhs simbox)
                  y_lhs_periodic y_lhs_mirror y_rhs_periodic y_rhs_mirror sph
           else Done sph);
    sph ← (if (ndim =? 3)%nat
           then ghosts_along ghost_range tghost simbox 2
                  (z_boundary_lhs simbox) (z_boundary_rhs simbox)
                  z_lhs_periodic z_lhs_mirror z_rhs_periodic z_rhs_mirror sph
           else Done sph);
    _ ← (if Nsphmax sph <? Ntot sph
         then raise "Not enough memory for ghost particles"
         else Done tt);
    Done (set_NPeriodicGhost (Nghost sph) sph).

(** The chain of tests on [itype] at the end of the refresh loop body. *)
Definition reapply_shift (simbox : DomainBox) (itype : ptype)
    (p : SphParticle) : SphParticle :=
  if decide (itype = x_lhs_periodic)
  then set_r (vset (r p) 0 (vget (r p) 0 + vget (boxsize simbox) 0)%Q) p
  else if decide (itype = x_rhs_periodic)
  then set_r (vset (r p) 0 (vget (r p) 0 - vget (boxsize simbox) 0)%Q) p
  else if decide (itype = y_lhs_periodic)
  then set_r (vset (r p) 1 (vget (r p) 1 + vget (boxsize simbox) 1)%Q) p
  else if decide (itype = y_rhs_periodic)
  then set_r (vset (r p) 1 (vget (r p) 1 - vget (boxsize simbox) 1)%Q) p
  else p.

(** Body of the loop over [j] of [CopySphDataToGhosts]. *)
Definition refresh_ghost (simbox : DomainBox) (j : Z) (sph : Sph)
    : result Sph :=
  let i := Nsph sph + j in
  ghost ← rd (sphdata sph) i;
  let iorig := iorig ghost in
  let itype := itype ghost in
  orig ← rd (sphdata sph) iorig;
  let ghost := set_active false (set_itype itype (set_iorig iorig orig)) in
  data ← wr (sphdata sph) i (reapply_shift simbox itype ghost);
  Done (set_sphdata data sph).

(** [PeriodicGhosts::CopySphDataToGhosts]. *)
Definition CopySphDataToGhosts (simbox : DomainBox) (sph : Sph)
    : result Sph :=
  for_range 0 (NPeriodicGhost sph) (refresh_ghost simbox) sph.

End PeriodicGhosts.

Module MPIGhosts.

(** Copy of the received ghosts into the main array, the loop shared by
    [SearchGhostParticles] and [CopySphDataToGhosts]. *)
Definition store_ghost (ghost_array : list SphParticle) (start_index : Z)
    (j : Z) (main_array : list SphParticle) : result (list SphParticle) :=
  let i := start_index + j in
  g ← rd ghost_array j;
  wr main_array i (set_active false g).

(** [MPIGhosts::SearchGhostParticles]; [ghost_array] and [Nmpighosts] are
    what [mpicontrol->SendReceiveGhosts] hands back. *)
Definition SearchGhostParticles (ghost_array : list SphParticle)
    (Nmpighosts : Z) (sph : Sph) : result Sph :=
  _ ← (if Nsphmax sph <? Ntot sph + Nmpighosts then raise "" else Done tt);
  let start_index := Nsph sph + NPeriodicGhost sph in
  data ← for_range 0 Nmpighosts (store_ghost ghost_array start_index)
           (sphdata sph);
  let sph := set_sphdata data sph in
  let sph := set_Nghost (Nghost sph + Nmpighosts) sph in
  let sph := set_Ntot (Ntot sph + Nmpighosts) sph in
  _ ← (if (Nghostmax sph <? Nghost sph) || (Nsphmax sph <? Ntot sph)
       then raise "" else Done tt);
  Done sph.

(** [MPIGhosts::CopySphDataToGhosts]; [ghost_array] and [Nmpighosts] are
    what [mpicontrol->UpdateGhostParticles] hands back. *)
Definition CopySphDataToGhosts (ghost_array : list SphParticle)
    (Nmpighosts : Z) (sph : Sph) : result Sph :=
  let start_index := Nsph sph + NPeriodicGhost sph in
  data ← for_range 0 Nmpighosts (store_ghost ghost_array start_index)
           (sphdata sph);
  Done (set_sphdata data sph).

End MPIGhosts.

(** ** The h-rho iteration of [GradhSph.cpp] and [SM2012Sph.cpp]

    [GradhSph::ComputeH] and [SM2012Sph::ComputeH] share, word for word,
    the control part of their [do ... while] loop (from the tolerance test
    to the [while] condition) and the two loops after it; these are written
    once here.  The sums over neighbours at the head of the loop body and
    the statements after the loop differ and are written per class. *)

Module HRho.

(** The local variables of [ComputeH] that live across iterations of its
    [do ... while] loop, with the particle under iteration. *)
Record hloop : Type := mkhloop {
  parti : SphParticle;
  iteration : Z;
  h_lower_bound : Q;
  h_upper_bound : Q;
  invhsqd : Q
}.

Definition iteration_max : Z := 30.

(** How one pass through the loop body ends. *)
Inductive hnext : Type :=
| hcontinue   (* the [while] condition holds *)
| hbreak      (* [break]: the tolerance test passed *)
| hreturn0    (* [return 0] *)
| hleave.     (* the [while] condition fails *)

(** The tolerance test that guards [break]. *)
Definition converged (nm : Numerics) (ndim : nat) (sph : Sph) (s : hloop)
    : bool :=
  let parti := parti s in
  Qltb 0 (rho parti)
  && Qltb (h_lower_bound s) (h parti)
  && Qltb (fabs (h parti - h_fac sph
                   * pow nm (m parti * invrho parti) (invndim ndim)))%Q
          (h_converge sph).

(** The test of the bisection branch that makes [h] the new upper bound. *)
Definition h_too_large (nm : Numerics) (ndim : nat) (sph : Sph) (s : hloop)
    : bool :=
  let parti := parti s in
  Qltb (rho parti) (small_number nm)
  || Qltb (h_fac sph ^ Z.of_nat ndim * m parti)%Q
          (rho parti * h parti ^ Z.of_nat ndim)%Q.

(** The chain [if / else if / else if / else] that moves [h]. *)
Definition update_h (nm : Numerics) (ndim : nat) (sph : Sph) (s : hloop)
    : result hloop :=
  let parti := parti s in
  if iteration s <? iteration_max then
    Done (mkhloop
            (set_h (h_fac sph
                    * pow nm (m parti * invrho parti) (invndim ndim))%Q parti)
            (iteration s) (h_lower_bound s) (h_upper_bound s) (invhsqd s))
  else if iteration s =? iteration_max then
    Done (mkhloop
            (set_h ((1#2) * (h_lower_bound s + h_upper_bound s))%Q parti)
            (iteration s) (h_lower_bound s) (h_upper_bound s) (invhsqd s))
  else if iteration s <? 5 * iteration_max then
    let h_upper_bound :=
      if h_too_large nm ndim sph s then h parti else h_upper_bound s in
    let h_lower_bound :=
      if h_too_large nm ndim sph s then h_lower_bound s else h parti in
    Done (mkhloop
            (set_h ((1#2) * (h_lower_bound + h_upper_bound))%Q parti)
            (iteration s) h_lower_bound h_upper_bound (invhsqd s))
  else raise "Problem with convergence of h-rho iteration".

(** One pass through the body of the [do ... while] loop; [density_pass]
    is its first part, up to the assignment of [invrho]. *)
Definition h_iteration (density_pass : hloop -> result hloop) (nm : Numerics)
    (ndim : nat) (sph : Sph) (hmax : Q) (s : hloop) : result (hloop * hnext) :=
  s ← density_pass s;
  if converged nm ndim sph s then Done (s, hbreak)
  else
    s ← update_h nm ndim sph s;
    if Qltb hmax (h (parti s)) then Done (s, hreturn0)
    else if Qltb (h_lower_bound s) (h (parti s))
            && Qltb (h (parti s)) (h_upper_bound s)
    then Done (s, hcontinue)
    else Done (s, hleave).

(** The loop, unrolled at most [fuel] times. *)
Fixpoint h_loop (density_pass : hloop -> result hloop) (nm : Numerics)
    (ndim : nat) (sph : Sph) (hmax : Q) (fuel : nat) (s : hloop)
    : result (hloop * hnext) :=
  match fuel with
  | O => Unfinished
  | S fuel =>
      out ← h_iteration density_pass nm ndim sph hmax s;
      match snd out with
      | hcontinue => h_loop density_pass nm ndim sph hmax fuel (fst out)
      | _ => Done out
      end
  end.

(** Body of the loop that clears [potmin]. *)
Definition potmin_check (sph : Sph) (drsqd gpot_ : list Q) (invhsqd : Q)
    (j : Z) (parti : SphParticle) : result SphParticle :=
  g ← rd gpot_ j;
  if Qltb ((1000000001 # 1000000000) * gpot parti)%Q g then
    d ← rd drsqd j;
    if Qltb (d * invhsqd)%Q (kernrangesqd (kernp sph))
    then Done (set_potmin false parti)
    else Done parti
  else Done parti.

(** Body of the two loops over the stars that sum [chi]; [invhsqd] is
    recomputed per star in the softened case. *)
Definition chi_sum (ndim : nat) (sph : Sph) (nbody : Nbody)
    (invhsqd_of : Star.NbodyParticle -> Q) (j : Z) (parti : SphParticle)
    : result SphParticle :=
  star ← rd (stardata nbody) j;
  let invhsqd := invhsqd_of star in
  let dr := vbuild ndim (fun k => vget (Star.r star) k - vget (r parti) k)%Q in
  let ssqd := (DotProduct dr dr ndim * invhsqd)%Q in
  Done (set_chi
          (chi parti + Star.m star * invhsqd * wzeta_s2 (kernp sph) ssqd)%Q
          parti).

End HRho.

(** ** [GradhSph.cpp]: smoothing lengths and pair forces *)

Module GradhSph.
Import HRho.

(** Body of the loop over the neighbours [j]. *)
Definition density_sum (sph : Sph) (m drsqd : list Q) (invhsqd : Q) (j : Z)
    (parti : SphParticle) : result SphParticle :=
  d ← rd drsqd j;
  let ssqd := (d * invhsqd)%Q in
  mj ← rd m j;
  let parti := set_rho (rho parti + mj * w0_s2 (kernp sph) ssqd)%Q parti in
  let parti :=
    set_invomega
      (invomega parti + mj * invh parti * womega_s2 (kernp sph) ssqd)%Q
      parti in
  let parti :=
    set_zeta (zeta parti + mj * wzeta_s2 (kernp sph) ssqd)%Q parti in
  Done parti.

(** The loop body from [iteration++] to the assignment of [invrho]. *)
Definition density_pass (ndim : nat) (sph : Sph) (Nneib : Z)
    (m drsqd : list Q) (s : hloop) : result hloop :=
  let iteration := iteration s + 1 in
  let parti := parti s in
  let parti := set_invh (1 / h parti)%Q parti in
  let parti := set_rho 0%Q parti in
  let parti := set_invomega 0%Q parti in
  let parti := set_zeta 0%Q parti in
  let parti := set_chi 0%Q parti in
  let parti := set_hfactor (invh parti ^ Z.of_nat ndim)%Q parti in
  let invhsqd := (invh parti * invh parti)%Q in
  parti ← for_range 0 Nneib (density_sum sph m drsqd invhsqd) parti;
  let parti := set_rho (rho parti * hfactor parti)%Q parti in
  let parti := set_invomega (invomega parti * hfactor parti)%Q parti in
  let parti := set_zeta (zeta parti * invhsqd)%Q parti in
  let parti :=
    if Qltb 0 (rho parti) then set_invrho (1 / rho parti)%Q parti
    else parti in
  Done (mkhloop parti iteration (h_lower_bound s) (h_upper_bound s) invhsqd).

(** The statements after the loop. *)
Definition finish_h (nm : Numerics) (ndim : nat) (sph : Sph) (Nneib : Z)
    (hmax : Q) (drsqd gpot_ : list Q) (nbody : Nbody) (s : hloop)
    : result (Z * SphParticle) :=
  let parti := parti s in
  let parti :=
    set_h (fmax (h_fac sph * pow nm (m parti * invrho parti) (invndim ndim))
                (h_lower_bound s))%Q parti in
  let parti := set_invh (1 / h parti)%Q parti in
  let parti :=
    set_hrangesqd
      (kernfacsqd sph * kernrangesqd (kernp sph) * h parti * h parti)%Q
      parti in
  let parti :=
    set_invomega
      (1 + invndim ndim * h parti * invomega parti * invrho parti)%Q parti in
  let parti := set_invomega (1 / invomega parti)%Q parti in
  let parti :=
    set_zeta (- invndim ndim * h parti * zeta parti * invrho parti
              * invomega parti)%Q parti in
  let parti := set_u (SpecificInternalEnergy (eos sph) parti) parti in
  let parti := set_sound (SoundSpeed (eos sph) parti) parti in
  let parti := set_hfactor (invh parti ^ (Z.of_nat ndim + 1))%Q parti in
  let parti :=
    set_pfactor (Pressure (eos sph) parti * invrho parti * invrho parti
                 * invomega parti)%Q parti in
  let parti := set_div_v 0%Q parti in
  parti ← (if create_sinks sph =? 1
           then for_range 0 Nneib (potmin_check sph drsqd gpot_ (invhsqd s))
                  (set_potmin true parti)
           else Done parti);
  parti ← (if nbody_softening nbody =? 1
           then for_range 0 (Nstar nbody)
                  (chi_sum ndim sph nbody
                     (fun star => (2 / (h parti + Star.h star)) ^ 2)%Q)
                  parti
           else for_range 0 (Nstar nbody)
                  (chi_sum ndim sph nbody
                     (fun _ => 4 * invh parti * invh parti)%Q)
                  parti);
  let parti :=
    set_chi (- invndim ndim * h parti * chi parti * invrho parti
             * invomega parti)%Q parti in
  if Qltb hmax (h parti) then Done (-1, parti) else Done (1, parti).

(** [GradhSph::ComputeH]; the result pairs the returned code with the
    particle [parti], which the routine updates in place. *)
Definition ComputeH (nm : Numerics) (ndim : nat) (sph : Sph) (i Nneib : Z)
    (hmax : Q) (m mu drsqd gpot_ : list Q) (parti : SphParticle)
    (nbody : Nbody) : result (Z * SphParticle) :=
  let h_lower_bound :=
    if negb (sinkid parti =? -1) then hmin_sink sph else 0%Q in
  out ← h_loop (density_pass ndim sph Nneib m drsqd) nm ndim sph hmax
          (Z.to_nat (5 * iteration_max))
          (mkhloop parti 0 h_lower_bound hmax 0%Q);
  match snd out with
  | hreturn0 => Done (0, HRho.parti (fst out))
  | _ => finish_h nm ndim sph Nneib hmax drsqd gpot_ nbody (fst out)
  end.

(** The signal speed of the [mon97] branch of [ComputeSphHydroForces]. *)
Definition vsignal_mon97 (sph : Sph) (parti neibj : SphParticle) (dvdr : Q)
    : Q :=
  (sound parti + sound neibj - beta_visc sph * alpha_visc sph * dvdr)%Q.

(** Body of the loop over [jj] of [ComputeSphHydroForces] for the
    neighbour [neibj = neibpart[j]], at distance [drmag] along the unit
    vector [draux]. *)
Definition hydro_pair (nm : Numerics) (ndim : nat) (sph : Sph) (drmag : Q)
    (draux : vec) (parti neibj : SphParticle) : SphParticle * SphParticle :=
  let kern := kernp sph in
  let wkerni := (hfactor parti * w1 kern (drmag * invh parti))%Q in
  let wkernj := (hfactor neibj * w1 kern (drmag * invh neibj))%Q in
  let dv := vbuild ndim (fun k => vget (v neibj) k - vget (v parti) k)%Q in
  let dvdr := DotProduct dv draux ndim in
  let parti := set_div_v (div_v parti - m neibj * dvdr * wkerni)%Q parti in
  let neibj := set_div_v (div_v neibj - m parti * dvdr * wkernj)%Q neibj in
  let paux := (pfactor parti * wkerni + pfactor neibj * wkernj)%Q in
  let '(paux, parti, neibj) :=
    if Qltb dvdr 0 then
      let winvrho :=
        ((1#4) * (wkerni + wkernj) * (invrho parti + invrho neibj))%Q in
      let '(paux, parti, neibj) :=
        if decide (avisc sph = mon97) then
          let vsignal := vsignal_mon97 sph parti neibj dvdr in
          let paux := (paux - alpha_visc sph * vsignal * dvdr * winvrho)%Q in
          let uaux :=
            ((1#2) * alpha_visc sph * vsignal * dvdr * dvdr * winvrho)%Q in
          (paux,
           set_dudt (dudt parti - m neibj * uaux)%Q parti,
           set_dudt (dudt neibj - m parti * uaux)%Q neibj)
        else if decide (avisc sph = mon97td) then
          let alpha_mean := ((1#2) * (alpha parti + alpha neibj))%Q in
          let vsignal :=
            (sound parti + sound neibj
             - beta_visc sph * alpha_mean * dvdr)%Q in
          let paux := (paux - alpha_mean * vsignal * dvdr * winvrho)%Q in
          let uaux :=
            ((1#2) * alpha_mean * vsignal * dvdr * dvdr * winvrho)%Q in
          (paux,
           set_dudt (dudt parti - m neibj * uaux)%Q parti,
           set_dudt (dudt neibj - m parti * uaux)%Q neibj)
        else (paux, parti, neibj) in
      if decide (acond sph = wadsley2008) then
        let uaux :=
          ((1#2) * dvdr * (u neibj - u parti)
           * (invrho parti * wkerni + invrho neibj * wkernj))%Q in
        (paux,
         set_dudt (dudt parti + m neibj * uaux)%Q parti,
         set_dudt (dudt neibj - m parti * uaux)%Q neibj)
      else if decide (acond sph = price2008) then
        let vsignal :=
          sqrt nm (fabs (Pressure (eos sph) parti - Pressure (eos sph) neibj)
                   * (1#2) * (invrho parti + invrho neibj))%Q in
        let parti' :=
          set_dudt (dudt parti + (1#2) * m neibj * vsignal
                    * (u parti - u neibj) * winvrho)%Q parti in
        (paux,
         parti',
         set_dudt (dudt neibj - (1#2) * m parti' * vsignal
                   * (u parti' - u neibj) * winvrho)%Q neibj)
      else (paux, parti, neibj)
    else (paux, parti, neibj) in
  let parti :=
    set_a (vbuild ndim (fun k =>
             vget (a parti) k + m neibj * vget draux k * paux)%Q) parti in
  let parti := set_levelneib (Z.max (levelneib parti) (level neibj)) parti in
  let neibj :=
    set_a (vbuild ndim (fun k =>
             vget (a neibj) k - m parti * vget draux k * paux)%Q) neibj in
  let neibj := set_levelneib (Z.max (levelneib neibj) (level parti)) neibj in
  (parti, neibj).

(** [draux[k] = dr[jj*ndim + k]] for [k < ndim]. *)
Fixpoint rd_vec (arr : list Q) (base : Z) (ndim : nat) : result (list Q) :=
  match ndim with
  | O => Done []
  | S n =>
      x ← rd arr base;
      rest ← rd_vec arr (base + 1) n;
      Done (x :: rest)
  end.

(** [GradhSph::ComputeSphHydroForces]; the result holds [parti] and the
    array [neibpart], both updated in place by the routine.  [parti] is an
    object of its own, not an element of [neibpart]. *)
Definition ComputeSphHydroForces (nm : Numerics) (ndim : nat) (sph : Sph)
    (i Nneib : Z) (neiblist : list Z) (drmag invdrmag dr : list Q)
    (parti : SphParticle) (neibpart : list SphParticle)
    : result (SphParticle * list SphParticle) :=
  for_range 0 Nneib
    (fun jj st =>
       j ← rd neiblist jj;
       d ← rd drmag jj;
       neibj ← rd (snd st) j;
       draux ← rd_vec dr (jj * Z.of_nat ndim) ndim;
       let out := hydro_pair nm ndim sph d draux (fst st) neibj in
       neibpart ← wr (snd st) j (snd out);
       Done (fst out, neibpart))
    (parti, neibpart).

(** The signal speed of the [mon97] branch of
    [ComputeSphHydroGravForces]. *)
Definition vsignal_mon97_grav (sph : Sph) (parti neibj : SphParticle)
    (dvdr : Q) : Q :=
  (sound parti + sound neibj - beta_visc sph * dvdr)%Q.

(** Body of the loop over [jj] of [ComputeSphHydroGravForces] for the
    neighbour [neibj = neibpart[j]]. *)
Definition hydrograv_pair (nm : Numerics) (ndim : nat) (sph : Sph)
    (parti neibj : SphParticle) : SphParticle * SphParticle :=
  let kern := kernp sph in
  let dr := vbuild ndim (fun k => vget (r neibj) k - vget (r parti) k)%Q in
  let dv := vbuild ndim (fun k => vget (v neibj) k - vget (v parti) k)%Q in
  let drmag := sqrt nm (DotProduct dr dr ndim + small_number nm)%Q in
  let invdrmag := (1 / drmag)%Q in
  let dr := vbuild ndim (fun k => vget dr k * invdrmag)%Q in
  let dvdr := DotProduct dv dr ndim in
  let wkerni := (hfactor parti * w1 kern (drmag * invh parti))%Q in
  let wkernj := (hfactor neibj * w1 kern (drmag * invh neibj))%Q in
  let paux := (pfactor parti * wkerni + pfactor neibj * wkernj)%Q in
  let '(paux, parti, neibj) :=
    if Qltb dvdr 0 then
      let winvrho :=
        ((1#4) * (wkerni + wkernj) * (invrho parti + invrho neibj))%Q in
      let '(paux, parti, neibj) :=
        if decide (avisc sph = mon97) then
          let vsignal := vsignal_mon97_grav sph parti neibj dvdr in
          let paux := (paux - alpha_visc sph * vsignal * dvdr * winvrho)%Q in
          let uaux :=
            ((1#2) * alpha_visc sph * vsignal * dvdr * dvdr * winvrho)%Q in
          (paux,
           set_dudt (dudt parti - m neibj * uaux)%Q parti,
           set_dudt (dudt neibj - m parti * uaux)%Q neibj)
        else (paux, parti, neibj) in
      if decide (acond sph = wadsley2008) then
        let uaux :=
          ((1#2) * dvdr * (u neibj - u parti)
           * (invrho parti * wkerni + invrho neibj * wkernj))%Q in
        (paux,
         set_dudt (dudt parti + m neibj * uaux)%Q parti,
         set_dudt (dudt neibj - m parti * uaux)%Q neibj)
      else if decide (acond sph = price2008) then
        let vsignal :=
          sqrt nm (fabs (Pressure (eos sph) parti - Pressure (eos sph) neibj)
                   * (1#2) * (invrho parti + invrho neibj))%Q in
        let parti' :=
          set_dudt (dudt parti + (1#2) * m neibj * vsignal
                    * (u parti - u neibj) * winvrho)%Q parti in
        (paux,
         parti',
         set_dudt (dudt neibj - (1#2) * m parti' * vsignal
                   * (u parti' - u neibj) * winvrho)%Q neibj)
      else (paux, parti, neibj)
    else (paux, parti, neibj) in
  let parti :=
    set_a (vbuild ndim (fun k =>
             vget (a parti) k + m neibj * vget dr k * paux)%Q) parti in
  let neibj :=
    set_a (vbuild ndim (fun k =>
             vget (a neibj) k - m parti * vget dr k * paux)%Q) neibj in
  let paux :=
    ((1#2) * (invh parti * invh parti * wgrav kern (drmag * invh parti)
              + (zeta parti + chi parti) * hfactor parti
                * w1 kern (drmag * invh parti)
              + invh neibj * invh neibj * wgrav kern (drmag * invh neibj)
              + (zeta neibj + chi neibj) * hfactor neibj
                * w1 kern (drmag * invh neibj)))%Q in
  let gaux :=
    ((1#2) * (invh parti * wpot kern (drmag * invh parti)
              + invh neibj * wpot kern (drmag * invh neibj)))%Q in
  let parti :=
    set_agrav (vbuild ndim (fun k =>
                 vget (agrav parti) k + m neibj * vget dr k * paux)%Q)
      parti in
  let parti := set_gpot (gpot parti + m neibj * gaux)%Q parti in
  let parti := set_div_v (div_v parti - m neibj * dvdr * wkerni)%Q parti in
  let parti := set_levelneib (Z.max (levelneib parti) (level neibj)) parti in
  let neibj :=
    set_agrav (vbuild ndim (fun k =>
                 vget (agrav neibj) k - m parti * vget dr k * paux)%Q)
      neibj in
  let neibj := set_gpot (gpot neibj + m parti * gaux)%Q neibj in
  let neibj := set_div_v (div_v neibj - m parti * dvdr * wkernj)%Q neibj in
  let neibj := set_levelneib (Z.max (levelneib neibj) (level parti)) neibj in
  (parti, neibj).

(** [GradhSph::ComputeSphHydroGravForces]. *)
Definition ComputeSphHydroGravForces (nm : Numerics) (ndim : nat) (sph : Sph)
    (i Nneib : Z) (neiblist : list Z) (parti : SphParticle)
    (neibpart : list SphParticle) : result (SphParticle * list SphParticle) :=
  for_range 0 Nneib
    (fun jj st =>
       j ← rd neiblist jj;
       neibj ← rd (snd st) j;
       let out := hydrograv_pair nm ndim sph (fst st) neibj in
       neibpart ← wr (snd st) j (snd out);
       Done (fst out, neibpart))
    (parti, neibpart).

(** [GradhSph::ComputePostHydroQuantities]. *)
Definition ComputePostHydroQuantities (sph : Sph) (parti : SphParticle)
    : SphParticle :=
  let parti := set_div_v (div_v parti * invrho parti)%Q parti in
  set_dudt (dudt parti - Pressure (eos sph) parti * div_v parti
            * invrho parti * invomega parti)%Q parti.

End GradhSph.

(** ** [SM2012Sph.cpp]: smoothing lengths *)

Module SM2012Sph.
Import HRho.

(** Body of the loop over the neighbours [j]. *)
Definition density_sum (sph : Sph) (m mu drsqd : list Q) (invhsqd : Q)
    (j : Z) (parti : SphParticle) : result SphParticle :=
  d ← rd drsqd j;
  let ssqd := (d * invhsqd)%Q in
  mj ← rd m j;
  let parti := set_rho (rho parti + mj * w0_s2 (kernp sph) ssqd)%Q parti in
  let parti :=
    set_invomega
      (invomega parti + mj * invh parti * womega_s2 (kernp sph) ssqd)%Q
      parti in
  muj ← rd mu j;
  let parti := set_q (q parti + muj * w0_s2 (kernp sph) ssqd)%Q parti in
  let parti :=
    set_zeta (zeta parti + mj * wzeta_s2 (kernp sph) ssqd)%Q parti in
  Done parti.

(** The loop body from [iteration++] to the assignment of [invrho]. *)
Definition density_pass (ndim : nat) (sph : Sph) (Nneib : Z)
    (m mu drsqd : list Q) (s : hloop) : result hloop :=
  let iteration := iteration s + 1 in
  let parti := parti s in
  let parti := set_invh (1 / h parti)%Q parti in
  let parti := set_rho 0%Q parti in
  let parti := set_invomega 0%Q parti in
  let parti := set_q 0%Q parti in
  let parti := set_hfactor (invh parti ^ Z.of_nat ndim)%Q parti in
  let invhsqd := (invh parti * invh parti)%Q in
  parti ← for_range 0 Nneib (density_sum sph m mu drsqd invhsqd) parti;
  let parti := set_rho (rho parti * hfactor parti)%Q parti in
  let parti := set_invomega (invomega parti * hfactor parti)%Q parti in
  let parti := set_q (q parti * hfactor parti)%Q parti in
  let parti := set_zeta (zeta parti * invhsqd)%Q parti in
  let parti :=
    if Qltb 0 (rho parti) then set_invrho (1 / rho parti)%Q parti
    else parti in
  Done (mkhloop parti iteration (h_lower_bound s) (h_upper_bound s) invhsqd).

(** The statements after the loop. *)
Definition finish_h (nm : Numerics) (ndim : nat) (sph : Sph) (Nneib : Z)
    (hmax : Q) (drsqd gpot_ : list Q) (nbody : Nbody) (s : hloop)
    : result (Z * SphParticle) :=
  let parti := parti s in
  let parti :=
    set_h (fmax (h_fac sph * pow nm (m parti * invrho parti) (invndim ndim))
                (h_lower_bound s))%Q parti in
  let parti := set_invh (1 / h parti)%Q parti in
  let parti :=
    set_hrangesqd
      (kernfacsqd sph * kernrangesqd (kernp sph) * h parti * h parti)%Q
      parti in
  let parti :=
    set_invomega
      (1 + invndim ndim * h parti * invomega parti * invrho parti)%Q parti in
  let parti := set_invomega (1 / invomega parti)%Q parti in
  let parti :=
    set_zeta (- invndim ndim * h parti * zeta parti * invrho parti
              * invomega parti)%Q parti in
  let parti := set_invq (1 / q parti)%Q parti in
  let parti := set_u (SpecificInternalEnergy (eos sph) parti) parti in
  let parti := set_sound (SoundSpeed (eos sph) parti) parti in
  let parti := set_hfactor (invh parti ^ (Z.of_nat ndim + 1))%Q parti in
  let parti :=
    set_pfactor (Pressure (eos sph) parti * invrho parti * invq parti)%Q
      parti in
  let parti := set_div_v 0%Q parti in
  let parti := set_dudt 0%Q parti in
  parti ← (if create_sinks sph =? 1
           then for_range 0 Nneib (potmin_check sph drsqd gpot_ (invhsqd s))
                  (set_potmin true parti)
           else Done parti);
  parti ← (if nbody_softening nbody =? 1
           then for_range 0 (Nstar nbody)
                  (chi_sum ndim sph nbody
                     (fun star => (2 / (h parti + Star.h star)) ^ 2)%Q)
                  parti
           else for_range 0 (Nstar nbody)
                  (chi_sum ndim sph nbody
                     (fun _ => 4 * invh parti * invh parti)%Q)
                  parti);
  let parti :=
    set_chi (- invndim ndim * h parti * chi parti * invrho parti
             * invomega parti)%Q parti in
  if Qltb hmax (h parti) then Done (-1, parti) else Done (1, parti).

(** [SM2012Sph::ComputeH]. *)
Definition ComputeH (nm : Numerics) (ndim : nat) (sph : Sph) (i Nneib : Z)
    (hmax : Q) (m mu drsqd gpot_ : list Q) (parti : SphParticle)
    (nbody : Nbody) : result (Z * SphParticle) :=
  out ← h_loop (density_pass ndim sph Nneib m mu drsqd) nm ndim sph hmax
          (Z.to_nat (5 * iteration_max))
          (mkhloop parti 0 0%Q hmax 0%Q);
  match snd out with
  | hreturn0 => Done (0, HRho.parti (fst out))
  | _ => finish_h nm ndim sph Nneib hmax drsqd gpot_ nbody (fst out)
  end.

End SM2012Sph.

(** ** [NbodyLeapfrogDKD.cpp] *)

Module NbodyLeapfrogDKD.

(** Body of the loop over [i] of [AdvanceParticles] for [star[i]];
    [vdim] is the number of velocity components, a constant of the class. *)
Definition advance_star (ndim vdim : nat) (n : Z) (timestep : Q)
    (star : Star.NbodyParticle) : Star.NbodyParticle :=
  let nstep := Star.nstep star in
  let dn := n - Star.nlast star in
  let dt := (timestep * to_float dn)%Q in
  let r :=
    vbuild ndim (fun k =>
      vget (Star.r0 star) k + vget (Star.v0 star) k * dt)%Q in
  let v :=
    vbuild vdim (fun k =>
      vget (Star.v0 star) k + vget (Star.a0 star) k * dt)%Q in
  let active := if dn =? Z.quot nstep 2 then true else false in
  Star.mkNbodyParticle active (Star.nstep star) (Star.nlast star) r v
    (Star.a star) (Star.r0 star) (Star.v0 star) (Star.a0 star)
    (Star.m star) (Star.h star) (Star.gpot star).

(** [NbodyLeapfrogDKD::AdvanceParticles]; the pointers [star[i]] refer to
    distinct particles. *)
Definition AdvanceParticles (ndim vdim : nat) (n N : Z)
    (star : list Star.NbodyParticle) (timestep : Q)
    : result (list Star.NbodyParticle) :=
  for_range 0 N
    (fun i star =>
       s ← rd star i;
       wr star i (advance_star ndim vdim n timestep s))
    star.

End NbodyLeapfrogDKD.

(** ** [MpiControl.cpp]: the league calendar *)

Module MpiControl.

(** [calendar[team][iturn] = opponent]. *)
Definition set_match (calendar : list (list Z)) (team iturn opponent : Z)
    : result (list (list Z)) :=
  calendar_team ← rd calendar team;
  calendar_team ← wr calendar_team iturn opponent;
  wr calendar team calendar_team.

(** The pairs table of turn [iturn], filled into the freshly resized
    vector [pairs_turn]. *)
Definition fill_pairs (Nmpi iturn : Z) : result (list Z) :=
  let Nturns := Nmpi - 1 in
  let pairs_turn := replicate (Z.to_nat Nmpi) 0 in
  pairs_turn ← wr pairs_turn 0 Nturns;
  for_range 1 (Z.of_nat (length pairs_turn))
    (fun i pairs_turn => wr pairs_turn i (Z.rem (i + iturn) (Nmpi - 1)))
    pairs_turn.

(** Body of the loop over [istep]. *)
Definition play (iturn : Z) (pairs_turn : list Z) (istep : Z)
    (calendar : list (list Z)) : result (list (list Z)) :=
  first_team ← rd pairs_turn istep;
  let size := Z.of_nat (length pairs_turn) - 1 in
  second_team ← rd pairs_turn (size - istep);
  calendar ← set_match calendar first_team iturn second_team;
  set_match calendar second_team iturn first_team.

(** Body of the loop over [iturn]. *)
Definition schedule_turn (Nmpi : Z) (iturn : Z) (calendar : list (list Z))
    : result (list (list Z)) :=
  pairs_turn ← fill_pairs Nmpi iturn;
  for_range 0 (Z.quot Nmpi 2) (play iturn pairs_turn) calendar.

(** [MpiControl::CreateLeagueCalendar] on rank 0, up to the point where
    the calendar is handed out: row [inode] of the result is what node
    [inode] ends up with in [my_matches] (rank 0 by copying row 0, the
    others by receiving their row).  This is the routine of a build without
    [VERIFY_ALL]; the block between [#if defined VERIFY_ALL] and [#endif],
    which validates the calendar and has three raises of its own, is
    [MpiValidate.validate] below, and the routine of a build with
    [VERIFY_ALL] is [MpiValidate.CreateLeagueCalendar]. *)
Definition CreateLeagueCalendar (Nmpi : Z) : result (list (list Z)) :=
  _ ← (if negb (Z.rem (if Nmpi =? 0 then 1 else 0) 2 =? 0)
       then raise "The number of MPI processes must be even!"
       else Done tt);
  let Nturns := Nmpi - 1 in
  let calendar :=
    replicate (Z.to_nat Nmpi) (replicate (Z.to_nat Nturns) 0) in
  for_range 0 Nturns (schedule_turn Nmpi) calendar.

(** The peer of [team] in turn [iturn]. *)
Definition opponent (calendar : list (list Z)) (team iturn : Z) : option Z :=
  row ← calendar !! Z.to_nat team;
  row !! Z.to_nat iturn.

End MpiControl.

(** ** [Ghosts.cpp]: wrapping particles back into the box *)

(** The fields of [SphIntParticle<ndim>] that the modelled routines touch:
    the position at the start of the step and the integer step size. *)
Record SphIntParticle : Type := mkSphIntParticle {
  r0 : vec;
  nstep : Z
}.

Module Boundaries.

(** [part->r[k] += d; partint->r0[k] += d], respectively [-= d], for the
    particle [i] of the two arrays. *)
Definition shift_up (k : nat) (d : Q) (i : Z)
    (st : list SphParticle * list SphIntParticle)
    : result (list SphParticle * list SphIntParticle) :=
  part ← rd (fst st) i;
  sphdata ← wr (fst st) i (set_r (vset (r part) k (vget (r part) k + d)%Q) part);
  partint ← rd (snd st) i;
  sphintdata ← wr (snd st) i
    (mkSphIntParticle (vset (r0 partint) k (vget (r0 partint) k + d)%Q)
       (nstep partint));
  Done (sphdata, sphintdata).

Definition shift_down (k : nat) (d : Q) (i : Z)
    (st : list SphParticle * list SphIntParticle)
    : result (list SphParticle * list SphIntParticle) :=
  part ← rd (fst st) i;
  sphdata ← wr (fst st) i (set_r (vset (r part) k (vget (r part) k - d)%Q) part);
  partint ← rd (snd st) i;
  sphintdata ← wr (snd st) i
    (mkSphIntParticle (vset (r0 partint) k (vget (r0 partint) k - d)%Q)
       (nstep partint));
  Done (sphdata, sphintdata).

(** The two tests on coordinate [k] of particle [i]; the three pairs of
    tests in the loop body differ in [k], in the two boundary strings and
    in the guard on [ndim] only. *)
Definition wrap_axis (simbox : DomainBox) (k : nat) (lhs rhs : string)
    (i : Z) (st : list SphParticle * list SphIntParticle)
    : result (list SphParticle * list SphIntParticle) :=
  part ← rd (fst st) i;
  st ← (if Qltb (vget (r part) k) (vget (boxmin simbox) k)
        then if String.eqb lhs "periodic"
             then shift_up k (vget (boxsize simbox) k) i st
             else Done st
        else Done st);
  part ← rd (fst st) i;
  if Qltb (vget (boxmax simbox) k) (vget (r part) k)
  then if String.eqb rhs "periodic"
       then shift_down k (vget (boxsize simbox) k) i st
       else Done st
  else Done st.

(** Body of the loop over [i]. *)
Definition wrap_particle (ndim : nat) (simbox : DomainBox) (i : Z)
    (st : list SphParticle * list SphIntParticle)
    : result (list SphParticle * list SphIntParticle) :=
  st ← wrap_axis simbox 0 (x_boundary_lhs simbox) (x_boundary_rhs simbox)
         i st;
  st ← (if (2 <=? ndim)%nat
        then wrap_axis simbox 1 (y_boundary_lhs simbox)
               (y_boundary_rhs simbox) i st
        else Done st);
  if (ndim =? 3)%nat
  then wrap_axis simbox 2 (z_boundary_lhs simbox) (z_boundary_rhs simbox)
         i st
  else Done st.

(** [PeriodicGhosts::CheckBoundaries]; [sphintdata] is the member of
    [Sph<ndim>] that holds the integration data of the particles. *)
Definition CheckBoundaries (ndim : nat) (simbox : DomainBox) (sph : Sph)
    (sphintdata : list SphIntParticle)
    : result (list SphParticle * list SphIntParticle) :=
  for_range 0 (Nsph sph) (wrap_particle ndim simbox)
    (sphdata sph, sphintdata).

End Boundaries.

(** ** [GradhSph.cpp]: gravitational forces *)

Module GradhSphGrav.

(** Body of the loop over [jj] of [ComputeSphGravForces] for the neighbour
    [neibj = neibpart[j]]. *)
Definition grav_pair (nm : Numerics) (ndim : nat) (sph : Sph)
    (parti neibj : SphParticle) : SphParticle * SphParticle :=
  let kern := kernp sph in
  let dr := vbuild ndim (fun k => vget (r neibj) k - vget (r parti) k)%Q in
  let drmag := sqrt nm (DotProduct dr dr ndim) in
  let invdrmag := (1 / (drmag + small_number nm))%Q in
  let dr := vbuild ndim (fun k => vget dr k * invdrmag)%Q in
  let paux :=
    ((1#2) * (invh parti * invh parti * wgrav kern (drmag * invh parti)
              + (zeta parti + chi parti) * hfactor parti
                * w1 kern (drmag * invh parti)
              + invh neibj * invh neibj * wgrav kern (drmag * invh neibj)
              + (zeta neibj + chi neibj) * hfactor neibj
                * w1 kern (drmag * invh neibj)))%Q in
  let gaux :=
    ((1#2) * (invh parti * wpot kern (drmag * invh parti)
              + invh neibj * wpot kern (drmag * invh neibj)))%Q in
  let parti :=
    set_agrav (vbuild ndim (fun k =>
                 vget (agrav parti) k + m neibj * vget dr k * paux)%Q)
      parti in
  let parti := set_gpot (gpot parti + m neibj * gaux)%Q parti in
  let neibj :=
    set_agrav (vbuild ndim (fun k =>
                 vget (agrav neibj) k - m parti * vget dr k * paux)%Q)
      neibj in
  let neibj := set_gpot (gpot neibj + m parti * gaux)%Q neibj in
  (parti, neibj).

(** [GradhSph::ComputeSphGravForces]; [parti] is an object of its own, not
    an element of [neibpart]. *)
Definition ComputeSphGravForces (nm : Numerics) (ndim : nat) (sph : Sph)
    (i Nneib : Z) (neiblist : list Z) (parti : SphParticle)
    (neibpart : list SphParticle) : result (SphParticle * list SphParticle) :=
  for_range 0 Nneib
    (fun jj st =>
       j ← rd neiblist jj;
       neibj ← rd (snd st) j;
       let out := grav_pair nm ndim sph (fst st) neibj in
       neibpart ← wr (snd st) j (snd out);
       Done (fst out, neibpart))
    (parti, neibpart).

(** The state of [ComputeDirectGravForces]: the particle [parti] and the
    two output arrays [agrav] (of [ndim] entries per particle) and
    [gpot]. *)
Record direct : Type := mkdirect {
  parti : SphParticle;
  agrav_ : list Q;
  gpot_ : list Q
}.

(** Body of the loop over [jj] of [ComputeDirectGravForces]. *)
Definition direct_step (nm : Numerics) (ndim : nat) (i : Z)
    (directlist : list Z) (sph : list SphParticle) (jj : Z) (st : direct)
    : result direct :=
  j ← rd directlist jj;
  sphj ← rd sph j;
  if (j <=? i) && active sphj then Done st
  else
    let dr :=
      vbuild ndim (fun k => vget (r sphj) k - vget (r (parti st)) k)%Q in
    let drsqd := (DotProduct dr dr ndim + small_number nm)%Q in
    let invdrmag := (1 / sqrt nm drsqd)%Q in
    let invdr3 := (invdrmag * invdrmag * invdrmag)%Q in
    let p :=
      set_agrav (vbuild ndim (fun k =>
                   vget (agrav (parti st)) k + m sphj * vget dr k * invdr3)%Q)
        (parti st) in
    let p := set_gpot (gpot p + m sphj * invdrmag)%Q p in
    agrav_ ← for_range 0 (Z.of_nat ndim)
               (fun k agrav_ =>
                  x ← rd agrav_ (Z.of_nat ndim * j + k);
                  wr agrav_ (Z.of_nat ndim * j + k)
                    (x - m p * vget dr (Z.to_nat k) * invdr3)%Q)
               (agrav_ st);
    g ← rd (gpot_ st) j;
    gpot_ ← wr (gpot_ st) j (g + m p * invdrmag)%Q;
    Done (mkdirect p agrav_ gpot_).

(** [GradhSph::ComputeDirectGravForces]. *)
Definition ComputeDirectGravForces (nm : Numerics) (ndim : nat) (i : Z)
    (Ndirect : Z) (directlist : list Z) (agrav gpot : list Q)
    (parti : SphParticle) (sph : list SphParticle) : result direct :=
  for_range 0 Ndirect (direct_step nm ndim i directlist sph)
    (mkdirect parti agrav gpot).

(** Body of the loop over [j] of [ComputeStarGravForces] for the star
    [nbodydata[j]]. *)
Definition star_on_gas (nm : Numerics) (ndim : nat) (kern : SphKernel)
    (star : Star.NbodyParticle) (parti : SphParticle) : SphParticle :=
  let dr :=
    vbuild ndim (fun k => vget (Star.r star) k - vget (r parti) k)%Q in
  let drsqd := DotProduct dr dr ndim in
  let drmag := sqrt nm drsqd in
  let invdrmag := (1 / drmag)%Q in
  let invhmean := (2 / (h parti + Star.h star))%Q in
  let paux :=
    (Star.m star * invhmean * invhmean * wgrav kern (drmag * invhmean)
     * invdrmag)%Q in
  let parti :=
    set_agrav (vbuild ndim (fun k =>
                 vget (agrav parti) k + vget dr k * paux)%Q) parti in
  set_gpot (gpot parti + Star.m star * invhmean
                         * wpot kern (drmag * invhmean))%Q parti.

(** [GradhSph::ComputeStarGravForces]. *)
Definition ComputeStarGravForces (nm : Numerics) (ndim : nat) (sph : Sph)
    (N : Z) (nbodydata : list Star.NbodyParticle) (parti : SphParticle)
    : result SphParticle :=
  for_range 0 N
    (fun j parti =>
       star ← rd nbodydata j;
       Done (star_on_gas nm ndim (kernp sph) star parti))
    parti.

End GradhSphGrav.

(** ** [NbodyLeapfrogDKD.cpp]: forces on the stars and the ends of a step *)

Module LeapfrogDKD.

(** Body of the loop over [j] of [CalculateDirectGravForces] for the star
    [starj = star[j]], [j <> i]. *)
Definition star_on_star (nm : Numerics) (ndim : nat)
    (starj stari : Star.NbodyParticle) : Star.NbodyParticle :=
  let dr :=
    vbuild ndim (fun k => vget (Star.r starj) k - vget (Star.r stari) k)%Q in
  let drsqd := DotProduct dr dr ndim in
  let invdrmag := (1 / sqrt nm drsqd)%Q in
  let a :=
    vbuild ndim (fun k =>
      vget (Star.a stari) k + Star.m starj * vget dr k * invdrmag ^ 3)%Q in
  Star.mkNbodyParticle (Star.active stari) (Star.nstep stari)
    (Star.nlast stari) (Star.r stari) (Star.v stari) a (Star.r0 stari)
    (Star.v0 stari) (Star.a0 stari) (Star.m stari) (Star.h stari)
    (Star.gpot stari + Star.m starj * invdrmag)%Q.

(** [NbodyLeapfrogDKD::CalculateDirectGravForces]; the pointers [star[i]]
    refer to distinct particles. *)
Definition CalculateDirectGravForces (nm : Numerics) (ndim : nat) (N : Z)
    (star : list Star.NbodyParticle) : result (list Star.NbodyParticle) :=
  for_range 0 N
    (fun i star =>
       stari ← rd star i;
       if negb (Star.active stari) then Done star
       else
         stari ← for_range 0 N
                   (fun j stari =>
                      if i =? j then Done stari
                      else
                        starj ← rd star j;
                        Done (star_on_star nm ndim starj stari))
                   stari;
         wr star i stari)
    star.

(** Body of the loop over [j] of [CalculateDirectSPHForces] for the gas
    particle [gas = sphdata[j]]. *)
Definition gas_on_star (nm : Numerics) (ndim : nat) (kern : SphKernel)
    (gas : SphParticle) (stari : Star.NbodyParticle) : Star.NbodyParticle :=
  let dr :=
    vbuild ndim (fun k => vget (r gas) k - vget (Star.r stari) k)%Q in
  let drsqd := DotProduct dr dr ndim in
  let drmag := sqrt nm drsqd in
  let invdrmag := (1 / drmag)%Q in
  let invhmean := (2 / (Star.h stari + h gas))%Q in
  let paux :=
    (m gas * invhmean * invhmean * wgrav kern (drmag * invhmean)
     * invdrmag)%Q in
  let a :=
    vbuild ndim (fun k => vget (Star.a stari) k + vget dr k * paux)%Q in
  Star.mkNbodyParticle (Star.active stari) (Star.nstep stari)
    (Star.nlast stari) (Star.r stari) (Star.v stari) a (Star.r0 stari)
    (Star.v0 stari) (Star.a0 stari) (Star.m stari) (Star.h stari)
    (Star.gpot stari + m gas * invhmean * wpot kern (drmag * invhmean))%Q.

(** [NbodyLeapfrogDKD::CalculateDirectSPHForces]; [kern] is the kernel
    member of the class. *)
Definition CalculateDirectSPHForces (nm : Numerics) (ndim : nat)
    (kern : SphKernel) (N Ngas : Z) (sphdata : list SphParticle)
    (star : list Star.NbodyParticle) : result (list Star.NbodyParticle) :=
  for_range 0 N
    (fun i star =>
       stari ← rd star i;
       if negb (Star.active stari) then Done star
       else
         stari ← for_range 0 Ngas
                   (fun j stari =>
                      gas ← rd sphdata j;
                      Done (gas_on_star nm ndim kern gas stari))
                   stari;
         wr star i stari)
    star.

(** Body of the loop over [i] of [CorrectionTerms] for [star[i]]. *)
Definition correct_star (ndim : nat) (n : Z) (timestep : Q)
    (star : Star.NbodyParticle) : Star.NbodyParticle :=
  let dn := n - Star.nlast star in
  let nstep := Star.nstep star in
  if dn =? nstep then
    let v :=
      fold_left
        (fun v k =>
           vset v k (vget v k
                     + (1#2) * (vget (Star.a star) k - vget (Star.a0 star) k)
                       * timestep * to_float nstep)%Q)
        (seq 0 ndim) (Star.v star) in
    Star.mkNbodyParticle (Star.active star) (Star.nstep star)
      (Star.nlast star) (Star.r star) v (Star.a star) (Star.r0 star)
      (Star.v0 star) (Star.a0 star) (Star.m star) (Star.h star)
      (Star.gpot star)
  else star.

(** [NbodyLeapfrogDKD::CorrectionTerms]. *)
Definition CorrectionTerms (ndim : nat) (n N : Z)
    (star : list Star.NbodyParticle) (timestep : Q)
    : result (list Star.NbodyParticle) :=
  for_range 0 N
    (fun i star =>
       s ← rd star i;
       wr star i (correct_star ndim n timestep s))
    star.

(** Body of the loop over [i] of [EndTimestep] for [star[i]]. *)
Definition end_star (ndim : nat) (n : Z) (star : Star.NbodyParticle)
    : Star.NbodyParticle :=
  let dn := n - Star.nlast star in
  let nstep := Star.nstep star in
  if dn =? nstep then
    let copy (from to : vec) : vec :=
      fold_left (fun to k => vset to k (vget from k)) (seq 0 ndim) to in
    Star.mkNbodyParticle false (Star.nstep star) n (Star.r star)
      (Star.v star) (Star.a star)
      (copy (Star.r star) (Star.r0 star))
      (copy (Star.v star) (Star.v0 star))
      (copy (Star.a star) (Star.a0 star))
      (Star.m star) (Star.h star) (Star.gpot star)
  else star.

(** [NbodyLeapfrogDKD::EndTimestep]. *)
Definition EndTimestep (ndim : nat) (n N : Z)
    (star : list Star.NbodyParticle) : result (list Star.NbodyParticle) :=
  for_range 0 N
    (fun i star =>
       s ← rd star i;
       wr star i (end_star ndim n s))
    star.

End LeapfrogDKD.

(** ** [MpiControl.cpp]: exchanging particles and boxes *)

Module MpiExchange.

(** The two blocking calls of [LoadBalancing] towards the peer of a turn:
    [MPI_Send] to the node, and [MPI_Probe] with [MPI_Recv] from it. *)
Inductive transfer : Type :=
| send_to (node : Z)
| receive_from (node : Z).

(** The loop [for (int i=0; i < 2; i++)] of [LoadBalancing] on node [rank]
    for the peer [inode], with the flag [send_turn] set before it. *)
Definition exchange (rank inode : Z) : list transfer :=
  let send_turn := rank <? inode in
  snd (fold_left
         (fun (st : bool * list transfer) (_ : nat) =>
            if fst st then (false, (snd st ++ [send_to inode])%list)
            else (true, (snd st ++ [receive_from inode])%list))
         (seq 0 2) (send_turn, [])).

(** The calls of node [rank] over the loop on [iturn] of [LoadBalancing],
    in the order in which they are made. *)
Definition transfers (rank : Z) (my_matches : list Z) : list transfer :=
  flat_map (exchange rank) my_matches.

(** The corners of the domain of a node, [mpinode[inode].domain]. *)
Record Box : Type := mkBox {
  bmin : vec;
  bmax : vec
}.

(** The loop that packs all bounding boxes into [boxbuffer], in
    [CreateInitialDomainDecomposition] and in [LoadBalancing] on the root
    node. *)
Definition pack_boxes (ndim : nat) (Nmpi : Z) (mpinode : list Box)
    (boxbuffer : list Q) : result (list Q) :=
  for_range 0 Nmpi
    (fun inode boxbuffer =>
       node ← rd mpinode inode;
       boxbuffer ←
         for_range 0 (Z.of_nat ndim)
           (fun k boxbuffer =>
              wr boxbuffer (2 * Z.of_nat ndim * inode + k)
                (vget (bmin node) (Z.to_nat k)))
           boxbuffer;
       for_range 0 (Z.of_nat ndim)
         (fun k boxbuffer =>
            wr boxbuffer (2 * Z.of_nat ndim * inode + Z.of_nat ndim + k)
              (vget (bmax node) (Z.to_nat k)))
         boxbuffer)
    boxbuffer.

(** The loop that unpacks [boxbuffer] on the other nodes. *)
Definition unpack_boxes (ndim : nat) (Nmpi : Z) (boxbuffer : list Q)
    (mpinode : list Box) : result (list Box) :=
  for_range 0 Nmpi
    (fun inode mpinode =>
       node ← rd mpinode inode;
       boxmin ←
         for_range 0 (Z.of_nat ndim)
           (fun k boxmin =>
              x ← rd boxbuffer (2 * Z.of_nat ndim * inode + k);
              wr boxmin k x)
           (bmin node);
       boxmax ←
         for_range 0 (Z.of_nat ndim)
           (fun k boxmax =>
              x ← rd boxbuffer (2 * Z.of_nat ndim * inode + Z.of_nat ndim + k);
              wr boxmax k x)
           (bmax node);
       wr mpinode inode (mkBox boxmin boxmax))
    mpinode.

End MpiExchange.

(** ** [MpiControl.cpp]: the send buffer of the ghosts *)

Module MpiGhostExport.

(** The loop of [SendReceiveGhosts] that fills
    [num_particles_export_per_node] and [displacements_send]; the result
    holds the two arrays and [running_counter].  A pointer to a particle is
    its index in the main array. *)
Definition count_exports (Nmpi : Z)
    (particles_to_export_per_node : list (list Z))
    (num_particles_export_per_node displacements_send : list Z)
    : result (list Z * list Z * Z) :=
  for_range 0 Nmpi
    (fun inode st =>
       ids ← rd particles_to_export_per_node inode;
       let num_particles := Z.of_nat (length ids) in
       num ← wr (fst (fst st)) inode num_particles;
       displ ← wr (snd (fst st)) inode (snd st);
       Done (num, displ, snd st + num_particles))
    (num_particles_export_per_node, displacements_send, 0).

(** The loop that copies the particles into [particles_to_export], in
    [SendReceiveGhosts] and again in [UpdateGhostParticles]; the result
    holds the buffer and [index]. *)
Definition pack_exports (Nmpi : Z)
    (particles_to_export_per_node : list (list Z))
    (sphdata particles_to_export : list SphParticle)
    : result (list SphParticle * Z) :=
  for_range 0 Nmpi
    (fun inode st =>
       particles_on_this_node ← rd particles_to_export_per_node inode;
       for_range 0 (Z.of_nat (length particles_on_this_node))
         (fun iparticle st =>
            id ← rd particles_on_this_node iparticle;
            p ← rd sphdata id;
            buf ← wr (fst st) (snd st) p;
            Done (buf, snd st + 1))
         st)
    (particles_to_export, 0).

End MpiGhostExport.

(** ** [MpiControl.cpp]: the league calendar in a build with [VERIFY_ALL] *)

Module MpiValidate.

(** Body of the loop over [iturn] of the validation block (the first and
    the second check). *)
Definition check_match (calendar : list (list Z)) (iteam iturn : Z)
    (other_teams : list bool) : result (list bool) :=
  calendar_iteam ← rd calendar iteam;
  opponent ← rd calendar_iteam iturn;
  calendar_opponent ← rd calendar opponent;
  back ← rd calendar_opponent iturn;
  _ ← (if negb (back =? iteam)
       then raise "Error 1 in validating the calendar!"
       else Done tt);
  let index_other_teams :=
    if iteam <=? opponent then opponent - 1 else opponent in
  played ← rd other_teams index_other_teams;
  _ ← (if played : bool
       then raise "Error 2 in validating the calendar!"
       else Done tt);
  wr other_teams index_other_teams true.

(** Body of the loop over [jteam] (the third check). *)
Definition check_played (other_teams : list bool) (jteam : Z) (_ : unit)
    : result unit :=
  played ← rd other_teams jteam;
  if negb played then raise "Error 3 in validating the calendar!"
  else Done tt.

(** Body of the loop over [iteam].  The counter of the third loop is
    declared without a value, [for (int jteam; ...)]: [jteam] is the value
    it happens to hold when the loop is entered.  The loop condition
    compares it with a [size_t], that is as an unsigned number, so that a
    negative [jteam] ends the loop at once. *)
Definition validate_team (jteam : Z) (calendar : list (list Z)) (iteam : Z)
    (other_teams : list bool) : result (list bool) :=
  let other_teams := replicate (length other_teams) false in
  calendar_iteam ← rd calendar iteam;
  other_teams ← for_range 0 (Z.of_nat (length calendar_iteam))
                  (check_match calendar iteam) other_teams;
  _ ← (if jteam <? 0 then Done tt
       else for_range jteam (Z.of_nat (length other_teams))
              (check_played other_teams) tt);
  Done other_teams.

(** The block between [#if defined VERIFY_ALL] and [#endif]; [jteam]
    gives, for each [iteam], the value the counter of the third loop
    starts from. *)
Definition validate (jteam : Z -> Z) (Nmpi : Z) (calendar : list (list Z))
    : result unit :=
  let other_teams := replicate (Z.to_nat (Nmpi - 1)) false in
  _ ← for_range 0 (Z.of_nat (length calendar))
        (fun iteam => validate_team (jteam iteam) calendar iteam)
        other_teams;
  Done tt.

(** [MpiControl::CreateLeagueCalendar] on rank 0 in a build with
    [VERIFY_ALL]: the calendar is validated before it is handed out. *)
Definition CreateLeagueCalendar (jteam : Z -> Z) (Nmpi : Z)
    : result (list (list Z)) :=
  calendar ← MpiControl.CreateLeagueCalendar Nmpi;
  _ ← validate jteam Nmpi calendar;
  Done calendar.

(** The messages of the validation block. *)
Definition validation_errors : list string :=
  [ "Error 1 in validating the calendar!";
    "Error 2 in validating the calendar!";
    "Error 3 in validating the calendar!" ].

End MpiValidate.


(** ** Notions used in the statements *)

(** Entry [i] of the store holds a particle whose [active] flag is off. *)
Definition inactive_at (sph : Sph) (i : Z) : Prop :=
  exists g, sphdata sph !! Z.to_nat i = Some g /\ active g = false.

(** The operations that write ghost entries, each with the run it performs
    and an index it writes. *)
Inductive writes_ghost : result Sph -> Z -> Prop :=
| writes_create (i : Z) (k : nat) (rk vk : Q) (sph : Sph) (ghosttype : ptype) :
    writes_ghost
      (PeriodicGhosts.CreateGhostParticle i k rk vk sph ghosttype)
      (Nsph sph + Nghost sph)
| writes_refresh (simbox : DomainBox) (sph : Sph) (j : Z) :
    0 <= j < NPeriodicGhost sph ->
    writes_ghost (PeriodicGhosts.CopySphDataToGhosts simbox sph)
      (Nsph sph + j)
| writes_mpi_receive (ghost_array : list SphParticle) (Nmpighosts : Z)
    (sph : Sph) (j : Z) :
    0 <= j < Nmpighosts ->
    writes_ghost (MPIGhosts.SearchGhostParticles ghost_array Nmpighosts sph)
      (Nsph sph + NPeriodicGhost sph + j)
| writes_mpi_update (ghost_array : list SphParticle) (Nmpighosts : Z)
    (sph : Sph) (j : Z) :
    0 <= j < Nmpighosts ->
    writes_ghost (MPIGhosts.CopySphDataToGhosts ghost_array Nmpighosts sph)
      (Nsph sph + NPeriodicGhost sph + j).

(** Entry [i] of the store a run ends with, if it ends normally. *)
Definition entry (run : result Sph) (i : nat) : option SphParticle :=
  match run with
  | Done sph => sphdata sph !! i
  | _ => None
  end.

(** Component [k] of the total of [m * a] over the particle [parti] and
    the array [neibpart]. *)
Definition sum_ma (k : nat) (neibpart : list SphParticle) : Q :=
  fold_right (fun p acc => (m p * vget (a p) k + acc)%Q) 0%Q neibpart.
Definition momentum_rate (k : nat) (st : SphParticle * list SphParticle) : Q :=
  (m (fst st) * vget (a (fst st)) k + sum_ma k (snd st))%Q.

(** A run that ends normally or at an access outside an array: it neither
    raises nor is it cut short. *)
Definition only_bounds {A : Type} (c : result A) : Prop :=
  match c with
  | Done _ | OutOfBounds _ => True
  | Raised _ | Unfinished => False
  end.

(** The loop state after [k] passes through the body of the h-rho loop,
    each of which went on to the next pass; [None] when the loop ends
    within the first [k] passes. *)
Fixpoint passes (density_pass : HRho.hloop -> result HRho.hloop)
    (nm : Numerics) (ndim : nat) (sph : Sph) (hmax : Q) (k : nat)
    (s : HRho.hloop) : option HRho.hloop :=
  match k with
  | O => Some s
  | S k' =>
      match HRho.h_iteration density_pass nm ndim sph hmax s with
      | Done (s', HRho.hcontinue) =>
          passes density_pass nm ndim sph hmax k' s'
      | _ => None
      end
  end.

(** The exit codes of a smoothing-length routine whose loop starts in
    state [start] and whose outcome is [run]:
    - when some pass reached by the loop fails the tolerance test and then
      moves [h] above [hmax], the routine returns 0 with the particle as
      that pass left it;
    - the routine raises exactly when pass number [5 * iteration_max] is
      reached and fails the tolerance test, and then with the message of
      the h-rho iteration;
    - the loop is never cut short by the bounded unrolling. *)
Definition h_exit_codes (density_pass : HRho.hloop -> result HRho.hloop)
    (nm : Numerics) (ndim : nat) (sph : Sph) (hmax : Q)
    (start : HRho.hloop) (run : result (Z * SphParticle)) : Prop :=
  (forall (k : nat) (sk s1 s2 : HRho.hloop),
     passes density_pass nm ndim sph hmax k start = Some sk ->
     density_pass sk = Done s1 ->
     HRho.converged nm ndim sph s1 = false ->
     HRho.update_h nm ndim sph s1 = Done s2 ->
     Qltb hmax (h (HRho.parti s2)) = true ->
     run = Done (0, HRho.parti s2)) /\
  (forall msg : string,
     run = Raised msg <->
     msg = "Problem with convergence of h-rho iteration" /\
     exists sk s1 : HRho.hloop,
       passes density_pass nm ndim sph hmax
         (Z.to_nat (5 * HRho.iteration_max - 1)) start = Some sk /\
       density_pass sk = Done s1 /\
       HRho.converged nm ndim sph s1 = false) /\
  run <> Unfinished.

(** Berger's rule in closed form: the peer of [team] in turn [iturn] of a
    league of [Nmpi] teams, and entry [i] of the pairs table of that
    turn. *)
Definition peer (Nmpi iturn team : Z) : Z :=
  if team =? Nmpi - 1 then iturn
  else if team =? iturn then Nmpi - 1
  else (2 * iturn - team) mod (Nmpi - 1).

Definition pairs_entry (Nmpi iturn i : Z) : Z :=
  if i =? 0 then Nmpi - 1 else (i + iturn) mod (Nmpi - 1).

(** A calendar of [Nmpi] rows, one per team, of [Nmpi - 1] turns each. *)
Definition calendar_shape (Nmpi : Z) (calendar : list (list Z)) : Prop :=
  length calendar = Z.to_nat Nmpi /\
  Forall (fun row => length row = Z.to_nat (Nmpi - 1)) calendar.

(** ** Further notions used in the statements *)

(** What the tests on coordinate [k] do to a particle and its integration
    data, and what the loop body of [CheckBoundaries] does to them. *)
Definition wrapped_axis (simbox : DomainBox) (k : nat) (lhs rhs : string)
    (pq : SphParticle * SphIntParticle) : SphParticle * SphIntParticle :=
  let d := vget (boxsize simbox) k in
  let pq :=
    if Qltb (vget (r (fst pq)) k) (vget (boxmin simbox) k)
       && String.eqb lhs "periodic"
    then (set_r (vset (r (fst pq)) k (vget (r (fst pq)) k + d)%Q) (fst pq),
          mkSphIntParticle
            (vset (r0 (snd pq)) k (vget (r0 (snd pq)) k + d)%Q)
            (nstep (snd pq)))
    else pq in
  if Qltb (vget (boxmax simbox) k) (vget (r (fst pq)) k)
     && String.eqb rhs "periodic"
  then (set_r (vset (r (fst pq)) k (vget (r (fst pq)) k - d)%Q) (fst pq),
        mkSphIntParticle
          (vset (r0 (snd pq)) k (vget (r0 (snd pq)) k - d)%Q)
          (nstep (snd pq)))
  else pq.

Definition wrapped (ndim : nat) (simbox : DomainBox)
    (pq : SphParticle * SphIntParticle) : SphParticle * SphIntParticle :=
  let pq :=
    wrapped_axis simbox 0 (x_boundary_lhs simbox) (x_boundary_rhs simbox)
      pq in
  let pq :=
    if (2 <=? ndim)%nat
    then wrapped_axis simbox 1 (y_boundary_lhs simbox)
           (y_boundary_rhs simbox) pq
    else pq in
  if (ndim =? 3)%nat
  then wrapped_axis simbox 2 (z_boundary_lhs simbox) (z_boundary_rhs simbox)
         pq
  else pq.

(** Coordinate [k] of [p] lies in the box. *)
Definition in_box_axis (simbox : DomainBox) (k : nat) (p : SphParticle)
    : Prop :=
  (vget (boxmin simbox) k <= vget (r p) k)%Q /\
  (vget (r p) k <= vget (boxmax simbox) k)%Q.

(** Face pair [k] of the box is periodic and the box size is the distance
    between the two faces. *)
Definition periodic_axis (simbox : DomainBox) (k : nat) : Prop :=
  (vget (boxsize simbox) k
   == vget (boxmax simbox) k - vget (boxmin simbox) k)%Q /\
  match k with
  | O => x_boundary_lhs simbox = "periodic" /\ x_boundary_rhs simbox = "periodic"
  | S O => y_boundary_lhs simbox = "periodic" /\ y_boundary_rhs simbox = "periodic"
  | _ => z_boundary_lhs simbox = "periodic" /\ z_boundary_rhs simbox = "periodic"
  end.

(** The coordinates that [CheckBoundaries] tests in [ndim] dimensions. *)
Definition checked_axis (ndim k : nat) : bool :=
  match k with
  | O => true
  | S O => (2 <=? ndim)%nat
  | S (S O) => (ndim =? 3)%nat
  | _ => false
  end.

(** Coordinate [k] of [p] is at most one box length outside the box. *)
Definition near_box_axis (simbox : DomainBox) (k : nat) (p : SphParticle)
    : Prop :=
  (vget (boxmin simbox) k - vget (boxsize simbox) k <= vget (r p) k)%Q /\
  (vget (r p) k <= vget (boxmax simbox) k + vget (boxsize simbox) k)%Q.

(** Entry [Nsph + j] of the store is a well-formed ghost: inactive, tagged
    with one of the twelve ghost kinds, and made from an earlier entry of
    the store, which may itself be a ghost. *)
Definition ghost_at (sph : Sph) (j : Z) (g : SphParticle) : Prop :=
  sphdata sph !! Z.to_nat (Nsph sph + j) = Some g /\
  active g = false /\
  itype g <> real_particle /\
  0 <= iorig g < Nsph sph + j.

Definition ghosts_ok (sph : Sph) : Prop :=
  0 <= Nsph sph /\ 0 <= Nghost sph /\
  forall j, 0 <= j < Nghost sph -> exists g, ghost_at sph j g.

(** [sph'] is [sph] with ghosts appended: same real particles, same
    capacities, and the entries in use untouched. *)
Definition grown (sph sph' : Sph) : Prop :=
  Nsph sph' = Nsph sph /\ Nsphmax sph' = Nsphmax sph /\
  Nghostmax sph' = Nghostmax sph /\
  length (sphdata sph') = length (sphdata sph) /\
  Nghost sph <= Nghost sph' /\
  forall n : nat, Z.of_nat n < Nsph sph + Nghost sph ->
    sphdata sph' !! n = sphdata sph !! n.

(** What one pass of the loop over [i] keeps. *)
Definition ghost_step (sph sph' : Sph) : Prop :=
  grown sph sph' /\ ghosts_ok sph' /\ Ntot sph' = Ntot sph.

(** The ghost that the loop body of [CopySphDataToGhosts] writes for a ghost
    [g], given the value [orig] of the entry that [g] was made from. *)
Definition refreshed (simbox : DomainBox) (g orig : SphParticle)
    : SphParticle :=
  PeriodicGhosts.reapply_shift simbox (itype g)
    (set_active false (set_itype (itype g) (set_iorig (iorig g) orig))).


(** The star [s'] differs from [s] at most in its acceleration and its
    potential. *)
Definition forces_only (s s' : Star.NbodyParticle) : Prop :=
  s' = Star.mkNbodyParticle (Star.active s) (Star.nstep s) (Star.nlast s)
         (Star.r s) (Star.v s) (Star.a s') (Star.r0 s) (Star.v0 s)
         (Star.a0 s) (Star.m s) (Star.h s) (Star.gpot s').

(** The number of particles listed for the nodes in front of [inode]. *)
Definition export_offset (per_node : list (list Z)) (inode : nat) : Z :=
  Z.of_nat (length (concat (take inode per_node))).

(** A run that, if it raises, raises one of the messages [msgs], and that
    is not cut short. *)
Definition raises_within {A : Type} (msgs : list string) (c : result A)
    : Prop :=
  match c with
  | Done _ | OutOfBounds _ => True
  | Raised msg => In msg msgs
  | Unfinished => False
  end.

(** The place of [opponent] in the table [other_teams] of [iteam]. *)
Definition index_other_teams (iteam opponent : Z) : Z :=
  if iteam <=? opponent then opponent - 1 else opponent.

(** The table [other_teams] of [iteam] as the validation of a calendar of
    [Nmpi] teams has it after the turns below [T]: its entry [n] is set
    when the peer of [iteam] in one of these turns has the place [n]. *)
Definition played_below (Nmpi iteam T : Z) (other_teams : list bool)
    : Prop :=
  length other_teams = Z.to_nat (Nmpi - 1) /\
  forall n, 0 <= n < Nmpi - 1 ->
    other_teams !! Z.to_nat n = Some true <->
    exists t, 0 <= t < T /\
              index_other_teams iteam (peer Nmpi t iteam) = n.


(** ** Sample data *)

Module Samples.

(** A stand-in for [<math.h>] that is exact where the samples need it:
    [sqrt] on squares of rationals and [pow] for whole exponents. *)
Definition numerics : Numerics :=
  mkNumerics
    (fun x => Z.sqrt (Qnum x) # Pos.sqrt (Qden x))
    (fun x y => (x ^ Qfloor y)%Q)
    (1 # 100000000000000000000).

(** A linear ("cone") kernel of range 2, normalised in one dimension. *)
Definition cone_w0 (s : Q) : Q := if Qltb s 2 then ((2 - s) / 4)%Q else 0%Q.
Definition cone_w1 (s : Q) : Q := if Qltb s 2 then (- (1 # 4))%Q else 0%Q.
Definition cone : SphKernel :=
  mkSphKernel 2 (1#2) 4 1
    cone_w0 (fun s2 => cone_w0 (sqrt numerics s2))
    cone_w1
    (fun s2 => (- cone_w0 (sqrt numerics s2)
                - sqrt numerics s2 * cone_w1 (sqrt numerics s2))%Q)
    (fun _ => 0%Q) (fun _ => 0%Q) (fun _ => 0%Q).

(** An isothermal gas with [gamma = 5/3]. *)
Definition isothermal : EOS := Isothermal.eos numerics 1 1 (5#3) (2#3).

Definition part0 : SphParticle :=
  mkSphParticle true false 0 real_particle 0 0 (-1)
    [0%Q; 0%Q; 0%Q] [0%Q; 0%Q; 0%Q] [0%Q; 0%Q; 0%Q] [0%Q; 0%Q; 0%Q]
    1 (1#10) 10 0 0 1 1 1 0 0 1 0 0 0 0 0 1 0 0.

(** A unit box, periodic on every face, and one with mirror faces in x. *)
Definition periodic_box : DomainBox :=
  mkDomainBox "periodic" "periodic" "periodic" "periodic" "periodic"
    "periodic" [0%Q; 0%Q; 0%Q] [1%Q; 1%Q; 1%Q] [1%Q; 1%Q; 1%Q].
Definition mirror_box : DomainBox :=
  mkDomainBox "mirror" "mirror" "open" "open" "open" "open"
    [0%Q; 0%Q; 0%Q] [1%Q; 1%Q; 1%Q] [1%Q; 1%Q; 1%Q].

(** A store of [Nsphmax] entries with the real particles [real] in front;
    fixed-alpha viscosity with [alpha = 1/2] and [beta = 2]. *)
Definition sph_with (real : list SphParticle) (Nsphmax : nat) : Sph :=
  mkSph (Z.of_nat (length real)) 0 0 0 (Z.of_nat Nsphmax)
    (Z.of_nat (length real)) 0
    (6#5) (1#100) 0 (1#2) 2 1 1 mon97 noac cone isothermal
    (real ++ replicate (Nsphmax - length real) part0).

(** One real particle close to the lower z face (and to no other face),
    respectively close to the lower x face. *)
Definition near_z : SphParticle := set_r [1#2; 1#2; 1#10]%Q part0.
Definition near_x : SphParticle :=
  set_v [1#100; 0; 0]%Q (set_r [1#10; 1#2; 1#2]%Q part0).
Definition sph_of (p : SphParticle) (Nsphmax : nat) : Sph :=
  sph_with [p] Nsphmax.

(** A store without any room for ghosts. *)
Definition full_store : Sph := sph_of near_z 1.

(** A store of two entries, the second one free for a ghost. *)
Definition room_for_one : Sph := set_Nghostmax 1 (sph_with [near_z] 2).

(** A star one integer step into its block step. *)
Definition star0 : Star.NbodyParticle :=
  Star.mkNbodyParticle false 4 0 [0;0;0]%Q [0;0;0]%Q [0;0;0]%Q
    [0;0;0]%Q [1;0;0]%Q [2;0;0]%Q 1 1 0.

(** A particle after the force loop: [rho = 2], [u = 9/4] (so that
    [P = 3]), [Omega = 1], and an accumulated divergence of 4. *)
Definition after_forces : SphParticle :=
  set_div_v 4 (set_pfactor (3#4) (set_invomega 1 (set_invrho (1#2)
    (set_rho 2 (set_u (9#4) part0))))).

(** Two particles of unit smoothing length one length unit apart along x,
    the first one moving towards the second. *)
Definition left : SphParticle :=
  set_v [1; 0; 0]%Q (set_hfactor 1 (set_invh 1 (set_h 1 part0))).
Definition right : SphParticle :=
  set_r [1; 0; 0]%Q (set_hfactor 1 (set_invh 1 (set_h 1 part0))).

(** A loop state in the bisection phase (pass 40) with bracket [0, 2]:
    [rho * h = 10] exceeds [h_fac * m = 6/5]. *)
Definition bisecting : HRho.hloop :=
  HRho.mkhloop (set_rho 10 (set_h 1 part0)) 40 0 2 1.

(** One dimension, a particle of smoothing length [1/10] whose only
    neighbour is itself, and no stars. *)
Definition masses : list Q := [1%Q].
Definition distances_sqd : list Q := [0%Q].
Definition potentials : list Q := [0%Q].
Definition no_stars : Nbody := mkNbody 0 0 [].
Definition start : HRho.hloop := HRho.mkhloop part0 0 0 (1#5) 0.

(** The loop state after the sums of the first pass ([rho = 5]), and after
    the fixed-point move to [h = 6/25], which is above [hmax = 1/5]. *)
Definition summed : HRho.hloop :=
  match GradhSph.density_pass 1 (sph_with [] 0) 1 masses distances_sqd start
  with
  | Done s => s
  | _ => start
  end.
Definition moved : HRho.hloop :=
  match HRho.update_h numerics 1 (sph_with [] 0) summed with
  | Done s => s
  | _ => summed
  end.

(** A method with a flat kernel profile and zero tolerance: the tolerance
    test never passes, and for a particle on its own every [h] is found
    too large, so that the bisection halves [h] for ever. *)
Definition flat : SphKernel :=
  mkSphKernel 2 (1#2) 4 1 (fun _ => 2%Q) (fun _ => 2%Q) (fun _ => 0%Q)
    (fun _ => 0%Q) (fun _ => 0%Q) (fun _ => 0%Q) (fun _ => 0%Q).
Definition stubborn : Sph :=
  mkSph 0 0 0 0 0 0 0 (6#5) 0 0 (1#2) 2 1 1 mon97 noac flat isothermal [].
Definition half : SphParticle := set_h (1#2) part0.

(** Its loop state after 149 passes, and after the sums of pass 150. *)
Definition begin_stubborn : HRho.hloop := HRho.mkhloop half 0 0 1 0.
Definition last_pass : HRho.hloop :=
  match passes (GradhSph.density_pass 1 stubborn 1 masses distances_sqd)
          numerics 1 stubborn 1 149 begin_stubborn with
  | Some s => s
  | None => begin_stubborn
  end.
Definition last_summed : HRho.hloop :=
  match GradhSph.density_pass 1 stubborn 1 masses distances_sqd last_pass
  with
  | Done s => s
  | _ => last_pass
  end.

End Samples.

(** ** Further sample data *)

Module Cases.


(** A particle that has left the unit box through the lower x face and
    through the upper z face during the step, with its integration data. *)
Definition escaped : SphParticle :=
  set_r [-(1#10); 1#2; 11#10]%Q Samples.part0.
Definition escaped_int : SphIntParticle :=
  mkSphIntParticle [0; 1#2; 1]%Q 1.

(** A store with the escaped particle and one free entry. *)
Definition one_escaped : Sph := Samples.sph_with [escaped] 2.

(** A store whose only particle lies inside the box. *)
Definition one_inside : Sph := Samples.sph_with [Samples.near_z] 2.

(** A particle near the edge where the lower x and y faces meet, alone in
    a store of eight entries, and the store after the search for ghosts in
    the periodic box: one ghost across each of the two faces, and a ghost
    of the first ghost across the corner. *)
Definition corner : SphParticle :=
  set_r [1#10; 1#10; 1#2]%Q Samples.part0.
Definition one_corner : Sph := Samples.sph_with [corner] 8.
Definition searched : Sph :=
  match PeriodicGhosts.SearchGhostParticles 3 (11#10) 0
          Samples.periodic_box one_corner with
  | Done sph => sph
  | _ => one_corner
  end.


(** Two ghosts received from another node, still flagged active there, and
    the store after they have been put behind the periodic ghosts. *)
Definition received : list SphParticle :=
  [set_r [2; 1#2; 1#2]%Q Samples.part0; set_r [3; 1#2; 1#2]%Q Samples.part0].
Definition with_received : Sph :=
  match MPIGhosts.SearchGhostParticles received 2 searched with
  | Done sph => sph
  | _ => searched
  end.


(** A method without artificial viscosity and with the conductivity of
    Wadsley et al. (2008). *)
Definition conducting : Sph :=
  mkSph 0 0 0 0 0 0 0 (6#5) (1#100) 0 (1#2) 2 1 1 noav wadsley2008
    Samples.cone Samples.isothermal [].

(** The particle [Samples.left] with its one neighbour [Samples.right] at
    distance 1 along x, and the two after the loop over the neighbours. *)
Definition after_hydro : SphParticle * list SphParticle :=
  match GradhSph.ComputeSphHydroForces Samples.numerics 3
          (Samples.sph_with [] 0) 0 1 [0] [1%Q] [1%Q] [1; 0; 0]%Q
          Samples.left [Samples.right] with
  | Done st => st
  | _ => (Samples.left, [Samples.right])
  end.


(** A particle with an active neighbour of lower index, and one with a
    neighbour of higher index, for the direct sum of gravity in three
    dimensions. *)
Definition lower_active : list SphParticle := [Samples.left; Samples.right].
Definition direct_start : GradhSphGrav.direct :=
  GradhSphGrav.mkdirect Samples.left [0; 0; 0; 0; 0; 0]%Q [0; 0]%Q.
Definition direct_summed : GradhSphGrav.direct :=
  match GradhSphGrav.direct_step Samples.numerics 3 0 [1] lower_active 0
          direct_start with
  | Done st => st
  | _ => direct_start
  end.

(** An active star at the origin and a star at rest one length unit away
    along x that is not active, both at the end of a step of four units. *)
Definition star_a : Star.NbodyParticle :=
  Star.mkNbodyParticle true 4 0 [0;0;0]%Q [1;0;0]%Q [3;0;0]%Q
    [0;0;0]%Q [1;0;0]%Q [2;0;0]%Q 1 1 0.
Definition star_b : Star.NbodyParticle :=
  Star.mkNbodyParticle false 4 0 [1;0;0]%Q [0;0;0]%Q [0;0;0]%Q
    [1;0;0]%Q [0;0;0]%Q [0;0;0]%Q 1 1 0.
Definition stars : list Star.NbodyParticle := [star_a; star_b].
Definition stars_pulled : list Star.NbodyParticle :=
  match LeapfrogDKD.CalculateDirectGravForces Samples.numerics 3 2 stars with
  | Done l => l
  | _ => stars
  end.
Definition stars_ended : list Star.NbodyParticle :=
  match LeapfrogDKD.EndTimestep 3 4 2 stars with
  | Done l => l
  | _ => stars
  end.
Definition stars_restarted : list Star.NbodyParticle :=
  match NbodyLeapfrogDKD.AdvanceParticles 3 3 4 2 stars_ended (1#2) with
  | Done l => l
  | _ => stars
  end.
Definition stars_moved : list Star.NbodyParticle :=
  match NbodyLeapfrogDKD.AdvanceParticles 3 3 1 2 stars (1#2) with
  | Done l => l
  | _ => stars
  end.

(** The domains of two nodes, the buffer they are packed into, and the
    boxes of a node that has not yet heard of them. *)
Definition domains : list MpiExchange.Box :=
  [MpiExchange.mkBox [0;0;0]%Q [1;1;1]%Q;
   MpiExchange.mkBox [1;0;0]%Q [2;1;1]%Q].
Definition packed : list Q :=
  match MpiExchange.pack_boxes 3 2 domains (replicate 12 0%Q) with
  | Done buf => buf
  | _ => []
  end.
Definition blank : list MpiExchange.Box :=
  replicate 2 (MpiExchange.mkBox [0;0;0]%Q [0;0;0]%Q).

(** Two nodes, with one particle to export to the first and two to the
    second, and the counts and the send buffer made from them. *)
Definition export_lists : list (list Z) := [[1]; [0; 1]].
Definition counted : list Z * list Z * Z :=
  match MpiGhostExport.count_exports 2 export_lists [0; 0] [0; 0] with
  | Done x => x
  | _ => ([], [], 0)
  end.
Definition exported : list SphParticle * Z :=
  match MpiGhostExport.pack_exports 2 export_lists lower_active
          (replicate 3 Samples.part0) with
  | Done x => x
  | _ => ([], 0)
  end.

(** A method with the flat kernel profile, a tolerance of [3/10] and sinks
    of smoothing length [3/2]; a particle of smoothing length 1 on its own,
    and the same particle inside sink 0. *)
Definition tolerant : Sph :=
  mkSph 0 0 0 0 0 0 0 (6#5) (3#10) (3#2) (1#2) 2 1 1 mon97 noac Samples.flat
    Samples.isothermal [].
Definition wide : SphParticle := set_h 1 Samples.part0.
Definition in_sink : SphParticle :=
  mkSphParticle true false 0 real_particle 0 0 0
    [0%Q; 0%Q; 0%Q] [0%Q; 0%Q; 0%Q] [0%Q; 0%Q; 0%Q] [0%Q; 0%Q; 0%Q]
    1 1 1 0 0 1 1 1 0 0 1 0 0 0 0 0 1 0 0.

End Cases.

(** * Properties *)

(** ** Basic facts about the embedding *)

Lemma Qltb_lt (x y : Q) : Qltb x y = true <-> (x < y)%Q.
Proof.
  unfold Qltb. rewrite Qlt_alt.
  destruct (x ?= y)%Q; intuition congruence.
Qed.

Lemma bind_Done {A B : Type} (c : result A) (f : A -> result B) (y : B) :
  c ≫= f = Done y -> exists x, c = Done x /\ f x = Done y.
Proof. destruct c as [x| | |]; cbn; try discriminate. eauto. Qed.

Lemma rd_Done {A : Type} (arr : list A) (i : Z) (x : A) :
  rd arr i = Done x <-> 0 <= i /\ arr !! Z.to_nat i = Some x.
Proof.
  unfold rd. destruct (Z.ltb_spec i 0).
  - split; [discriminate | lia].
  - destruct (arr !! Z.to_nat i); split; intros H1;
      try discriminate; try (destruct H1; congruence).
    injection H1 as ->. auto.
Qed.

Lemma wr_Done {A : Type} (arr arr' : list A) (i : Z) (x : A) :
  wr arr i x = Done arr' <->
  0 <= i < Z.of_nat (length arr) /\ arr' = <[Z.to_nat i := x]> arr.
Proof.
  unfold wr.
  destruct (Z.leb_spec 0 i), (Z.ltb_spec i (Z.of_nat (length arr))); cbn;
    split; intros H1; try discriminate; try lia.
  - injection H1 as <-. auto.
  - destruct H1 as [_ ->]. reflexivity.
Qed.

Lemma rd_lookup {A : Type} (arr : list A) (i : Z) (x : A) :
  0 <= i -> arr !! Z.to_nat i = Some x -> rd arr i = Done x.
Proof. intros Hi Hx. apply rd_Done. auto. Qed.

Lemma wr_in_range {A : Type} (arr : list A) (i : Z) (x : A) :
  0 <= i < Z.of_nat (length arr) ->
  wr arr i x = Done (<[Z.to_nat i := x]> arr).
Proof. intros Hi. apply wr_Done. auto. Qed.

Lemma wr_lookup {A : Type} (arr arr' : list A) (i : Z) (x : A) :
  wr arr i x = Done arr' -> arr' !! Z.to_nat i = Some x.
Proof.
  rewrite wr_Done. intros [Hi ->].
  apply list_lookup_insert_eq. lia.
Qed.

Lemma wr_lookup_ne {A : Type} (arr arr' : list A) (i : Z) (x : A) (n : nat) :
  wr arr i x = Done arr' -> n <> Z.to_nat i -> arr' !! n = arr !! n.
Proof.
  rewrite wr_Done. intros [Hi ->] Hn.
  apply list_lookup_insert_ne. congruence.
Qed.

(** Loop invariants for [for_upto]. *)
Lemma for_upto_invariant {S : Type} (P : Z -> S -> Prop)
    (body : Z -> S -> result S) (count : nat) :
  forall (lo : Z) (s s' : S),
    (forall i t t', lo <= i < lo + Z.of_nat count ->
       P i t -> body i t = Done t' -> P (i + 1) t') ->
    P lo s ->
    for_upto count lo body s = Done s' ->
    P (lo + Z.of_nat count) s'.
Proof.
  induction count as [|c IH]; intros lo s s' Hstep Hs Hrun.
  - cbn in Hrun. injection Hrun as <-. now rewrite Z.add_0_r.
  - cbn [for_upto] in Hrun. apply bind_Done in Hrun as (t & Hb & Hrest).
    replace (lo + Z.of_nat (Datatypes.S c)) with (lo + 1 + Z.of_nat c) by lia.
    apply (IH (lo + 1) t s'); [| | exact Hrest].
    + intros i u u' Hi. apply Hstep. lia.
    + apply (Hstep lo s t); [lia | exact Hs | exact Hb].
Qed.

Lemma for_range_invariant {S : Type} (P : Z -> S -> Prop)
    (body : Z -> S -> result S) (hi : Z) (s s' : S) :
  0 <= hi ->
  (forall i t t', 0 <= i < hi -> P i t -> body i t = Done t' -> P (i + 1) t') ->
  P 0 s ->
  for_range 0 hi body s = Done s' ->
  P hi s'.
Proof.
  intros Hhi Hstep Hs Hrun. unfold for_range in Hrun.
  apply (for_upto_invariant P) in Hrun; [| | exact Hs].
  - now replace (0 + Z.of_nat (Z.to_nat (hi - 0))) with hi in Hrun by lia.
  - intros i t t' Hi. apply Hstep. lia.
Qed.

Lemma for_range_empty {S : Type} (body : Z -> S -> result S) (hi : Z) (s : S) :
  hi <= 0 -> for_range 0 hi body s = Done s.
Proof.
  intros Hhi. unfold for_range.
  now replace (Z.to_nat (hi - 0)) with O by lia.
Qed.

(** ** Ghost entries are inactive *)

Lemma reapply_shift_active (simbox : DomainBox) (t : ptype) (p : SphParticle) :
  active (PeriodicGhosts.reapply_shift simbox t p) = active p.
Proof.
  unfold PeriodicGhosts.reapply_shift.
  repeat case_decide; reflexivity.
Qed.

Lemma CreateGhostParticle_inactive (i : Z) (k : nat) (rk vk : Q) (sph sph' : Sph)
    (ghosttype : ptype) :
  PeriodicGhosts.CreateGhostParticle i k rk vk sph ghosttype = Done sph' ->
  inactive_at sph' (Nsph sph + Nghost sph).
Proof.
  unfold PeriodicGhosts.CreateGhostParticle. intros Hrun.
  apply bind_Done in Hrun as (_ & _ & Hrun).
  apply bind_Done in Hrun as (orig & _ & Hrun).
  apply bind_Done in Hrun as (data & Hwr & Hrun).
  injection Hrun as <-. eexists. split.
  - cbn. eapply wr_lookup, Hwr.
  - reflexivity.
Qed.

Lemma refresh_ghost_spec (simbox : DomainBox) (j : Z) (sph sph' : Sph) :
  PeriodicGhosts.refresh_ghost simbox j sph = Done sph' ->
  0 <= Nsph sph + j /\
  Nsph sph' = Nsph sph /\
  inactive_at sph' (Nsph sph + j) /\
  forall n, n <> Z.to_nat (Nsph sph + j) ->
    sphdata sph' !! n = sphdata sph !! n.
Proof.
  unfold PeriodicGhosts.refresh_ghost. intros Hrun.
  apply bind_Done in Hrun as (ghost & Hrd & Hrun).
  apply bind_Done in Hrun as (orig & _ & Hrun).
  apply bind_Done in Hrun as (data & Hwr & Hrun).
  injection Hrun as <-. apply rd_Done in Hrd as [Hi _].
  split; [exact Hi|]. split; [reflexivity|]. split.
  - eexists. split; [cbn; eapply wr_lookup, Hwr|].
    now rewrite reapply_shift_active.
  - intros n Hn. cbn. eapply wr_lookup_ne; eauto.
Qed.

Lemma CopySphDataToGhosts_inactive (simbox : DomainBox) (sph sph' : Sph) (j : Z) :
  PeriodicGhosts.CopySphDataToGhosts simbox sph = Done sph' ->
  0 <= j < NPeriodicGhost sph ->
  inactive_at sph' (Nsph sph + j).
Proof.
  unfold PeriodicGhosts.CopySphDataToGhosts. intros Hrun Hj.
  pose (P := fun (n : Z) (t : Sph) =>
    Nsph t = Nsph sph /\
    forall j', 0 <= j' < n -> 0 <= Nsph sph + j' /\ inactive_at t (Nsph sph + j')).
  assert (HP : P (NPeriodicGhost sph) sph').
  { apply (for_range_invariant P) in Hrun; [exact Hrun | lia | | ].
    - intros i t t' Hi [HN Hprev] Hbody.
      apply refresh_ghost_spec in Hbody as (Hpos & HN' & Hnew & Hold).
      rewrite HN in *. split; [exact HN'|].
      intros j' Hj'. destruct (decide (j' = i)) as [->|Hne].
      + split; [exact Hpos | exact Hnew].
      + destruct (Hprev j') as [Hpos' (g & Hg & Hact)]; [lia|].
        split; [exact Hpos'|]. exists g. split; [|exact Hact].
        rewrite Hold; [exact Hg | lia].
    - split; [reflexivity | intros j' Hj'; lia]. }
  destruct HP as [_ HP]. now apply HP.
Qed.

Lemma store_ghosts_inactive (ghost_array : list SphParticle) (start n : Z)
    (arr arr' : list SphParticle) (j : Z) :
  for_range 0 n (MPIGhosts.store_ghost ghost_array start) arr = Done arr' ->
  0 <= j < n ->
  exists g, arr' !! Z.to_nat (start + j) = Some g /\ active g = false.
Proof.
  intros Hrun Hj.
  pose (P := fun (n : Z) (t : list SphParticle) =>
    forall j', 0 <= j' < n ->
      0 <= start + j' /\
      exists g, t !! Z.to_nat (start + j') = Some g /\ active g = false).
  assert (HP : P n arr').
  { apply (for_range_invariant P) in Hrun; [exact Hrun | lia | | ].
    - intros i t t' Hi Hprev Hbody. unfold MPIGhosts.store_ghost in Hbody.
      apply bind_Done in Hbody as (g & _ & Hwr).
      pose proof Hwr as Hwr'. apply wr_Done in Hwr' as [Hrange _].
      intros j' Hj'. destruct (decide (j' = i)) as [->|Hne].
      + split; [lia|]. eexists. split; [eapply wr_lookup, Hwr | reflexivity].
      + destruct (Hprev j') as [Hpos' (g' & Hg & Hact)]; [lia|].
        split; [exact Hpos'|]. exists g'. split; [|exact Hact].
        erewrite wr_lookup_ne; [exact Hg | exact Hwr | lia].
    - intros j' Hj'. lia. }
  now apply HP.
Qed.

(** C10.  Every operation that writes a ghost particle into the particle
    array (creation of a periodic or mirror ghost, the refresh of those
    ghosts, receipt and update of MPI ghosts) leaves the written entry with
    its [active] flag set to false. *)
Theorem ghost_writes_are_inactive (run : result Sph) (i : Z) (sph' : Sph) :
  writes_ghost run i -> run = Done sph' -> inactive_at sph' i.
Proof.
  intros Hw Hrun. destruct Hw as [i k rk vk sph gt | simbox sph j Hj
    | ghost_array n sph j Hj | ghost_array n sph j Hj].
  - eapply CreateGhostParticle_inactive, Hrun.
  - eapply CopySphDataToGhosts_inactive; eauto.
  - unfold MPIGhosts.SearchGhostParticles in Hrun.
    apply bind_Done in Hrun as (_ & _ & Hrun).
    apply bind_Done in Hrun as (data & Hloop & Hrun).
    apply bind_Done in Hrun as (_ & _ & Hrun).
    injection Hrun as <-. cbn.
    apply (store_ghosts_inactive _ _ _ _ _ j) in Hloop; [|exact Hj].
    exact Hloop.
  - unfold MPIGhosts.CopySphDataToGhosts in Hrun.
    apply bind_Done in Hrun as (data & Hloop & Hrun).
    injection Hrun as <-. cbn.
    apply (store_ghosts_inactive _ _ _ _ _ j) in Hloop; [|exact Hj].
    exact Hloop.
Qed.

Lemma ghost_writes_are_inactive_witness :
  inactive_at
    (set_Nghost 1
       (set_sphdata
          [Samples.near_z;
           set_iorig 0 (set_itype z_lhs_periodic (set_active false
             (set_r [1#2; 1#2; 11#10]%Q Samples.near_z)))]
          Samples.room_for_one))
    (Nsph Samples.room_for_one + Nghost Samples.room_for_one).
Proof.
  apply (ghost_writes_are_inactive
           (PeriodicGhosts.CreateGhostParticle 0 2 (11#10) 0
              Samples.room_for_one z_lhs_periodic)).
  - apply writes_create.
  - reflexivity.
Defined.

(** ** Capacity check of ghost creation *)

(** The guard of [CreateGhostParticle] fires once the ghost count is above
    the capacity. *)
Lemma CreateGhostParticle_raises_above_capacity (i : Z) (k : nat) (rk vk : Q)
    (sph : Sph) (ghosttype : ptype) :
  Nghostmax sph < Nghost sph ->
  PeriodicGhosts.CreateGhostParticle i k rk vk sph ghosttype
  = Raised "Not enough memory for new ghost".
Proof.
  intros Hfull. unfold PeriodicGhosts.CreateGhostParticle.
  destruct (Z.ltb_spec (Nghostmax sph) (Nghost sph)); [reflexivity | lia].
Qed.

(** With the ghost count exactly at the capacity the guard lets the call
    through, and the store goes to index [Nsphmax], one past the array. *)
Lemma CreateGhostParticle_at_capacity (i : Z) (k : nat) (rk vk : Q)
    (sph : Sph) (ghosttype : ptype) (orig : SphParticle) :
  Nghostmax sph = Nsphmax sph - Nsph sph ->
  Nghost sph = Nghostmax sph ->
  Z.of_nat (length (sphdata sph)) = Nsphmax sph ->
  rd (sphdata sph) i = Done orig ->
  PeriodicGhosts.CreateGhostParticle i k rk vk sph ghosttype
  = OutOfBounds (Nsphmax sph).
Proof.
  intros Hmax Hfull Hlen Hrd. unfold PeriodicGhosts.CreateGhostParticle.
  destruct (Z.ltb_spec (Nghostmax sph) (Nghost sph)); [lia|].
  cbn. rewrite Hrd. cbn. unfold wr.
  replace (Nsph sph + Nghost sph) with (Nsphmax sph) by lia.
  rewrite Hlen, Z.ltb_irrefl, andb_false_r. reflexivity.
Qed.

(** C8 (the code departs from the claim).  In a store without any room for
    ghosts ([Nsph = Nsphmax = 1], so [Nghostmax = 0]) a particle next to a
    periodic face makes [SearchGhostParticles] call [CreateGhostParticle]
    with [Nghost = Nghostmax = 0]; no error is raised and the ghost is
    stored at index [Nsphmax]. *)
Theorem CreateGhostParticle_stores_past_capacity :
  Nsphmax Samples.full_store - Nsph Samples.full_store = 0 /\
  PeriodicGhosts.CreateGhostParticle 0 2 (11#10) 0
    (set_Nghostmax 0 Samples.full_store) z_lhs_periodic
  = OutOfBounds (Nsphmax Samples.full_store) /\
  PeriodicGhosts.SearchGhostParticles 3 (11#10) 0 Samples.periodic_box
    Samples.full_store
  = OutOfBounds (Nsphmax Samples.full_store).
Proof. repeat split. Qed.

(** ** Refresh of periodic and mirror ghosts *)

Lemma vget_vset (x : vec) (k : nat) (y : Q) :
  (k < length x)%nat -> vget (vset x k y) k = y.
Proof.
  intros Hk. unfold vget, vset.
  apply nth_lookup_Some with (d := 0%Q).
  now apply list_lookup_insert_eq.
Qed.

Lemma vget_vset_ne (x : vec) (k k' : nat) (y : Q) :
  k <> k' -> vget (vset x k y) k' = vget x k'.
Proof.
  intros Hk. unfold vget, vset.
  rewrite !nth_lookup. now rewrite list_lookup_insert_ne.
Qed.

(** For the four kinds that [CopySphDataToGhosts] knows (periodic in x and
    in y) the refreshed ghost is the origin particle displaced by the box
    size along the axis of its kind. *)
Lemma refresh_ghost_periodic_xy (simbox : DomainBox) (j : Z) (sph sph' : Sph)
    (ghost orig : SphParticle) (k : nat) (sign : Q) :
  rd (sphdata sph) (Nsph sph + j) = Done ghost ->
  rd (sphdata sph) (iorig ghost) = Done orig ->
  (itype ghost = x_lhs_periodic /\ k = 0%nat /\ sign = 1%Q) \/
  (itype ghost = x_rhs_periodic /\ k = 0%nat /\ sign = (-1)%Q) \/
  (itype ghost = y_lhs_periodic /\ k = 1%nat /\ sign = 1%Q) \/
  (itype ghost = y_rhs_periodic /\ k = 1%nat /\ sign = (-1)%Q) ->
  (k < length (r orig))%nat ->
  exists ghost',
    PeriodicGhosts.refresh_ghost simbox j sph
      = Done (set_sphdata (<[Z.to_nat (Nsph sph + j) := ghost']> (sphdata sph)) sph) /\
    itype ghost' = itype ghost /\ iorig ghost' = iorig ghost /\
    (vget (r ghost') k - sign * vget (boxsize simbox) k == vget (r orig) k)%Q /\
    forall k', k' <> k -> vget (r ghost') k' = vget (r orig) k'.
Proof.
  intros Hghost Horig Hkind Hk.
  unfold PeriodicGhosts.refresh_ghost. rewrite Hghost. cbn.
  rewrite Horig. cbn.
  pose proof Hghost as Hin. apply rd_Done in Hin as [Hpos Hin].
  apply lookup_lt_Some in Hin.
  unfold wr.
  destruct (Z.leb_spec 0 (Nsph sph + j)); [|lia].
  destruct (Z.ltb_spec (Nsph sph + j) (Z.of_nat (length (sphdata sph)))); [|lia].
  cbn. eexists. split; [reflexivity|].
  unfold PeriodicGhosts.reapply_shift.
  destruct Hkind as [(-> & -> & ->) | [(-> & -> & ->) | [(-> & -> & ->)
    | (-> & -> & ->)]]];
    repeat first [ rewrite decide_True by reflexivity
                 | rewrite decide_False by discriminate ];
    cbn [r itype iorig set_r set_active set_itype set_iorig];
    (split; [reflexivity|]; split; [reflexivity|]; split;
     [rewrite vget_vset by exact Hk; ring
     | intros k' Hk'; apply vget_vset_ne; congruence]).
Qed.

(** For every other kind (periodic in z, and every mirror kind) the
    refreshed ghost is the origin particle itself, with the tags of the
    ghost: no shift and no reflection is reapplied. *)
Lemma reapply_shift_other_kinds (simbox : DomainBox) (t : ptype)
    (p : SphParticle) :
  t <> x_lhs_periodic -> t <> x_rhs_periodic ->
  t <> y_lhs_periodic -> t <> y_rhs_periodic ->
  PeriodicGhosts.reapply_shift simbox t p = p.
Proof.
  intros H1 H2 H3 H4. unfold PeriodicGhosts.reapply_shift.
  now rewrite !decide_False by assumption.
Qed.

Lemma refresh_ghost_other_kinds (simbox : DomainBox) (j : Z) (sph : Sph)
    (ghost orig : SphParticle) :
  rd (sphdata sph) (Nsph sph + j) = Done ghost ->
  rd (sphdata sph) (iorig ghost) = Done orig ->
  itype ghost <> x_lhs_periodic -> itype ghost <> x_rhs_periodic ->
  itype ghost <> y_lhs_periodic -> itype ghost <> y_rhs_periodic ->
  exists ghost',
    PeriodicGhosts.refresh_ghost simbox j sph
      = Done (set_sphdata (<[Z.to_nat (Nsph sph + j) := ghost']> (sphdata sph)) sph) /\
    r ghost' = r orig /\ v ghost' = v orig.
Proof.
  intros Hghost Horig H1 H2 H3 H4.
  unfold PeriodicGhosts.refresh_ghost. rewrite Hghost. cbn.
  rewrite Horig. cbn.
  rewrite reapply_shift_other_kinds by assumption.
  pose proof Hghost as Hin. apply rd_Done in Hin as [Hpos Hin].
  apply lookup_lt_Some in Hin.
  rewrite wr_in_range by lia. cbn.
  eexists. split; [reflexivity|]. split; reflexivity.
Qed.

(** C1 (the code departs from the claim).  A ghost across the lower z face
    of a periodic box is created one box size above its origin particle;
    the refresh pass puts it back onto the origin particle.  A ghost behind
    a mirror face in x is created as the mirror image of its origin, with
    the normal velocity reversed; the refresh pass puts it onto the origin
    particle with the origin's velocity. *)
Theorem CopySphDataToGhosts_forgets_z_and_mirror_kinds :
  let created_z :=
    PeriodicGhosts.SearchGhostParticles 3 (11#10) 0 Samples.periodic_box
      (Samples.sph_of Samples.near_z 4) in
  let created_m :=
    PeriodicGhosts.SearchGhostParticles 3 (11#10) 0 Samples.mirror_box
      (Samples.sph_of Samples.near_x 4) in
  let refreshed_z :=
    created_z ≫= PeriodicGhosts.CopySphDataToGhosts Samples.periodic_box in
  let refreshed_m :=
    created_m ≫= PeriodicGhosts.CopySphDataToGhosts Samples.mirror_box in
  (exists origin ghost ghost',
     entry refreshed_z 0 = Some origin /\
     entry created_z 1 = Some ghost /\ entry refreshed_z 1 = Some ghost' /\
     itype ghost' = z_lhs_periodic /\ iorig ghost' = 0 /\
     (vget (r ghost) 2 - vget (boxsize Samples.periodic_box) 2
        == vget (r origin) 2)%Q /\
     ~ (vget (r ghost') 2 - vget (boxsize Samples.periodic_box) 2
        == vget (r origin) 2)%Q /\
     r ghost' = r origin) /\
  (exists origin ghost ghost',
     entry refreshed_m 0 = Some origin /\
     entry created_m 1 = Some ghost /\ entry refreshed_m 1 = Some ghost' /\
     itype ghost' = x_lhs_mirror /\ iorig ghost' = 0 /\
     (vget (r ghost) 0
        == 2 * vget (boxmin Samples.mirror_box) 0 - vget (r origin) 0)%Q /\
     ~ (vget (r ghost') 0
        == 2 * vget (boxmin Samples.mirror_box) 0 - vget (r origin) 0)%Q /\
     r ghost' = r origin /\ v ghost' = v origin).
Proof.
  cbv zeta. split.
  - eexists _, _, _.
    split; [vm_compute; reflexivity|].
    split; [vm_compute; reflexivity|].
    split; [vm_compute; reflexivity|].
    cbn. repeat split; try reflexivity; vm_compute; congruence.
  - eexists _, _, _.
    split; [vm_compute; reflexivity|].
    split; [vm_compute; reflexivity|].
    split; [vm_compute; reflexivity|].
    cbn. repeat split; try reflexivity; vm_compute; congruence.
Qed.

(** ** Vectors *)

Lemma vget_vbuild (ndim : nat) (f : nat -> Q) (k : nat) :
  (k < ndim)%nat -> vget (vbuild ndim f) k = f k.
Proof.
  intros Hk. unfold vget, vbuild.
  apply nth_lookup_Some with (d := 0%Q).
  rewrite list_lookup_fmap, lookup_seq_lt by exact Hk. reflexivity.
Qed.

(** ** Leapfrog drift *)

(** What [AdvanceParticles] does to one star: a first-order drift and a
    first-order kick from the values saved at the start of the step. *)
Lemma advance_star_first_order (ndim vdim : nat) (n : Z) (timestep : Q)
    (star : Star.NbodyParticle) (k : nat) :
  let dt := (timestep * to_float (n - Star.nlast star))%Q in
  let star' := NbodyLeapfrogDKD.advance_star ndim vdim n timestep star in
  ((k < ndim)%nat ->
   vget (Star.r star') k
   = (vget (Star.r0 star) k + vget (Star.v0 star) k * dt)%Q) /\
  ((k < vdim)%nat ->
   vget (Star.v star') k
   = (vget (Star.v0 star) k + vget (Star.a0 star) k * dt)%Q).
Proof.
  cbv zeta. unfold NbodyLeapfrogDKD.advance_star. cbn [Star.r Star.v].
  split; intros Hk; now rewrite vget_vbuild.
Qed.

(** C2 (the code departs from the claim).  A star that started its step at
    the origin with velocity 1 and acceleration 2 along x is advanced by
    [dt = 1]: the velocity becomes [v0 + a0*dt = 3], and the position
    becomes [r0 + v0*dt = 1], not [r0 + v0*dt + a0*dt^2/2 = 2]. *)
Theorem AdvanceParticles_drift_lacks_acceleration_term :
  let r0 := vget (Star.r0 Samples.star0) 0 in
  let v0 := vget (Star.v0 Samples.star0) 0 in
  let a0 := vget (Star.a0 Samples.star0) 0 in
  let dt := (1 * to_float (1 - Star.nlast Samples.star0))%Q in
  exists star',
    NbodyLeapfrogDKD.AdvanceParticles 3 3 1 1 [Samples.star0] 1
      = Done [star'] /\
    (vget (Star.v star') 0 == v0 + a0 * dt)%Q /\
    (vget (Star.r star') 0 == r0 + v0 * dt)%Q /\
    ~ (vget (Star.r star') 0 == r0 + v0 * dt + (1#2) * a0 * dt ^ 2)%Q.
Proof.
  cbv zeta. eexists. split; [vm_compute; reflexivity|].
  repeat split; vm_compute; congruence.
Qed.

(** ** Compressional heating after the force loop *)

(** C5 (as stated, refuted).  For a particle with [rho = 2], [P = 3],
    [Omega = 1], stored pressure factor [P/(rho^2 Omega) = 3/4] and an
    accumulated divergence of 4, the routine lowers [dudt] by 3, not by
    [P * div_v * Pi / rho = 9/4]. *)
Lemma ComputePostHydroQuantities_not_by_pressure_factor :
  let sph := Samples.sph_with [] 0 in
  let parti := Samples.after_forces in
  let parti' := GradhSph.ComputePostHydroQuantities sph parti in
  let P := Pressure (eos sph) parti in
  (P == 3)%Q /\
  (pfactor parti == P / (rho parti * rho parti * (1 / invomega parti)))%Q /\
  (div_v parti' == div_v parti / rho parti)%Q /\
  (dudt parti' == dudt parti - 3)%Q /\
  ~ (dudt parti'
     == dudt parti - P * div_v parti' * pfactor parti / rho parti)%Q.
Proof. cbv zeta. repeat split; vm_compute; congruence. Qed.

(** C5 (amended).  With [invrho] holding [1/rho], the routine divides the
    accumulated velocity divergence by [rho], then lowers [dudt] by
    [P * div_v / rho * invomega] (with [invomega] the stored [1/Omega]);
    with the pressure factor as [ComputeH] stores it, this decrement is
    [pfactor * rho * div_v]. *)
Theorem ComputePostHydroQuantities_PdV (sph : Sph) (parti : SphParticle) :
  let parti' := GradhSph.ComputePostHydroQuantities sph parti in
  let P :=
    Pressure (eos sph)
      (set_div_v (div_v parti * invrho parti)%Q parti) in
  ~ (rho parti == 0)%Q ->
  (invrho parti == 1 / rho parti)%Q ->
  (div_v parti' == div_v parti / rho parti)%Q /\
  (dudt parti'
   == dudt parti - P * div_v parti' / rho parti * invomega parti)%Q /\
  ((pfactor parti == P * invrho parti * invrho parti * invomega parti)%Q ->
   (dudt parti' == dudt parti - pfactor parti * rho parti * div_v parti')%Q).
Proof.
  cbv zeta. intros Hrho Hinv.
  unfold GradhSph.ComputePostHydroQuantities.
  cbn [div_v dudt set_div_v set_dudt invrho invomega rho pfactor].
  set (P := Pressure (eos sph) _).
  split; [|split].
  - rewrite Hinv. field. exact Hrho.
  - rewrite Hinv. field. exact Hrho.
  - intros Hpf. rewrite Hpf, Hinv. field. exact Hrho.
Qed.

Lemma ComputePostHydroQuantities_PdV_witness :
  let sph := Samples.sph_with [] 0 in
  let parti := Samples.after_forces in
  let parti' := GradhSph.ComputePostHydroQuantities sph parti in
  let P :=
    Pressure (eos sph)
      (set_div_v (div_v parti * invrho parti)%Q parti) in
  (div_v parti' == div_v parti / rho parti)%Q /\
  (dudt parti'
   == dudt parti - P * div_v parti' / rho parti * invomega parti)%Q /\
  ((pfactor parti == P * invrho parti * invrho parti * invomega parti)%Q ->
   (dudt parti' == dudt parti - pfactor parti * rho parti * div_v parti')%Q).
Proof.
  apply (ComputePostHydroQuantities_PdV (Samples.sph_with [] 0)
           Samples.after_forces).
  - vm_compute. congruence.
  - vm_compute. reflexivity.
Defined.

(** ** Artificial viscosity in the two force routines *)

(** The two signal speeds differ by [beta * (1 - alpha) * dvdr]. *)
Lemma vsignal_mon97_gap (sph : Sph) (parti neibj : SphParticle) (dvdr : Q) :
  (GradhSph.vsignal_mon97 sph parti neibj dvdr
   - GradhSph.vsignal_mon97_grav sph parti neibj dvdr
   == beta_visc sph * (1 - alpha_visc sph) * dvdr)%Q.
Proof.
  unfold GradhSph.vsignal_mon97, GradhSph.vsignal_mon97_grav. ring.
Qed.

(** The signal speed of the pure-hydro routine is the one of the claim. *)
Lemma vsignal_mon97_hydro (sph : Sph) (parti neibj : SphParticle) (dvdr : Q) :
  (GradhSph.vsignal_mon97 sph parti neibj dvdr
   == sound parti + sound neibj - beta_visc sph * alpha_visc sph * dvdr)%Q.
Proof. reflexivity. Qed.

(** C6 (the code departs from the claim).  Two particles of sound speed 1
    approach each other with [v_ij . r_ij = -1], under fixed-alpha
    viscosity with [alpha = 1/2] and [beta = 2].  The pure-hydro routine
    uses [v_sig = c_i + c_j - beta*alpha*dvdr = 3]; the hydro-gravity
    routine uses [c_i + c_j - beta*dvdr = 4], and the heating rates that
    the two routines deposit differ. *)
Theorem hydro_and_hydrograv_signal_speeds_differ :
  let sph := Samples.sph_with [] 0 in
  let nm := Samples.numerics in
  let parti := Samples.left in
  let neibj := Samples.right in
  let dvdr := DotProduct [-1; 0; 0]%Q [1; 0; 0]%Q 3 in
  let claimed :=
    (sound parti + sound neibj - beta_visc sph * alpha_visc sph * dvdr)%Q in
  avisc sph = mon97 /\ (dvdr < 0)%Q /\
  (GradhSph.vsignal_mon97 sph parti neibj dvdr == claimed)%Q /\
  (GradhSph.vsignal_mon97_grav sph parti neibj dvdr == 4)%Q /\
  ~ (GradhSph.vsignal_mon97_grav sph parti neibj dvdr == claimed)%Q /\
  (dudt (fst (GradhSph.hydro_pair nm 3 sph 1 [1; 0; 0]%Q parti neibj))
   == 3 # 16)%Q /\
  (dudt (fst (GradhSph.hydrograv_pair nm 3 sph parti neibj)) == 1 # 4)%Q.
Proof. cbv zeta. repeat split; vm_compute; congruence. Qed.

(** ** Momentum balance of the hydrodynamic pair force *)

Lemma hydro_pair_accelerations (nm : Numerics) (ndim : nat) (sph : Sph)
    (drmag : Q) (draux : vec) (parti neibj : SphParticle) :
  let out := GradhSph.hydro_pair nm ndim sph drmag draux parti neibj in
  m (fst out) = m parti /\ m (snd out) = m neibj /\
  exists paux, forall k, (k < ndim)%nat ->
    vget (a (fst out)) k
      = (vget (a parti) k + m neibj * vget draux k * paux)%Q /\
    vget (a (snd out)) k
      = (vget (a neibj) k - m parti * vget draux k * paux)%Q.
Proof.
  cbv zeta. unfold GradhSph.hydro_pair.
  destruct (Qltb _ 0);
    [destruct (decide (avisc sph = mon97));
       [|destruct (decide (avisc sph = mon97td))];
     (destruct (decide (acond sph = wadsley2008));
       [|destruct (decide (acond sph = price2008))])|];
    cbn -[vget vbuild]; (split; [reflexivity|]; split; [reflexivity|]);
    eexists; intros k Hk; rewrite !vget_vbuild by exact Hk;
    split; reflexivity.
Qed.

(** C7.  For a neighbour pair processed by [ComputeSphHydroForces] the
    masses are left alone and the increments of the two accelerations
    balance: [m_i * (a_i' - a_i) + m_j * (a_j' - a_j) = 0] in every
    component, so the pair leaves [m_i a_i + m_j a_j] unchanged. *)
Theorem hydro_pair_momentum_balance (nm : Numerics) (ndim : nat) (sph : Sph)
    (drmag : Q) (draux : vec) (parti neibj : SphParticle) (k : nat) :
  let out := GradhSph.hydro_pair nm ndim sph drmag draux parti neibj in
  (k < ndim)%nat ->
  m (fst out) = m parti /\ m (snd out) = m neibj /\
  (m parti * (vget (a (fst out)) k - vget (a parti) k)
   + m neibj * (vget (a (snd out)) k - vget (a neibj) k) == 0)%Q /\
  (m (fst out) * vget (a (fst out)) k + m (snd out) * vget (a (snd out)) k
   == m parti * vget (a parti) k + m neibj * vget (a neibj) k)%Q.
Proof.
  cbv zeta. intros Hk.
  destruct (hydro_pair_accelerations nm ndim sph drmag draux parti neibj)
    as (Hmi & Hmj & paux & Ha).
  destruct (Ha k Hk) as [Hai Haj].
  split; [exact Hmi|]. split; [exact Hmj|].
  rewrite Hmi, Hmj, Hai, Haj. split; ring.
Qed.

Lemma hydro_pair_momentum_balance_witness :
  let out :=
    GradhSph.hydro_pair Samples.numerics 3 (Samples.sph_with [] 0) 1
      [1; 0; 0]%Q Samples.left Samples.right in
  m (fst out) = m Samples.left /\ m (snd out) = m Samples.right /\
  (m Samples.left * (vget (a (fst out)) 0 - vget (a Samples.left) 0)
   + m Samples.right * (vget (a (snd out)) 0 - vget (a Samples.right) 0)
   == 0)%Q /\
  (m (fst out) * vget (a (fst out)) 0 + m (snd out) * vget (a (snd out)) 0
   == m Samples.left * vget (a Samples.left) 0
      + m Samples.right * vget (a Samples.right) 0)%Q.
Proof.
  apply (hydro_pair_momentum_balance Samples.numerics 3
           (Samples.sph_with [] 0) 1 [1; 0; 0]%Q Samples.left
           Samples.right 0).
  lia.
Defined.

Lemma sum_ma_insert (k : nat) (neibpart : list SphParticle) (j : nat)
    (p p' : SphParticle) :
  neibpart !! j = Some p ->
  (sum_ma k (<[j := p']> neibpart)
   == sum_ma k neibpart - m p * vget (a p) k + m p' * vget (a p') k)%Q.
Proof.
  revert j. induction neibpart as [|x l IH]; intros j Hj.
  - discriminate.
  - destruct j as [|j].
    + cbn in Hj. injection Hj as ->.
      change (<[0%nat := p']> (p :: l)) with (p' :: l).
      unfold sum_ma. cbn [fold_right]. ring.
    + cbn in Hj.
      change (<[S j := p']> (x :: l)) with (x :: <[j := p']> l).
      unfold sum_ma in *. cbn [fold_right]. rewrite (IH j Hj). ring.
Qed.

(** X15.  The whole of [ComputeSphHydroForces] leaves every component of
    the total of [m * a] over [parti] and [neibpart] unchanged. *)
Corollary ComputeSphHydroForces_momentum (nm : Numerics) (ndim : nat)
    (sph : Sph) (i Nneib : Z) (neiblist : list Z) (drmag invdrmag dr : list Q)
    (parti : SphParticle) (neibpart : list SphParticle)
    (st' : SphParticle * list SphParticle) (k : nat) :
  GradhSph.ComputeSphHydroForces nm ndim sph i Nneib neiblist drmag invdrmag
    dr parti neibpart = Done st' ->
  (k < ndim)%nat ->
  (momentum_rate k st' == momentum_rate k (parti, neibpart))%Q.
Proof.
  unfold GradhSph.ComputeSphHydroForces. intros Hrun Hk.
  destruct (Z_le_gt_dec 0 Nneib) as [Hpos|Hneg].
  2:{ rewrite for_range_empty in Hrun by lia. injection Hrun as <-.
      reflexivity. }
  apply (for_range_invariant
           (fun _ st => momentum_rate k st
                        == momentum_rate k (parti, neibpart))%Q)
    in Hrun; [exact Hrun | exact Hpos | | reflexivity].
  intros jj [pi np] [pi' np'] _ Hinv Hbody. cbn [fst snd] in Hbody.
  apply bind_Done in Hbody as (j & _ & Hbody).
  apply bind_Done in Hbody as (d & _ & Hbody).
  apply bind_Done in Hbody as (neibj & Hnj & Hbody).
  apply bind_Done in Hbody as (draux & _ & Hbody).
  apply bind_Done in Hbody as (np1 & Hwr & Hbody).
  injection Hbody as <- <-.
  apply rd_Done in Hnj as [Hj Hnj]. apply wr_Done in Hwr as [_ ->].
  destruct (hydro_pair_accelerations nm ndim sph d draux pi neibj)
    as (Hmi & Hmj & paux & Ha).
  destruct (Ha k Hk) as [Hai Haj].
  rewrite <- Hinv. unfold momentum_rate. cbn [fst snd].
  rewrite (sum_ma_insert k np (Z.to_nat j) neibj _ Hnj).
  rewrite Hmi, Hmj, Hai, Haj. ring.
Qed.

(** ** The h-rho iteration *)

Lemma only_bounds_bind {A B : Type} (c : result A) (f : A -> result B) :
  only_bounds c -> (forall x, only_bounds (f x)) -> only_bounds (c ≫= f).
Proof. destruct c; cbn; auto. Qed.

Lemma only_bounds_rd {A : Type} (arr : list A) (i : Z) :
  only_bounds (rd arr i).
Proof.
  unfold rd. destruct (i <? 0); [exact I|].
  destruct (arr !! Z.to_nat i); exact I.
Qed.

Lemma only_bounds_wr {A : Type} (arr : list A) (i : Z) (x : A) :
  only_bounds (wr arr i x).
Proof. unfold wr. destruct (_ && _); exact I. Qed.

Lemma only_bounds_for_upto {S : Type} (body : Z -> S -> result S)
    (count : nat) :
  (forall i s, only_bounds (body i s)) ->
  forall lo s, only_bounds (for_upto count lo body s).
Proof.
  intros Hbody. induction count as [|c IH]; intros lo s; cbn; [exact I|].
  apply only_bounds_bind; auto.
Qed.

Lemma only_bounds_for_range {S : Type} (body : Z -> S -> result S)
    (lo hi : Z) (s : S) :
  (forall i s, only_bounds (body i s)) ->
  only_bounds (for_range lo hi body s).
Proof. intros Hbody. now apply only_bounds_for_upto. Qed.

Ltac bounds :=
  repeat first
    [ exact I
    | apply only_bounds_rd
    | apply only_bounds_wr
    | apply only_bounds_for_range; intros
    | apply only_bounds_bind; [|intros]
    | match goal with
      | |- only_bounds (if ?b then _ else _) => destruct b
      | |- only_bounds (Done _) => exact I
      end ].

Lemma update_h_cases (nm : Numerics) (ndim : nat) (sph : Sph)
    (s : HRho.hloop) :
  (HRho.iteration s < 5 * HRho.iteration_max /\
   exists s', HRho.update_h nm ndim sph s = Done s' /\
              HRho.iteration s' = HRho.iteration s) \/
  (5 * HRho.iteration_max <= HRho.iteration s /\
   HRho.update_h nm ndim sph s
   = Raised "Problem with convergence of h-rho iteration").
Proof.
  unfold HRho.update_h, HRho.iteration_max.
  destruct (Z.ltb_spec (HRho.iteration s) 30).
  { left. split; [lia|]. eexists. split; reflexivity. }
  destruct (Z.eqb_spec (HRho.iteration s) 30).
  { left. split; [lia|]. eexists. split; reflexivity. }
  destruct (Z.ltb_spec (HRho.iteration s) (5 * 30)).
  { left. split; [lia|]. eexists. split; reflexivity. }
  right. split; [lia | reflexivity].
Qed.

Section HLoop.

Variable density_pass : HRho.hloop -> result HRho.hloop.
Variable nm : Numerics.
Variable ndim : nat.
Variable sph : Sph.
Variable hmax : Q.

Hypothesis density_pass_counts : forall s s1,
  density_pass s = Done s1 -> HRho.iteration s1 = HRho.iteration s + 1.
Hypothesis density_pass_bounds : forall s, only_bounds (density_pass s).

Let h_iteration := HRho.h_iteration density_pass nm ndim sph hmax.
Let h_loop := HRho.h_loop density_pass nm ndim sph hmax.
Let passes := passes density_pass nm ndim sph hmax.

Lemma h_iteration_counts (s s' : HRho.hloop) (next : HRho.hnext) :
  h_iteration s = Done (s', next) ->
  HRho.iteration s' = HRho.iteration s + 1.
Proof.
  unfold h_iteration, HRho.h_iteration. intros Hrun.
  apply bind_Done in Hrun as (s1 & Hdp & Hrun).
  apply density_pass_counts in Hdp.
  destruct (HRho.converged nm ndim sph s1).
  { injection Hrun as <- _. exact Hdp. }
  apply bind_Done in Hrun as (s2 & Hup & Hrun).
  destruct (update_h_cases nm ndim sph s1) as [(_ & s2' & Hs2 & Hit) | [_ Hr]];
    [|congruence].
  assert (s2' = s2) as -> by congruence.
  destruct (Qltb hmax _); [|destruct (_ && _)];
    injection Hrun as <- _; lia.
Qed.

Lemma passes_counts (k : nat) : forall s sk,
  passes k s = Some sk ->
  HRho.iteration sk = HRho.iteration s + Z.of_nat k.
Proof.
  induction k as [|k IH]; intros s sk Hp.
  - cbn in Hp. injection Hp as <-. lia.
  - cbn in Hp. fold h_iteration in Hp.
    destruct (h_iteration s) as [[s' []]| | |] eqn:Hit; try discriminate.
    apply h_iteration_counts in Hit. fold passes in Hp.
    apply IH in Hp. lia.
Qed.

(** Passes that go on only consume fuel. *)
Lemma h_loop_after_passes (k : nat) : forall fuel s sk,
  passes k s = Some sk -> h_loop (k + fuel) s = h_loop fuel sk.
Proof.
  induction k as [|k IH]; intros fuel s sk Hp.
  - cbn in Hp. now injection Hp as <-.
  - cbn in Hp. fold h_iteration in Hp.
    destruct (h_iteration s) as [[s' []]| | |] eqn:Hit; try discriminate.
    fold passes in Hp. cbn. fold h_iteration. rewrite Hit. cbn.
    fold h_loop. now apply IH.
Qed.

(** How the loop can end, or fail to end within the fuel. *)
Lemma h_loop_ends (fuel : nat) : forall s,
  (exists k sk, (k < fuel)%nat /\ passes k s = Some sk /\
     h_loop fuel s = h_iteration sk /\
     forall s', h_iteration sk <> Done (s', HRho.hcontinue)) \/
  (exists sk, passes fuel s = Some sk /\ h_loop fuel s = Unfinished).
Proof.
  induction fuel as [|fuel IH]; intros s.
  - right. exists s. split; reflexivity.
  - destruct (h_iteration s) as [[s' next]| | |] eqn:Hit.
    + destruct next.
      * destruct (IH s') as [(k & sk & Hk & Hp & Hl & Hn) | (sk & Hp & Hl)].
        -- left. exists (S k), sk. split; [lia|].
           split; [cbn; fold h_iteration; now rewrite Hit|].
           split; [|exact Hn].
           cbn. fold h_iteration. rewrite Hit. exact Hl.
        -- right. exists sk.
           split; [cbn; fold h_iteration; now rewrite Hit|].
           cbn. fold h_iteration. rewrite Hit. exact Hl.
      * left. exists O, s. split; [lia|]. split; [reflexivity|].
        split; [|congruence].
        cbn. fold h_iteration. now rewrite Hit.
      * left. exists O, s. split; [lia|]. split; [reflexivity|].
        split; [|congruence].
        cbn. fold h_iteration. now rewrite Hit.
      * left. exists O, s. split; [lia|]. split; [reflexivity|].
        split; [|congruence].
        cbn. fold h_iteration. now rewrite Hit.
    + left. exists O, s. split; [lia|]. split; [reflexivity|].
      split; [|congruence]. cbn. fold h_iteration. now rewrite Hit.
    + left. exists O, s. split; [lia|]. split; [reflexivity|].
      split; [|congruence]. cbn. fold h_iteration. now rewrite Hit.
    + left. exists O, s. split; [lia|]. split; [reflexivity|].
      split; [|congruence]. cbn. fold h_iteration. now rewrite Hit.
Qed.

(** The last of [S k] passes that all went on. *)
Lemma passes_last (k : nat) : forall s sk,
  passes (S k) s = Some sk ->
  exists sl, passes k s = Some sl /\
             h_iteration sl = Done (sk, HRho.hcontinue).
Proof.
  induction k as [|k IH]; intros s sk Hp.
  - cbn in Hp. fold h_iteration in Hp.
    destruct (h_iteration s) as [[s' []]| | |] eqn:Hit; try discriminate.
    injection Hp as <-. exists s. split; [reflexivity | exact Hit].
  - change (passes (S (S k)) s) with
      (match h_iteration s with
       | Done (s', HRho.hcontinue) => passes (S k) s'
       | _ => None
       end) in Hp.
    destruct (h_iteration s) as [[s' []]| | |] eqn:Hit; try discriminate.
    destruct (IH s' sk Hp) as (sl & Hpl & Hitl).
    exists sl. split; [|exact Hitl].
    cbn. fold h_iteration. rewrite Hit. exact Hpl.
Qed.

(** A pass goes on to the next one only below the iteration cap. *)
Lemma h_iteration_continue_below_cap (s s' : HRho.hloop) :
  h_iteration s = Done (s', HRho.hcontinue) ->
  HRho.iteration s + 1 < 5 * HRho.iteration_max.
Proof.
  unfold h_iteration, HRho.h_iteration. intros Hrun.
  apply bind_Done in Hrun as (s1 & Hdp & Hrun).
  apply density_pass_counts in Hdp.
  destruct (HRho.converged nm ndim sph s1); [discriminate|].
  apply bind_Done in Hrun as (s2 & Hup & _).
  destruct (update_h_cases nm ndim sph s1) as [(Hlt & _) | [_ Hr]];
    [lia | congruence].
Qed.

(** The loop ends within [5 * iteration_max] passes. *)
Lemma h_loop_finishes (s : HRho.hloop) :
  0 <= HRho.iteration s < 5 * HRho.iteration_max ->
  h_loop (Z.to_nat (5 * HRho.iteration_max - HRho.iteration s)) s
  <> Unfinished.
Proof.
  intros Hs Hun.
  set (fuel := Z.to_nat (5 * HRho.iteration_max - HRho.iteration s)) in *.
  destruct (h_loop_ends fuel s) as [(k & sk & Hk & Hp & Hl & Hn) | (sk & Hp & _)].
  - rewrite Hl in Hun. unfold h_iteration, HRho.h_iteration in Hun.
    pose proof (density_pass_bounds sk) as Hb.
    destruct (density_pass sk) as [s1| | |];
      cbn -[HRho.update_h HRho.converged] in *; try easy.
    destruct (HRho.converged nm ndim sph s1); [discriminate|].
    destruct (update_h_cases nm ndim sph s1) as [(_ & s2 & Hup & _) | [_ Hup]];
      rewrite Hup in Hun; cbn in Hun; [|discriminate].
    destruct (Qltb hmax _); [|destruct (_ && _)]; discriminate.
  - destruct fuel as [|fuel'] eqn:Hfuel.
    + unfold HRho.iteration_max in *. lia.
    + (* the last of the passes went on from a state at the cap *)
      destruct (passes_last fuel' s sk Hp) as (sl & Hpl & Hitl).
      apply passes_counts in Hpl.
      apply h_iteration_continue_below_cap in Hitl.
      unfold HRho.iteration_max in *. lia.
Qed.

(** [return 0]: a pass that does not pass the tolerance test and moves
    [h] above [hmax] ends the loop. *)
Lemma h_loop_return0 (fuel k : nat) (s sk s1 s2 : HRho.hloop) :
  (k < fuel)%nat ->
  passes k s = Some sk ->
  density_pass sk = Done s1 ->
  HRho.converged nm ndim sph s1 = false ->
  HRho.update_h nm ndim sph s1 = Done s2 ->
  Qltb hmax (h (HRho.parti s2)) = true ->
  h_loop fuel s = Done (s2, HRho.hreturn0).
Proof.
  intros Hk Hp Hdp Hconv Hup Hh.
  replace fuel with (k + S (fuel - S k))%nat by lia.
  rewrite (h_loop_after_passes k _ s sk Hp).
  cbn -[HRho.update_h HRho.converged]. unfold HRho.h_iteration.
  rewrite Hdp. cbn -[HRho.update_h HRho.converged].
  rewrite Hconv, Hup. cbn. rewrite Hh. reflexivity.
Qed.

(** [raise]: the loop raises exactly when the last pass the cap allows
    does not pass the tolerance test. *)
Lemma h_loop_raises (s : HRho.hloop) (msg : string) :
  HRho.iteration s = 0 ->
  h_loop (Z.to_nat (5 * HRho.iteration_max)) s = Raised msg <->
  msg = "Problem with convergence of h-rho iteration" /\
  exists sk s1,
    passes (Z.to_nat (5 * HRho.iteration_max - 1)) s = Some sk /\
    density_pass sk = Done s1 /\
    HRho.converged nm ndim sph s1 = false.
Proof.
  intros Hs. split.
  - intros Hr.
    destruct (h_loop_ends (Z.to_nat (5 * HRho.iteration_max)) s)
      as [(k & sk & Hk & Hp & Hl & Hn) | (sk & Hp & Hl)]; [|congruence].
    rewrite Hl in Hr. unfold h_iteration, HRho.h_iteration in Hr.
    pose proof (density_pass_bounds sk) as Hb.
    destruct (density_pass sk) as [s1| | |] eqn:Hdp;
      cbn -[HRho.update_h HRho.converged] in *; try easy.
    destruct (HRho.converged nm ndim sph s1) eqn:Hconv; [discriminate|].
    apply density_pass_counts in Hdp as Hit.
    apply passes_counts in Hp as Hitk.
    destruct (update_h_cases nm ndim sph s1)
      as [(_ & s2 & Hup & _) | [Hcap Hup]]; rewrite Hup in Hr; cbn in Hr.
    { destruct (Qltb hmax _); [|destruct (_ && _)]; discriminate. }
    injection Hr as <-. split; [reflexivity|].
    assert (k = Z.to_nat (5 * HRho.iteration_max - 1)) as <-
      by (unfold HRho.iteration_max in *; lia).
    eauto.
  - intros (-> & sk & s1 & Hp & Hdp & Hconv).
    replace (Z.to_nat (5 * HRho.iteration_max))
      with (Z.to_nat (5 * HRho.iteration_max - 1) + 1)%nat
      by (unfold HRho.iteration_max; lia).
    rewrite (h_loop_after_passes _ _ s sk Hp).
    apply density_pass_counts in Hdp as Hit.
    apply passes_counts in Hp as Hitk.
    cbn -[HRho.update_h HRho.converged]. unfold HRho.h_iteration.
    rewrite Hdp. cbn -[HRho.update_h HRho.converged]. rewrite Hconv.
    destruct (update_h_cases nm ndim sph s1)
      as [(Hlt & _) | [_ ->]]; [|reflexivity].
    unfold HRho.iteration_max in *. lia.
Qed.

End HLoop.

(** The two density passes count the iteration and do not raise. *)
Lemma GradhSph_density_pass_counts (ndim : nat) (sph : Sph) (Nneib : Z)
    (m drsqd : list Q) (s s1 : HRho.hloop) :
  GradhSph.density_pass ndim sph Nneib m drsqd s = Done s1 ->
  HRho.iteration s1 = HRho.iteration s + 1.
Proof.
  unfold GradhSph.density_pass. intros Hrun.
  apply bind_Done in Hrun as (p & _ & Hrun).
  injection Hrun as <-. reflexivity.
Qed.

Lemma GradhSph_density_pass_bounds (ndim : nat) (sph : Sph) (Nneib : Z)
    (m drsqd : list Q) (s : HRho.hloop) :
  only_bounds (GradhSph.density_pass ndim sph Nneib m drsqd s).
Proof. unfold GradhSph.density_pass, GradhSph.density_sum. bounds. Qed.

Lemma SM2012Sph_density_pass_counts (ndim : nat) (sph : Sph) (Nneib : Z)
    (m mu drsqd : list Q) (s s1 : HRho.hloop) :
  SM2012Sph.density_pass ndim sph Nneib m mu drsqd s = Done s1 ->
  HRho.iteration s1 = HRho.iteration s + 1.
Proof.
  unfold SM2012Sph.density_pass. intros Hrun.
  apply bind_Done in Hrun as (p & _ & Hrun).
  injection Hrun as <-. reflexivity.
Qed.

Lemma SM2012Sph_density_pass_bounds (ndim : nat) (sph : Sph) (Nneib : Z)
    (m mu drsqd : list Q) (s : HRho.hloop) :
  only_bounds (SM2012Sph.density_pass ndim sph Nneib m mu drsqd s).
Proof. unfold SM2012Sph.density_pass, SM2012Sph.density_sum. bounds. Qed.

(** The statements after the loop do not raise. *)
Lemma GradhSph_finish_h_bounds (nm : Numerics) (ndim : nat) (sph : Sph)
    (Nneib : Z) (hmax : Q) (drsqd gpot_ : list Q) (nbody : Nbody)
    (s : HRho.hloop) :
  only_bounds (GradhSph.finish_h nm ndim sph Nneib hmax drsqd gpot_ nbody s).
Proof.
  unfold GradhSph.finish_h, HRho.potmin_check, HRho.chi_sum. bounds.
Qed.

Lemma SM2012Sph_finish_h_bounds (nm : Numerics) (ndim : nat) (sph : Sph)
    (Nneib : Z) (hmax : Q) (drsqd gpot_ : list Q) (nbody : Nbody)
    (s : HRho.hloop) :
  only_bounds (SM2012Sph.finish_h nm ndim sph Nneib hmax drsqd gpot_ nbody s).
Proof.
  unfold SM2012Sph.finish_h, HRho.potmin_check, HRho.chi_sum. bounds.
Qed.

(** The exit codes of a routine built from the shared loop followed by
    statements that do not raise. *)
Lemma h_exit_codes_of_loop (density_pass : HRho.hloop -> result HRho.hloop)
    (finish_h : HRho.hloop -> result (Z * SphParticle))
    (nm : Numerics) (ndim : nat) (sph : Sph) (hmax : Q) (start : HRho.hloop) :
  (forall s s1, density_pass s = Done s1 ->
                HRho.iteration s1 = HRho.iteration s + 1) ->
  (forall s, only_bounds (density_pass s)) ->
  (forall s, only_bounds (finish_h s)) ->
  HRho.iteration start = 0 ->
  h_exit_codes density_pass nm ndim sph hmax start
    (out ← HRho.h_loop density_pass nm ndim sph hmax
             (Z.to_nat (5 * HRho.iteration_max)) start;
     match snd out with
     | HRho.hreturn0 => Done (0, HRho.parti (fst out))
     | _ => finish_h (fst out)
     end).
Proof.
  intros Hcount Hdp Hfin Hstart. split; [|split].
  - intros k sk s1 s2 Hp Hd Hconv Hup Hh.
    rewrite (h_loop_return0 density_pass nm ndim sph hmax
               (Z.to_nat (5 * HRho.iteration_max)) k start sk s1 s2);
      auto.
    apply Hcount in Hd.
    apply (passes_counts density_pass nm ndim sph hmax Hcount) in Hp.
    destruct (update_h_cases nm ndim sph s1) as [(Hlt & _) | [_ Hr]];
      [|congruence].
    unfold HRho.iteration_max in *. lia.
  - intros msg.
    rewrite <- (h_loop_raises density_pass nm ndim sph hmax Hcount Hdp
                  start msg Hstart).
    destruct (HRho.h_loop density_pass nm ndim sph hmax _ start)
      as [[s next]| | |]; cbn;
      try (split; intros H; try discriminate; injection H as ->; reflexivity).
    pose proof (Hfin s) as Hb.
    destruct next; cbn; try (split; discriminate);
      destruct (finish_h s); cbn in *; try tauto; split; discriminate.
  - pose proof (h_loop_finishes density_pass nm ndim sph hmax Hcount Hdp
                  start) as Hnot.
    rewrite Hstart, Z.sub_0_r in Hnot.
    destruct (HRho.h_loop density_pass nm ndim sph hmax _ start)
      as [[s next]| | |]; cbn; try easy.
    + pose proof (Hfin s) as Hb.
      destruct next; cbn; try easy;
        destruct (finish_h s); cbn in *; easy.
    + intros _. apply Hnot; [unfold HRho.iteration_max; lia | reflexivity].
Qed.

(** C3 (as stated, refuted).  Entered with [h = 1] and [hmax = 7/10], both
    routines make their first pass with [h] above [hmax]; the pass fails
    the tolerance test ([|1 - 3/5| = 2/5] is not below [3/10]), and yet
    neither routine returns 0: the pass moves [h] to [3/5], the second pass
    meets the tolerance, and the routine returns 1. *)
Lemma ComputeH_entered_above_hmax_returns_1 :
  let sph := Cases.tolerant in
  let hmax := (7 # 10)%Q in
  let start := HRho.mkhloop Cases.wide 0 0 hmax 0 in
  exists s1 p p',
    GradhSph.density_pass 1 sph 1 Samples.masses Samples.distances_sqd start
    = Done s1 /\
    (hmax < h (HRho.parti s1))%Q /\
    HRho.converged Samples.numerics 1 sph s1 = false /\
    GradhSph.ComputeH Samples.numerics 1 sph 0 1 hmax Samples.masses
      Samples.masses Samples.distances_sqd Samples.potentials Cases.wide
      Samples.no_stars
    = Done (1, p) /\
    SM2012Sph.ComputeH Samples.numerics 1 sph 0 1 hmax Samples.masses
      Samples.masses Samples.distances_sqd Samples.potentials Cases.wide
      Samples.no_stars
    = Done (1, p').
Proof.
  cbv zeta. do 3 eexists.
  split; [vm_compute; reflexivity|].
  split; [vm_compute; reflexivity|].
  split; [vm_compute; reflexivity|].
  split; vm_compute; reflexivity.
Qed.

(** The statements after the loop compare [h] with [hmax] once more, and
    answer with another code.  A particle inside a sink of smoothing
    length [3/2], entered with [h = 1] and [hmax = 5/4]: the first pass
    fails the tolerance test and moves [h] to [3/5], which ends the loop;
    the clamp to the smoothing length of the sink then raises [h] to [3/2],
    above [hmax], and [GradhSph::ComputeH] returns -1, where the comment
    on that statement announces the code 0. *)
Lemma ComputeH_sink_clamp_returns_minus_1 :
  let sph := Cases.tolerant in
  let hmax := (5 # 4)%Q in
  let start := HRho.mkhloop Cases.in_sink 0 (hmin_sink sph) hmax 0 in
  exists s1 s2 p,
    GradhSph.density_pass 1 sph 1 Samples.masses Samples.distances_sqd start
    = Done s1 /\
    HRho.converged Samples.numerics 1 sph s1 = false /\
    HRho.h_iteration
      (GradhSph.density_pass 1 sph 1 Samples.masses Samples.distances_sqd)
      Samples.numerics 1 sph hmax start
    = Done (s2, HRho.hleave) /\
    GradhSph.ComputeH Samples.numerics 1 sph 0 1 hmax Samples.masses
      Samples.masses Samples.distances_sqd Samples.potentials Cases.in_sink
      Samples.no_stars
    = Done (-1, p) /\
    (h p == 3 # 2)%Q /\ (hmax < h p)%Q.
Proof.
  cbv zeta. do 3 eexists.
  split; [vm_compute; reflexivity|].
  split; [vm_compute; reflexivity|].
  split; [vm_compute; reflexivity|].
  split; [vm_compute; reflexivity|].
  split; vm_compute; reflexivity.
Qed.

(** C3 (amended).  [GradhSph::ComputeH] and [SM2012Sph::ComputeH] return 0
    (they do not raise) whenever a pass of the loop fails the tolerance
    test and then moves [h] to a value above [hmax]: the test against
    [hmax] is made on the new [h] at the end of a pass, not on the [h] the
    pass was made with, so that the [h] the routine is entered with is not
    tested.  They raise the h-rho error exactly when pass [5 * 30 = 150] is
    reached and fails the tolerance test; and the loop never runs beyond
    150 passes. *)
Theorem ComputeH_exit_codes (nm : Numerics) (ndim : nat) (sph : Sph)
    (i Nneib : Z) (hmax : Q) (m mu drsqd gpot_ : list Q)
    (parti : SphParticle) (nbody : Nbody) :
  h_exit_codes (GradhSph.density_pass ndim sph Nneib m drsqd) nm ndim sph
    hmax
    (HRho.mkhloop parti 0
       (if negb (sinkid parti =? -1) then hmin_sink sph else 0%Q) hmax 0%Q)
    (GradhSph.ComputeH nm ndim sph i Nneib hmax m mu drsqd gpot_ parti
       nbody) /\
  h_exit_codes (SM2012Sph.density_pass ndim sph Nneib m mu drsqd) nm ndim
    sph hmax
    (HRho.mkhloop parti 0 0%Q hmax 0%Q)
    (SM2012Sph.ComputeH nm ndim sph i Nneib hmax m mu drsqd gpot_ parti
       nbody) /\
  5 * HRho.iteration_max = 150.
Proof.
  split; [|split; [|reflexivity]].
  - apply (h_exit_codes_of_loop _
             (GradhSph.finish_h nm ndim sph Nneib hmax drsqd gpot_ nbody)).
    + apply GradhSph_density_pass_counts.
    + apply GradhSph_density_pass_bounds.
    + apply GradhSph_finish_h_bounds.
    + reflexivity.
  - apply (h_exit_codes_of_loop _
             (SM2012Sph.finish_h nm ndim sph Nneib hmax drsqd gpot_ nbody)).
    + apply SM2012Sph_density_pass_counts.
    + apply SM2012Sph_density_pass_bounds.
    + apply SM2012Sph_finish_h_bounds.
    + reflexivity.
Qed.

Lemma ComputeH_exit_codes_witness :
  GradhSph.ComputeH Samples.numerics 1 (Samples.sph_with [] 0) 0 1 (1#5)
    Samples.masses Samples.masses Samples.distances_sqd
    Samples.potentials Samples.part0 Samples.no_stars
  = Done (0, HRho.parti Samples.moved) /\
  GradhSph.ComputeH Samples.numerics 1 Samples.stubborn 0 1 1
    Samples.masses Samples.masses Samples.distances_sqd
    Samples.potentials Samples.half Samples.no_stars
  = Raised "Problem with convergence of h-rho iteration".
Proof.
  split.
  - apply (proj1 (proj1 (ComputeH_exit_codes Samples.numerics 1
             (Samples.sph_with [] 0) 0 1 (1#5) Samples.masses
             Samples.masses Samples.distances_sqd Samples.potentials
             Samples.part0 Samples.no_stars))
           0%nat Samples.start Samples.summed Samples.moved);
      vm_compute; reflexivity.
  - apply (proj1 (proj2 (proj1 (ComputeH_exit_codes Samples.numerics 1
             Samples.stubborn 0 1 1 Samples.masses Samples.masses
             Samples.distances_sqd Samples.potentials Samples.half
             Samples.no_stars)))).
    split; [reflexivity|].
    exists Samples.last_pass, Samples.last_summed.
    split; [|split]; vm_compute; reflexivity.
Defined.

(** ** The bisection phase *)

(** C4 (as stated, refuted).  In pass 40 with bracket [0, 2], a particle
    with [rho * h^d = 10] above [h_fac^d * m = 6/5] does not get [h = 1] as
    the new lower bound: [h] becomes the new upper bound and the next [h]
    is [1/2], the midpoint of [0, 1]. *)
Lemma bisection_large_density_lowers_upper_bound :
  let sph := Samples.sph_with [] 0 in
  let s := Samples.bisecting in
  let p := HRho.parti s in
  exists s',
    HRho.update_h Samples.numerics 1 sph s = Done s' /\
    HRho.iteration_max < HRho.iteration s < 5 * HRho.iteration_max /\
    (h_fac sph ^ 1 * m p < rho p * h p ^ 1)%Q /\
    ~ (HRho.h_lower_bound s' == h p)%Q /\
    (HRho.h_lower_bound s' == HRho.h_lower_bound s)%Q /\
    (HRho.h_upper_bound s' == h p)%Q /\
    (h (HRho.parti s') == 1 # 2)%Q.
Proof.
  cbv zeta. eexists. split; [vm_compute; reflexivity|].
  repeat split; vm_compute; congruence.
Qed.

Lemma h_too_large_spec (nm : Numerics) (ndim : nat) (sph : Sph)
    (s : HRho.hloop) :
  HRho.h_too_large nm ndim sph s = true <->
  (rho (HRho.parti s) < small_number nm)%Q \/
  (h_fac sph ^ Z.of_nat ndim * m (HRho.parti s)
   < rho (HRho.parti s) * h (HRho.parti s) ^ Z.of_nat ndim)%Q.
Proof.
  unfold HRho.h_too_large. cbv zeta.
  rewrite orb_true_iff, !Qltb_lt. reflexivity.
Qed.

(** C4 (amended).  In a pass beyond number [iteration_max] and below
    number [5 * iteration_max] that fails the tolerance test, the test
    [rho < small_number || rho * h^d > h_fac^d * m] classifies the current
    [h] as too large: when it holds [h] becomes the new upper bound of the
    bracket, otherwise the new lower bound; the other bound stays, and [h]
    is set to the midpoint of the new bracket. *)
Theorem bisection_step (density_pass : HRho.hloop -> result HRho.hloop)
    (nm : Numerics) (ndim : nat) (sph : Sph) (hmax : Q)
    (s0 s : HRho.hloop) :
  density_pass s0 = Done s ->
  HRho.iteration_max < HRho.iteration s < 5 * HRho.iteration_max ->
  HRho.converged nm ndim sph s = false ->
  exists s' next,
    HRho.h_iteration density_pass nm ndim sph hmax s0 = Done (s', next) /\
    (HRho.h_too_large nm ndim sph s = true <->
     (rho (HRho.parti s) < small_number nm)%Q \/
     (h_fac sph ^ Z.of_nat ndim * m (HRho.parti s)
      < rho (HRho.parti s) * h (HRho.parti s) ^ Z.of_nat ndim)%Q) /\
    (HRho.h_too_large nm ndim sph s = true ->
     HRho.h_upper_bound s' = h (HRho.parti s) /\
     HRho.h_lower_bound s' = HRho.h_lower_bound s) /\
    (HRho.h_too_large nm ndim sph s = false ->
     HRho.h_lower_bound s' = h (HRho.parti s) /\
     HRho.h_upper_bound s' = HRho.h_upper_bound s) /\
    h (HRho.parti s')
    = ((1#2) * (HRho.h_lower_bound s' + HRho.h_upper_bound s'))%Q.
Proof.
  intros Hdp Hit Hconv.
  assert (Hup : HRho.update_h nm ndim sph s
    = Done (HRho.mkhloop
        (set_h ((1#2) *
                  ((if HRho.h_too_large nm ndim sph s
                    then HRho.h_lower_bound s else h (HRho.parti s))
                   + (if HRho.h_too_large nm ndim sph s
                      then h (HRho.parti s) else HRho.h_upper_bound s)))%Q
               (HRho.parti s))
        (HRho.iteration s)
        (if HRho.h_too_large nm ndim sph s
         then HRho.h_lower_bound s else h (HRho.parti s))
        (if HRho.h_too_large nm ndim sph s
         then h (HRho.parti s) else HRho.h_upper_bound s)
        (HRho.invhsqd s))).
  { unfold HRho.update_h, HRho.iteration_max in *.
    destruct (Z.ltb_spec (HRho.iteration s) 30); [lia|].
    destruct (Z.eqb_spec (HRho.iteration s) 30); [lia|].
    destruct (Z.ltb_spec (HRho.iteration s) (5 * 30)); [|lia].
    reflexivity. }
  unfold HRho.h_iteration. rewrite Hdp.
  cbn -[HRho.update_h HRho.converged]. rewrite Hconv, Hup.
  cbn -[HRho.h_too_large].
  set (s' := HRho.mkhloop _ _ _ _ _).
  assert (Hs' : exists next,
    (if Qltb hmax (h (HRho.parti s'))
     then Done (s', HRho.hreturn0)
     else if Qltb (HRho.h_lower_bound s') (h (HRho.parti s'))
             && Qltb (h (HRho.parti s')) (HRho.h_upper_bound s')
          then Done (s', HRho.hcontinue) else Done (s', HRho.hleave))
    = Done (s', next)).
  { destruct (Qltb hmax _); [|destruct (_ && _)]; eauto. }
  destruct Hs' as [next Hnext]. exists s', next.
  split; [exact Hnext|]. split; [apply h_too_large_spec|].
  subst s'. cbn -[HRho.h_too_large].
  destruct (HRho.h_too_large nm ndim sph s);
    repeat split; intros; try discriminate; reflexivity.
Qed.

Lemma bisection_step_witness :
  exists s' next,
    HRho.h_iteration (fun s => Done Samples.bisecting) Samples.numerics 1
      (Samples.sph_with [] 0) 2 Samples.bisecting = Done (s', next) /\
    (HRho.h_too_large Samples.numerics 1 (Samples.sph_with [] 0)
       Samples.bisecting = true <->
     (rho (HRho.parti Samples.bisecting)
      < small_number Samples.numerics)%Q \/
     (h_fac (Samples.sph_with [] 0) ^ Z.of_nat 1
        * m (HRho.parti Samples.bisecting)
      < rho (HRho.parti Samples.bisecting)
        * h (HRho.parti Samples.bisecting) ^ Z.of_nat 1)%Q) /\
    (HRho.h_too_large Samples.numerics 1 (Samples.sph_with [] 0)
       Samples.bisecting = true ->
     HRho.h_upper_bound s' = h (HRho.parti Samples.bisecting) /\
     HRho.h_lower_bound s' = HRho.h_lower_bound Samples.bisecting) /\
    (HRho.h_too_large Samples.numerics 1 (Samples.sph_with [] 0)
       Samples.bisecting = false ->
     HRho.h_lower_bound s' = h (HRho.parti Samples.bisecting) /\
     HRho.h_upper_bound s' = HRho.h_upper_bound Samples.bisecting) /\
    h (HRho.parti s')
    = ((1#2) * (HRho.h_lower_bound s' + HRho.h_upper_bound s'))%Q.
Proof.
  apply (bisection_step (fun s => Done Samples.bisecting) Samples.numerics
           1 (Samples.sph_with [] 0) 2 Samples.bisecting
           Samples.bisecting).
  - reflexivity.
  - vm_compute. split; reflexivity.
  - vm_compute. reflexivity.
Defined.

(** ** The league calendar *)

(** *** Arithmetic of Berger's rule *)

Lemma mod_eq_of_divide (M x y : Z) :
  (M | x - y) -> x mod M = y mod M.
Proof.
  intros [c Hc]. replace x with (y + c * M) by lia.
  apply Z_mod_plus_full.
Qed.

Lemma divide_of_mod_eq (M x y : Z) :
  M <> 0 -> x mod M = y mod M -> (M | x - y).
Proof.
  intros HM Heq. exists (x / M - y / M).
  pose proof (Z.div_mod x M HM). pose proof (Z.div_mod y M HM). lia.
Qed.

Lemma odd_divide_double (k x : Z) :
  (2 * k - 1 | 2 * x) -> (2 * k - 1 | x).
Proof.
  intros [c Hc]. exists (c * k - x).
  replace ((c * k - x) * (2 * k - 1)) with (c * (2 * k - 1) * k - x * (2 * k - 1)) by ring.
  rewrite <- Hc. ring.
Qed.

Lemma small_multiple (M x : Z) : (M | x) -> - M < x < M -> x = 0.
Proof.
  intros [c Hc] Hx. subst x. assert (c = 0) by nia. subst. lia.
Qed.

Lemma peer_range (k t a : Z) :
  1 <= k -> 0 <= t < 2 * k - 1 -> 0 <= a < 2 * k ->
  0 <= peer (2 * k) t a < 2 * k.
Proof.
  intros Hk Ht Ha. unfold peer.
  destruct (Z.eqb_spec a (2 * k - 1)); [lia|].
  destruct (Z.eqb_spec a t); [lia|].
  pose proof (Z.mod_pos_bound (2 * t - a) (2 * k - 1)). lia.
Qed.

Lemma peer_ne (k t a : Z) :
  1 <= k -> 0 <= t < 2 * k - 1 -> 0 <= a < 2 * k ->
  peer (2 * k) t a <> a.
Proof.
  intros Hk Ht Ha. unfold peer. set (M := 2 * k - 1) in *.
  destruct (Z.eqb_spec a M); [lia|].
  destruct (Z.eqb_spec a t); [lia|].
  intros Heq.
  assert (HaM : 0 <= a < M) by lia.
  assert (Heq' : (2 * t - a) mod M = a mod M)
    by (rewrite (Z.mod_small a M) by exact HaM; exact Heq).
  apply divide_of_mod_eq in Heq'; [|lia].
  replace (2 * t - a - a) with (2 * (t - a)) in Heq' by ring.
  apply odd_divide_double in Heq'.
  apply small_multiple in Heq'; lia.
Qed.

Lemma peer_involutive (k t a : Z) :
  1 <= k -> 0 <= t < 2 * k - 1 -> 0 <= a < 2 * k ->
  peer (2 * k) t (peer (2 * k) t a) = a.
Proof.
  intros Hk Ht Ha. unfold peer. set (M := 2 * k - 1) in *.
  destruct (Z.eqb_spec a M) as [->|HaM].
  { destruct (Z.eqb_spec t M); [lia|]. now rewrite Z.eqb_refl. }
  destruct (Z.eqb_spec a t) as [->|Hat].
  { now rewrite Z.eqb_refl. }
  assert (Ha' : 0 <= a < M) by lia.
  pose proof (Z.mod_pos_bound (2 * t - a) M ltac:(lia)) as Hb.
  destruct (Z.eqb_spec ((2 * t - a) mod M) M); [lia|].
  destruct (Z.eqb_spec ((2 * t - a) mod M) t) as [Heq|_].
  { exfalso.
    assert (Heq' : (2 * t - a) mod M = t mod M)
      by (rewrite (Z.mod_small t M) by exact Ht; exact Heq).
    apply divide_of_mod_eq in Heq'; [|lia].
    replace (2 * t - a - t) with (t - a) in Heq' by ring.
    apply small_multiple in Heq'; lia. }
  rewrite Zminus_mod_idemp_r.
  replace (2 * t - (2 * t - a)) with a by ring.
  now apply Z.mod_small.
Qed.

Lemma peer_meets_once (k a b : Z) :
  1 <= k -> 0 <= a < 2 * k -> 0 <= b < 2 * k -> a <> b ->
  exists t, 0 <= t < 2 * k - 1 /\ peer (2 * k) t a = b /\
    forall t', 0 <= t' < 2 * k - 1 -> peer (2 * k) t' a = b -> t' = t.
Proof.
  intros Hk Ha Hb Hab. set (M := 2 * k - 1).
  assert (HM : 2 * k - 1 = M) by reflexivity.
  unfold peer. rewrite HM.
  destruct (Z.eqb_spec a M) as [HaM|HaM].
  { exists b. split; [lia|]. split; [reflexivity|]. intros t' _ H. exact H. }
  destruct (Z.eq_dec b M) as [HbM|HbM].
  { exists a. split; [lia|]. rewrite Z.eqb_refl. split; [lia|].
    intros t' Ht'. destruct (Z.eqb_spec a t'); [lia|].
    pose proof (Z.mod_pos_bound (2 * t' - a) M). lia. }
  assert (Ha' : 0 <= a < M) by lia. assert (Hb' : 0 <= b < M) by lia.
  assert (Hpos : 0 < M) by lia.
  set (t := ((a + b) * k) mod M).
  assert (Ht : 0 <= t < M) by (apply Z.mod_pos_bound; exact Hpos).
  assert (H2t : (2 * t - a) mod M = b).
  { transitivity (b mod M); [|now apply Z.mod_small].
    apply mod_eq_of_divide. unfold t.
    pose proof (Z.div_mod ((a + b) * k) M ltac:(lia)) as Hdm.
    exists ((a + b) - 2 * ((a + b) * k / M)). lia. }
  exists t. split; [exact Ht|]. split.
  - destruct (Z.eqb_spec a t) as [Hat|_]; [|exact H2t].
    exfalso. rewrite <- Hat in H2t.
    replace (2 * a - a) with a in H2t by ring.
    rewrite Z.mod_small in H2t by exact Ha'. contradiction.
  - intros t' Ht'. destruct (Z.eqb_spec a t') as [_|_]; [lia|].
    intros H2t'. rewrite <- H2t in H2t'.
    apply divide_of_mod_eq in H2t'; [|lia].
    replace (2 * t' - a - (2 * t - a)) with (2 * (t' - t)) in H2t' by ring.
    apply odd_divide_double in H2t'.
    apply small_multiple in H2t'; lia.
Qed.

Lemma pairs_entry_peer (k t s : Z) :
  1 <= k -> 0 <= t < 2 * k - 1 -> 0 <= s < k ->
  let a := pairs_entry (2 * k) t s in
  let b := pairs_entry (2 * k) t (2 * k - 1 - s) in
  0 <= a < 2 * k /\ 0 <= b < 2 * k /\
  peer (2 * k) t a = b /\ peer (2 * k) t b = a.
Proof.
  intros Hk Ht Hs a b. set (M := 2 * k - 1) in *.
  assert (Hpos : 0 < M) by lia.
  assert (Hab : 0 <= a < 2 * k /\ peer (2 * k) t a = b).
  { subst a b. unfold pairs_entry, peer.
    replace (2 * k - 1) with M by reflexivity.
    destruct (Z.eqb_spec s 0) as [->|Hs0].
    - rewrite Z.eqb_refl. split; [lia|].
      destruct (Z.eqb_spec (M - 0) 0); [lia|].
      replace (M - 0 + t) with (t + 1 * M) by ring.
      rewrite Z_mod_plus_full. now rewrite Z.mod_small.
    - destruct (Z.eqb_spec (M - s) 0); [lia|].
      pose proof (Z.mod_pos_bound (s + t) M Hpos) as Hb.
      split; [lia|].
      destruct (Z.eqb_spec ((s + t) mod M) M); [lia|].
      destruct (Z.eqb_spec ((s + t) mod M) t) as [Heq|_].
      { exfalso.
        assert (Heq' : (s + t) mod M = t mod M)
          by (rewrite (Z.mod_small t M) by exact Ht; exact Heq).
        apply divide_of_mod_eq in Heq'; [|lia].
        replace (s + t - t) with s in Heq' by ring.
        apply small_multiple in Heq'; lia. }
      rewrite Zminus_mod_idemp_r. apply mod_eq_of_divide.
      exists (-1). ring. }
  destruct Hab as [Ha Hpeer].
  pose proof (peer_range k t a Hk Ht Ha) as Hb. rewrite Hpeer in Hb.
  split; [exact Ha|]. split; [exact Hb|]. split; [exact Hpeer|].
  rewrite <- Hpeer. now apply peer_involutive.
Qed.

Lemma pairs_entry_covers (k t a : Z) :
  1 <= k -> 0 <= t < 2 * k - 1 -> 0 <= a < 2 * k ->
  exists s, 0 <= s < k /\
    (pairs_entry (2 * k) t s = a \/
     pairs_entry (2 * k) t (2 * k - 1 - s) = a).
Proof.
  intros Hk Ht Ha. set (M := 2 * k - 1) in *.
  assert (Hpos : 0 < M) by lia.
  unfold pairs_entry. replace (2 * k - 1) with M by reflexivity.
  destruct (Z.eq_dec a M) as [->|HaM].
  { exists 0. split; [lia|]. left. reflexivity. }
  assert (Ha' : 0 <= a < M) by lia.
  set (d := (a - t) mod M).
  assert (Hd : 0 <= d < M) by (apply Z.mod_pos_bound; exact Hpos).
  assert (Hdt : (d + t) mod M = a).
  { unfold d. rewrite Zplus_mod_idemp_l.
    replace (a - t + t) with a by ring. now apply Z.mod_small. }
  destruct (Z.eq_dec d 0) as [Hd0|Hd0].
  { exists 0. split; [lia|]. right.
    destruct (Z.eqb_spec (M - 0) 0); [lia|].
    rewrite Hd0 in Hdt. cbn in Hdt.
    replace (M - 0 + t) with (t + 1 * M) by ring.
    now rewrite Z_mod_plus_full. }
  destruct (Z_lt_le_dec d k) as [Hlt|Hge].
  - exists d. split; [lia|]. left.
    destruct (Z.eqb_spec d 0); [lia | exact Hdt].
  - exists (M - d). split; [lia|]. right.
    destruct (Z.eqb_spec (M - (M - d)) 0); [lia|].
    replace (M - (M - d) + t) with (d + t) by ring. exact Hdt.
Qed.

(** *** The loops that fill the calendar *)

(** A loop whose body always ends normally under an invariant ends
    normally, with the invariant. *)
Lemma for_upto_total {S : Type} (P : Z -> S -> Prop)
    (body : Z -> S -> result S) (count : nat) :
  forall (lo : Z) (s : S),
    (forall i t, lo <= i < lo + Z.of_nat count -> P i t ->
       exists t', body i t = Done t' /\ P (i + 1) t') ->
    P lo s ->
    exists s', for_upto count lo body s = Done s' /\
               P (lo + Z.of_nat count) s'.
Proof.
  induction count as [|c IH]; intros lo s Hstep Hs.
  - exists s. split; [reflexivity|]. now rewrite Z.add_0_r.
  - destruct (Hstep lo s) as (t & Hb & Ht); [lia | exact Hs |].
    destruct (IH (lo + 1) t) as (s' & Hrun & Hs'); [| exact Ht |].
    + intros i u Hi. apply Hstep. lia.
    + exists s'. split.
      * cbn [for_upto]. rewrite Hb. exact Hrun.
      * now replace (lo + Z.of_nat (Datatypes.S c))
          with (lo + 1 + Z.of_nat c) by lia.
Qed.

Lemma for_range_total {S : Type} (P : Z -> S -> Prop)
    (body : Z -> S -> result S) (lo hi : Z) (s : S) :
  lo <= hi ->
  (forall i t, lo <= i < hi -> P i t ->
     exists t', body i t = Done t' /\ P (i + 1) t') ->
  P lo s ->
  exists s', for_range lo hi body s = Done s' /\ P hi s'.
Proof.
  intros Hhi Hstep Hs. unfold for_range.
  destruct (for_upto_total P body (Z.to_nat (hi - lo)) lo s)
    as (s' & Hrun & Hs'); [| exact Hs |].
  - intros i t Hi. apply Hstep. lia.
  - exists s'. split; [exact Hrun|].
    now replace (lo + Z.of_nat (Z.to_nat (hi - lo))) with hi in Hs' by lia.
Qed.

Lemma set_match_spec (Nmpi : Z) (calendar : list (list Z))
    (team iturn opp : Z) :
  calendar_shape Nmpi calendar ->
  0 <= team < Nmpi -> 0 <= iturn < Nmpi - 1 ->
  exists calendar',
    MpiControl.set_match calendar team iturn opp = Done calendar' /\
    calendar_shape Nmpi calendar' /\
    MpiControl.opponent calendar' team iturn = Some opp /\
    forall a t, 0 <= a -> 0 <= t -> a <> team \/ t <> iturn ->
      MpiControl.opponent calendar' a t = MpiControl.opponent calendar a t.
Proof.
  intros [Hlen Hrows] Hteam Hturn.
  destruct (lookup_lt_is_Some_2 calendar (Z.to_nat team)) as [row Hrow];
    [lia|].
  pose proof (Forall_lookup_1 _ _ _ _ Hrows Hrow) as Hrowlen.
  cbn beta in Hrowlen.
  exists (<[Z.to_nat team := <[Z.to_nat iturn := opp]> row]> calendar).
  split; [|split; [|split]].
  - unfold MpiControl.set_match.
    rewrite (rd_lookup _ _ row) by (lia || exact Hrow). cbn.
    rewrite wr_in_range by lia. cbn.
    apply wr_in_range. lia.
  - split.
    + now rewrite length_insert.
    + apply Forall_insert; [exact Hrows|].
      now rewrite length_insert.
  - unfold MpiControl.opponent.
    rewrite list_lookup_insert_eq by lia. cbn.
    apply list_lookup_insert_eq. lia.
  - intros a t Ha Ht Hne. unfold MpiControl.opponent.
    destruct (decide (a = team)) as [->|Hateam].
    + rewrite list_lookup_insert_eq by lia. rewrite Hrow. cbn.
      apply list_lookup_insert_ne. lia.
    + rewrite list_lookup_insert_ne by lia. reflexivity.
Qed.

(** The pairs table of a turn. *)
Lemma fill_pairs_spec (Nmpi iturn : Z) :
  2 <= Nmpi -> 0 <= iturn ->
  exists pairs_turn,
    MpiControl.fill_pairs Nmpi iturn = Done pairs_turn /\
    length pairs_turn = Z.to_nat Nmpi /\
    forall i, 0 <= i < Nmpi ->
      pairs_turn !! Z.to_nat i = Some (pairs_entry Nmpi iturn i).
Proof.
  intros Hn Ht. unfold MpiControl.fill_pairs.
  rewrite wr_in_range by (rewrite length_replicate; lia). cbn.
  rewrite length_insert, length_replicate.
  set (start := <[Z.to_nat 0 := Nmpi - 1]> (replicate (Z.to_nat Nmpi) 0)).
  pose (P := fun (i : Z) (pt : list Z) =>
    length pt = Z.to_nat Nmpi /\
    forall j, 0 <= j < i -> pt !! Z.to_nat j = Some (pairs_entry Nmpi iturn j)).
  destruct (for_range_total P
              (fun i pt => wr pt i (Z.rem (i + iturn) (Nmpi - 1)))
              1 (Z.of_nat (Z.to_nat Nmpi)) start) as (pt & Hrun & Hlen & Hpt).
  - lia.
  - intros i pt Hi [Hlen Hpt].
    exists (<[Z.to_nat i := Z.rem (i + iturn) (Nmpi - 1)]> pt).
    split; [apply wr_in_range; lia|]. split; [now rewrite length_insert|].
    intros j Hj. destruct (decide (j = i)) as [->|Hne].
    + rewrite list_lookup_insert_eq by lia.
      unfold pairs_entry. destruct (Z.eqb_spec i 0); [lia|].
      now rewrite Z.rem_mod_nonneg by lia.
    + rewrite list_lookup_insert_ne by lia. apply Hpt. lia.
  - split; [subst start; now rewrite length_insert, length_replicate|].
    intros j Hj. assert (j = 0) as -> by lia. subst start.
    rewrite list_lookup_insert_eq by (rewrite length_replicate; lia).
    reflexivity.
  - exists pt. split; [exact Hrun|]. split; [exact Hlen|].
    intros i Hi. apply Hpt. lia.
Qed.

(** One step of a turn enters a pair of Berger's rule, both ways. *)
Lemma play_spec (k t s : Z) (pairs_turn : list Z)
    (calendar : list (list Z)) :
  1 <= k -> 0 <= t < 2 * k - 1 -> 0 <= s < k ->
  length pairs_turn = Z.to_nat (2 * k) ->
  (forall i, 0 <= i < 2 * k ->
     pairs_turn !! Z.to_nat i = Some (pairs_entry (2 * k) t i)) ->
  calendar_shape (2 * k) calendar ->
  let a := pairs_entry (2 * k) t s in
  let b := pairs_entry (2 * k) t (2 * k - 1 - s) in
  exists calendar',
    MpiControl.play t pairs_turn s calendar = Done calendar' /\
    calendar_shape (2 * k) calendar' /\
    MpiControl.opponent calendar' a t = Some (peer (2 * k) t a) /\
    MpiControl.opponent calendar' b t = Some (peer (2 * k) t b) /\
    forall a' t', 0 <= a' -> 0 <= t' -> t' <> t \/ (a' <> a /\ a' <> b) ->
      MpiControl.opponent calendar' a' t' = MpiControl.opponent calendar a' t'.
Proof.
  intros Hk Ht Hs Hlen Hpairs Hshape a b.
  destruct (pairs_entry_peer k t s Hk Ht Hs) as (Ha & Hb & Hab & Hba).
  fold a b in Ha, Hb, Hab, Hba.
  assert (Hne : a <> b).
  { rewrite <- Hab. intros Heq. symmetry in Heq. revert Heq.
    now apply peer_ne. }
  destruct (set_match_spec (2 * k) calendar a t b Hshape Ha Ht)
    as (cal1 & Hrun1 & Hshape1 & Hopp1 & Hrest1).
  destruct (set_match_spec (2 * k) cal1 b t a Hshape1 Hb Ht)
    as (cal2 & Hrun2 & Hshape2 & Hopp2 & Hrest2).
  exists cal2. split; [|split; [exact Hshape2|split; [|split]]].
  - unfold MpiControl.play.
    rewrite (rd_lookup pairs_turn s a) by (lia || (apply Hpairs; lia)).
    cbn. rewrite Hlen.
    replace (Z.of_nat (Z.to_nat (2 * k)) - 1 - s) with (2 * k - 1 - s) by lia.
    rewrite (rd_lookup pairs_turn (2 * k - 1 - s) b)
      by (lia || (apply Hpairs; lia)).
    cbn.
    rewrite Hrun1. cbn. exact Hrun2.
  - rewrite Hrest2 by lia. rewrite Hab. exact Hopp1.
  - rewrite Hba. exact Hopp2.
  - intros a' t' Ha' Ht' Hor.
    rewrite Hrest2 by lia. apply Hrest1; lia.
Qed.

(** One turn fills its column of the calendar with Berger's rule and
    leaves the other columns alone. *)
Lemma schedule_turn_spec (k t : Z) (calendar : list (list Z)) :
  1 <= k -> 0 <= t < 2 * k - 1 ->
  calendar_shape (2 * k) calendar ->
  exists calendar',
    MpiControl.schedule_turn (2 * k) t calendar = Done calendar' /\
    calendar_shape (2 * k) calendar' /\
    (forall a, 0 <= a < 2 * k ->
       MpiControl.opponent calendar' a t = Some (peer (2 * k) t a)) /\
    forall a t', 0 <= a -> 0 <= t' -> t' <> t ->
      MpiControl.opponent calendar' a t' = MpiControl.opponent calendar a t'.
Proof.
  intros Hk Ht Hshape. unfold MpiControl.schedule_turn.
  destruct (fill_pairs_spec (2 * k) t) as (pt & -> & Hlen & Hpt); [lia..|].
  cbn. replace (Z.quot (2 * k) 2) with k
    by (rewrite Z.mul_comm, Z.quot_mul; lia).
  pose (P := fun (s : Z) (cal : list (list Z)) =>
    calendar_shape (2 * k) cal /\
    (forall a t', 0 <= a -> 0 <= t' -> t' <> t ->
       MpiControl.opponent cal a t' = MpiControl.opponent calendar a t') /\
    forall s', 0 <= s' < s ->
      MpiControl.opponent cal (pairs_entry (2 * k) t s') t
        = Some (peer (2 * k) t (pairs_entry (2 * k) t s')) /\
      MpiControl.opponent cal (pairs_entry (2 * k) t (2 * k - 1 - s')) t
        = Some (peer (2 * k) t (pairs_entry (2 * k) t (2 * k - 1 - s')))).
  destruct (for_range_total P (MpiControl.play t pt) 0 k calendar)
    as (cal' & Hrun & Hshape' & Hother & Hdone).
  - lia.
  - intros s cal Hs (Hsh & Hoth & Hprev).
    destruct (play_spec k t s pt cal Hk Ht Hs Hlen Hpt Hsh)
      as (cal1 & Hrun1 & Hsh1 & Ha1 & Hb1 & Hrest1).
    exists cal1. split; [exact Hrun1|]. split; [exact Hsh1|]. split.
    + intros a t' Ha Ht' Hne. rewrite Hrest1 by lia. now apply Hoth.
    + assert (Hkeep : forall x, 0 <= x < 2 * k ->
        MpiControl.opponent cal x t = Some (peer (2 * k) t x) ->
        MpiControl.opponent cal1 x t = Some (peer (2 * k) t x)).
      { intros x Hx Hold.
        destruct (decide (x = pairs_entry (2 * k) t s)) as [->|Hxa];
          [exact Ha1|].
        destruct (decide (x = pairs_entry (2 * k) t (2 * k - 1 - s)))
          as [->|Hxb]; [exact Hb1|].
        rewrite Hrest1 by lia. exact Hold. }
      intros s' Hs'. destruct (decide (s' = s)) as [->|Hne].
      * split; [exact Ha1 | exact Hb1].
      * destruct (Hprev s') as [Hpa Hpb]; [lia|].
        destruct (pairs_entry_peer k t s' Hk Ht) as (Hra & Hrb & _ & _);
          [lia|].
        split; apply Hkeep; assumption.
  - split; [exact Hshape|]. split; [reflexivity|]. intros s' Hs'. lia.
  - exists cal'. split; [exact Hrun|]. split; [exact Hshape'|].
    split; [|exact Hother].
    intros a Ha.
    destruct (pairs_entry_covers k t a Hk Ht Ha) as (s & Hs & [<- | <-]);
      now apply Hdone.
Qed.

(** The calendar that [CreateLeagueCalendar] builds follows Berger's rule
    in every turn. *)
Lemma CreateLeagueCalendar_spec (k : Z) :
  1 <= k ->
  exists calendar,
    MpiControl.CreateLeagueCalendar (2 * k) = Done calendar /\
    calendar_shape (2 * k) calendar /\
    forall a t, 0 <= a < 2 * k -> 0 <= t < 2 * k - 1 ->
      MpiControl.opponent calendar a t = Some (peer (2 * k) t a).
Proof.
  intros Hk. unfold MpiControl.CreateLeagueCalendar.
  destruct (Z.eqb_spec (2 * k) 0); [lia|]. cbn.
  pose (P := fun (T : Z) (cal : list (list Z)) =>
    calendar_shape (2 * k) cal /\
    forall a t, 0 <= a < 2 * k -> 0 <= t < T ->
      MpiControl.opponent cal a t = Some (peer (2 * k) t a)).
  destruct (for_range_total P (MpiControl.schedule_turn (2 * k)) 0
              (2 * k - 1)
              (replicate (Z.to_nat (2 * k))
                 (replicate (Z.to_nat (2 * k - 1)) 0)))
    as (cal & Hrun & Hshape & Hall).
  - lia.
  - intros t cal Ht [Hsh Hprev].
    destruct (schedule_turn_spec k t cal Hk Ht Hsh)
      as (cal1 & Hrun1 & Hsh1 & Hcol & Hrest).
    exists cal1. split; [exact Hrun1|]. split; [exact Hsh1|].
    intros a t' Ha Ht'. destruct (decide (t' = t)) as [->|Hne].
    + now apply Hcol.
    + rewrite Hrest by lia. apply Hprev; lia.
  - split.
    + split; [now rewrite length_replicate|].
      apply Forall_replicate. now rewrite length_replicate.
    + intros a t Ha Ht. lia.
  - exists cal. split; [exact Hrun|]. split; [exact Hshape|]. exact Hall.
Qed.

(** C9.  For every even number of workers [Nmpi >= 2] the calendar has
    [Nmpi] rows of [Nmpi - 1] turns; in each turn every worker has a peer
    that is another worker, the pairing is mutual, and no worker is the
    peer of two workers; over the calendar every two distinct workers meet
    in exactly one turn. *)
Theorem CreateLeagueCalendar_round_robin (Nmpi : Z) :
  2 <= Nmpi -> Z.even Nmpi = true ->
  exists calendar,
    MpiControl.CreateLeagueCalendar Nmpi = Done calendar /\
    calendar_shape Nmpi calendar /\
    (forall a t, 0 <= a < Nmpi -> 0 <= t < Nmpi - 1 ->
       exists b, MpiControl.opponent calendar a t = Some b /\
                 0 <= b < Nmpi /\ b <> a /\
                 MpiControl.opponent calendar b t = Some a) /\
    (forall a a' t, 0 <= a < Nmpi -> 0 <= a' < Nmpi -> 0 <= t < Nmpi - 1 ->
       MpiControl.opponent calendar a t = MpiControl.opponent calendar a' t ->
       a = a') /\
    (forall a b, 0 <= a < Nmpi -> 0 <= b < Nmpi -> a <> b ->
       exists t, 0 <= t < Nmpi - 1 /\
                 MpiControl.opponent calendar a t = Some b /\
                 forall t', 0 <= t' < Nmpi - 1 ->
                   MpiControl.opponent calendar a t' = Some b -> t' = t).
Proof.
  intros Hn Heven. apply Z.even_spec in Heven as [k ->].
  assert (Hk : 1 <= k) by lia.
  destruct (CreateLeagueCalendar_spec k Hk) as (cal & Hrun & Hshape & Hopp).
  exists cal. split; [exact Hrun|]. split; [exact Hshape|].
  split; [|split].
  - intros a t Ha Ht. exists (peer (2 * k) t a).
    pose proof (peer_range k t a Hk Ht Ha) as Hb.
    split; [now apply Hopp|]. split; [exact Hb|].
    split; [now apply peer_ne|].
    rewrite Hopp by assumption. f_equal. now apply peer_involutive.
  - intros a a' t Ha Ha' Ht Heq.
    rewrite !Hopp in Heq by assumption. injection Heq as Heq.
    rewrite <- (peer_involutive k t a Hk Ht Ha).
    rewrite <- (peer_involutive k t a' Hk Ht Ha').
    now rewrite Heq.
  - intros a b Ha Hb Hab.
    destruct (peer_meets_once k a b Hk Ha Hb Hab) as (t & Ht & Hpeer & Huniq).
    exists t. split; [exact Ht|]. split.
    + rewrite Hopp by assumption. now rewrite Hpeer.
    + intros t' Ht' Hopp'. rewrite Hopp in Hopp' by assumption.
      injection Hopp' as Hopp'. now apply Huniq.
Qed.

Lemma CreateLeagueCalendar_round_robin_witness :
  exists calendar,
    MpiControl.CreateLeagueCalendar 4 = Done calendar /\
    calendar_shape 4 calendar /\
    (forall a t, 0 <= a < 4 -> 0 <= t < 4 - 1 ->
       exists b, MpiControl.opponent calendar a t = Some b /\
                 0 <= b < 4 /\ b <> a /\
                 MpiControl.opponent calendar b t = Some a) /\
    (forall a a' t, 0 <= a < 4 -> 0 <= a' < 4 -> 0 <= t < 4 - 1 ->
       MpiControl.opponent calendar a t = MpiControl.opponent calendar a' t ->
       a = a') /\
    (forall a b, 0 <= a < 4 -> 0 <= b < 4 -> a <> b ->
       exists t, 0 <= t < 4 - 1 /\
                 MpiControl.opponent calendar a t = Some b /\
                 forall t', 0 <= t' < 4 - 1 ->
                   MpiControl.opponent calendar a t' = Some b -> t' = t).
Proof.
  apply (CreateLeagueCalendar_round_robin 4).
  - lia.
  - reflexivity.
Defined.

(** ** Wrapping particles back into the box *)

Lemma shift_up_spec (k : nat) (d : Q) (i : Z) (data : list SphParticle)
    (intdata : list SphIntParticle) (p : SphParticle) (q : SphIntParticle) :
  0 <= i -> data !! Z.to_nat i = Some p -> intdata !! Z.to_nat i = Some q ->
  Boundaries.shift_up k d i (data, intdata)
  = Done (<[Z.to_nat i := set_r (vset (r p) k (vget (r p) k + d)%Q) p]> data,
          <[Z.to_nat i := mkSphIntParticle
                             (vset (r0 q) k (vget (r0 q) k + d)%Q)
                             (nstep q)]> intdata).
Proof.
  intros Hi Hp Hq. unfold Boundaries.shift_up. cbn [fst snd].
  rewrite (rd_lookup data i p Hi Hp). cbn.
  rewrite wr_in_range by (apply lookup_lt_Some in Hp; lia). cbn.
  rewrite (rd_lookup intdata i q Hi Hq). cbn.
  rewrite wr_in_range by (apply lookup_lt_Some in Hq; lia). reflexivity.
Qed.

Lemma shift_down_spec (k : nat) (d : Q) (i : Z) (data : list SphParticle)
    (intdata : list SphIntParticle) (p : SphParticle) (q : SphIntParticle) :
  0 <= i -> data !! Z.to_nat i = Some p -> intdata !! Z.to_nat i = Some q ->
  Boundaries.shift_down k d i (data, intdata)
  = Done (<[Z.to_nat i := set_r (vset (r p) k (vget (r p) k - d)%Q) p]> data,
          <[Z.to_nat i := mkSphIntParticle
                             (vset (r0 q) k (vget (r0 q) k - d)%Q)
                             (nstep q)]> intdata).
Proof.
  intros Hi Hp Hq. unfold Boundaries.shift_down. cbn [fst snd].
  rewrite (rd_lookup data i p Hi Hp). cbn.
  rewrite wr_in_range by (apply lookup_lt_Some in Hp; lia). cbn.
  rewrite (rd_lookup intdata i q Hi Hq). cbn.
  rewrite wr_in_range by (apply lookup_lt_Some in Hq; lia). reflexivity.
Qed.

(** On arrays that hold particle [i], the tests on one coordinate replace
    entry [i] of both arrays by its wrapped value. *)
Lemma wrap_axis_spec (simbox : DomainBox) (k : nat) (lhs rhs : string)
    (i : Z) (data : list SphParticle) (intdata : list SphIntParticle)
    (p : SphParticle) (q : SphIntParticle) :
  0 <= i -> data !! Z.to_nat i = Some p -> intdata !! Z.to_nat i = Some q ->
  Boundaries.wrap_axis simbox k lhs rhs i (data, intdata)
  = Done (<[Z.to_nat i := fst (wrapped_axis simbox k lhs rhs (p, q))]> data,
          <[Z.to_nat i := snd (wrapped_axis simbox k lhs rhs (p, q))]> intdata).
Proof.
  intros Hi Hp Hq. unfold Boundaries.wrap_axis, wrapped_axis. cbn [fst snd].
  assert (Hlp := lookup_lt_Some _ _ _ Hp).
  assert (Hlq := lookup_lt_Some _ _ _ Hq).
  rewrite (rd_lookup data i p Hi Hp). cbn [mbind result_bind].
  destruct (Qltb (vget (r p) k) (vget (boxmin simbox) k));
    [destruct (String.eqb lhs "periodic")|];
    cbn [andb mbind result_bind fst snd].
  - rewrite (shift_up_spec k _ i data intdata p q Hi Hp Hq).
    cbn [mbind result_bind fst snd].
    erewrite rd_lookup; [|exact Hi|apply list_lookup_insert_eq; exact Hlp].
    cbn [mbind result_bind r set_r].
    destruct (Qltb _ _); [destruct (String.eqb rhs "periodic")|]; cbn [andb];
      try reflexivity.
    erewrite shift_down_spec;
      [|exact Hi|apply list_lookup_insert_eq; exact Hlp
       |apply list_lookup_insert_eq; exact Hlq].
    now rewrite !list_insert_insert_eq.
  - rewrite (rd_lookup data i p Hi Hp). cbn [mbind result_bind].
    destruct (Qltb _ _); [destruct (String.eqb rhs "periodic")|]; cbn [andb].
    + now apply shift_down_spec.
    + now rewrite !list_insert_id.
    + now rewrite !list_insert_id.
  - rewrite (rd_lookup data i p Hi Hp). cbn [mbind result_bind].
    destruct (Qltb _ _); [destruct (String.eqb rhs "periodic")|]; cbn [andb].
    + now apply shift_down_spec.
    + now rewrite !list_insert_id.
    + now rewrite !list_insert_id.
Qed.

Lemma wrap_particle_spec (ndim : nat) (simbox : DomainBox) (i : Z)
    (data : list SphParticle) (intdata : list SphIntParticle)
    (p : SphParticle) (q : SphIntParticle) :
  0 <= i -> data !! Z.to_nat i = Some p -> intdata !! Z.to_nat i = Some q ->
  Boundaries.wrap_particle ndim simbox i (data, intdata)
  = Done (<[Z.to_nat i := fst (wrapped ndim simbox (p, q))]> data,
          <[Z.to_nat i := snd (wrapped ndim simbox (p, q))]> intdata).
Proof.
  intros Hi Hp Hq. unfold Boundaries.wrap_particle, wrapped.
  assert (Hlp := lookup_lt_Some _ _ _ Hp).
  assert (Hlq := lookup_lt_Some _ _ _ Hq).
  rewrite (wrap_axis_spec simbox 0 _ _ i data intdata p q Hi Hp Hq).
  cbn [mbind result_bind].
  set (pq1 := wrapped_axis simbox 0 _ _ (p, q)).
  destruct (2 <=? ndim)%nat.
  - erewrite wrap_axis_spec;
      [|exact Hi|apply list_lookup_insert_eq; exact Hlp
       |apply list_lookup_insert_eq; exact Hlq].
    cbn [mbind result_bind]. rewrite !list_insert_insert_eq.
    rewrite <- surjective_pairing.
    destruct (ndim =? 3)%nat; [|reflexivity].
    erewrite wrap_axis_spec;
      [|exact Hi|apply list_lookup_insert_eq; exact Hlp
       |apply list_lookup_insert_eq; exact Hlq].
    rewrite !list_insert_insert_eq. now rewrite <- surjective_pairing.
  - cbn [mbind result_bind].
    destruct (ndim =? 3)%nat; [|reflexivity].
    erewrite wrap_axis_spec;
      [|exact Hi|apply list_lookup_insert_eq; exact Hlp
       |apply list_lookup_insert_eq; exact Hlq].
    rewrite !list_insert_insert_eq. now rewrite <- surjective_pairing.
Qed.

(** [CheckBoundaries] ends normally on arrays that hold the [Nsph] real
    particles; it replaces each real particle and its integration data by
    their wrapped values and leaves the rest of both arrays alone. *)
Lemma CheckBoundaries_spec (ndim : nat) (simbox : DomainBox) (sph : Sph)
    (sphintdata : list SphIntParticle) :
  0 <= Nsph sph <= Z.of_nat (length (sphdata sph)) ->
  Nsph sph <= Z.of_nat (length sphintdata) ->
  exists data' intdata',
    Boundaries.CheckBoundaries ndim simbox sph sphintdata
      = Done (data', intdata') /\
    length data' = length (sphdata sph) /\
    length intdata' = length sphintdata /\
    (forall (i : nat) p q, (Z.of_nat i < Nsph sph) ->
       sphdata sph !! i = Some p -> sphintdata !! i = Some q ->
       data' !! i = Some (fst (wrapped ndim simbox (p, q))) /\
       intdata' !! i = Some (snd (wrapped ndim simbox (p, q)))) /\
    (forall i : nat, (Nsph sph <= Z.of_nat i) ->
       data' !! i = sphdata sph !! i /\ intdata' !! i = sphintdata !! i).
Proof.
  intros Hdata Hint. unfold Boundaries.CheckBoundaries.
  pose (P := fun (n : Z) (st : list SphParticle * list SphIntParticle) =>
    length (fst st) = length (sphdata sph) /\
    length (snd st) = length sphintdata /\
    (forall (i : nat) p q, Z.of_nat i < n ->
       sphdata sph !! i = Some p -> sphintdata !! i = Some q ->
       fst st !! i = Some (fst (wrapped ndim simbox (p, q))) /\
       snd st !! i = Some (snd (wrapped ndim simbox (p, q)))) /\
    (forall i : nat, n <= Z.of_nat i ->
       fst st !! i = sphdata sph !! i /\ snd st !! i = sphintdata !! i)).
  destruct (for_range_total P (Boundaries.wrap_particle ndim simbox) 0
              (Nsph sph) (sphdata sph, sphintdata))
    as ([data' intdata'] & Hrun & Hl1 & Hl2 & Hlow & Hhigh);
    [lia| | |].
  - unfold P. intros i [d t] Hi (Hl1 & Hl2 & Hlow & Hhigh). cbn [fst snd] in *.
    destruct (Hhigh (Z.to_nat i)) as [Hd Ht]; [lia|].
    destruct (lookup_lt_is_Some_2 (sphdata sph) (Z.to_nat i)) as [p Hp];
      [lia|].
    destruct (lookup_lt_is_Some_2 sphintdata (Z.to_nat i)) as [q Hq]; [lia|].
    rewrite Hp in Hd. rewrite Hq in Ht.
    eexists. split.
    + apply (wrap_particle_spec ndim simbox i d t p q); [lia | exact Hd | exact Ht].
    + cbn [fst snd]. split; [now rewrite length_insert|].
      split; [now rewrite length_insert|]. split.
      * intros j p' q' Hj Hp' Hq'.
        destruct (decide (j = Z.to_nat i)) as [->|Hne].
        -- assert (p' = p) as -> by congruence.
           assert (q' = q) as -> by congruence.
           rewrite !list_lookup_insert_eq by lia. auto.
        -- rewrite !list_lookup_insert_ne by lia. apply Hlow; [lia|auto..].
      * intros j Hj. rewrite !list_lookup_insert_ne by lia. apply Hhigh. lia.
  - unfold P. cbn [fst snd]. repeat split; auto; intros; lia.
  - exists data', intdata'. cbn [fst snd] in *. auto.
Qed.

(** Facts about the wrapped value of one particle. *)

Lemma vset_length (x : list Q) (k : nat) (y : Q) :
  length (vset x k y) = length x.
Proof. unfold vset. apply length_insert. Qed.

Lemma vset_vset_displacement (x y : list Q) (k : nat) (a b : Q) :
  length x = length y ->
  (a - b == vget x k - vget y k)%Q ->
  forall k', (vget (vset x k a) k' - vget (vset y k b) k'
              == vget x k' - vget y k')%Q.
Proof.
  intros Hlen Hab k'. destruct (decide (k = k')) as [<-|Hne].
  - destruct (decide (k < length x)%nat) as [Hk|Hk].
    + rewrite !vget_vset by lia. exact Hab.
    + unfold vset. rewrite !list_insert_ge by lia. reflexivity.
  - rewrite !vget_vset_ne by exact Hne. reflexivity.
Qed.

Lemma set_r_same (p : SphParticle) : set_r (r p) p = p.
Proof. now destruct p. Qed.

Lemma r_set_r (x : vec) (p : SphParticle) : r (set_r x p) = x.
Proof. reflexivity. Qed.

Lemma set_r_set_r (x y : vec) (p : SphParticle) :
  set_r x (set_r y p) = set_r x p.
Proof. reflexivity. Qed.

Lemma wrapped_axis_shape (simbox : DomainBox) (k : nat) (lhs rhs : string)
    (p : SphParticle) (pint : SphIntParticle) :
  let w := wrapped_axis simbox k lhs rhs (p, pint) in
  fst w = set_r (r (fst w)) p /\
  snd w = mkSphIntParticle (r0 (snd w)) (nstep pint) /\
  length (r (fst w)) = length (r p) /\
  length (r0 (snd w)) = length (r0 pint) /\
  (length (r p) = length (r0 pint) ->
   forall k', (vget (r (fst w)) k' - vget (r0 (snd w)) k'
               == vget (r p) k' - vget (r0 pint) k')%Q) /\
  (forall k', k' <> k -> vget (r (fst w)) k' = vget (r p) k').
Proof.
  cbv zeta. unfold wrapped_axis. cbn [fst snd].
  destruct (_ && _); cbn [fst snd];
    destruct (_ && _); cbn [fst snd];
    rewrite ?r_set_r, ?set_r_set_r; cbn [r0 nstep];
    rewrite ?vset_length;
    (split; [first [reflexivity | symmetry; apply set_r_same]|];
     split; [first [reflexivity | now destruct pint]|];
     split; [reflexivity|];
     split; [reflexivity|]; split;
     [intros Hlen k'|intros k' Hk'; rewrite ?vget_vset_ne by congruence;
                     reflexivity]).
  - etransitivity; [apply vset_vset_displacement|apply vset_vset_displacement];
      rewrite ?vset_length; try assumption; ring.
  - apply vset_vset_displacement; [assumption | ring].
  - apply vset_vset_displacement; [assumption | ring].
  - reflexivity.
Qed.

Lemma Qltb_ge (x y : Q) : Qltb x y = false <-> (y <= x)%Q.
Proof.
  destruct (Qltb x y) eqn:E.
  - apply Qltb_lt in E. split; [discriminate | intros H; lra].
  - split; [intros _ | reflexivity].
    destruct (Qlt_le_dec x y) as [H|H]; [|exact H].
    apply Qltb_lt in H. congruence.
Qed.

Lemma wrapped_axis_inside (simbox : DomainBox) (k : nat) (lhs rhs : string)
    (p : SphParticle) (pint : SphIntParticle) :
  in_box_axis simbox k p ->
  wrapped_axis simbox k lhs rhs (p, pint) = (p, pint).
Proof.
  intros [Hlo Hhi]. unfold wrapped_axis. cbn [fst snd].
  apply Qltb_ge in Hlo, Hhi. rewrite Hlo. cbn [andb fst snd].
  now rewrite Hhi.
Qed.

Lemma wrapped_axis_periodic (simbox : DomainBox) (k : nat)
    (p : SphParticle) (pint : SphIntParticle) :
  (vget (boxsize simbox) k
   == vget (boxmax simbox) k - vget (boxmin simbox) k)%Q ->
  (k < length (r p))%nat ->
  near_box_axis simbox k p ->
  in_box_axis simbox k
    (fst (wrapped_axis simbox k "periodic" "periodic" (p, pint))).
Proof.
  intros Hsize Hk [Hlo Hhi]. unfold wrapped_axis, in_box_axis.
  cbn [fst snd]. rewrite !String.eqb_refl, !andb_true_r.
  destruct (Qltb (vget (r p) k) _) eqn:E1; cbn [fst snd].
  - apply Qltb_lt in E1. rewrite r_set_r, vget_vset by exact Hk.
    destruct (Qltb _ _) eqn:E2; cbn [fst]; rewrite ?r_set_r.
    + apply Qltb_lt in E2. lra.
    + apply Qltb_ge in E2. rewrite vget_vset by exact Hk. lra.
  - apply Qltb_ge in E1.
    destruct (Qltb _ _) eqn:E2; cbn [fst]; rewrite ?r_set_r.
    + apply Qltb_lt in E2. rewrite vget_vset by exact Hk. lra.
    + apply Qltb_ge in E2. lra.
Qed.

(** The tests on the three coordinates change the position only, keep the
    displacement [r - r0], and change coordinate [k] like the tests on
    coordinate [k] alone. *)
Lemma wrapped_shape (ndim : nat) (simbox : DomainBox)
    (p : SphParticle) (pint : SphIntParticle) :
  let w := wrapped ndim simbox (p, pint) in
  fst w = set_r (r (fst w)) p /\
  snd w = mkSphIntParticle (r0 (snd w)) (nstep pint) /\
  length (r (fst w)) = length (r p) /\
  length (r0 (snd w)) = length (r0 pint) /\
  (length (r p) = length (r0 pint) ->
   forall k, (vget (r (fst w)) k - vget (r0 (snd w)) k
              == vget (r p) k - vget (r0 pint) k)%Q).
Proof.
  cbv zeta. unfold wrapped.
  pose proof (wrapped_axis_shape simbox 0 (x_boundary_lhs simbox)
                (x_boundary_rhs simbox) p pint) as H0.
  cbv zeta in H0.
  destruct (wrapped_axis simbox 0 _ _ (p, pint)) as [p1 q1].
  cbn [fst snd] in H0. destruct H0 as (Hp1 & Hq1 & Hl1 & Hm1 & Hd1 & _).
  assert (H1 : exists p2 q2,
    (if (2 <=? ndim)%nat
     then wrapped_axis simbox 1 (y_boundary_lhs simbox)
            (y_boundary_rhs simbox) (p1, q1)
     else (p1, q1)) = (p2, q2) /\
    p2 = set_r (r p2) p /\ q2 = mkSphIntParticle (r0 q2) (nstep pint) /\
    length (r p2) = length (r p) /\ length (r0 q2) = length (r0 pint) /\
    (length (r p) = length (r0 pint) ->
     forall k, (vget (r p2) k - vget (r0 q2) k
                == vget (r p) k - vget (r0 pint) k)%Q)).
  { destruct (2 <=? ndim)%nat.
    - pose proof (wrapped_axis_shape simbox 1 (y_boundary_lhs simbox)
                    (y_boundary_rhs simbox) p1 q1) as H.
      cbv zeta in H. destruct (wrapped_axis simbox 1 _ _ (p1, q1)) as [p2 q2].
      cbn [fst snd] in H. destruct H as (Hp2 & Hq2 & Hl2 & Hm2 & Hd2 & _).
      exists p2, q2. split; [reflexivity|].
      split; [rewrite Hp2, Hp1; reflexivity|].
      split; [rewrite Hq2, Hq1; reflexivity|].
      split; [congruence|]. split; [congruence|].
      intros Hlen k. rewrite Hd2 by congruence. now apply Hd1.
    - exists p1, q1. auto 10. }
  destruct H1 as (p2 & q2 & -> & Hp2 & Hq2 & Hl2 & Hm2 & Hd2).
  destruct (ndim =? 3)%nat; [|cbn [fst snd]; auto 10].
  pose proof (wrapped_axis_shape simbox 2 (z_boundary_lhs simbox)
                (z_boundary_rhs simbox) p2 q2) as H.
  cbv zeta in H. destruct (wrapped_axis simbox 2 _ _ (p2, q2)) as [p3 q3].
  cbn [fst snd] in *. destruct H as (Hp3 & Hq3 & Hl3 & Hm3 & Hd3 & _).
  split; [rewrite Hp3, Hp2; reflexivity|].
  split; [rewrite Hq3, Hq2; reflexivity|].
  split; [congruence|]. split; [congruence|].
  intros Hlen k. rewrite Hd3 by congruence. now apply Hd2.
Qed.

Lemma wrapped_axis_other (simbox : DomainBox) (k k' : nat)
    (lhs rhs : string) (pq : SphParticle * SphIntParticle) :
  k' <> k ->
  vget (r (fst (wrapped_axis simbox k lhs rhs pq))) k' = vget (r (fst pq)) k'
  /\ length (r (fst (wrapped_axis simbox k lhs rhs pq)))
     = length (r (fst pq)).
Proof.
  intros Hk. destruct pq as [p pint].
  pose proof (wrapped_axis_shape simbox k lhs rhs p pint) as H.
  cbv zeta in H. destruct H as (_ & _ & Hl & _ & _ & Hother).
  split; [now apply Hother | exact Hl].
Qed.

Lemma wrapped_in_box (ndim : nat) (simbox : DomainBox) (k : nat)
    (p : SphParticle) (pint : SphIntParticle) :
  checked_axis ndim k = true ->
  periodic_axis simbox k ->
  (k < length (r p))%nat ->
  near_box_axis simbox k p ->
  in_box_axis simbox k (fst (wrapped ndim simbox (p, pint))).
Proof.
  intros Hc [Hsize Hper] Hk Hnear. unfold wrapped.
  destruct k as [|[|[|k]]]; cbn [checked_axis] in Hc; try discriminate.
  - destruct Hper as [-> ->].
    pose proof (wrapped_axis_periodic simbox 0 p pint Hsize Hk Hnear) as H0.
    set (pq1 := wrapped_axis simbox 0 _ _ (p, pint)) in *.
    set (pq2 := if (2 <=? ndim)%nat then _ else pq1).
    assert (H1 : vget (r (fst pq2)) 0 = vget (r (fst pq1)) 0).
    { subst pq2. destruct (2 <=? ndim)%nat; [|reflexivity].
      now apply wrapped_axis_other. }
    assert (H2 : vget (r (fst (if (ndim =? 3)%nat
                               then wrapped_axis simbox 2
                                      (z_boundary_lhs simbox)
                                      (z_boundary_rhs simbox) pq2
                               else pq2))) 0
                 = vget (r (fst pq1)) 0).
    { rewrite <- H1. destruct (ndim =? 3)%nat; [|reflexivity].
      now apply wrapped_axis_other. }
    unfold in_box_axis in *. now rewrite H2.
  - rewrite Hc. destruct Hper as [-> ->].
    set (pq1 := wrapped_axis simbox 0 _ _ (p, pint)).
    destruct (wrapped_axis_other simbox 0 1 (x_boundary_lhs simbox)
                (x_boundary_rhs simbox) (p, pint)) as [Hv Hl]; [lia|].
    fold pq1 in Hv, Hl. cbn [fst] in Hv, Hl.
    assert (H1 : in_box_axis simbox 1
                   (fst (wrapped_axis simbox 1 "periodic" "periodic" pq1))).
    { rewrite (surjective_pairing pq1).
      apply wrapped_axis_periodic; [exact Hsize | lia |].
      unfold near_box_axis in *. now rewrite Hv. }
    set (pq2 := wrapped_axis simbox 1 _ _ pq1) in *.
    assert (H2 : vget (r (fst (if (ndim =? 3)%nat
                               then wrapped_axis simbox 2
                                      (z_boundary_lhs simbox)
                                      (z_boundary_rhs simbox) pq2
                               else pq2))) 1
                 = vget (r (fst pq2)) 1).
    { destruct (ndim =? 3)%nat; [|reflexivity].
      now apply wrapped_axis_other. }
    unfold in_box_axis in *. now rewrite H2.
  - rewrite Hc. destruct Hper as [-> ->].
    set (pq1 := wrapped_axis simbox 0 _ _ (p, pint)).
    destruct (wrapped_axis_other simbox 0 2 (x_boundary_lhs simbox)
                (x_boundary_rhs simbox) (p, pint)) as [Hv Hl]; [lia|].
    fold pq1 in Hv, Hl. cbn [fst] in Hv, Hl.
    set (pq2 := if (2 <=? ndim)%nat then _ else pq1).
    assert (H1 : vget (r (fst pq2)) 2 = vget (r (fst pq1)) 2 /\
                 length (r (fst pq2)) = length (r (fst pq1))).
    { subst pq2. destruct (2 <=? ndim)%nat; [|split; reflexivity].
      now apply wrapped_axis_other. }
    destruct H1 as [Hv2 Hl2].
    rewrite (surjective_pairing pq2).
    apply wrapped_axis_periodic; [exact Hsize | lia |].
    unfold near_box_axis in *. now rewrite Hv2, Hv.
Qed.

Lemma wrapped_inside (ndim : nat) (simbox : DomainBox)
    (p : SphParticle) (pint : SphIntParticle) :
  (forall k, checked_axis ndim k = true -> in_box_axis simbox k p) ->
  wrapped ndim simbox (p, pint) = (p, pint).
Proof.
  intros Hin. unfold wrapped.
  rewrite wrapped_axis_inside by now apply Hin.
  destruct (2 <=? ndim)%nat eqn:E2.
  - rewrite wrapped_axis_inside by now apply Hin.
    destruct (ndim =? 3)%nat eqn:E3; [|reflexivity].
    rewrite wrapped_axis_inside by now apply Hin. reflexivity.
  - destruct (ndim =? 3)%nat eqn:E3; [|reflexivity].
    rewrite wrapped_axis_inside by now apply Hin. reflexivity.
Qed.

(** X1.  [CheckBoundaries] ends normally; of every entry it changes at most
    the position and the position at the start of the step, both by the
    same amount, so that the displacement [r - r0] of the step is kept; and
    it does not touch the entries behind the real particles. *)
Theorem CheckBoundaries_keeps_displacement (ndim : nat) (simbox : DomainBox)
    (sph : Sph) (sphintdata : list SphIntParticle) :
  0 <= Nsph sph <= Z.of_nat (length (sphdata sph)) ->
  Nsph sph <= Z.of_nat (length sphintdata) ->
  exists data' intdata',
    Boundaries.CheckBoundaries ndim simbox sph sphintdata
      = Done (data', intdata') /\
    (forall (i : nat) p pint,
       sphdata sph !! i = Some p -> sphintdata !! i = Some pint ->
       exists p' pint',
         data' !! i = Some p' /\ intdata' !! i = Some pint' /\
         p' = set_r (r p') p /\
         nstep pint' = nstep pint /\
         (length (r p) = length (r0 pint) ->
          forall k, (vget (r p') k - vget (r0 pint') k
                     == vget (r p) k - vget (r0 pint) k)%Q)) /\
    (forall i : nat, Nsph sph <= Z.of_nat i ->
       data' !! i = sphdata sph !! i /\ intdata' !! i = sphintdata !! i).
Proof.
  intros Hdata Hint.
  destruct (CheckBoundaries_spec ndim simbox sph sphintdata Hdata Hint)
    as (data' & intdata' & Hrun & _ & _ & Hlow & Hhigh).
  exists data', intdata'. split; [exact Hrun|]. split; [|exact Hhigh].
  intros i p pint Hp Hq.
  destruct (Z.lt_ge_cases (Z.of_nat i) (Nsph sph)) as [Hi|Hi].
  - destruct (Hlow i p pint Hi Hp Hq) as [Hp' Hq'].
    pose proof (wrapped_shape ndim simbox p pint) as H. cbv zeta in H.
    destruct H as (Hs1 & Hs2 & _ & _ & Hd).
    eexists _, _. split; [exact Hp'|]. split; [exact Hq'|].
    split; [exact Hs1|]. split; [now rewrite Hs2|exact Hd].
  - destruct (Hhigh i Hi) as [Hp' Hq'].
    exists p, pint. rewrite Hp', Hq'. split; [exact Hp|]. split; [exact Hq|].
    split; [symmetry; apply set_r_same|]. split; [reflexivity|].
    intros _ k. reflexivity.
Qed.

Lemma CheckBoundaries_keeps_displacement_witness :
  exists data' intdata',
    Boundaries.CheckBoundaries 3 Samples.periodic_box Cases.one_escaped
      [Cases.escaped_int] = Done (data', intdata') /\
    (forall (i : nat) p pint,
       sphdata Cases.one_escaped !! i = Some p ->
       [Cases.escaped_int] !! i = Some pint ->
       exists p' pint',
         data' !! i = Some p' /\ intdata' !! i = Some pint' /\
         p' = set_r (r p') p /\
         nstep pint' = nstep pint /\
         (length (r p) = length (r0 pint) ->
          forall k, (vget (r p') k - vget (r0 pint') k
                     == vget (r p) k - vget (r0 pint) k)%Q)) /\
    (forall i : nat, Nsph Cases.one_escaped <= Z.of_nat i ->
       data' !! i = sphdata Cases.one_escaped !! i /\
       intdata' !! i = [Cases.escaped_int] !! i).
Proof.
  apply (CheckBoundaries_keeps_displacement 3 Samples.periodic_box
           Cases.one_escaped [Cases.escaped_int]); cbn; lia.
Defined.

(** X2.  Along a periodic pair of faces that the routine tests,
    [CheckBoundaries] brings every real particle that is at most one box
    length outside the box back between the two faces. *)
Theorem CheckBoundaries_wraps_into_box (ndim : nat) (simbox : DomainBox)
    (sph : Sph) (sphintdata : list SphIntParticle) (k : nat) :
  0 <= Nsph sph <= Z.of_nat (length (sphdata sph)) ->
  Nsph sph <= Z.of_nat (length sphintdata) ->
  checked_axis ndim k = true ->
  periodic_axis simbox k ->
  exists data' intdata',
    Boundaries.CheckBoundaries ndim simbox sph sphintdata
      = Done (data', intdata') /\
    forall (i : nat) p,
      Z.of_nat i < Nsph sph -> sphdata sph !! i = Some p ->
      (k < length (r p))%nat -> near_box_axis simbox k p ->
      exists p', data' !! i = Some p' /\ in_box_axis simbox k p'.
Proof.
  intros Hdata Hint Hc Hper.
  destruct (CheckBoundaries_spec ndim simbox sph sphintdata Hdata Hint)
    as (data' & intdata' & Hrun & _ & _ & Hlow & _).
  exists data', intdata'. split; [exact Hrun|].
  intros i p Hi Hp Hk Hnear.
  destruct (lookup_lt_is_Some_2 sphintdata i) as [pint Hq]; [lia|].
  destruct (Hlow i p pint Hi Hp Hq) as [Hp' _].
  eexists. split; [exact Hp'|]. now apply wrapped_in_box.
Qed.

Lemma CheckBoundaries_wraps_into_box_witness :
  exists data' intdata',
    Boundaries.CheckBoundaries 3 Samples.periodic_box Cases.one_escaped
      [Cases.escaped_int] = Done (data', intdata') /\
    forall (i : nat) p,
      Z.of_nat i < Nsph Cases.one_escaped ->
      sphdata Cases.one_escaped !! i = Some p ->
      (2 < length (r p))%nat -> near_box_axis Samples.periodic_box 2 p ->
      exists p', data' !! i = Some p' /\
                 in_box_axis Samples.periodic_box 2 p'.
Proof.
  apply (CheckBoundaries_wraps_into_box 3 Samples.periodic_box
           Cases.one_escaped [Cases.escaped_int] 2).
  - cbn; lia.
  - cbn; lia.
  - reflexivity.
  - split; [reflexivity | split; reflexivity].
Defined.

(** X3.  When every real particle lies between the faces along each
    coordinate that the routine tests, [CheckBoundaries] changes nothing,
    whatever the kinds of the boundaries. *)
Theorem CheckBoundaries_inside_unchanged (ndim : nat) (simbox : DomainBox)
    (sph : Sph) (sphintdata : list SphIntParticle) :
  0 <= Nsph sph <= Z.of_nat (length (sphdata sph)) ->
  Nsph sph <= Z.of_nat (length sphintdata) ->
  (forall (i : nat) p k,
     Z.of_nat i < Nsph sph -> sphdata sph !! i = Some p ->
     checked_axis ndim k = true -> in_box_axis simbox k p) ->
  Boundaries.CheckBoundaries ndim simbox sph sphintdata
  = Done (sphdata sph, sphintdata).
Proof.
  intros Hdata Hint Hin.
  destruct (CheckBoundaries_spec ndim simbox sph sphintdata Hdata Hint)
    as (data' & intdata' & Hrun & Hl1 & Hl2 & Hlow & Hhigh).
  rewrite Hrun.
  assert (Hsame : forall i : nat,
            data' !! i = sphdata sph !! i /\ intdata' !! i = sphintdata !! i).
  { intros i.
    destruct (Z.lt_ge_cases (Z.of_nat i) (Nsph sph)) as [Hi|Hi];
      [|now apply Hhigh].
    destruct (lookup_lt_is_Some_2 (sphdata sph) i) as [p Hp]; [lia|].
    destruct (lookup_lt_is_Some_2 sphintdata i) as [pint Hq]; [lia|].
    destruct (Hlow i p pint Hi Hp Hq) as [Hp' Hq'].
    rewrite wrapped_inside in Hp', Hq'
      by (intros k Hk; now apply (Hin i p k)).
    cbn [fst snd] in *. now rewrite Hp, Hq. }
  f_equal. f_equal; apply list_eq; intros i; apply Hsame.
Qed.

Lemma CheckBoundaries_inside_unchanged_witness :
  Boundaries.CheckBoundaries 3 Samples.periodic_box Cases.one_inside
    [Cases.escaped_int]
  = Done (sphdata Cases.one_inside, [Cases.escaped_int]).
Proof.
  apply (CheckBoundaries_inside_unchanged 3 Samples.periodic_box
           Cases.one_inside [Cases.escaped_int]).
  - cbn; lia.
  - cbn; lia.
  - intros [|i] p k Hi Hp Hk; [|cbn in Hi; lia].
    injection Hp as <-.
    destruct k as [|[|[|k]]]; try discriminate; split; vm_compute;
      discriminate.
Defined.

(** ** Searching for ghosts *)

Lemma grown_refl (sph : Sph) : grown sph sph.
Proof. unfold grown. repeat split; auto; lia. Qed.

Lemma grown_trans (s1 s2 s3 : Sph) : grown s1 s2 -> grown s2 s3 -> grown s1 s3.
Proof.
  intros (A1 & A2 & A3 & A4 & A5 & A6) (B1 & B2 & B3 & B4 & B5 & B6).
  unfold grown. repeat split; try congruence; try lia.
  intros n Hn. rewrite B6 by lia. now apply A6.
Qed.

Lemma CreateGhostParticle_grows (i : Z) (k : nat) (rk vk : Q)
    (sph sph' : Sph) (ghosttype : ptype) :
  PeriodicGhosts.CreateGhostParticle i k rk vk sph ghosttype = Done sph' ->
  ghosts_ok sph -> i < Nsph sph + Nghost sph ->
  ghosttype <> real_particle ->
  grown sph sph' /\ ghosts_ok sph' /\ Ntot sph' = Ntot sph /\
  Nghost sph' = Nghost sph + 1.
Proof.
  unfold PeriodicGhosts.CreateGhostParticle.
  intros Hrun (HN & HG & Hok) Hi Hkind.
  apply bind_Done in Hrun as (_ & _ & Hrun).
  apply bind_Done in Hrun as (orig & Hrd & Hrun).
  apply bind_Done in Hrun as (data & Hwr & Hrun).
  injection Hrun as <-. apply rd_Done in Hrd as [Hi0 Horig].
  apply wr_Done in Hwr as [Hrange ->].
  split; [|split; [|split; reflexivity]].
  - unfold grown. cbn. rewrite length_insert.
    repeat split; try lia.
    intros n Hn. apply list_lookup_insert_ne. lia.
  - split; [exact HN|]. split; [cbn; lia|].
    cbn [Nghost Nsph set_Nghost set_sphdata]. intros j Hj.
    destruct (decide (j = Nghost sph)) as [->|Hne].
    + eexists. unfold ghost_at. cbn [sphdata Nsph set_Nghost set_sphdata].
      split; [apply list_lookup_insert_eq; lia|].
      cbn. split; [reflexivity|]. split; [exact Hkind | lia].
    + destruct (Hok j) as (g & Hg & Hrest); [lia|].
      exists g. unfold ghost_at. cbn [sphdata Nsph set_Nghost set_sphdata].
      split; [|exact Hrest].
      rewrite list_lookup_insert_ne by lia. exact Hg.
Qed.

Lemma ghost_step_refl (sph : Sph) : ghosts_ok sph -> ghost_step sph sph.
Proof. intros H. split; [apply grown_refl | auto]. Qed.

Lemma ghost_step_trans (s1 s2 s3 : Sph) :
  ghost_step s1 s2 -> ghost_step s2 s3 -> ghost_step s1 s3.
Proof.
  intros (A & _ & C) (A' & B' & C').
  split; [eapply grown_trans; eassumption|]. split; [exact B' | congruence].
Qed.

Lemma create_if_step (b : bool) (i : Z) (k : nat) (rk vk : Q)
    (sph sph' : Sph) (ghosttype : ptype) :
  (if b then PeriodicGhosts.CreateGhostParticle i k rk vk sph ghosttype
   else Done sph) = Done sph' ->
  ghosts_ok sph -> i < Nsph sph + Nghost sph ->
  ghosttype <> real_particle ->
  ghost_step sph sph'.
Proof.
  intros Hrun Hok Hi Hkind. destruct b.
  - destruct (CreateGhostParticle_grows _ _ _ _ _ _ _ Hrun Hok Hi Hkind)
      as (A & B & C & _). now split.
  - injection Hrun as <-. now apply ghost_step_refl.
Qed.

Lemma ghosts_of_particle_step (ghost_range tghost : Q) (simbox : DomainBox)
    (k : nat) (lhs rhs : string) (t1 t2 t3 t4 : ptype) (i : Z)
    (sph sph' : Sph) :
  PeriodicGhosts.ghosts_of_particle ghost_range tghost simbox k lhs rhs
    t1 t2 t3 t4 i sph = Done sph' ->
  t1 <> real_particle -> t2 <> real_particle ->
  t3 <> real_particle -> t4 <> real_particle ->
  ghosts_ok sph -> i < Nsph sph + Nghost sph ->
  ghost_step sph sph'.
Proof.
  unfold PeriodicGhosts.ghosts_of_particle.
  intros Hrun H1 H2 H3 H4 Hok Hi.
  apply bind_Done in Hrun as (p & _ & Hrun).
  apply bind_Done in Hrun as (s2 & Hlow & Hrun).
  assert (Hs2 : ghost_step sph s2).
  { destruct (Qltb _ _); [|injection Hlow as <-; now apply ghost_step_refl].
    apply bind_Done in Hlow as (s1 & Ha & Hlow).
    apply bind_Done in Hlow as (p1 & _ & Hb).
    assert (Hs1 : ghost_step sph s1) by (eapply create_if_step; eassumption).
    eapply ghost_step_trans; [exact Hs1|].
    destruct Hs1 as ((E1 & _ & _ & _ & E5 & _) & Hok1 & _).
    eapply create_if_step; [exact Hb | exact Hok1 | lia | exact H2]. }
  clear Hlow. eapply ghost_step_trans; [exact Hs2|].
  destruct Hs2 as ((E1 & _ & _ & _ & E5 & _) & Hok2 & _).
  apply bind_Done in Hrun as (p2 & _ & Hrun).
  destruct (Qltb _ _); [|injection Hrun as <-; now apply ghost_step_refl].
  apply bind_Done in Hrun as (s3 & Ha & Hrun).
  apply bind_Done in Hrun as (p3 & _ & Hb).
  assert (Hs3 : ghost_step s2 s3).
  { eapply create_if_step; [exact Ha | exact Hok2 | lia | exact H3]. }
  eapply ghost_step_trans; [exact Hs3|].
  destruct Hs3 as ((F1 & _ & _ & _ & F5 & _) & Hok3 & _).
  eapply create_if_step; [exact Hb | exact Hok3 | lia | exact H4].
Qed.

Lemma ghosts_along_step (ghost_range tghost : Q) (simbox : DomainBox)
    (k : nat) (lhs rhs : string) (t1 t2 t3 t4 : ptype) (sph sph' : Sph) :
  PeriodicGhosts.ghosts_along ghost_range tghost simbox k lhs rhs
    t1 t2 t3 t4 sph = Done sph' ->
  t1 <> real_particle -> t2 <> real_particle ->
  t3 <> real_particle -> t4 <> real_particle ->
  ghosts_ok sph -> Ntot sph = Nsph sph + Nghost sph ->
  grown sph sph' /\ ghosts_ok sph' /\ Ntot sph' = Nsph sph' + Nghost sph'.
Proof.
  unfold PeriodicGhosts.ghosts_along. intros Hrun H1 H2 H3 H4 Hok Htot.
  destruct (negb _).
  - apply bind_Done in Hrun as (s1 & Hloop & Hrun). injection Hrun as <-.
    assert (Hs1 : ghost_step sph s1).
    { destruct (Z.le_gt_cases 0 (Ntot sph)) as [Hpos|Hneg].
      - apply (for_range_invariant (fun _ t => ghost_step sph t)) in Hloop;
          [exact Hloop | exact Hpos | | now apply ghost_step_refl].
        intros i t t' Hi Ht Hbody.
        eapply ghost_step_trans; [exact Ht|].
        destruct Ht as ((E1 & _ & _ & _ & E5 & _) & Hokt & _).
        eapply ghosts_of_particle_step; try eassumption. lia.
      - rewrite for_range_empty in Hloop by lia. injection Hloop as <-.
        now apply ghost_step_refl. }
    destruct Hs1 as (Hg & (A & B & C) & _).
    split; [exact Hg|]. split; [|reflexivity].
    split; [exact A|]. split; [exact B|]. exact C.
  - injection Hrun as <-. split; [apply grown_refl | auto].
Qed.

Lemma SearchGhostParticles_spec (ndim : nat) (ghost_range tghost : Q)
    (simbox : DomainBox) (sph sph' : Sph) :
  PeriodicGhosts.SearchGhostParticles ndim ghost_range tghost simbox sph
  = Done sph' ->
  0 <= Nsph sph ->
  ghosts_ok sph' /\
  Nsph sph' = Nsph sph /\ Nsphmax sph' = Nsphmax sph /\
  Nghostmax sph' = Nsphmax sph - Nsph sph /\
  length (sphdata sph') = length (sphdata sph) /\
  (forall n : nat, Z.of_nat n < Nsph sph ->
     sphdata sph' !! n = sphdata sph !! n) /\
  Ntot sph' = Nsph sph + Nghost sph' /\
  NPeriodicGhost sph' = Nghost sph'.
Proof.
  unfold PeriodicGhosts.SearchGhostParticles. cbv zeta.
  set (sph1 := set_Ntot _ _). intros Hrun HN.
  assert (Hok1 : ghosts_ok sph1).
  { split; [exact HN|]. split; [cbn; lia|]. cbn. intros j Hj. lia. }
  assert (Htot1 : Ntot sph1 = Nsph sph1 + Nghost sph1) by (cbn; lia).
  assert (Hfinal : forall s, grown sph1 s -> ghosts_ok s ->
            Ntot s = Nsph s + Nghost s -> NPeriodicGhost s = Nghost s ->
            ghosts_ok s /\
            Nsph s = Nsph sph /\ Nsphmax s = Nsphmax sph /\
            Nghostmax s = Nsphmax sph - Nsph sph /\
            length (sphdata s) = length (sphdata sph) /\
            (forall n : nat, Z.of_nat n < Nsph sph ->
               sphdata s !! n = sphdata sph !! n) /\
            Ntot s = Nsph sph + Nghost s /\
            NPeriodicGhost s = Nghost s).
  { intros s (A1 & A2 & A3 & A4 & A5 & A6) Hok Htot Hper.
    cbn in A1, A2, A3, A4, A5, A6.
    split; [exact Hok|]. repeat split; try assumption; try lia.
    intros n Hn. apply A6. lia. }
  destruct (_ && _).
  { injection Hrun as <-. apply Hfinal; auto using grown_refl. }
  apply bind_Done in Hrun as (s1 & Hx & Hrun).
  apply ghosts_along_step in Hx as (Hg1 & Hs1 & Ht1);
    [|discriminate..|exact Hok1|exact Htot1].
  apply bind_Done in Hrun as (s2 & Hy & Hrun).
  assert (H2 : grown s1 s2 /\ ghosts_ok s2 /\ Ntot s2 = Nsph s2 + Nghost s2).
  { destruct (2 <=? ndim)%nat.
    - apply ghosts_along_step in Hy; [exact Hy|discriminate..|assumption|assumption].
    - injection Hy as <-. auto using grown_refl. }
  destruct H2 as (Hg2 & Hs2 & Ht2).
  apply bind_Done in Hrun as (s3 & Hz & Hrun).
  assert (H3 : grown s2 s3 /\ ghosts_ok s3 /\ Ntot s3 = Nsph s3 + Nghost s3).
  { destruct (ndim =? 3)%nat.
    - apply ghosts_along_step in Hz; [exact Hz|discriminate..|assumption|assumption].
    - injection Hz as <-. auto using grown_refl. }
  destruct H3 as (Hg3 & Hs3 & Ht3).
  apply bind_Done in Hrun as (_ & _ & Hrun). injection Hrun as <-.
  apply Hfinal.
  - destruct (grown_trans _ _ _ (grown_trans _ _ _ Hg1 Hg2) Hg3)
      as (A1 & A2 & A3 & A4 & A5 & A6).
    unfold grown. cbn [Nsph Nsphmax Nghostmax sphdata Nghost set_NPeriodicGhost].
    auto 10.
  - destruct Hs3 as (A & B & C). split; [exact A|]. split; [exact B|].
    exact C.
  - exact Ht3.
  - reflexivity.
Qed.

(** ** Refreshing the ghosts *)

Lemma reapply_shift_tags (simbox : DomainBox) (t : ptype) (p : SphParticle) :
  itype (PeriodicGhosts.reapply_shift simbox t p) = itype p /\
  iorig (PeriodicGhosts.reapply_shift simbox t p) = iorig p.
Proof.
  unfold PeriodicGhosts.reapply_shift. repeat case_decide; auto.
Qed.

Lemma refreshed_tags (simbox : DomainBox) (g orig : SphParticle) :
  active (refreshed simbox g orig) = false /\
  itype (refreshed simbox g orig) = itype g /\
  iorig (refreshed simbox g orig) = iorig g.
Proof.
  unfold refreshed. rewrite reapply_shift_active.
  destruct (reapply_shift_tags simbox (itype g)
              (set_active false (set_itype (itype g)
                 (set_iorig (iorig g) orig)))) as [-> ->].
  auto.
Qed.

Lemma refresh_ghost_run (simbox : DomainBox) (j : Z) (sph : Sph)
    (g orig : SphParticle) :
  0 <= Nsph sph + j -> 0 <= iorig g ->
  sphdata sph !! Z.to_nat (Nsph sph + j) = Some g ->
  sphdata sph !! Z.to_nat (iorig g) = Some orig ->
  PeriodicGhosts.refresh_ghost simbox j sph
  = Done (set_sphdata
            (<[Z.to_nat (Nsph sph + j) := refreshed simbox g orig]>
               (sphdata sph)) sph).
Proof.
  intros Hi Ho Hg Horig. unfold PeriodicGhosts.refresh_ghost. cbv zeta.
  rewrite (rd_lookup (sphdata sph) (Nsph sph + j) g Hi Hg).
  cbn [mbind result_bind].
  rewrite (rd_lookup (sphdata sph) (iorig g) orig Ho Horig).
  cbn [mbind result_bind].
  rewrite wr_in_range by (apply lookup_lt_Some in Hg; lia).
  reflexivity.
Qed.

Lemma CopySphDataToGhosts_spec (simbox : DomainBox) (sph : Sph) :
  ghosts_ok sph -> NPeriodicGhost sph <= Nghost sph ->
  exists sph',
    PeriodicGhosts.CopySphDataToGhosts simbox sph = Done sph' /\
    sph' = set_sphdata (sphdata sph') sph /\
    length (sphdata sph') = length (sphdata sph) /\
    (forall n : nat,
       Z.of_nat n < Nsph sph \/ Nsph sph + NPeriodicGhost sph <= Z.of_nat n ->
       sphdata sph' !! n = sphdata sph !! n) /\
    (forall j g, 0 <= j < NPeriodicGhost sph ->
       sphdata sph !! Z.to_nat (Nsph sph + j) = Some g ->
       exists orig,
         sphdata sph' !! Z.to_nat (iorig g) = Some orig /\
         sphdata sph' !! Z.to_nat (Nsph sph + j)
         = Some (refreshed simbox g orig)).
Proof.
  intros (HN & HG & Hok) Hper. unfold PeriodicGhosts.CopySphDataToGhosts.
  destruct (Z.le_gt_cases 0 (NPeriodicGhost sph)) as [Hpos|Hneg].
  2:{ exists sph. rewrite for_range_empty by lia.
      split; [reflexivity|]. split; [now destruct sph|].
      split; [reflexivity|]. split; [reflexivity|]. intros j g Hj. lia. }
  pose (P := fun (n : Z) (t : Sph) =>
    t = set_sphdata (sphdata t) sph /\
    length (sphdata t) = length (sphdata sph) /\
    (forall m : nat, Z.of_nat m < Nsph sph \/ Nsph sph + n <= Z.of_nat m ->
       sphdata t !! m = sphdata sph !! m) /\
    (forall j g, 0 <= j < n ->
       sphdata sph !! Z.to_nat (Nsph sph + j) = Some g ->
       exists orig,
         sphdata t !! Z.to_nat (iorig g) = Some orig /\
         sphdata t !! Z.to_nat (Nsph sph + j)
         = Some (refreshed simbox g orig))).
  destruct (for_range_total P (PeriodicGhosts.refresh_ghost simbox) 0
              (NPeriodicGhost sph) sph) as (sph' & Hrun & HP);
    [exact Hpos | | | exists sph'; split; [exact Hrun | exact HP]].
  - unfold P. intros i t Hi (Ht & Hlen & Hout & Hin).
    destruct (Hok i) as (g & Hg & _ & _ & Ho); [lia|].
    assert (HNt : Nsph t = Nsph sph) by (rewrite Ht; reflexivity).
    assert (Hgt : sphdata t !! Z.to_nat (Nsph t + i) = Some g).
    { rewrite HNt, Hout by lia. exact Hg. }
    destruct (lookup_lt_is_Some_2 (sphdata t) (Z.to_nat (iorig g)))
      as [orig Horig].
    { apply lookup_lt_Some in Hgt. lia. }
    eexists. split.
    + apply (refresh_ghost_run simbox i t g orig); [lia | lia | exact Hgt |
                                                     exact Horig].
    + cbn [sphdata set_sphdata]. rewrite HNt.
      split; [rewrite Ht at 2; reflexivity|].
      split; [now rewrite length_insert|]. split.
      * intros m Hm. rewrite list_lookup_insert_ne by lia. apply Hout. lia.
      * intros j g' Hj Hg'.
        destruct (decide (j = i)) as [->|Hne].
        -- assert (g' = g) as -> by congruence.
           exists orig. split.
           ++ rewrite list_lookup_insert_ne by lia. exact Horig.
           ++ apply list_lookup_insert_eq. apply lookup_lt_Some in Hgt. lia.
        -- destruct (Hin j g') as (o & Ho1 & Ho2); [lia | exact Hg' |].
           destruct (Hok j) as (g'' & Hg'' & _ & _ & Hidx); [lia|].
           assert (g'' = g') as -> by congruence.
           exists o. rewrite !list_lookup_insert_ne by lia. auto.
  - unfold P. split; [now destruct sph|]. split; [reflexivity|].
    split; [reflexivity|]. intros j g Hj. lia.
Qed.

(** X4.  A search for ghosts that ends normally leaves the real particles
    and the size of the store alone, sets the ghost capacity to the room
    behind the real particles, and leaves the counters consistent: the total
    is the number of real particles plus the number of ghosts, every ghost
    counts as a periodic ghost, and all entries counted lie in the store. *)
Theorem SearchGhostParticles_counters (ndim : nat) (ghost_range tghost : Q)
    (simbox : DomainBox) (sph sph' : Sph) :
  PeriodicGhosts.SearchGhostParticles ndim ghost_range tghost simbox sph
  = Done sph' ->
  0 <= Nsph sph <= Z.of_nat (length (sphdata sph)) ->
  Nsph sph' = Nsph sph /\ Nsphmax sph' = Nsphmax sph /\
  Nghostmax sph' = Nsphmax sph - Nsph sph /\
  0 <= Nghost sph' /\
  NPeriodicGhost sph' = Nghost sph' /\
  Ntot sph' = Nsph sph + Nghost sph' /\
  Ntot sph' <= Z.of_nat (length (sphdata sph')) /\
  length (sphdata sph') = length (sphdata sph) /\
  (forall n : nat, Z.of_nat n < Nsph sph ->
     sphdata sph' !! n = sphdata sph !! n).
Proof.
  intros Hrun HN.
  destruct (SearchGhostParticles_spec _ _ _ _ _ _ Hrun (proj1 HN))
    as ((_ & HG & Hok) & A1 & A2 & A3 & A4 & A5 & A6 & A7).
  repeat split; try assumption.
  rewrite A6. destruct (decide (Nghost sph' = 0)) as [->|Hne]; [lia|].
  destruct (Hok (Nghost sph' - 1)) as (g & Hg & _); [lia|].
  apply lookup_lt_Some in Hg. lia.
Qed.

Lemma SearchGhostParticles_counters_witness :
  Nsph Cases.searched = Nsph Cases.one_corner /\
  Nsphmax Cases.searched = Nsphmax Cases.one_corner /\
  Nghostmax Cases.searched
  = Nsphmax Cases.one_corner - Nsph Cases.one_corner /\
  0 <= Nghost Cases.searched /\
  NPeriodicGhost Cases.searched = Nghost Cases.searched /\
  Ntot Cases.searched = Nsph Cases.one_corner + Nghost Cases.searched /\
  Ntot Cases.searched <= Z.of_nat (length (sphdata Cases.searched)) /\
  length (sphdata Cases.searched) = length (sphdata Cases.one_corner) /\
  (forall n : nat, Z.of_nat n < Nsph Cases.one_corner ->
     sphdata Cases.searched !! n = sphdata Cases.one_corner !! n).
Proof.
  apply (SearchGhostParticles_counters 3 (11#10) 0 Samples.periodic_box
           Cases.one_corner Cases.searched).
  - vm_compute. reflexivity.
  - cbn. lia.
Defined.

(** X5.  After a search that ends normally every ghost in the store is
    inactive, carries one of the ghost kinds, and names as its origin an
    entry in front of itself: a real particle or a ghost made before it. *)
Theorem SearchGhostParticles_ghosts (ndim : nat) (ghost_range tghost : Q)
    (simbox : DomainBox) (sph sph' : Sph) :
  PeriodicGhosts.SearchGhostParticles ndim ghost_range tghost simbox sph
  = Done sph' ->
  0 <= Nsph sph ->
  forall j, 0 <= j < Nghost sph' ->
    exists g,
      sphdata sph' !! Z.to_nat (Nsph sph + j) = Some g /\
      active g = false /\ itype g <> real_particle /\
      0 <= iorig g < Nsph sph + j.
Proof.
  intros Hrun HN j Hj.
  destruct (SearchGhostParticles_spec _ _ _ _ _ _ Hrun HN)
    as ((_ & _ & Hok) & A1 & _).
  destruct (Hok j Hj) as (g & Hg). exists g.
  unfold ghost_at in Hg. now rewrite A1 in Hg.
Qed.

Lemma SearchGhostParticles_ghosts_witness :
  exists g,
    sphdata Cases.searched !! Z.to_nat (Nsph Cases.one_corner + 2)
    = Some g /\
    active g = false /\ itype g <> real_particle /\
    0 <= iorig g < Nsph Cases.one_corner + 2.
Proof.
  apply (SearchGhostParticles_ghosts 3 (11#10) 0 Samples.periodic_box
           Cases.one_corner Cases.searched).
  - vm_compute. reflexivity.
  - cbn. lia.
  - vm_compute. split; [discriminate | reflexivity].
Defined.

(** X6.  After a search that ends normally the refresh of the ghosts ends
    normally as well; it changes nothing but ghost entries, and every ghost
    keeps its kind and its origin and stays inactive. *)
Theorem CopySphDataToGhosts_after_search (ndim : nat)
    (ghost_range tghost : Q) (simbox : DomainBox) (sph sph' : Sph) :
  PeriodicGhosts.SearchGhostParticles ndim ghost_range tghost simbox sph
  = Done sph' ->
  0 <= Nsph sph ->
  exists sph'',
    PeriodicGhosts.CopySphDataToGhosts simbox sph' = Done sph'' /\
    sph'' = set_sphdata (sphdata sph'') sph' /\
    length (sphdata sph'') = length (sphdata sph) /\
    (forall n : nat, Z.of_nat n < Nsph sph ->
       sphdata sph'' !! n = sphdata sph !! n) /\
    (forall j, 0 <= j < Nghost sph' ->
       exists g g'',
         sphdata sph' !! Z.to_nat (Nsph sph + j) = Some g /\
         sphdata sph'' !! Z.to_nat (Nsph sph + j) = Some g'' /\
         active g'' = false /\ itype g'' = itype g /\ iorig g'' = iorig g).
Proof.
  intros Hrun HN.
  destruct (SearchGhostParticles_spec _ _ _ _ _ _ Hrun HN)
    as (Hok & A1 & _ & _ & A4 & A5 & _ & A7).
  destruct (CopySphDataToGhosts_spec simbox sph' Hok) as
    (sph'' & Hcopy & B1 & B2 & B3 & B4); [lia|].
  exists sph''. split; [exact Hcopy|]. split; [exact B1|].
  split; [congruence|]. split.
  - intros n Hn. rewrite B3 by lia. now apply A5.
  - intros j Hj. destruct Hok as (_ & _ & Hok).
    destruct (Hok j Hj) as (g & Hg & _). rewrite A1 in *.
    destruct (B4 j g) as (orig & _ & Hnew); [lia | exact Hg |].
    exists g, (refreshed simbox g orig).
    split; [exact Hg|]. split; [exact Hnew|]. apply refreshed_tags.
Qed.

Lemma CopySphDataToGhosts_after_search_witness :
  exists sph'',
    PeriodicGhosts.CopySphDataToGhosts Samples.periodic_box Cases.searched
    = Done sph'' /\
    sph'' = set_sphdata (sphdata sph'') Cases.searched /\
    length (sphdata sph'') = length (sphdata Cases.one_corner) /\
    (forall n : nat, Z.of_nat n < Nsph Cases.one_corner ->
       sphdata sph'' !! n = sphdata Cases.one_corner !! n) /\
    (forall j, 0 <= j < Nghost Cases.searched ->
       exists g g'',
         sphdata Cases.searched !! Z.to_nat (Nsph Cases.one_corner + j)
         = Some g /\
         sphdata sph'' !! Z.to_nat (Nsph Cases.one_corner + j) = Some g'' /\
         active g'' = false /\ itype g'' = itype g /\ iorig g'' = iorig g).
Proof.
  apply (CopySphDataToGhosts_after_search 3 (11#10) 0 Samples.periodic_box
           Cases.one_corner Cases.searched).
  - vm_compute. reflexivity.
  - cbn. lia.
Defined.

(** X7.  On a store of well-formed ghosts the refresh ends normally and
    rebuilds every periodic ghost from the value that its origin has after
    the refresh: a ghost of a ghost is made from the refreshed ghost, and a
    ghost of a real particle from that particle. *)
Theorem CopySphDataToGhosts_uses_refreshed_origin (simbox : DomainBox)
    (sph : Sph) :
  ghosts_ok sph -> NPeriodicGhost sph <= Nghost sph ->
  exists sph',
    PeriodicGhosts.CopySphDataToGhosts simbox sph = Done sph' /\
    forall j g, 0 <= j < NPeriodicGhost sph ->
      sphdata sph !! Z.to_nat (Nsph sph + j) = Some g ->
      exists orig,
        sphdata sph' !! Z.to_nat (iorig g) = Some orig /\
        sphdata sph' !! Z.to_nat (Nsph sph + j)
        = Some (refreshed simbox g orig) /\
        (iorig g < Nsph sph ->
         sphdata sph !! Z.to_nat (iorig g) = Some orig).
Proof.
  intros Hok Hper.
  destruct (CopySphDataToGhosts_spec simbox sph Hok Hper) as
    (sph' & Hcopy & _ & _ & Hout & Hin).
  exists sph'. split; [exact Hcopy|]. intros j g Hj Hg.
  destruct (Hin j g Hj Hg) as (orig & Ho & Hnew).
  exists orig. split; [exact Ho|]. split; [exact Hnew|].
  intros Hreal. rewrite <- Hout; [exact Ho|].
  destruct Hok as (_ & _ & Hok).
  destruct (Hok j) as (g' & Hg' & _ & _ & Hidx); [lia|].
  assert (g' = g) as -> by congruence. lia.
Qed.

Lemma CopySphDataToGhosts_uses_refreshed_origin_witness :
  exists sph',
    PeriodicGhosts.CopySphDataToGhosts Samples.periodic_box Cases.searched
    = Done sph' /\
    forall j g, 0 <= j < NPeriodicGhost Cases.searched ->
      sphdata Cases.searched !! Z.to_nat (Nsph Cases.searched + j) = Some g ->
      exists orig,
        sphdata sph' !! Z.to_nat (iorig g) = Some orig /\
        sphdata sph' !! Z.to_nat (Nsph Cases.searched + j)
        = Some (refreshed Samples.periodic_box g orig) /\
        (iorig g < Nsph Cases.searched ->
         sphdata Cases.searched !! Z.to_nat (iorig g) = Some orig).
Proof.
  apply (CopySphDataToGhosts_uses_refreshed_origin Samples.periodic_box
           Cases.searched).
  - split; [vm_compute; discriminate|]. split; [vm_compute; discriminate|].
    intros j Hj. change (Nghost Cases.searched) with 3 in Hj.
    assert (Hcases : j = 0 \/ j = 1 \/ j = 2) by lia.
    destruct Hcases as [->|[->| ->]]; eexists; unfold ghost_at;
      (split; [vm_compute; reflexivity|]);
      (split; [reflexivity|]); (split; [discriminate|]);
      (vm_compute; split; [discriminate | reflexivity]).
  - vm_compute. discriminate.
Defined.

(** ** Ghosts received from other nodes *)

Lemma store_ghosts_spec (ghost_array : list SphParticle) (start n : Z)
    (arr arr' : list SphParticle) :
  for_range 0 n (MPIGhosts.store_ghost ghost_array start) arr = Done arr' ->
  length arr' = length arr /\
  (forall j, 0 <= j < n ->
     0 <= start + j /\
     exists g, ghost_array !! Z.to_nat j = Some g /\
               arr' !! Z.to_nat (start + j) = Some (set_active false g)) /\
  (forall m : nat, ~ (start <= Z.of_nat m < start + n) ->
     arr' !! m = arr !! m).
Proof.
  intros Hrun.
  destruct (Z.le_gt_cases 0 n) as [Hpos|Hneg].
  2:{ rewrite for_range_empty in Hrun by lia. injection Hrun as <-.
      split; [reflexivity|]. split; [intros j Hj; lia | reflexivity]. }
  pose (P := fun (k : Z) (t : list SphParticle) =>
    length t = length arr /\
    (forall j, 0 <= j < k ->
       0 <= start + j /\
       exists g, ghost_array !! Z.to_nat j = Some g /\
                 t !! Z.to_nat (start + j) = Some (set_active false g)) /\
    (forall m : nat, ~ (start <= Z.of_nat m < start + k) ->
       t !! m = arr !! m)).
  apply (for_range_invariant P) in Hrun; [exact Hrun | exact Hpos | |].
  - unfold P. intros i t t' Hi (Hlen & Hin & Hout) Hbody.
    unfold MPIGhosts.store_ghost in Hbody. cbv zeta in Hbody.
    apply bind_Done in Hbody as (g & Hrd & Hwr).
    apply rd_Done in Hrd as [_ Hg]. apply wr_Done in Hwr as [Hrange ->].
    split; [now rewrite length_insert|]. split.
    + intros j Hj. destruct (decide (j = i)) as [->|Hne].
      * split; [lia|]. exists g. split; [exact Hg|].
        apply list_lookup_insert_eq. lia.
      * destruct (Hin j) as (Hpos' & g' & Hg' & Hst); [lia|].
        split; [exact Hpos'|]. exists g'. split; [exact Hg'|].
        rewrite list_lookup_insert_ne by lia. exact Hst.
    + intros m Hm. rewrite list_lookup_insert_ne by lia. apply Hout. lia.
  - unfold P. split; [reflexivity|]. split; [intros j Hj; lia | reflexivity].
Qed.

(** X8.  When [MPIGhosts::SearchGhostParticles] ends normally it has put the
    received ghosts, in their order and inactive, into the entries from
    [Nsph + NPeriodicGhost] on, has left every other entry alone, has added
    their number to both counters, and the counters respect the
    capacities. *)
Theorem MPIGhosts_SearchGhostParticles_stores
    (ghost_array : list SphParticle) (Nmpighosts : Z) (sph sph' : Sph) :
  MPIGhosts.SearchGhostParticles ghost_array Nmpighosts sph = Done sph' ->
  let start_index := Nsph sph + NPeriodicGhost sph in
  Nsph sph' = Nsph sph /\ NPeriodicGhost sph' = NPeriodicGhost sph /\
  Nghost sph' = Nghost sph + Nmpighosts /\
  Ntot sph' = Ntot sph + Nmpighosts /\
  Nghost sph' <= Nghostmax sph /\ Ntot sph' <= Nsphmax sph /\
  length (sphdata sph') = length (sphdata sph) /\
  (forall j, 0 <= j < Nmpighosts ->
     exists g, ghost_array !! Z.to_nat j = Some g /\
               sphdata sph' !! Z.to_nat (start_index + j)
               = Some (set_active false g)) /\
  (forall m : nat,
     ~ (start_index <= Z.of_nat m < start_index + Nmpighosts) ->
     sphdata sph' !! m = sphdata sph !! m).
Proof.
  unfold MPIGhosts.SearchGhostParticles. cbv zeta. intros Hrun.
  apply bind_Done in Hrun as (_ & _ & Hrun).
  apply bind_Done in Hrun as (data & Hloop & Hrun).
  apply bind_Done in Hrun as (u & Hcheck & Hrun). injection Hrun as <-.
  apply store_ghosts_spec in Hloop as (Hlen & Hin & Hout).
  cbn [Nsph NPeriodicGhost Nghost Ntot Nghostmax Nsphmax sphdata set_Ntot
       set_Nghost set_sphdata] in *.
  destruct (Z.ltb_spec (Nghostmax sph) (Nghost sph + Nmpighosts));
    [discriminate|].
  destruct (Z.ltb_spec (Nsphmax sph) (Ntot sph + Nmpighosts));
    [discriminate|].
  repeat split; try assumption; try reflexivity.
  intros j Hj. destruct (Hin j Hj) as (_ & g & Hg). exists g. exact Hg.
Qed.

Lemma MPIGhosts_SearchGhostParticles_stores_witness :
  let start_index := Nsph Cases.searched + NPeriodicGhost Cases.searched in
  Nsph Cases.with_received = Nsph Cases.searched /\
  NPeriodicGhost Cases.with_received = NPeriodicGhost Cases.searched /\
  Nghost Cases.with_received = Nghost Cases.searched + 2 /\
  Ntot Cases.with_received = Ntot Cases.searched + 2 /\
  Nghost Cases.with_received <= Nghostmax Cases.searched /\
  Ntot Cases.with_received <= Nsphmax Cases.searched /\
  length (sphdata Cases.with_received) = length (sphdata Cases.searched) /\
  (forall j, 0 <= j < 2 ->
     exists g, Cases.received !! Z.to_nat j = Some g /\
               sphdata Cases.with_received !! Z.to_nat (start_index + j)
               = Some (set_active false g)) /\
  (forall m : nat,
     ~ (start_index <= Z.of_nat m < start_index + 2) ->
     sphdata Cases.with_received !! m = sphdata Cases.searched !! m).
Proof.
  apply (MPIGhosts_SearchGhostParticles_stores Cases.received 2
           Cases.searched Cases.with_received).
  vm_compute. reflexivity.
Defined.

(** X9.  Run after a periodic search that ended normally, the search for
    MPI ghosts appends: the received ghosts go to the entries from the old
    total on, and the real particles and the periodic ghosts stay as they
    are. *)
Theorem MPIGhosts_follow_periodic_ghosts (ndim : nat)
    (ghost_range tghost : Q) (simbox : DomainBox)
    (ghost_array : list SphParticle) (Nmpighosts : Z)
    (sph sph1 sph2 : Sph) :
  PeriodicGhosts.SearchGhostParticles ndim ghost_range tghost simbox sph
  = Done sph1 ->
  0 <= Nsph sph ->
  MPIGhosts.SearchGhostParticles ghost_array Nmpighosts sph1 = Done sph2 ->
  Ntot sph2 = Nsph sph + NPeriodicGhost sph2 + Nmpighosts /\
  (forall m : nat, Z.of_nat m < Ntot sph1 ->
     sphdata sph2 !! m = sphdata sph1 !! m) /\
  (forall j, 0 <= j < Nmpighosts ->
     exists g, ghost_array !! Z.to_nat j = Some g /\
               sphdata sph2 !! Z.to_nat (Ntot sph1 + j)
               = Some (set_active false g)).
Proof.
  intros Hper HN Hmpi.
  destruct (SearchGhostParticles_spec _ _ _ _ _ _ Hper HN)
    as (_ & A1 & _ & _ & _ & _ & A6 & A7).
  unfold MPIGhosts.SearchGhostParticles in Hmpi. cbv zeta in Hmpi.
  apply bind_Done in Hmpi as (_ & _ & Hmpi).
  apply bind_Done in Hmpi as (data & Hloop & Hmpi).
  apply bind_Done in Hmpi as (_ & _ & Hmpi). injection Hmpi as <-.
  apply store_ghosts_spec in Hloop as (Hlen & Hin & Hout).
  cbn [Nsph NPeriodicGhost Nghost Ntot Nghostmax Nsphmax sphdata set_Ntot
       set_Nghost set_sphdata].
  replace (Nsph sph1 + NPeriodicGhost sph1) with (Ntot sph1) in * by lia.
  split; [lia|]. split.
  - intros m Hm. apply Hout. lia.
  - intros j Hj. destruct (Hin j Hj) as (_ & g & Hg). exists g. exact Hg.
Qed.

Lemma MPIGhosts_follow_periodic_ghosts_witness :
  Ntot Cases.with_received
  = Nsph Cases.one_corner + NPeriodicGhost Cases.with_received + 2 /\
  (forall m : nat, Z.of_nat m < Ntot Cases.searched ->
     sphdata Cases.with_received !! m = sphdata Cases.searched !! m) /\
  (forall j, 0 <= j < 2 ->
     exists g, Cases.received !! Z.to_nat j = Some g /\
               sphdata Cases.with_received
                 !! Z.to_nat (Ntot Cases.searched + j)
               = Some (set_active false g)).
Proof.
  apply (MPIGhosts_follow_periodic_ghosts 3 (11#10) 0 Samples.periodic_box
           Cases.received 2 Cases.one_corner Cases.searched
           Cases.with_received).
  - vm_compute. reflexivity.
  - cbn. lia.
  - vm_compute. reflexivity.
Defined.

(** X10.  [MPIGhosts::CopySphDataToGhosts] ends normally whenever the
    received array holds [Nmpighosts] ghosts and the store has room for
    them behind the periodic ghosts; it overwrites exactly the entries of
    the MPI ghosts, with inactive copies, and changes no counter. *)
Theorem MPIGhosts_CopySphDataToGhosts_overwrites
    (ghost_array : list SphParticle) (Nmpighosts : Z) (sph : Sph) :
  let start_index := Nsph sph + NPeriodicGhost sph in
  0 <= start_index ->
  Nmpighosts <= Z.of_nat (length ghost_array) ->
  start_index + Nmpighosts <= Z.of_nat (length (sphdata sph)) ->
  exists data,
    MPIGhosts.CopySphDataToGhosts ghost_array Nmpighosts sph
    = Done (set_sphdata data sph) /\
    length data = length (sphdata sph) /\
    (forall j, 0 <= j < Nmpighosts ->
       exists g, ghost_array !! Z.to_nat j = Some g /\
                 data !! Z.to_nat (start_index + j)
                 = Some (set_active false g)) /\
    (forall m : nat,
       ~ (start_index <= Z.of_nat m < start_index + Nmpighosts) ->
       data !! m = sphdata sph !! m).
Proof.
  cbv zeta. intros Hstart Harr Hroom.
  unfold MPIGhosts.CopySphDataToGhosts. cbv zeta.
  set (start_index := Nsph sph + NPeriodicGhost sph) in *.
  assert (Hrun : exists data,
            for_range 0 Nmpighosts
              (MPIGhosts.store_ghost ghost_array start_index) (sphdata sph)
            = Done data).
  { destruct (Z.le_gt_cases 0 Nmpighosts) as [Hpos|Hneg].
    - destruct (for_range_total
                  (fun _ t => length t = length (sphdata sph))
                  (MPIGhosts.store_ghost ghost_array start_index) 0
                  Nmpighosts (sphdata sph)) as (data & Hrun & _);
        [exact Hpos | | reflexivity | eauto].
      intros i t Hi Hlen. unfold MPIGhosts.store_ghost. cbv zeta.
      destruct (lookup_lt_is_Some_2 ghost_array (Z.to_nat i)) as [g Hg];
        [lia|].
      rewrite (rd_lookup ghost_array i g) by (lia || exact Hg).
      cbn [mbind result_bind]. rewrite wr_in_range by lia.
      eexists. split; [reflexivity|]. now rewrite length_insert.
    - exists (sphdata sph). apply for_range_empty. lia. }
  destruct Hrun as (data & Hrun). exists data. rewrite Hrun.
  split; [reflexivity|].
  apply store_ghosts_spec in Hrun as (Hlen & Hin & Hout).
  split; [exact Hlen|]. split; [|exact Hout].
  intros j Hj. destruct (Hin j Hj) as (_ & g & Hg). exists g. exact Hg.
Qed.

Lemma MPIGhosts_CopySphDataToGhosts_overwrites_witness :
  let start_index := Nsph Cases.searched + NPeriodicGhost Cases.searched in
  exists data,
    MPIGhosts.CopySphDataToGhosts Cases.received 2 Cases.searched
    = Done (set_sphdata data Cases.searched) /\
    length data = length (sphdata Cases.searched) /\
    (forall j, 0 <= j < 2 ->
       exists g, Cases.received !! Z.to_nat j = Some g /\
                 data !! Z.to_nat (start_index + j)
                 = Some (set_active false g)) /\
    (forall m : nat,
       ~ (start_index <= Z.of_nat m < start_index + 2) ->
       data !! m = sphdata Cases.searched !! m).
Proof.
  apply (MPIGhosts_CopySphDataToGhosts_overwrites Cases.received 2
           Cases.searched); vm_compute; discriminate.
Defined.

(** Reading a field of a particle that was built by setters. *)
Ltac fields :=
  cbn [fst snd
       active potmin iorig itype level levelneib sinkid r v a agrav m h invh
       hfactor hrangesqd rho invrho u dudt pfactor invomega zeta chi q invq
       gpot sound div_v alpha
       set_active set_potmin set_iorig set_itype set_levelneib set_r set_v
       set_a set_agrav set_h set_invh set_hfactor set_hrangesqd set_rho
       set_invrho set_u set_dudt set_pfactor set_invomega set_zeta set_chi
       set_q set_invq set_gpot set_sound set_div_v].

(** ** Energy and time-step levels in the hydrodynamic pair force *)

Lemma hydro_pair_levels (nm : Numerics) (ndim : nat) (sph : Sph)
    (drmag : Q) (draux : vec) (parti neibj : SphParticle) :
  let out := GradhSph.hydro_pair nm ndim sph drmag draux parti neibj in
  level (fst out) = level parti /\ level (snd out) = level neibj /\
  levelneib (fst out) = Z.max (levelneib parti) (level neibj) /\
  levelneib (snd out) = Z.max (levelneib neibj) (level parti).
Proof.
  cbv zeta. unfold GradhSph.hydro_pair.
  destruct (Qltb _ 0);
    [destruct (decide (avisc sph = mon97));
       [|destruct (decide (avisc sph = mon97td))];
     (destruct (decide (acond sph = wadsley2008));
       [|destruct (decide (acond sph = price2008))])|];
    cbn [fst snd level levelneib set_levelneib set_a set_dudt set_div_v];
    repeat split; reflexivity.
Qed.

(** X11.  Without artificial viscosity the pair leaves the total heating
    rate [m_i dudt_i + m_j dudt_j] as it is: what either kind of artificial
    conductivity gives to one particle it takes from the other. *)
Theorem hydro_pair_conduction_conserves_energy (nm : Numerics) (ndim : nat)
    (sph : Sph) (drmag : Q) (draux : vec) (parti neibj : SphParticle) :
  avisc sph = noav ->
  let out := GradhSph.hydro_pair nm ndim sph drmag draux parti neibj in
  (m parti * dudt (fst out) + m neibj * dudt (snd out)
   == m parti * dudt parti + m neibj * dudt neibj)%Q.
Proof.
  intros Hav. cbv zeta. unfold GradhSph.hydro_pair. rewrite Hav.
  destruct (Qltb _ 0);
    [destruct (decide (noav = mon97)) as [E|_]; [discriminate E|];
     destruct (decide (noav = mon97td)) as [E|_]; [discriminate E|];
     (destruct (decide (acond sph = wadsley2008));
       [|destruct (decide (acond sph = price2008))])|];
    fields; ring.
Qed.

(** X12.  Without artificial conductivity the pair heats or cools the two
    particles alike: the mass-weighted changes [m_i (dudt_i' - dudt_i)] and
    [m_j (dudt_j' - dudt_j)] are equal. *)
Theorem hydro_pair_viscous_heating_symmetric (nm : Numerics) (ndim : nat)
    (sph : Sph) (drmag : Q) (draux : vec) (parti neibj : SphParticle) :
  acond sph = noac ->
  let out := GradhSph.hydro_pair nm ndim sph drmag draux parti neibj in
  (m parti * (dudt (fst out) - dudt parti)
   == m neibj * (dudt (snd out) - dudt neibj))%Q.
Proof.
  intros Hac. cbv zeta. unfold GradhSph.hydro_pair. rewrite Hac.
  destruct (Qltb _ 0);
    [destruct (decide (noac = wadsley2008)) as [E|_]; [discriminate E|];
     destruct (decide (noac = price2008)) as [E|_]; [discriminate E|];
     (destruct (decide (avisc sph = mon97));
       [|destruct (decide (avisc sph = mon97td))])|];
    fields; ring.
Qed.

(** X13.  A pair that is not approaching ([dv . dr >= 0]) gets neither
    viscosity nor conductivity: the heating rates stay as they are and the
    accelerations change by the pressure term alone. *)
Theorem hydro_pair_receding (nm : Numerics) (ndim : nat)
    (sph : Sph) (drmag : Q) (draux : vec) (parti neibj : SphParticle) :
  let dv := vbuild ndim (fun k => vget (v neibj) k - vget (v parti) k)%Q in
  (0 <= DotProduct dv draux ndim)%Q ->
  let out := GradhSph.hydro_pair nm ndim sph drmag draux parti neibj in
  let paux :=
    (pfactor parti * (hfactor parti * w1 (kernp sph) (drmag * invh parti))
     + pfactor neibj
       * (hfactor neibj * w1 (kernp sph) (drmag * invh neibj)))%Q in
  dudt (fst out) = dudt parti /\ dudt (snd out) = dudt neibj /\
  forall k, (k < ndim)%nat ->
    vget (a (fst out)) k
    = (vget (a parti) k + m neibj * vget draux k * paux)%Q /\
    vget (a (snd out)) k
    = (vget (a neibj) k - m parti * vget draux k * paux)%Q.
Proof.
  cbv zeta. intros Hdv. unfold GradhSph.hydro_pair.
  apply Qltb_ge in Hdv. rewrite Hdv. fields.
  split; [reflexivity|]. split; [reflexivity|].
  intros k Hk. rewrite !vget_vbuild by exact Hk. split; reflexivity.
Qed.

Lemma hydro_pair_conduction_conserves_energy_witness :
  let out :=
    GradhSph.hydro_pair Samples.numerics 3 Cases.conducting 1
      [1; 0; 0]%Q Samples.left (set_u 2 Samples.right) in
  (m Samples.left * dudt (fst out)
   + m (set_u 2 Samples.right) * dudt (snd out)
   == m Samples.left * dudt Samples.left
      + m (set_u 2 Samples.right) * dudt (set_u 2 Samples.right))%Q.
Proof.
  apply (hydro_pair_conduction_conserves_energy Samples.numerics 3
           Cases.conducting 1 [1; 0; 0]%Q Samples.left
           (set_u 2 Samples.right)).
  reflexivity.
Defined.

Lemma hydro_pair_viscous_heating_symmetric_witness :
  let out :=
    GradhSph.hydro_pair Samples.numerics 3 (Samples.sph_with [] 0) 1
      [1; 0; 0]%Q Samples.left Samples.right in
  (m Samples.left * (dudt (fst out) - dudt Samples.left)
   == m Samples.right * (dudt (snd out) - dudt Samples.right))%Q.
Proof.
  apply (hydro_pair_viscous_heating_symmetric Samples.numerics 3
           (Samples.sph_with [] 0) 1 [1; 0; 0]%Q Samples.left
           Samples.right).
  reflexivity.
Defined.

Lemma hydro_pair_receding_witness :
  let parti := set_v [-1; 0; 0]%Q Samples.left in
  let out :=
    GradhSph.hydro_pair Samples.numerics 3 (Samples.sph_with [] 0) 1
      [1; 0; 0]%Q parti Samples.right in
  let paux :=
    (pfactor parti
     * (hfactor parti
        * w1 (kernp (Samples.sph_with [] 0)) (1 * invh parti))
     + pfactor Samples.right
       * (hfactor Samples.right
          * w1 (kernp (Samples.sph_with [] 0)) (1 * invh Samples.right)))%Q in
  dudt (fst out) = dudt parti /\
  dudt (snd out) = dudt Samples.right /\
  forall k, (k < 3)%nat ->
    vget (a (fst out)) k
    = (vget (a parti) k
       + m Samples.right * vget [1; 0; 0]%Q k * paux)%Q /\
    vget (a (snd out)) k
    = (vget (a Samples.right) k
       - m parti * vget [1; 0; 0]%Q k * paux)%Q.
Proof.
  apply (hydro_pair_receding Samples.numerics 3 (Samples.sph_with [] 0) 1
           [1; 0; 0]%Q (set_v [-1; 0; 0]%Q Samples.left) Samples.right).
  apply Qle_bool_iff. reflexivity.
Defined.

(** X14.  After the loop over the neighbours the time-step levels are
    tied both ways: the neighbour level of [parti] is at least the level of
    every listed neighbour, the neighbour level of every listed neighbour
    is at least the level of [parti], and no level has changed. *)
Theorem ComputeSphHydroForces_levelneib (nm : Numerics) (ndim : nat)
    (sph : Sph) (i Nneib : Z) (neiblist : list Z) (drmag invdrmag dr : list Q)
    (parti parti' : SphParticle) (neibpart neibpart' : list SphParticle) :
  GradhSph.ComputeSphHydroForces nm ndim sph i Nneib neiblist drmag invdrmag
    dr parti neibpart = Done (parti', neibpart') ->
  level parti' = level parti /\
  levelneib parti <= levelneib parti' /\
  forall jj, 0 <= jj < Nneib ->
    exists j neibj neibj',
      neiblist !! Z.to_nat jj = Some j /\
      neibpart !! Z.to_nat j = Some neibj /\
      neibpart' !! Z.to_nat j = Some neibj' /\
      level neibj' = level neibj /\
      level neibj <= levelneib parti' /\
      level parti <= levelneib neibj'.
Proof.
  unfold GradhSph.ComputeSphHydroForces. intros Hrun.
  destruct (Z.le_gt_cases 0 Nneib) as [Hpos|Hneg].
  2:{ rewrite for_range_empty in Hrun by lia. injection Hrun as <- <-.
      split; [reflexivity|]. split; [lia|]. intros jj Hjj. lia. }
  pose (P := fun (n : Z) (st : SphParticle * list SphParticle) =>
    level (fst st) = level parti /\
    levelneib parti <= levelneib (fst st) /\
    length (snd st) = length neibpart /\
    (forall idx p, neibpart !! idx = Some p ->
       exists p', snd st !! idx = Some p' /\ level p' = level p /\
                  levelneib p <= levelneib p') /\
    (forall jj, 0 <= jj < n ->
       exists j neibj neibj',
         neiblist !! Z.to_nat jj = Some j /\
         neibpart !! Z.to_nat j = Some neibj /\
         snd st !! Z.to_nat j = Some neibj' /\
         level neibj' = level neibj /\
         level neibj <= levelneib (fst st) /\
         level parti <= levelneib neibj')).
  apply (for_range_invariant P) in Hrun; [| exact Hpos | |].
  - destruct Hrun as (A & B & _ & _ & D). cbn [fst snd] in *. auto.
  - unfold P. intros jj [pi np] [pi' np'] Hjj (A & B & Hlen & C & D) Hbody.
    cbn [fst snd] in *.
    apply bind_Done in Hbody as (j & Hj & Hbody).
    apply bind_Done in Hbody as (d & _ & Hbody).
    apply bind_Done in Hbody as (nj & Hnj & Hbody).
    apply bind_Done in Hbody as (draux & _ & Hbody).
    apply bind_Done in Hbody as (np1 & Hwr & Hbody).
    injection Hbody as <- <-.
    apply rd_Done in Hj as [_ Hj]. apply rd_Done in Hnj as [Hj0 Hnj].
    apply wr_Done in Hwr as [Hrange ->].
    destruct (hydro_pair_levels nm ndim sph d draux pi nj)
      as (L1 & L2 & L3 & L4).
    destruct (lookup_lt_is_Some_2 neibpart (Z.to_nat j)) as [p Hp]; [lia|].
    destruct (C _ p Hp) as (p' & Hp' & E1 & E2).
    assert (p' = nj) as -> by congruence.
    split; [congruence|]. split; [lia|].
    split; [now rewrite length_insert|]. split.
    + intros idx q Hq. destruct (decide (idx = Z.to_nat j)) as [->|Hne].
      * assert (q = p) as -> by congruence.
        eexists. split; [apply list_lookup_insert_eq; lia|].
        split; [congruence | lia].
      * rewrite list_lookup_insert_ne by congruence. now apply C.
    + intros jj' Hjj'. destruct (decide (jj' = jj)) as [->|Hne].
      * exists j, p. eexists. split; [exact Hj|]. split; [exact Hp|].
        split; [apply list_lookup_insert_eq; lia|].
        split; [congruence|]. split; lia.
      * destruct (D jj') as (j' & q & q' & F1 & F2 & F3 & F4 & F5 & F6);
          [lia|].
        destruct (decide (j' = j)) as [->|Hnej].
        -- assert (q = p) as -> by congruence.
           assert (q' = nj) as -> by congruence.
           exists j, p. eexists. split; [exact F1|]. split; [exact Hp|].
           split; [apply list_lookup_insert_eq; lia|].
           split; [congruence|]. split; lia.
        -- destruct (decide (Z.to_nat j' = Z.to_nat j)) as [Heq|Hnat].
           ++ assert (q = p) as -> by congruence.
              assert (q' = nj) as -> by congruence.
              exists j', p. eexists. split; [exact F1|]. split; [exact F2|].
              split; [rewrite Heq; apply list_lookup_insert_eq; lia|].
              split; [congruence|]. split; lia.
           ++ exists j', q, q'. split; [exact F1|]. split; [exact F2|].
              split; [now rewrite list_lookup_insert_ne by congruence|].
              split; [exact F4|]. split; lia.
  - unfold P. cbn [fst snd]. split; [reflexivity|]. split; [lia|].
    split; [reflexivity|]. split.
    + intros idx p Hp. exists p. split; [exact Hp|]. split; [reflexivity|lia].
    + intros jj Hjj. lia.
Qed.

Lemma ComputeSphHydroForces_levelneib_witness :
  level (fst Cases.after_hydro) = level Samples.left /\
  levelneib Samples.left <= levelneib (fst Cases.after_hydro) /\
  forall jj, 0 <= jj < 1 ->
    exists j neibj neibj',
      [0] !! Z.to_nat jj = Some j /\
      [Samples.right] !! Z.to_nat j = Some neibj /\
      snd Cases.after_hydro !! Z.to_nat j = Some neibj' /\
      level neibj' = level neibj /\
      level neibj <= levelneib (fst Cases.after_hydro) /\
      level Samples.left <= levelneib neibj'.
Proof.
  apply (ComputeSphHydroForces_levelneib Samples.numerics 3
           (Samples.sph_with [] 0) 0 1 [0] [1%Q] [1%Q] [1; 0; 0]%Q
           Samples.left (fst Cases.after_hydro) [Samples.right]
           (snd Cases.after_hydro)).
  vm_compute. reflexivity.
Defined.

Lemma ComputeSphHydroForces_total_momentum_witness :
  (momentum_rate 0 Cases.after_hydro
   == momentum_rate 0 (Samples.left, [Samples.right]))%Q.
Proof.
  apply (ComputeSphHydroForces_momentum Samples.numerics 3
           (Samples.sph_with [] 0) 0 1 [0] [1%Q] [1%Q] [1; 0; 0]%Q
           Samples.left [Samples.right] Cases.after_hydro 0).
  - vm_compute. reflexivity.
  - lia.
Defined.

(** ** Gravitational pair forces *)

(** Names for the local variables of a routine: every [let] of the goal
    becomes a definition of the context, outermost first. *)
Ltac name_locals :=
  repeat match goal with
  | |- context C [let x := ?v in @?b x] =>
      let y := fresh x in
      pose (y := v);
      let g := context C [b y] in
      change g; cbv beta
  end.

(** Forget the values of the scalar and vector locals; of a particle local
    [x := set_f val y] keep how its mass, accelerations and potential
    relate to those of [y]. *)
Ltac abstract_locals :=
  repeat match goal with
  | x := _ : Q |- _ => clearbody x
  | x := _ : list Q |- _ => clearbody x
  | x := _ : SphKernel |- _ => clearbody x
  end;
  repeat match goal with
  | x := ?f ?val ?y : SphParticle |- _ =>
      pose proof (eq_refl : m x = m y);
      first [ pose proof (eq_refl : a x = a y)
            | pose proof (eq_refl : a x = val) ];
      first [ pose proof (eq_refl : agrav x = agrav y)
            | pose proof (eq_refl : agrav x = val) ];
      first [ pose proof (eq_refl : gpot x = gpot y)
            | pose proof (eq_refl : gpot x = val) ];
      clearbody x
  end.

Ltac use_locals :=
  repeat first
    [ match goal with
      | H : ?l = _ |- context [?l] => rewrite H
      end
    | progress fields ].

Lemma hydrograv_pair_shape (nm : Numerics) (ndim : nat) (sph : Sph)
    (parti neibj : SphParticle) :
  exists parti' neibj' : SphParticle,
    GradhSph.hydrograv_pair nm ndim sph parti neibj = (parti', neibj') /\
    m parti' = m parti /\ m neibj' = m neibj /\
    (forall k, (k < ndim)%nat ->
       (m parti * (vget (a parti') k - vget (a parti) k)
        + m neibj * (vget (a neibj') k - vget (a neibj) k) == 0)%Q /\
       (m parti * (vget (agrav parti') k - vget (agrav parti) k)
        + m neibj * (vget (agrav neibj') k - vget (agrav neibj) k)
        == 0)%Q) /\
    (m parti * (gpot parti' - gpot parti)
     == m neibj * (gpot neibj' - gpot neibj))%Q.
Proof.
  cbv delta [GradhSph.hydrograv_pair]. cbv beta. name_locals.
  destruct (Qltb dvdr 0).
  - name_locals.
    destruct (decide (avisc sph = mon97));
      (destruct (decide (acond sph = wadsley2008));
        [|destruct (decide (acond sph = price2008))]);
      name_locals; cbv beta iota; name_locals; abstract_locals;
      eexists _, _; (split; [reflexivity|]);
      (split; [use_locals; reflexivity|]);
      (split; [use_locals; reflexivity|]);
      (split; [|use_locals; ring]);
      intros k Hk;
      repeat (progress use_locals || rewrite vget_vbuild by exact Hk);
      split; ring.
  - cbv beta iota. name_locals. abstract_locals.
    eexists _, _. split; [reflexivity|].
    split; [use_locals; reflexivity|].
    split; [use_locals; reflexivity|].
    split; [|use_locals; ring].
    intros k Hk.
    repeat (progress use_locals || rewrite vget_vbuild by exact Hk).
    split; ring.
Qed.

(** X16.  For a pair processed by [ComputeSphHydroGravForces] the masses
    are left alone, the increments of the hydrodynamic and of the
    gravitational accelerations each balance in every component, and the
    increments of the two potentials are equal when weighted with the
    particle's own mass. *)
Theorem hydrograv_pair_balance (nm : Numerics) (ndim : nat) (sph : Sph)
    (parti neibj : SphParticle) :
  let out := GradhSph.hydrograv_pair nm ndim sph parti neibj in
  m (fst out) = m parti /\ m (snd out) = m neibj /\
  (forall k, (k < ndim)%nat ->
     (m parti * (vget (a (fst out)) k - vget (a parti) k)
      + m neibj * (vget (a (snd out)) k - vget (a neibj) k) == 0)%Q /\
     (m parti * (vget (agrav (fst out)) k - vget (agrav parti) k)
      + m neibj * (vget (agrav (snd out)) k - vget (agrav neibj) k)
      == 0)%Q) /\
  (m parti * (gpot (fst out) - gpot parti)
   == m neibj * (gpot (snd out) - gpot neibj))%Q.
Proof.
  cbv zeta.
  destruct (hydrograv_pair_shape nm ndim sph parti neibj)
    as (parti' & neibj' & -> & H).
  exact H.
Qed.

Lemma grav_pair_shape (nm : Numerics) (ndim : nat) (sph : Sph)
    (parti neibj : SphParticle) :
  exists parti' neibj' : SphParticle,
    GradhSphGrav.grav_pair nm ndim sph parti neibj = (parti', neibj') /\
    parti' = set_gpot (gpot parti') (set_agrav (agrav parti') parti) /\
    neibj' = set_gpot (gpot neibj') (set_agrav (agrav neibj') neibj) /\
    (forall k, (k < ndim)%nat ->
       (m parti * (vget (agrav parti') k - vget (agrav parti) k)
        + m neibj * (vget (agrav neibj') k - vget (agrav neibj) k)
        == 0)%Q) /\
    (m parti * (gpot parti' - gpot parti)
     == m neibj * (gpot neibj' - gpot neibj))%Q.
Proof.
  cbv delta [GradhSphGrav.grav_pair]. cbv beta. name_locals.
  repeat match goal with
  | x := _ : Q |- _ => clearbody x
  | x := _ : list Q |- _ => clearbody x
  | x := _ : SphKernel |- _ => clearbody x
  end.
  eexists _, _. split; [reflexivity|].
  repeat match goal with
  | x := _ : SphParticle |- _ => subst x
  end.
  fields. split; [reflexivity|]. split; [reflexivity|]. split.
  - intros k Hk. rewrite !vget_vbuild by exact Hk. ring.
  - ring.
Qed.

(** X17.  For a pair processed by [ComputeSphGravForces] the increments of
    the gravitational accelerations balance in every component, the
    increments of the potentials are equal when weighted with the
    particle's own mass, and nothing but [agrav] and [gpot] changes. *)
Theorem grav_pair_balance (nm : Numerics) (ndim : nat) (sph : Sph)
    (parti neibj : SphParticle) :
  let out := GradhSphGrav.grav_pair nm ndim sph parti neibj in
  fst out = set_gpot (gpot (fst out)) (set_agrav (agrav (fst out)) parti) /\
  snd out = set_gpot (gpot (snd out)) (set_agrav (agrav (snd out)) neibj) /\
  (forall k, (k < ndim)%nat ->
     (m parti * (vget (agrav (fst out)) k - vget (agrav parti) k)
      + m neibj * (vget (agrav (snd out)) k - vget (agrav neibj) k)
      == 0)%Q) /\
  (m parti * (gpot (fst out) - gpot parti)
   == m neibj * (gpot (snd out) - gpot neibj))%Q.
Proof.
  cbv zeta.
  destruct (grav_pair_shape nm ndim sph parti neibj)
    as (parti' & neibj' & -> & H).
  exact H.
Qed.

(** ** Direct summation of gravity *)

Lemma subtract_loop_spec (base : Z) (n : Z) (f : nat -> Q)
    (arr arr' : list Q) :
  for_range 0 n
    (fun k arr => x ← rd arr (base + k);
                  wr arr (base + k) (x - f (Z.to_nat k))%Q) arr
  = Done arr' ->
  length arr' = length arr /\
  (forall k, 0 <= k < n ->
     0 <= base + k /\
     exists x, arr !! Z.to_nat (base + k) = Some x /\
               arr' !! Z.to_nat (base + k) = Some (x - f (Z.to_nat k))%Q) /\
  (forall i : nat, ~ (base <= Z.of_nat i < base + n) -> arr' !! i = arr !! i).
Proof.
  intros Hrun.
  destruct (Z.le_gt_cases 0 n) as [Hpos|Hneg].
  2:{ rewrite for_range_empty in Hrun by lia. injection Hrun as <-.
      split; [reflexivity|]. split; [intros k Hk; lia | reflexivity]. }
  pose (P := fun (c : Z) (t : list Q) =>
    length t = length arr /\
    (forall k, 0 <= k < c ->
       0 <= base + k /\
       exists x, arr !! Z.to_nat (base + k) = Some x /\
                 t !! Z.to_nat (base + k) = Some (x - f (Z.to_nat k))%Q) /\
    (forall i : nat, ~ (base <= Z.of_nat i < base + c) -> t !! i = arr !! i)).
  apply (for_range_invariant P) in Hrun; [exact Hrun | exact Hpos | |].
  - unfold P. intros k t t' Hk (Hlen & Hin & Hout) Hbody.
    apply bind_Done in Hbody as (x & Hrd & Hwr).
    apply rd_Done in Hrd as [Hb Hx]. apply wr_Done in Hwr as [Hrange ->].
    split; [now rewrite length_insert|]. split.
    + intros k' Hk'. destruct (decide (k' = k)) as [->|Hne].
      * split; [exact Hb|]. exists x. split.
        -- rewrite <- Hout by lia. exact Hx.
        -- apply list_lookup_insert_eq. lia.
      * destruct (Hin k') as (Hb' & y & Hy & Hy'); [lia|].
        split; [exact Hb'|]. exists y. split; [exact Hy|].
        rewrite list_lookup_insert_ne by lia. exact Hy'.
    + intros i Hi. rewrite list_lookup_insert_ne by lia. apply Hout. lia.
  - unfold P. split; [reflexivity|]. split; [intros k Hk; lia | reflexivity].
Qed.

(** X18.  [ComputeDirectGravForces] leaves out every listed particle that
    is active and has an index not above [i]: when the whole list is of
    that kind, the particle and both output arrays come back unchanged. *)
Theorem ComputeDirectGravForces_skips_active_lower (nm : Numerics)
    (ndim : nat) (i Ndirect : Z) (directlist : list Z) (agrav gpot : list Q)
    (parti : SphParticle) (sph : list SphParticle) :
  (forall jj, 0 <= jj < Ndirect ->
     exists j sphj,
       directlist !! Z.to_nat jj = Some j /\ 0 <= j <= i /\
       sph !! Z.to_nat j = Some sphj /\ active sphj = true) ->
  GradhSphGrav.ComputeDirectGravForces nm ndim i Ndirect directlist agrav
    gpot parti sph
  = Done (GradhSphGrav.mkdirect parti agrav gpot).
Proof.
  intros Hlist. unfold GradhSphGrav.ComputeDirectGravForces.
  destruct (Z.le_gt_cases 0 Ndirect) as [Hpos|Hneg];
    [|apply for_range_empty; lia].
  destruct (for_range_total
              (fun _ st => st = GradhSphGrav.mkdirect parti agrav gpot)
              (GradhSphGrav.direct_step nm ndim i directlist sph) 0 Ndirect
              (GradhSphGrav.mkdirect parti agrav gpot))
    as (st & Hrun & ->); [exact Hpos | | reflexivity | exact Hrun].
  intros jj st Hjj ->. eexists. split; [|reflexivity].
  destruct (Hlist jj Hjj) as (j & sphj & Hj & Hji & Hsph & Hact).
  unfold GradhSphGrav.direct_step.
  rewrite (rd_lookup directlist jj j) by (lia || exact Hj).
  cbn [mbind result_bind].
  rewrite (rd_lookup sph j sphj) by (lia || exact Hsph).
  cbn [mbind result_bind]. rewrite Hact.
  destruct (Z.leb_spec j i); [reflexivity | lia].
Qed.

(** X19.  A pass of the loop of [ComputeDirectGravForces] that is not
    skipped adds to the acceleration of [parti] and takes from entry [j] of
    the acceleration array amounts that balance when weighted with the two
    masses, adds to both potentials amounts that are equal when weighted
    with the particle's own mass, and changes no other entry of the two
    arrays. *)
Theorem direct_step_balance (nm : Numerics) (ndim : nat) (i : Z)
    (directlist : list Z) (sph : list SphParticle) (jj j : Z)
    (sphj : SphParticle) (st st' : GradhSphGrav.direct) :
  GradhSphGrav.direct_step nm ndim i directlist sph jj st = Done st' ->
  0 <= jj -> directlist !! Z.to_nat jj = Some j ->
  sph !! Z.to_nat j = Some sphj ->
  i < j \/ active sphj = false ->
  let p := GradhSphGrav.parti st in
  let p' := GradhSphGrav.parti st' in
  m p' = m p /\
  (forall k, (k < ndim)%nat ->
     exists x x',
       GradhSphGrav.agrav_ st !! Z.to_nat (Z.of_nat ndim * j + Z.of_nat k)
       = Some x /\
       GradhSphGrav.agrav_ st' !! Z.to_nat (Z.of_nat ndim * j + Z.of_nat k)
       = Some x' /\
       (m p * (vget (agrav p') k - vget (agrav p) k) + m sphj * (x' - x)
        == 0)%Q) /\
  (exists g g',
     GradhSphGrav.gpot_ st !! Z.to_nat j = Some g /\
     GradhSphGrav.gpot_ st' !! Z.to_nat j = Some g' /\
     (m p * (gpot p' - gpot p) == m sphj * (g' - g))%Q) /\
  (forall n : nat,
     ~ (Z.of_nat ndim * j <= Z.of_nat n < Z.of_nat ndim * j + Z.of_nat ndim) ->
     GradhSphGrav.agrav_ st' !! n = GradhSphGrav.agrav_ st !! n) /\
  (forall n : nat, n <> Z.to_nat j ->
     GradhSphGrav.gpot_ st' !! n = GradhSphGrav.gpot_ st !! n).
Proof.
  intros Hrun Hjj Hj Hsph Hkeep. cbv zeta.
  unfold GradhSphGrav.direct_step in Hrun.
  rewrite (rd_lookup directlist jj j Hjj Hj) in Hrun.
  cbn [mbind result_bind] in Hrun.
  assert (Hj0 : 0 <= j).
  { destruct (Z.le_gt_cases 0 j) as [H|H]; [exact H|].
    unfold rd in Hrun. destruct (Z.ltb_spec j 0); [discriminate | lia]. }
  rewrite (rd_lookup sph j sphj Hj0 Hsph) in Hrun.
  cbn [mbind result_bind] in Hrun.
  replace ((j <=? i) && active sphj) with false in Hrun
    by (destruct Hkeep as [H| ->];
        [destruct (Z.leb_spec j i); [lia | reflexivity]
        |now rewrite andb_false_r]).
  cbv zeta in Hrun.
  set (dr := vbuild ndim
                (fun k => vget (r sphj) k
                          - vget (r (GradhSphGrav.parti st)) k)%Q) in Hrun.
  set (invdrmag := (1 / sqrt nm _)%Q) in Hrun.
  set (p := set_gpot _ _) in Hrun.
  apply bind_Done in Hrun as (ag & Hloop & Hrun).
  apply bind_Done in Hrun as (g & Hg & Hrun).
  apply bind_Done in Hrun as (gp & Hwr & Hrun). injection Hrun as <-.
  apply (subtract_loop_spec (Z.of_nat ndim * j) (Z.of_nat ndim)
           (fun k => m p * vget dr k * (invdrmag * invdrmag * invdrmag))%Q)
    in Hloop as (Hlen & Hin & Hout).
  apply rd_Done in Hg as [_ Hg]. apply wr_Done in Hwr as [Hrange ->].
  cbn [GradhSphGrav.parti GradhSphGrav.agrav_ GradhSphGrav.gpot_].
  subst p. fields. split; [reflexivity|]. split; [|split; [|split]].
  - intros k Hk. destruct (Hin (Z.of_nat k)) as (_ & x & Hx & Hx'); [lia|].
    exists x. eexists. split; [exact Hx|]. split; [exact Hx'|].
    rewrite Nat2Z.id, vget_vbuild by exact Hk. fields. ring.
  - exists g. eexists. split; [exact Hg|].
    split; [apply list_lookup_insert_eq; lia | fields; ring].
  - exact Hout.
  - intros n Hn. now apply list_lookup_insert_ne.
Qed.

(** ** Gravity between gas and stars *)

(** The square of a difference and a sum do not depend on the order of the
    two numbers, as values of the representation and not only up to [==];
    so the square root and the kernel are applied to the same arguments on
    both sides of a pair. *)
Lemma Qsquare_diff_swap (x y : Q) :
  ((x - y) * (x - y))%Q = ((y - x) * (y - x))%Q.
Proof.
  destruct x as [xn xd], y as [yn yd].
  unfold Qminus, Qplus, Qopp, Qmult. cbn [Qnum Qden].
  f_equal; [ring | now rewrite (Pos.mul_comm xd yd)].
Qed.

Lemma Qplus_swap (x y : Q) : (x + y)%Q = (y + x)%Q.
Proof.
  destruct x as [xn xd], y as [yn yd].
  unfold Qplus. cbn [Qnum Qden].
  f_equal; [ring | apply Pos.mul_comm].
Qed.

Lemma DotProduct_ext (x y x' y' : vec) (ndim : nat) :
  (forall k, (k < ndim)%nat ->
     (vget x k * vget y k)%Q = (vget x' k * vget y' k)%Q) ->
  DotProduct x y ndim = DotProduct x' y' ndim.
Proof.
  intros H. unfold DotProduct.
  assert (Hall : forall k, In k (seq 0 ndim) ->
            (vget x k * vget y k)%Q = (vget x' k * vget y' k)%Q).
  { intros k Hk. apply in_seq in Hk. apply H. lia. }
  clear H. induction (seq 0 ndim) as [|k l IH]; [reflexivity|].
  cbn [fold_right]. rewrite IH by (intros; apply Hall; now right).
  now rewrite Hall by now left.
Qed.

Lemma DotProduct_difference_swap (x y : vec) (ndim : nat) :
  let dr := vbuild ndim (fun k => vget x k - vget y k)%Q in
  let dr' := vbuild ndim (fun k => vget y k - vget x k)%Q in
  DotProduct dr dr ndim = DotProduct dr' dr' ndim.
Proof.
  cbv zeta. apply DotProduct_ext. intros k Hk.
  rewrite !vget_vbuild by exact Hk. apply Qsquare_diff_swap.
Qed.

(** X20.  The pull of a star on a gas particle, added by
    [GradhSph::ComputeStarGravForces], and the pull of that gas particle on
    the star, added by [NbodyLeapfrogDKD::CalculateDirectSPHForces] with
    the same kernel, balance: the two momentum rates cancel in every
    component, and the two potential energies are equal. *)
Theorem gas_star_forces_balance (nm : Numerics) (ndim : nat)
    (kern : SphKernel) (gas : SphParticle) (star : Star.NbodyParticle) :
  let gas' := GradhSphGrav.star_on_gas nm ndim kern star gas in
  let star' := LeapfrogDKD.gas_on_star nm ndim kern gas star in
  (forall k, (k < ndim)%nat ->
     (m gas * (vget (agrav gas') k - vget (agrav gas) k)
      + Star.m star * (vget (Star.a star') k - vget (Star.a star) k)
      == 0)%Q) /\
  (m gas * (gpot gas' - gpot gas)
   == Star.m star * (Star.gpot star' - Star.gpot star))%Q.
Proof.
  cbv zeta. unfold GradhSphGrav.star_on_gas, LeapfrogDKD.gas_on_star.
  rewrite (DotProduct_difference_swap (r gas) (Star.r star) ndim).
  rewrite (Qplus_swap (Star.h star) (h gas)).
  set (drmag := sqrt nm _).
  set (invhmean := (2 / _)%Q).
  fields. cbn [Star.a Star.gpot]. split.
  - intros k Hk. rewrite !vget_vbuild by exact Hk. ring.
  - ring.
Qed.

(** X21.  In [CalculateDirectGravForces] the pull of star [j] on star [i]
    and the pull of star [i] on star [j] balance: the two momentum rates
    cancel in every component, the two potential energies are equal, and
    nothing but the acceleration and the potential of a star changes. *)
Theorem star_on_star_balance (nm : Numerics) (ndim : nat)
    (stari starj : Star.NbodyParticle) :
  let stari' := LeapfrogDKD.star_on_star nm ndim starj stari in
  let starj' := LeapfrogDKD.star_on_star nm ndim stari starj in
  stari' = Star.mkNbodyParticle (Star.active stari) (Star.nstep stari)
             (Star.nlast stari) (Star.r stari) (Star.v stari)
             (Star.a stari') (Star.r0 stari) (Star.v0 stari)
             (Star.a0 stari) (Star.m stari) (Star.h stari)
             (Star.gpot stari') /\
  (forall k, (k < ndim)%nat ->
     (Star.m stari * (vget (Star.a stari') k - vget (Star.a stari) k)
      + Star.m starj * (vget (Star.a starj') k - vget (Star.a starj) k)
      == 0)%Q) /\
  (Star.m stari * (Star.gpot stari' - Star.gpot stari)
   == Star.m starj * (Star.gpot starj' - Star.gpot starj))%Q.
Proof.
  cbv zeta. unfold LeapfrogDKD.star_on_star.
  rewrite (DotProduct_difference_swap (Star.r stari) (Star.r starj) ndim).
  set (invdrmag := (1 / sqrt nm _)%Q).
  cbn [Star.a Star.gpot]. split; [reflexivity|]. split.
  - intros k Hk. rewrite !vget_vbuild by exact Hk. ring.
  - ring.
Qed.

(** ** Forces on the stars *)

Lemma forces_only_refl (s : Star.NbodyParticle) : forces_only s s.
Proof. unfold forces_only. now destruct s. Qed.

Lemma forces_only_trans (s1 s2 s3 : Star.NbodyParticle) :
  forces_only s1 s2 -> forces_only s2 s3 -> forces_only s1 s3.
Proof.
  unfold forces_only. intros H12 H23. rewrite H23. rewrite H12.
  reflexivity.
Qed.

(** Loops over the stars that replace an active star by a star that
    differs from it in acceleration and potential only. *)
Lemma star_force_loop (N : Z)
    (inner : Z -> list Star.NbodyParticle -> Star.NbodyParticle ->
             result Star.NbodyParticle)
    (star star' : list Star.NbodyParticle) :
  (forall i t s s', inner i t s = Done s' -> forces_only s s') ->
  for_range 0 N
    (fun i star =>
       stari ← rd star i;
       if negb (Star.active stari) then Done star
       else stari ← inner i star stari; wr star i stari)
    star = Done star' ->
  length star' = length star /\
  forall (i : nat) s, star !! i = Some s ->
    exists s', star' !! i = Some s' /\ forces_only s s' /\
               (Star.active s = false \/ N <= Z.of_nat i -> s' = s).
Proof.
  intros Hinner Hrun.
  destruct (Z.le_gt_cases 0 N) as [Hpos|Hneg].
  2:{ rewrite for_range_empty in Hrun by lia. injection Hrun as <-.
      split; [reflexivity|]. intros i s Hs. exists s.
      split; [exact Hs|]. split; [apply forces_only_refl | reflexivity]. }
  pose (P := fun (n : Z) (t : list Star.NbodyParticle) =>
    length t = length star /\
    forall (i : nat) s, star !! i = Some s ->
      exists s', t !! i = Some s' /\ forces_only s s' /\
                 (Star.active s = false \/ n <= Z.of_nat i -> s' = s)).
  apply (for_range_invariant P) in Hrun; [exact Hrun | exact Hpos | |].
  - unfold P. intros i t t' Hi (Hlen & Hall) Hbody.
    apply bind_Done in Hbody as (si & Hrd & Hbody).
    apply rd_Done in Hrd as [_ Hsi].
    destruct (Star.active si) eqn:Hact; cbn [negb] in Hbody.
    + apply bind_Done in Hbody as (si' & Hin & Hwr).
      apply wr_Done in Hwr as [Hrange ->].
      apply Hinner in Hin.
      split; [now rewrite length_insert|].
      intros n s Hs. destruct (Hall n s Hs) as (s' & Hs' & Hf & Hsame).
      destruct (decide (n = Z.to_nat i)) as [->|Hne].
      * assert (s' = si) as -> by congruence.
        exists si'. split; [apply list_lookup_insert_eq; lia|].
        split; [eapply forces_only_trans; eassumption|].
        intros [Hoff|Hout]; [|lia].
        rewrite Hsame in Hact by (right; lia). congruence.
      * exists s'. split; [now rewrite list_lookup_insert_ne by congruence|].
        split; [exact Hf|]. intros Hc. apply Hsame.
        destruct Hc as [Hc|Hc]; [now left | right; lia].
    + injection Hbody as <-. split; [exact Hlen|].
      intros n s Hs. destruct (Hall n s Hs) as (s' & Hs' & Hf & Hsame).
      exists s'. split; [exact Hs'|]. split; [exact Hf|].
      intros Hc. destruct (decide (n = Z.to_nat i)) as [->|Hne].
      * apply Hsame. right. lia.
      * apply Hsame. destruct Hc as [Hc|Hc]; [now left | right; lia].
  - unfold P. split; [reflexivity|]. intros i s Hs. exists s.
    split; [exact Hs|]. split; [apply forces_only_refl | reflexivity].
Qed.

(** X22.  [CalculateDirectGravForces] and [CalculateDirectSPHForces]
    change nothing but the acceleration and the potential of the stars,
    and leave every star that is not active exactly as it is. *)
Theorem star_forces_touch_active_stars_only (nm : Numerics) (ndim : nat)
    (kern : SphKernel) (N Ngas : Z) (sphdata : list SphParticle)
    (star star' : list Star.NbodyParticle) :
  LeapfrogDKD.CalculateDirectGravForces nm ndim N star = Done star' \/
  LeapfrogDKD.CalculateDirectSPHForces nm ndim kern N Ngas sphdata star
  = Done star' ->
  length star' = length star /\
  forall (i : nat) s, star !! i = Some s ->
    exists s', star' !! i = Some s' /\ forces_only s s' /\
               (Star.active s = false \/ N <= Z.of_nat i -> s' = s).
Proof.
  intros [Hrun|Hrun].
  - unfold LeapfrogDKD.CalculateDirectGravForces in Hrun.
    apply (star_force_loop N
             (fun i star stari =>
                for_range 0 N
                  (fun j stari =>
                     if i =? j then Done stari
                     else starj ← rd star j;
                          Done (LeapfrogDKD.star_on_star nm ndim starj stari))
                  stari)); [|exact Hrun].
    intros i t s s' Hin.
    destruct (Z.le_gt_cases 0 N) as [Hpos|Hneg].
    2:{ rewrite for_range_empty in Hin by lia. injection Hin as <-.
        apply forces_only_refl. }
    apply (for_range_invariant (fun _ u => forces_only s u)) in Hin;
      [exact Hin | exact Hpos | | apply forces_only_refl].
    intros j u u' _ Hu Hbody. destruct (i =? j).
    + injection Hbody as <-. exact Hu.
    + apply bind_Done in Hbody as (sj & _ & Hbody). injection Hbody as <-.
      eapply forces_only_trans; [exact Hu|]. reflexivity.
  - unfold LeapfrogDKD.CalculateDirectSPHForces in Hrun.
    apply (star_force_loop N
             (fun i star stari =>
                for_range 0 Ngas
                  (fun j stari =>
                     gas ← rd sphdata j;
                     Done (LeapfrogDKD.gas_on_star nm ndim kern gas stari))
                  stari)); [|exact Hrun].
    intros i t s s' Hin.
    destruct (Z.le_gt_cases 0 Ngas) as [Hpos|Hneg].
    2:{ rewrite for_range_empty in Hin by lia. injection Hin as <-.
        apply forces_only_refl. }
    apply (for_range_invariant (fun _ u => forces_only s u)) in Hin;
      [exact Hin | exact Hpos | | apply forces_only_refl].
    intros j u u' _ Hu Hbody.
    apply bind_Done in Hbody as (g & _ & Hbody). injection Hbody as <-.
    eapply forces_only_trans; [exact Hu|]. reflexivity.
Qed.

(** ** The ends of a leapfrog step *)

(** A loop [for (k=0; k<ndim; k++) x[k] = g(k, x[k])] over a vector. *)
Lemma vget_fold_vset (g : nat -> Q -> Q) (ndim : nat) (x : vec) (k : nat) :
  vget (fold_left (fun x k => vset x k (g k (vget x k))) (seq 0 ndim) x) k
  = if decide (k < ndim /\ k < length x)%nat then g k (vget x k)
    else vget x k.
Proof.
  induction ndim as [|n IH].
  - cbn. rewrite decide_False by lia. reflexivity.
  - rewrite seq_S, fold_left_app. cbn [fold_left Nat.add].
    set (y := fold_left _ (seq 0 n) x) in *.
    assert (Hlen : length y = length x).
    { subst y. clear IH. generalize (seq 0 n). intros l. revert x.
      induction l as [|a l IHl]; intros x; [reflexivity|].
      cbn [fold_left]. rewrite IHl. apply vset_length. }
    destruct (decide (k = n)) as [->|Hne].
    + destruct (decide (n < length x)%nat) as [Hn|Hn].
      * rewrite vget_vset by lia. rewrite IH.
        rewrite decide_False by lia. rewrite decide_True by lia. reflexivity.
      * unfold vset. rewrite list_insert_ge by lia. rewrite IH.
        rewrite !decide_False by lia. reflexivity.
    + rewrite vget_vset_ne by congruence. rewrite IH.
      destruct (decide (k < n /\ k < length x)%nat) as [H|H].
      * rewrite decide_True by lia. reflexivity.
      * rewrite decide_False by lia. reflexivity.
Qed.

(** A loop [for (i=0; i<N; i++) star[i] = f(star[i])] over an array. *)
Lemma update_loop_spec {A : Type} (f : A -> A) (N : Z) (l l' : list A) :
  for_range 0 N (fun i l => s ← rd l i; wr l i (f s)) l = Done l' ->
  length l' = length l /\
  (forall (i : nat) s, l !! i = Some s ->
     l' !! i = Some (if decide (Z.of_nat i < N) then f s else s)).
Proof.
  intros Hrun.
  destruct (Z.le_gt_cases 0 N) as [Hpos|Hneg].
  2:{ rewrite for_range_empty in Hrun by lia. injection Hrun as <-.
      split; [reflexivity|]. intros i s Hs.
      now rewrite decide_False by lia. }
  pose (P := fun (n : Z) (t : list A) =>
    length t = length l /\
    forall (i : nat) s, l !! i = Some s ->
      t !! i = Some (if decide (Z.of_nat i < n) then f s else s)).
  apply (for_range_invariant P) in Hrun; [exact Hrun | exact Hpos | |].
  - unfold P. intros i t t' Hi (Hlen & Hall) Hbody.
    apply bind_Done in Hbody as (s & Hrd & Hwr).
    apply rd_Done in Hrd as [_ Hs]. apply wr_Done in Hwr as [Hrange ->].
    split; [now rewrite length_insert|].
    intros n x Hx. specialize (Hall n x Hx).
    destruct (decide (n = Z.to_nat i)) as [->|Hne].
    + rewrite Hs in Hall. rewrite decide_False in Hall by lia.
      injection Hall as ->. rewrite decide_True by lia.
      apply list_lookup_insert_eq. lia.
    + rewrite list_lookup_insert_ne by congruence. rewrite Hall.
      destruct (decide (Z.of_nat n < i)).
      * now rewrite decide_True by lia.
      * now rewrite decide_False by lia.
  - unfold P. split; [reflexivity|]. intros i s Hs.
    now rewrite decide_False by lia.
Qed.

Lemma update_loop_total {A : Type} (f : A -> A) (N : Z) (l : list A) :
  N <= Z.of_nat (length l) ->
  exists l', for_range 0 N (fun i l => s ← rd l i; wr l i (f s)) l = Done l'.
Proof.
  intros HN.
  destruct (Z.le_gt_cases 0 N) as [Hpos|Hneg].
  2:{ exists l. apply for_range_empty. lia. }
  destruct (for_range_total (fun _ t => length t = length l)
              (fun i l => s ← rd l i; wr l i (f s)) 0 N l)
    as (l' & Hrun & _); [exact Hpos | | reflexivity | eauto].
  intros i t Hi Hlen.
  destruct (lookup_lt_is_Some_2 t (Z.to_nat i)) as [s Hs]; [lia|].
  rewrite (rd_lookup t i s) by (lia || exact Hs). cbn [mbind result_bind].
  rewrite wr_in_range by lia. eexists. split; [reflexivity|].
  now rewrite length_insert.
Qed.

(** X23.  For a star at the end of its step, the kick of
    [AdvanceParticles] followed, once the new acceleration [a] is known, by
    [CorrectionTerms] gives the velocity of the second-order kick
    [v0 + (a0 + a)/2 * dt] over the whole step [dt = timestep * nstep]. *)
Theorem leapfrog_velocity_second_order (ndim vdim : nat) (n : Z)
    (timestep : Q) (star : Star.NbodyParticle) (a_new : vec) (k : nat) :
  n - Star.nlast star = Star.nstep star ->
  (k < ndim)%nat -> (k < vdim)%nat ->
  let dt := (timestep * to_float (Star.nstep star))%Q in
  let kicked := NbodyLeapfrogDKD.advance_star ndim vdim n timestep star in
  let with_forces :=
    Star.mkNbodyParticle (Star.active kicked) (Star.nstep kicked)
      (Star.nlast kicked) (Star.r kicked) (Star.v kicked) a_new
      (Star.r0 kicked) (Star.v0 kicked) (Star.a0 kicked) (Star.m kicked)
      (Star.h kicked) (Star.gpot kicked) in
  let corrected := LeapfrogDKD.correct_star ndim n timestep with_forces in
  (vget (Star.v corrected) k
   == vget (Star.v0 star) k
      + (1#2) * (vget (Star.a0 star) k + vget a_new k) * dt)%Q.
Proof.
  intros Hdn Hk Hkv. cbv zeta.
  unfold LeapfrogDKD.correct_star, NbodyLeapfrogDKD.advance_star.
  cbn [Star.nlast Star.nstep Star.a Star.a0 Star.v].
  rewrite Hdn, Z.eqb_refl. cbn [Star.v].
  rewrite (vget_fold_vset
             (fun k x => x + (1#2) * (vget a_new k - vget (Star.a0 star) k)
                            * timestep * to_float (Star.nstep star))%Q).
  rewrite decide_True
    by (split; [exact Hk | unfold vbuild; rewrite length_map, length_seq;
                           exact Hkv]).
  rewrite vget_vbuild by exact Hkv. ring.
Qed.

Lemma end_star_then_advance (ndim vdim : nat) (n : Z) (timestep : Q)
    (star : Star.NbodyParticle) :
  n - Star.nlast star = Star.nstep star ->
  (ndim <= length (Star.r0 star))%nat ->
  (ndim <= length (Star.v0 star))%nat ->
  let ended := LeapfrogDKD.end_star ndim n star in
  let moved := NbodyLeapfrogDKD.advance_star ndim vdim n timestep ended in
  Star.nlast ended = n /\ Star.active ended = false /\
  (forall k, (k < ndim)%nat ->
     (vget (Star.r moved) k == vget (Star.r star) k)%Q /\
     ((k < vdim)%nat ->
      (vget (Star.v moved) k == vget (Star.v star) k)%Q)) /\
  (forall k, (ndim <= k < vdim)%nat ->
     (vget (Star.v moved) k == vget (Star.v0 star) k)%Q).
Proof.
  intros Hdn Hr0 Hv0. cbv zeta.
  unfold LeapfrogDKD.end_star. rewrite Hdn, Z.eqb_refl.
  unfold NbodyLeapfrogDKD.advance_star.
  cbn [Star.nlast Star.nstep Star.active Star.r Star.v Star.r0 Star.v0
       Star.a0].
  rewrite Z.sub_diag. change (to_float 0) with 0%Q.
  split; [reflexivity|]. split; [reflexivity|]. split.
  - intros k Hk. split; [|intros Hkv]; rewrite vget_vbuild by assumption;
      rewrite (vget_fold_vset (fun k _ => vget _ k));
      rewrite decide_True by lia; ring.
  - intros k Hk. rewrite vget_vbuild by lia.
    rewrite (vget_fold_vset (fun k _ => vget _ k)).
    rewrite decide_False by lia. ring.
Qed.

(** X24.  At the end of a step [EndTimestep] makes the current state the
    start of the next step: for every star whose step ends at [n], an
    [AdvanceParticles] at the same time [n] gives back the position and the
    velocity the star had, in the [ndim] components that [EndTimestep]
    copies; a velocity component beyond [ndim] goes back to the value kept
    from the start of the old step. *)
Theorem EndTimestep_then_AdvanceParticles (ndim vdim : nat) (n N : Z)
    (timestep : Q) (star ended moved : list Star.NbodyParticle)
    (i : nat) (s : Star.NbodyParticle) :
  LeapfrogDKD.EndTimestep ndim n N star = Done ended ->
  NbodyLeapfrogDKD.AdvanceParticles ndim vdim n N ended timestep
  = Done moved ->
  Z.of_nat i < N -> star !! i = Some s ->
  n - Star.nlast s = Star.nstep s ->
  (ndim <= length (Star.r0 s))%nat ->
  (ndim <= length (Star.v0 s))%nat ->
  exists s',
    moved !! i = Some s' /\ Star.nlast s' = n /\
    (forall k, (k < ndim)%nat ->
       (vget (Star.r s') k == vget (Star.r s) k)%Q /\
       ((k < vdim)%nat -> (vget (Star.v s') k == vget (Star.v s) k)%Q)) /\
    (forall k, (ndim <= k < vdim)%nat ->
       (vget (Star.v s') k == vget (Star.v0 s) k)%Q).
Proof.
  intros Hend Hadv Hi Hs Hdn Hr0 Hv0.
  apply update_loop_spec in Hend as (Hlen1 & Hend).
  apply update_loop_spec in Hadv as (Hlen2 & Hadv).
  specialize (Hend i s Hs). rewrite decide_True in Hend by exact Hi.
  specialize (Hadv i _ Hend). rewrite decide_True in Hadv by exact Hi.
  eexists. split; [exact Hadv|].
  destruct (end_star_then_advance ndim vdim n timestep s Hdn Hr0 Hv0)
    as (Hlast & _ & Hk & Hhigh).
  split; [exact Hlast|]. split; [exact Hk | exact Hhigh].
Qed.

(** X25.  [AdvanceParticles] computes from the values kept from the start
    of the step only: a second call at the same time changes nothing. *)
Theorem AdvanceParticles_idempotent (ndim vdim : nat) (n N : Z)
    (timestep : Q) (star star' : list Star.NbodyParticle) :
  NbodyLeapfrogDKD.AdvanceParticles ndim vdim n N star timestep
  = Done star' ->
  NbodyLeapfrogDKD.AdvanceParticles ndim vdim n N star' timestep
  = Done star'.
Proof.
  intros Hrun.
  assert (Hfirst := Hrun). apply update_loop_spec in Hfirst as (Hlen & Hall).
  destruct (Z.le_gt_cases N (Z.of_nat (length star))) as [HN|HN].
  - destruct (update_loop_total
                (NbodyLeapfrogDKD.advance_star ndim vdim n timestep) N star')
      as (star'' & Hrun2); [lia|].
    unfold NbodyLeapfrogDKD.AdvanceParticles. rewrite Hrun2. f_equal.
    apply update_loop_spec in Hrun2 as (Hlen2 & Hall2).
    apply list_eq. intros i.
    destruct (star !! i) as [s|] eqn:Hs.
    + rewrite (Hall2 i _ (Hall i s Hs)). rewrite (Hall i s Hs).
      destruct (decide (Z.of_nat i < N)); reflexivity.
    + apply lookup_ge_None in Hs.
      rewrite !(proj2 (lookup_ge_None _ _)) by lia. reflexivity.
  - exfalso. unfold NbodyLeapfrogDKD.AdvanceParticles in Hrun.
    assert (Hbad : forall (c : nat) (lo : Z) (t : list Star.NbodyParticle),
              length t = length star -> 0 <= lo ->
              lo <= Z.of_nat (length star) < lo + Z.of_nat c ->
              for_upto c lo
                (fun i star => s ← rd star i;
                   wr star i
                     (NbodyLeapfrogDKD.advance_star ndim vdim n timestep s))
                t <> Done star').
    { induction c as [|c IH]; intros lo t Ht Hlo Hc; [lia|].
      cbn [for_upto]. intros Hd. apply bind_Done in Hd as (t' & Hb & Hd).
      apply bind_Done in Hb as (s & Hrd & Hwr).
      apply wr_Done in Hwr as [Hrange ->].
      apply (IH (lo + 1) _) in Hd; [exact Hd | | lia | lia].
      now rewrite length_insert. }
    unfold for_range in Hrun. apply (Hbad _ 0 star) in Hrun;
      [exact Hrun | reflexivity | lia | lia].
Qed.

(** ** The league calendar and the order of the transfers *)

Lemma raises_within_bind {A B : Type} (msgs : list string) (c : result A)
    (f : A -> result B) :
  raises_within msgs c -> (forall x, raises_within msgs (f x)) ->
  raises_within msgs (c ≫= f).
Proof. destruct c; cbn; auto. Qed.

Lemma raises_within_rd {A : Type} (msgs : list string) (arr : list A)
    (i : Z) :
  raises_within msgs (rd arr i).
Proof.
  unfold rd. destruct (i <? 0); [exact I|].
  now destruct (arr !! Z.to_nat i).
Qed.

Lemma raises_within_wr {A : Type} (msgs : list string) (arr : list A)
    (i : Z) (x : A) :
  raises_within msgs (wr arr i x).
Proof. unfold wr. now destruct ((0 <=? i) && (i <? Z.of_nat (length arr))). Qed.

Lemma raises_within_for_upto {S : Type} (msgs : list string)
    (body : Z -> S -> result S) (count : nat) :
  (forall i s, raises_within msgs (body i s)) ->
  forall lo s, raises_within msgs (for_upto count lo body s).
Proof.
  intros Hbody. induction count as [|c IH]; intros lo s; cbn; [exact I|].
  apply raises_within_bind; auto.
Qed.

Lemma raises_within_for_range {S : Type} (msgs : list string)
    (body : Z -> S -> result S) (lo hi : Z) (s : S) :
  (forall i s, raises_within msgs (body i s)) ->
  raises_within msgs (for_range lo hi body s).
Proof. intros Hbody. now apply raises_within_for_upto. Qed.

Lemma validate_raises (jteam : Z -> Z) (Nmpi : Z)
    (calendar : list (list Z)) :
  raises_within MpiValidate.validation_errors
    (MpiValidate.validate jteam Nmpi calendar).
Proof.
  unfold MpiValidate.validate.
  apply raises_within_bind; [|intros; exact I].
  apply raises_within_for_range. intros iteam other_teams.
  unfold MpiValidate.validate_team.
  apply raises_within_bind; [apply raises_within_rd|]. intros row.
  apply raises_within_bind.
  - apply raises_within_for_range. intros iturn ot.
    unfold MpiValidate.check_match.
    apply raises_within_bind; [apply raises_within_rd|]. intros row'.
    apply raises_within_bind; [apply raises_within_rd|]. intros opp.
    apply raises_within_bind; [apply raises_within_rd|]. intros row_opp.
    apply raises_within_bind; [apply raises_within_rd|]. intros back.
    apply raises_within_bind.
    { destruct (negb (back =? iteam)); cbn; auto. }
    intros _.
    apply raises_within_bind; [apply raises_within_rd|]. intros played.
    apply raises_within_bind.
    { destruct played; cbn; auto. }
    intros _. apply raises_within_wr.
  - intros ot. apply raises_within_bind; [|intros; exact I].
    destruct (jteam iteam <? 0); [exact I|].
    apply raises_within_for_range. intros j [].
    unfold MpiValidate.check_played.
    apply raises_within_bind; [apply raises_within_rd|]. intros played.
    destruct played; cbn; auto.
Qed.

(** The build without [VERIFY_ALL] raises for [Nmpi = 0] only. *)
Lemma CreateLeagueCalendar_raises (Nmpi : Z) (msg : string) :
  MpiControl.CreateLeagueCalendar Nmpi = Raised msg ->
  Nmpi = 0 /\ msg = "The number of MPI processes must be even!".
Proof.
  unfold MpiControl.CreateLeagueCalendar. intros Hrun.
  destruct (Z.eqb_spec Nmpi 0) as [H0|H0].
  - subst Nmpi. split; [reflexivity|]. vm_compute in Hrun. congruence.
  - exfalso. cbn [Z.rem Z.eqb negb mbind result_bind] in Hrun.
    change (Z.rem 0 2 =? 0) with true in Hrun.
    cbn [negb mbind result_bind] in Hrun.
    assert (Hb : only_bounds
                   (for_range 0 (Nmpi - 1) (MpiControl.schedule_turn Nmpi)
                      (replicate (Z.to_nat Nmpi)
                         (replicate (Z.to_nat (Nmpi - 1)) 0)))).
    { unfold MpiControl.schedule_turn, MpiControl.fill_pairs,
        MpiControl.play, MpiControl.set_match. bounds. }
    rewrite Hrun in Hb. exact Hb.
Qed.

Lemma index_other_teams_range (Nmpi a b : Z) :
  0 <= a < Nmpi -> 0 <= b < Nmpi -> b <> a ->
  0 <= index_other_teams a b < Nmpi - 1.
Proof. unfold index_other_teams. destruct (Z.leb_spec a b); lia. Qed.

Lemma index_other_teams_inj (a b b' : Z) :
  b <> a -> b' <> a ->
  index_other_teams a b = index_other_teams a b' -> b = b'.
Proof.
  unfold index_other_teams.
  destruct (Z.leb_spec a b), (Z.leb_spec a b'); lia.
Qed.

Lemma index_other_teams_onto (Nmpi a n : Z) :
  0 <= a < Nmpi -> 0 <= n < Nmpi - 1 ->
  exists b, 0 <= b < Nmpi /\ b <> a /\ index_other_teams a b = n.
Proof.
  intros Ha Hn. unfold index_other_teams.
  destruct (Z.ltb_spec n a).
  - exists n. destruct (Z.leb_spec a n); lia.
  - exists (n + 1). destruct (Z.leb_spec a (n + 1)); lia.
Qed.

Lemma opponent_rd (calendar : list (list Z)) (a t b : Z) :
  0 <= a -> 0 <= t ->
  MpiControl.opponent calendar a t = Some b ->
  exists row, rd calendar a = Done row /\ rd row t = Done b.
Proof.
  intros Ha Ht. unfold MpiControl.opponent.
  destruct (calendar !! Z.to_nat a) as [row|] eqn:Hrow; [|discriminate].
  cbn. intros Hb. exists row. split; now apply rd_lookup.
Qed.

Section Validation.

Variable k : Z.
Variable calendar : list (list Z).
Hypothesis Hk : 1 <= k.
Hypothesis Hshape : calendar_shape (2 * k) calendar.
Hypothesis Hopp : forall a t, 0 <= a < 2 * k -> 0 <= t < 2 * k - 1 ->
  MpiControl.opponent calendar a t = Some (peer (2 * k) t a).

Lemma check_match_passes (iteam iturn : Z) (other_teams : list bool) :
  0 <= iteam < 2 * k -> 0 <= iturn < 2 * k - 1 ->
  played_below (2 * k) iteam iturn other_teams ->
  exists other_teams',
    MpiValidate.check_match calendar iteam iturn other_teams
    = Done other_teams' /\
    played_below (2 * k) iteam (iturn + 1) other_teams'.
Proof.
  intros Ha Ht [Hlen Hplayed].
  set (b := peer (2 * k) iturn iteam).
  pose proof (peer_range k iturn iteam Hk Ht Ha) as Hb.
  pose proof (peer_ne k iturn iteam Hk Ht Ha) as Hne.
  pose proof (peer_involutive k iturn iteam Hk Ht Ha) as Hback.
  fold b in Hb, Hne, Hback.
  destruct (opponent_rd calendar iteam iturn b) as (row & Hrow & Hrd);
    [lia | lia | now apply Hopp |].
  destruct (opponent_rd calendar b iturn iteam) as (row' & Hrow' & Hrd');
    [lia | lia | rewrite Hopp by lia; now rewrite Hback |].
  pose proof (index_other_teams_range (2 * k) iteam b Ha Hb Hne) as Hidx.
  set (n := index_other_teams iteam b) in *.
  assert (Hfree : other_teams !! Z.to_nat n = Some false).
  { destruct (lookup_lt_is_Some_2 other_teams (Z.to_nat n)) as [p Hp];
      [lia|].
    destruct p; [|exact Hp]. exfalso.
    apply Hplayed in Hp; [|exact Hidx].
    destruct Hp as (t & Ht' & Heq).
    pose proof (peer_ne k t iteam Hk ltac:(lia) Ha) as Hne'.
    apply index_other_teams_inj in Heq; [|exact Hne'|exact Hne].
    destruct (peer_meets_once k iteam b Hk Ha Hb ltac:(congruence))
      as (t0 & _ & _ & Huniq).
    pose proof (Huniq t ltac:(lia) Heq).
    pose proof (Huniq iturn Ht eq_refl). lia. }
  exists (<[Z.to_nat n := true]> other_teams). split.
  - unfold MpiValidate.check_match.
    rewrite Hrow. cbn. rewrite Hrd. cbn. rewrite Hrow'. cbn.
    rewrite Hrd'. cbn. rewrite Z.eqb_refl. cbn.
    change (if iteam <=? b then b - 1 else b) with n.
    rewrite (rd_lookup _ _ false) by (lia || exact Hfree). cbn.
    apply wr_in_range. lia.
  - split; [now rewrite length_insert|].
    intros n' Hn'. destruct (decide (n' = n)) as [->|Hnn].
    + rewrite list_lookup_insert_eq by lia. split; [|reflexivity].
      intros _. exists iturn. split; [lia|reflexivity].
    + rewrite list_lookup_insert_ne by lia. rewrite Hplayed by exact Hn'.
      split; intros (t & Ht' & Heq).
      * exists t. split; [lia|exact Heq].
      * exists t. split; [|exact Heq].
        destruct (decide (t = iturn)) as [->|]; [|lia].
        fold b in Heq. fold n in Heq. congruence.
Qed.

Lemma validate_team_passes (jteam iteam : Z) (other_teams : list bool) :
  0 <= iteam < 2 * k ->
  length other_teams = Z.to_nat (2 * k - 1) ->
  exists other_teams',
    MpiValidate.validate_team jteam calendar iteam other_teams
    = Done other_teams' /\
    length other_teams' = Z.to_nat (2 * k - 1).
Proof.
  intros Ha Hlen. unfold MpiValidate.validate_team.
  destruct Hshape as [Hrows Hcols].
  destruct (lookup_lt_is_Some_2 calendar (Z.to_nat iteam)) as [row Hrow];
    [lia|].
  pose proof (Forall_lookup_1 _ _ _ _ Hcols Hrow) as Hrowlen.
  cbn beta in Hrowlen.
  rewrite (rd_lookup _ _ row) by (lia || exact Hrow). cbn.
  rewrite Hrowlen, Hlen.
  destruct (for_range_total (played_below (2 * k) iteam)
              (MpiValidate.check_match calendar iteam) 0
              (Z.of_nat (Z.to_nat (2 * k - 1)))
              (replicate (Z.to_nat (2 * k - 1)) false))
    as (ot & Hrun & Hot).
  - lia.
  - intros t st Ht Hst. apply check_match_passes; [exact Ha|lia|exact Hst].
  - split; [now rewrite length_replicate|].
    intros n Hn. rewrite lookup_replicate_2 by lia.
    split; [discriminate|]. intros (t & Ht & _). lia.
  - rewrite Hrun. cbn. destruct Hot as [Hotlen Hall].
    exists ot. split; [|exact Hotlen].
    destruct (Z.ltb_spec jteam 0); [reflexivity|].
    rewrite Hotlen.
    destruct (for_range_total (fun _ _ => True)
                (MpiValidate.check_played ot) jteam
                (Z.max jteam (Z.of_nat (Z.to_nat (2 * k - 1)))) tt)
      as ([] & Hrun3 & _).
    + lia.
    + intros j [] Hj _. exists tt. split; [|exact I].
      unfold MpiValidate.check_played.
      assert (Hjn : 0 <= j < 2 * k - 1) by lia.
      destruct (index_other_teams_onto (2 * k) iteam j Ha Hjn)
        as (b & Hb & Hne & Hidx).
      destruct (peer_meets_once k iteam b Hk Ha Hb ltac:(congruence))
        as (t & Ht & Hpeer & _).
      rewrite (rd_lookup _ _ true); [reflexivity|lia|].
      apply Hall; [exact Hjn|]. exists t. split; [lia|].
      now rewrite Hpeer.
    + exact I.
    + unfold for_range in *.
      replace (Z.to_nat (Z.of_nat (Z.to_nat (2 * k - 1)) - jteam))
        with (Z.to_nat (Z.max jteam (Z.of_nat (Z.to_nat (2 * k - 1)))
                        - jteam)) by lia.
      rewrite Hrun3. reflexivity.
Qed.

Lemma validate_passes (jteam : Z -> Z) :
  MpiValidate.validate jteam (2 * k) calendar = Done tt.
Proof.
  unfold MpiValidate.validate.
  destruct Hshape as [Hrows _].
  destruct (for_range_total
              (fun _ ot => length ot = Z.to_nat (2 * k - 1))
              (fun iteam => MpiValidate.validate_team (jteam iteam) calendar
                              iteam)
              0 (Z.of_nat (length calendar))
              (replicate (Z.to_nat (2 * k - 1)) false))
    as (ot & Hrun & _).
  - lia.
  - intros a st Ha Hst. apply validate_team_passes; [lia|exact Hst].
  - now rewrite length_replicate.
  - rewrite Hrun. reflexivity.
Qed.

End Validation.

(** X26.  The test on the number of processes, written as [! Nmpi%2], fires
    for [Nmpi = 0] only and lets every odd number through.  In a build
    without [VERIFY_ALL] the routine raises for [Nmpi = 0] and for no other
    number.  In a build with [VERIFY_ALL], whatever the counter of the
    third validation loop starts from, the message about an odd number is
    likewise raised for [Nmpi = 0] only, every other raise is one of the
    three errors of the validation block, and for an even [Nmpi >= 2] the
    validation passes: the outcome is that of the other build. *)
Theorem CreateLeagueCalendar_guard (Nmpi : Z) :
  ((exists msg, MpiControl.CreateLeagueCalendar Nmpi = Raised msg) <->
   Nmpi = 0) /\
  forall jteam : Z -> Z,
    (MpiValidate.CreateLeagueCalendar jteam Nmpi
     = Raised "The number of MPI processes must be even!" <-> Nmpi = 0) /\
    (forall msg,
       MpiValidate.CreateLeagueCalendar jteam Nmpi = Raised msg ->
       Nmpi <> 0 -> In msg MpiValidate.validation_errors) /\
    (2 <= Nmpi -> Z.even Nmpi = true ->
     MpiValidate.CreateLeagueCalendar jteam Nmpi
     = MpiControl.CreateLeagueCalendar Nmpi).
Proof.
  split.
  { split.
    - intros [msg Hrun]. now apply CreateLeagueCalendar_raises in Hrun.
    - intros ->. eexists. reflexivity. }
  intros jteam.
  assert (Hraised : forall msg,
            MpiValidate.CreateLeagueCalendar jteam Nmpi = Raised msg ->
            Nmpi = 0 /\ msg = "The number of MPI processes must be even!" \/
            Nmpi <> 0 /\ In msg MpiValidate.validation_errors).
  { intros msg. unfold MpiValidate.CreateLeagueCalendar.
    destruct (MpiControl.CreateLeagueCalendar Nmpi) as [cal|msg'| |] eqn:Hrun;
      cbn; try discriminate.
    - pose proof (validate_raises jteam Nmpi cal) as Hval.
      destruct (MpiValidate.validate jteam Nmpi cal); cbn;
        try discriminate.
      intros [= ->]. right. split; [|exact Hval].
      intros ->. discriminate Hrun.
    - intros [= ->]. left. now apply CreateLeagueCalendar_raises. }
  split; [|split].
  - split.
    + intros Hrun. destruct (Hraised _ Hrun) as [[H0 _]|[_ Hin]];
        [exact H0|].
      cbn in Hin. destruct Hin as [H|[H|[H|[]]]]; discriminate H.
    + intros ->. reflexivity.
  - intros msg Hrun Hne. destruct (Hraised _ Hrun) as [[H0 _]|[_ Hin]];
      [contradiction|exact Hin].
  - intros Hn Heven. apply Z.even_spec in Heven as [k ->].
    assert (Hk : 1 <= k) by lia.
    destruct (CreateLeagueCalendar_spec k Hk) as (cal & Hrun & Hshape & Hopp).
    unfold MpiValidate.CreateLeagueCalendar. rewrite Hrun. cbn.
    now rewrite (validate_passes k cal Hk Hshape Hopp).
Qed.

Lemma exchange_cases (rank inode : Z) :
  MpiExchange.exchange rank inode
  = if rank <? inode
    then [MpiExchange.send_to inode; MpiExchange.receive_from inode]
    else [MpiExchange.receive_from inode; MpiExchange.send_to inode].
Proof. unfold MpiExchange.exchange. now destruct (rank <? inode). Qed.

Lemma transfers_lookup (rank : Z) (my_matches : list Z) (t i : nat) :
  (i < 2)%nat ->
  MpiExchange.transfers rank my_matches !! (2 * t + i)%nat
  = inode ← my_matches !! t; MpiExchange.exchange rank inode !! i.
Proof.
  intros Hi. unfold MpiExchange.transfers.
  revert t. induction my_matches as [|x l IH]; intros t.
  - reflexivity.
  - cbn [flat_map]. destruct t as [|t].
    + cbn [lookup list_lookup mbind option_bind Nat.mul Nat.add].
      rewrite exchange_cases.
      destruct (rank <? x); destruct i as [|[|i]]; try lia; reflexivity.
    + replace (2 * S t + i)%nat with (2 + (2 * t + i))%nat by lia.
      rewrite lookup_app_r
        by (rewrite exchange_cases; destruct (rank <? x); cbn; lia).
      replace (length (MpiExchange.exchange rank x)) with 2%nat
        by (rewrite exchange_cases; now destruct (rank <? x)).
      replace (2 + (2 * t + i) - 2)%nat with (2 * t + i)%nat by lia.
      apply IH.
Qed.

(** X27.  With the calendar of an even number of processes the blocking
    calls of [LoadBalancing] pair up: whenever a process reaches a send to
    a peer, that peer is, at the same place of its own sequence of calls,
    at the receive from this process, and the other way round. *)
Theorem LoadBalancing_transfers_match (Nmpi : Z) :
  2 <= Nmpi -> Z.even Nmpi = true ->
  exists calendar,
    MpiControl.CreateLeagueCalendar Nmpi = Done calendar /\
    forall a b row_a (n : nat),
      0 <= a < Nmpi -> calendar !! Z.to_nat a = Some row_a ->
      (MpiExchange.transfers a row_a !! n = Some (MpiExchange.send_to b) ->
       exists row_b,
         0 <= b < Nmpi /\ calendar !! Z.to_nat b = Some row_b /\
         MpiExchange.transfers b row_b !! n
         = Some (MpiExchange.receive_from a)) /\
      (MpiExchange.transfers a row_a !! n
       = Some (MpiExchange.receive_from b) ->
       exists row_b,
         0 <= b < Nmpi /\ calendar !! Z.to_nat b = Some row_b /\
         MpiExchange.transfers b row_b !! n = Some (MpiExchange.send_to a)).
Proof.
  intros Hn Heven. apply Z.even_spec in Heven as [k ->].
  assert (Hk : 1 <= k) by lia.
  destruct (CreateLeagueCalendar_spec k Hk) as (cal & Hrun & Hshape & Hopp).
  exists cal. split; [exact Hrun|].
  assert (Hmatch : forall a b row_a (t i : nat),
            0 <= a < 2 * k -> cal !! Z.to_nat a = Some row_a ->
            (i < 2)%nat -> row_a !! t = Some b ->
            exists row_b,
              0 <= b < 2 * k /\ b <> a /\ cal !! Z.to_nat b = Some row_b /\
              row_b !! t = Some a).
  { intros a b row_a t i Ha Hrow Hi Hb.
    destruct Hshape as [Hlen Hrows].
    pose proof (Forall_lookup_1 _ _ _ _ Hrows Hrow) as Hrl. cbn beta in Hrl.
    assert (Ht : 0 <= Z.of_nat t < 2 * k - 1).
    { apply lookup_lt_Some in Hb. lia. }
    pose proof (Hopp a (Z.of_nat t) Ha Ht) as Ho.
    unfold MpiControl.opponent in Ho. rewrite Hrow in Ho.
    cbn [mbind option_bind] in Ho. rewrite Nat2Z.id, Hb in Ho.
    injection Ho as ->.
    pose proof (peer_range k (Z.of_nat t) a Hk Ht Ha) as Hbr.
    pose proof (Hopp _ (Z.of_nat t) Hbr Ht) as Ho'.
    rewrite peer_involutive in Ho' by assumption.
    unfold MpiControl.opponent in Ho'.
    destruct (cal !! Z.to_nat (peer (2 * k) (Z.of_nat t) a)) as [row_b|];
      [|discriminate].
    cbn [mbind option_bind] in Ho'. rewrite Nat2Z.id in Ho'.
    exists row_b. split; [exact Hbr|]. split; [now apply peer_ne|].
    split; [reflexivity | exact Ho']. }
  intros a b row_a n Ha Hrow.
  set (t := (n / 2)%nat). set (i := (n mod 2)%nat).
  assert (Hi : (i < 2)%nat) by (subst i; apply Nat.mod_upper_bound; lia).
  assert (Hn' : n = (2 * t + i)%nat) by (subst t i; apply Nat.div_mod_eq).
  rewrite Hn'. rewrite transfers_lookup by exact Hi.
  destruct (row_a !! t) as [c|] eqn:Hc; cbn [mbind option_bind];
    [|split; discriminate].
  destruct (Hmatch a c row_a t i Ha Hrow Hi Hc)
    as (row_c & Hcr & Hne & Hrowc & Hback).
  rewrite exchange_cases.
  split; intros Hx.
  - assert (b = c) as ->.
    { destruct (a <? c); destruct i as [|[|i]]; try lia; cbn in Hx;
        congruence. }
    exists row_c. split; [exact Hcr|]. split; [exact Hrowc|].
    rewrite transfers_lookup by exact Hi. rewrite Hback.
    cbn [mbind option_bind]. rewrite exchange_cases.
    destruct (Z.ltb_spec a c), (Z.ltb_spec c a); try lia;
      destruct i as [|[|i]]; try lia; cbn in Hx |- *; congruence.
  - assert (b = c) as ->.
    { destruct (a <? c); destruct i as [|[|i]]; try lia; cbn in Hx;
        congruence. }
    exists row_c. split; [exact Hcr|]. split; [exact Hrowc|].
    rewrite transfers_lookup by exact Hi. rewrite Hback.
    cbn [mbind option_bind]. rewrite exchange_cases.
    destruct (Z.ltb_spec a c), (Z.ltb_spec c a); try lia;
      destruct i as [|[|i]]; try lia; cbn in Hx |- *; congruence.
Qed.

(** ** Sending the domain boxes *)

Lemma write_block_spec (base n : Z) (f : nat -> Q) (buf buf' : list Q) :
  for_range 0 n (fun k buf => wr buf (base + k) (f (Z.to_nat k))) buf
  = Done buf' ->
  length buf' = length buf /\
  (forall k, 0 <= k < n ->
     0 <= base + k /\ buf' !! Z.to_nat (base + k) = Some (f (Z.to_nat k))) /\
  (forall i : nat, ~ (base <= Z.of_nat i < base + n) -> buf' !! i = buf !! i).
Proof.
  intros Hrun.
  destruct (Z.le_gt_cases 0 n) as [Hpos|Hneg].
  2:{ rewrite for_range_empty in Hrun by lia. injection Hrun as <-.
      split; [reflexivity|]. split; [intros k Hk; lia | reflexivity]. }
  pose (P := fun (c : Z) (t : list Q) =>
    length t = length buf /\
    (forall k, 0 <= k < c ->
       0 <= base + k /\ t !! Z.to_nat (base + k) = Some (f (Z.to_nat k))) /\
    (forall i : nat, ~ (base <= Z.of_nat i < base + c) -> t !! i = buf !! i)).
  apply (for_range_invariant P) in Hrun; [exact Hrun | exact Hpos | |].
  - unfold P. intros k t t' Hk (Hlen & Hin & Hout) Hwr.
    apply wr_Done in Hwr as [Hrange ->].
    split; [now rewrite length_insert|]. split.
    + intros k' Hk'. destruct (decide (k' = k)) as [->|Hne].
      * split; [lia|]. apply list_lookup_insert_eq. lia.
      * destruct (Hin k') as [Hb Hv]; [lia|]. split; [exact Hb|].
        rewrite list_lookup_insert_ne by lia. exact Hv.
    + intros i Hi. rewrite list_lookup_insert_ne by lia. apply Hout. lia.
  - unfold P. split; [reflexivity|]. split; [intros k Hk; lia | reflexivity].
Qed.

Lemma read_block_spec (base n : Z) (buf x : list Q) :
  0 <= n <= Z.of_nat (length x) ->
  (forall k, 0 <= k < n ->
     0 <= base + k /\ is_Some (buf !! Z.to_nat (base + k))) ->
  exists x',
    for_range 0 n (fun k x => y ← rd buf (base + k); wr x k y) x = Done x' /\
    length x' = length x /\
    forall k, 0 <= k < n -> x' !! Z.to_nat k = buf !! Z.to_nat (base + k).
Proof.
  intros Hn Hbuf.
  pose (P := fun (c : Z) (t : list Q) =>
    length t = length x /\
    forall k, 0 <= k < c -> t !! Z.to_nat k = buf !! Z.to_nat (base + k)).
  destruct (for_range_total P
              (fun k x => y ← rd buf (base + k); wr x k y) 0 n x)
    as (x' & Hrun & HP); [lia | | | exists x'; split; [exact Hrun|exact HP]].
  - unfold P. intros k t Hk (Hlen & Hin).
    destruct (Hbuf k Hk) as [Hb [y Hy]].
    rewrite (rd_lookup buf (base + k) y Hb Hy). cbn [mbind result_bind].
    rewrite wr_in_range by lia. eexists. split; [reflexivity|].
    split; [now rewrite length_insert|].
    intros k' Hk'. destruct (decide (k' = k)) as [->|Hne].
    + rewrite Hy. apply list_lookup_insert_eq. lia.
    + rewrite list_lookup_insert_ne by lia. apply Hin. lia.
  - unfold P. split; [reflexivity|]. intros k Hk. lia.
Qed.

Lemma pack_boxes_spec (ndim : nat) (Nmpi : Z)
    (mpinode : list MpiExchange.Box) (boxbuffer buffer : list Q) :
  MpiExchange.pack_boxes ndim Nmpi mpinode boxbuffer = Done buffer ->
  forall inode, 0 <= inode < Nmpi ->
    exists node,
      mpinode !! Z.to_nat inode = Some node /\
      forall k, 0 <= k < Z.of_nat ndim ->
        buffer !! Z.to_nat (2 * Z.of_nat ndim * inode + k)
        = Some (vget (MpiExchange.bmin node) (Z.to_nat k)) /\
        buffer !! Z.to_nat (2 * Z.of_nat ndim * inode + Z.of_nat ndim + k)
        = Some (vget (MpiExchange.bmax node) (Z.to_nat k)).
Proof.
  unfold MpiExchange.pack_boxes. intros Hrun.
  destruct (Z.le_gt_cases 0 Nmpi) as [Hpos|Hneg]; [|intros; lia].
  pose (P := fun (c : Z) (t : list Q) =>
    forall inode, 0 <= inode < c ->
      exists node,
        mpinode !! Z.to_nat inode = Some node /\
        forall k, 0 <= k < Z.of_nat ndim ->
          t !! Z.to_nat (2 * Z.of_nat ndim * inode + k)
          = Some (vget (MpiExchange.bmin node) (Z.to_nat k)) /\
          t !! Z.to_nat (2 * Z.of_nat ndim * inode + Z.of_nat ndim + k)
          = Some (vget (MpiExchange.bmax node) (Z.to_nat k))).
  apply (for_range_invariant P) in Hrun; [exact Hrun | exact Hpos | |].
  - unfold P. intros inode t t' Hi Hprev Hbody.
    apply bind_Done in Hbody as (node & Hrd & Hbody).
    apply rd_Done in Hrd as [_ Hnode].
    apply bind_Done in Hbody as (t1 & Hmin & Hmax).
    apply (write_block_spec (2 * Z.of_nat ndim * inode) (Z.of_nat ndim)
             (fun k => vget (MpiExchange.bmin node) k)) in Hmin
      as (Hl1 & Hin1 & Hout1).
    apply (write_block_spec (2 * Z.of_nat ndim * inode + Z.of_nat ndim)
             (Z.of_nat ndim)
             (fun k => vget (MpiExchange.bmax node) k)) in Hmax
      as (Hl2 & Hin2 & Hout2).
    intros inode' Hi'. destruct (decide (inode' = inode)) as [->|Hne].
    + exists node. split; [exact Hnode|]. intros k Hk. split.
      * rewrite Hout2 by lia. now apply Hin1.
      * now apply Hin2.
    + destruct (Hprev inode') as (node' & Hnode' & Hold); [lia|].
      exists node'. split; [exact Hnode'|]. intros k Hk.
      destruct (Hold k Hk) as [Hmin' Hmax'].
      assert (Hgap : 2 * Z.of_nat ndim * inode' + 2 * Z.of_nat ndim
                     <= 2 * Z.of_nat ndim * inode) by nia.
      assert (H0 : 0 <= 2 * Z.of_nat ndim * inode') by nia.
      split.
      * rewrite Hout2, Hout1 by lia. exact Hmin'.
      * rewrite Hout2, Hout1 by lia. exact Hmax'.
  - unfold P. intros inode Hi. lia.
Qed.

(** X28.  The domain boxes survive the broadcast: what the root node packs
    into [boxbuffer], the other nodes unpack, for every node and in each of
    the [ndim] components of both corners. *)
Theorem boxes_round_trip (ndim : nat) (Nmpi : Z)
    (sent mpinode : list MpiExchange.Box) (boxbuffer buffer : list Q) :
  MpiExchange.pack_boxes ndim Nmpi sent boxbuffer = Done buffer ->
  Nmpi <= Z.of_nat (length mpinode) ->
  Forall (fun node => (ndim <= length (MpiExchange.bmin node))%nat /\
                      (ndim <= length (MpiExchange.bmax node))%nat)
    mpinode ->
  exists received,
    MpiExchange.unpack_boxes ndim Nmpi buffer mpinode = Done received /\
    length received = length mpinode /\
    forall (inode : nat) node, Z.of_nat inode < Nmpi ->
      sent !! inode = Some node ->
      exists node',
        received !! inode = Some node' /\
        forall k, (k < ndim)%nat ->
          vget (MpiExchange.bmin node') k = vget (MpiExchange.bmin node) k /\
          vget (MpiExchange.bmax node') k = vget (MpiExchange.bmax node) k.
Proof.
  intros Hpack HN Hsizes. pose proof (pack_boxes_spec _ _ _ _ _ Hpack) as Hbuf.
  unfold MpiExchange.unpack_boxes.
  destruct (Z.le_gt_cases 0 Nmpi) as [Hpos|Hneg].
  2:{ exists mpinode. rewrite for_range_empty by lia.
      split; [reflexivity|]. split; [reflexivity|]. intros; lia. }
  pose (P := fun (c : Z) (t : list MpiExchange.Box) =>
    length t = length mpinode /\
    (forall i : nat, c <= Z.of_nat i -> t !! i = mpinode !! i) /\
    forall (inode : nat) node, Z.of_nat inode < c ->
      sent !! inode = Some node ->
      exists node',
        t !! inode = Some node' /\
        forall k, (k < ndim)%nat ->
          vget (MpiExchange.bmin node') k = vget (MpiExchange.bmin node) k /\
          vget (MpiExchange.bmax node') k = vget (MpiExchange.bmax node) k).
  match goal with
  | |- exists r, for_range 0 Nmpi ?body mpinode = Done r /\ _ =>
      destruct (for_range_total P body 0 Nmpi mpinode)
        as (received & Hrun & Hlen & _ & Hall)
  end; [exact Hpos | | | exists received; auto].
  - unfold P. intros inode t Hi (Hlen & Hlater & Hdone).
    destruct (lookup_lt_is_Some_2 mpinode (Z.to_nat inode)) as [old Hold];
      [lia|].
    pose proof (Forall_lookup_1 _ _ _ _ Hsizes Hold) as [Hsmin Hsmax].
    destruct (Hbuf inode Hi) as (node & Hnode & Hvals).
    rewrite (rd_lookup t inode old)
      by (lia || (rewrite Hlater by lia; exact Hold)).
    cbn [mbind result_bind].
    destruct (read_block_spec (2 * Z.of_nat ndim * inode) (Z.of_nat ndim)
                buffer (MpiExchange.bmin old))
      as (bmin' & Hrmin & Hlmin & Hvmin); [lia | |].
    { intros k Hk. destruct (Hvals k Hk) as [Hv _].
      split; [|rewrite Hv; eauto]. nia. }
    rewrite Hrmin. cbn [mbind result_bind].
    destruct (read_block_spec
                (2 * Z.of_nat ndim * inode + Z.of_nat ndim) (Z.of_nat ndim)
                buffer (MpiExchange.bmax old))
      as (bmax' & Hrmax & Hlmax & Hvmax); [lia | |].
    { intros k Hk. destruct (Hvals k Hk) as [_ Hv].
      split; [|rewrite Hv; eauto]. nia. }
    rewrite Hrmax. cbn [mbind result_bind].
    rewrite wr_in_range by lia. eexists. split; [reflexivity|].
    split; [now rewrite length_insert|]. split.
    + intros i Hi'. rewrite list_lookup_insert_ne by lia. apply Hlater. lia.
    + intros inode' node0 Hi' Hsent.
      destruct (decide (inode' = Z.to_nat inode)) as [->|Hne].
      * rewrite Hsent in Hnode. injection Hnode as ->.
        eexists. split; [apply list_lookup_insert_eq; lia|].
        cbn [MpiExchange.bmin MpiExchange.bmax]. intros k Hk.
        destruct (Hvals (Z.of_nat k)) as [Hv1 Hv2]; [lia|].
        rewrite Nat2Z.id in Hv1, Hv2.
        unfold vget. rewrite !nth_lookup.
        specialize (Hvmin (Z.of_nat k)). specialize (Hvmax (Z.of_nat k)).
        rewrite Nat2Z.id in Hvmin, Hvmax.
        rewrite Hvmin, Hvmax by lia. rewrite Hv1, Hv2. cbn.
        unfold vget. rewrite !nth_lookup. split; reflexivity.
      * rewrite list_lookup_insert_ne by congruence. apply Hdone; [lia|].
        exact Hsent.
  - unfold P. split; [reflexivity|]. split; [reflexivity|]. intros; lia.
Qed.

(** ** The send buffer of the ghosts *)

Lemma export_offset_S (per_node : list (list Z)) (inode : nat)
    (ids : list Z) :
  per_node !! inode = Some ids ->
  export_offset per_node (S inode)
  = export_offset per_node inode + Z.of_nat (length ids).
Proof.
  intros Hids. unfold export_offset.
  rewrite (take_S_r _ _ _ Hids), concat_app, length_app. cbn [concat].
  rewrite app_nil_r. lia.
Qed.

Lemma export_offset_mono (per_node : list (list Z)) (i j : nat) :
  (i <= j)%nat -> export_offset per_node i <= export_offset per_node j.
Proof.
  intros Hij. unfold export_offset.
  replace j with (i + (j - i))%nat by lia.
  rewrite <- take_take_drop, concat_app, length_app. lia.
Qed.

Lemma count_exports_spec (Nmpi : Z) (per_node : list (list Z))
    (num0 displ0 num displ : list Z) (total : Z) :
  MpiGhostExport.count_exports Nmpi per_node num0 displ0
  = Done (num, displ, total) ->
  0 <= Nmpi ->
  total = export_offset per_node (Z.to_nat Nmpi) /\
  forall (inode : nat) ids, Z.of_nat inode < Nmpi ->
    per_node !! inode = Some ids ->
    num !! inode = Some (Z.of_nat (length ids)) /\
    displ !! inode = Some (export_offset per_node inode).
Proof.
  unfold MpiGhostExport.count_exports. intros Hrun Hpos.
  pose (P := fun (c : Z) (st : list Z * list Z * Z) =>
    snd st = export_offset per_node (Z.to_nat c) /\
    forall (inode : nat) ids, Z.of_nat inode < c ->
      per_node !! inode = Some ids ->
      fst (fst st) !! inode = Some (Z.of_nat (length ids)) /\
      snd (fst st) !! inode = Some (export_offset per_node inode)).
  apply (for_range_invariant P) in Hrun; [exact Hrun | exact Hpos | |].
  - unfold P. intros i [[n d] c] st' Hi (Hc & Hall) Hbody.
    cbn [fst snd] in *.
    apply bind_Done in Hbody as (ids & Hrd & Hbody).
    apply rd_Done in Hrd as [_ Hids].
    apply bind_Done in Hbody as (n' & Hwn & Hbody).
    apply bind_Done in Hbody as (d' & Hwd & Hbody). injection Hbody as <-.
    apply wr_Done in Hwn as [Hrn ->]. apply wr_Done in Hwd as [Hrd ->].
    cbn [fst snd]. split.
    + replace (Z.to_nat (i + 1)) with (S (Z.to_nat i)) by lia.
      rewrite (export_offset_S _ _ _ Hids). lia.
    + intros inode ids' Hin Hids'.
      destruct (decide (inode = Z.to_nat i)) as [->|Hne].
      * assert (ids' = ids) as -> by congruence.
        rewrite !list_lookup_insert_eq by lia. rewrite Hc. auto.
      * rewrite !list_lookup_insert_ne by congruence. apply Hall; [lia|].
        exact Hids'.
  - unfold P. cbn [fst snd]. split; [reflexivity|]. intros; lia.
Qed.

Lemma pack_exports_spec (Nmpi : Z) (per_node : list (list Z))
    (sphdata export0 export : list SphParticle) (index : Z) :
  MpiGhostExport.pack_exports Nmpi per_node sphdata export0
  = Done (export, index) ->
  0 <= Nmpi ->
  index = export_offset per_node (Z.to_nat Nmpi) /\
  length export = length export0 /\
  forall (inode : nat) ids (ip : nat) id,
    Z.of_nat inode < Nmpi -> per_node !! inode = Some ids ->
    ids !! ip = Some id ->
    exists p, sphdata !! Z.to_nat id = Some p /\
              export !! Z.to_nat (export_offset per_node inode + Z.of_nat ip)
              = Some p.
Proof.
  unfold MpiGhostExport.pack_exports. intros Hrun Hpos.
  pose (P := fun (c : Z) (st : list SphParticle * Z) =>
    snd st = export_offset per_node (Z.to_nat c) /\
    length (fst st) = length export0 /\
    forall (inode : nat) ids (ip : nat) id,
      Z.of_nat inode < c -> per_node !! inode = Some ids ->
      ids !! ip = Some id ->
      exists p, sphdata !! Z.to_nat id = Some p /\
                fst st
                  !! Z.to_nat (export_offset per_node inode + Z.of_nat ip)
                = Some p).
  apply (for_range_invariant P) in Hrun; [exact Hrun | exact Hpos | |].
  - unfold P. intros i st st' Hi (Hc & Hlen & Hall) Hbody.
    apply bind_Done in Hbody as (ids & Hrd & Hinner).
    apply rd_Done in Hrd as [_ Hids].
    set (base := export_offset per_node (Z.to_nat i)) in *.
    assert (Hbase : 0 <= base) by (subst base; unfold export_offset; lia).
    pose (Q := fun (c : Z) (t : list SphParticle * Z) =>
      snd t = base + c /\ length (fst t) = length export0 /\
      (forall n : nat, Z.of_nat n < base -> fst t !! n = fst st !! n) /\
      forall (ip : nat) id, Z.of_nat ip < c -> ids !! ip = Some id ->
        exists p, sphdata !! Z.to_nat id = Some p /\
                  fst t !! Z.to_nat (base + Z.of_nat ip) = Some p).
    apply (for_range_invariant Q) in Hinner; [| lia | |].
    + destruct Hinner as (Hc' & Hlen' & Hlow & Hnew).
      split; [|split; [exact Hlen'|]].
      * replace (Z.to_nat (i + 1)) with (S (Z.to_nat i)) by lia.
        rewrite (export_offset_S _ _ _ Hids). exact Hc'.
      * intros inode ids' ip id Hin Hids' Hid.
        destruct (decide (inode = Z.to_nat i)) as [->|Hne].
        -- assert (ids' = ids) as -> by congruence.
           apply Hnew; [|exact Hid]. apply lookup_lt_Some in Hid. lia.
        -- destruct (Hall inode ids' ip id) as (p & Hp & Hold);
             [lia | exact Hids' | exact Hid |].
           exists p. split; [exact Hp|].
           rewrite Hlow; [exact Hold|].
           pose proof (export_offset_mono per_node (S inode) (Z.to_nat i)).
           rewrite (export_offset_S _ _ _ Hids') in H.
           apply lookup_lt_Some in Hid.
           assert (0 <= export_offset per_node inode)
             by (unfold export_offset; lia).
           subst base. lia.
    + unfold Q. intros ip [buf idx] t' Hip (Hidx & Hl & Hlow & Hnew) Hb.
      cbn [fst snd] in *.
      apply bind_Done in Hb as (id & Hrid & Hb).
      apply bind_Done in Hb as (p & Hrp & Hb).
      apply bind_Done in Hb as (buf' & Hw & Hb). injection Hb as <-.
      apply rd_Done in Hrid as [_ Hid]. apply rd_Done in Hrp as [_ Hp].
      apply wr_Done in Hw as [Hrange ->]. cbn [fst snd].
      split; [lia|]. split; [now rewrite length_insert|]. split.
      * intros n Hn. rewrite list_lookup_insert_ne by lia. now apply Hlow.
      * intros ip' id' Hip' Hid'.
        destruct (decide (ip' = Z.to_nat ip)) as [->|Hne].
        -- assert (id' = id) as -> by congruence.
           exists p. split; [exact Hp|].
           replace (base + Z.of_nat (Z.to_nat ip)) with idx by lia.
           apply list_lookup_insert_eq. lia.
        -- destruct (Hnew ip' id') as (p' & Hp' & Hold);
             [lia | exact Hid' |].
           exists p'. split; [exact Hp'|].
           rewrite list_lookup_insert_ne by lia. exact Hold.
    + unfold Q. split; [lia|]. split; [exact Hlen|].
      split; [reflexivity|]. intros; lia.
  - unfold P. cbn [fst snd]. split; [reflexivity|].
    split; [reflexivity|]. intros; lia.
Qed.

(** X29.  In [SendReceiveGhosts] the send buffer agrees with the counts
    and displacements handed to [MPI_Alltoallv]: the block of a node
    starts at its displacement, has the counted length and holds the
    particles listed for that node in their order; and the number of
    particles copied is the total counted, as the [assert] demands. *)
Theorem ghost_exports_match_displacements (Nmpi : Z)
    (per_node : list (list Z)) (num0 displ0 num displ : list Z)
    (total index : Z) (sphdata export0 export : list SphParticle) :
  0 <= Nmpi ->
  MpiGhostExport.count_exports Nmpi per_node num0 displ0
  = Done (num, displ, total) ->
  MpiGhostExport.pack_exports Nmpi per_node sphdata export0
  = Done (export, index) ->
  index = total /\
  forall (inode : nat) ids, Z.of_nat inode < Nmpi ->
    per_node !! inode = Some ids ->
    exists d,
      displ !! inode = Some d /\
      num !! inode = Some (Z.of_nat (length ids)) /\
      d + Z.of_nat (length ids) <= total /\
      forall (ip : nat) id, ids !! ip = Some id ->
        exists p, sphdata !! Z.to_nat id = Some p /\
                  export !! Z.to_nat (d + Z.of_nat ip) = Some p.
Proof.
  intros Hpos Hcount Hpack.
  apply count_exports_spec in Hcount as (Htot & Hcount); [|exact Hpos].
  apply pack_exports_spec in Hpack as (Hidx & _ & Hpack); [|exact Hpos].
  split; [congruence|]. intros inode ids Hin Hids.
  destruct (Hcount inode ids Hin Hids) as [Hnum Hdispl].
  exists (export_offset per_node inode). split; [exact Hdispl|].
  split; [exact Hnum|]. split.
  - rewrite Htot, <- (export_offset_S _ _ _ Hids).
    apply export_offset_mono. lia.
  - intros ip id Hid. now apply (Hpack inode ids ip id).
Qed.

(** ** The smoothing length that [ComputeH] hands back *)

Section HBracket.

Variable density_pass : HRho.hloop -> result HRho.hloop.
Variable nm : Numerics.
Variable ndim : nat.
Variable sph : Sph.
Variable hmax : Q.

Hypothesis density_pass_keeps : forall s s1,
  density_pass s = Done s1 ->
  h (HRho.parti s1) = h (HRho.parti s) /\
  HRho.h_lower_bound s1 = HRho.h_lower_bound s /\
  HRho.iteration s1 = HRho.iteration s + 1.

(** In the bisection phase the loop is entered with [h] above the lower
    bound. *)
Let bracketed (s : HRho.hloop) : Prop :=
  HRho.iteration_max <= HRho.iteration s ->
  (HRho.h_lower_bound s < h (HRho.parti s))%Q.

Lemma h_iteration_lower_bound (s s' : HRho.hloop) (next : HRho.hnext) :
  HRho.h_iteration density_pass nm ndim sph hmax s = Done (s', next) ->
  bracketed s ->
  (HRho.h_lower_bound s <= HRho.h_lower_bound s')%Q /\
  (next = HRho.hcontinue -> bracketed s') /\
  (next = HRho.hreturn0 -> (hmax < h (HRho.parti s'))%Q).
Proof.
  unfold HRho.h_iteration, bracketed. intros Hrun Hs.
  apply bind_Done in Hrun as (s1 & Hdp & Hrun).
  apply density_pass_keeps in Hdp as (Hh & Hlo & Hit).
  destruct (HRho.converged nm ndim sph s1).
  { injection Hrun as <- <-. rewrite Hlo.
    split; [apply Qle_refl|]. split; discriminate. }
  apply bind_Done in Hrun as (s2 & Hup & Hrun).
  assert (Hlow : (HRho.h_lower_bound s <= HRho.h_lower_bound s2)%Q).
  { unfold HRho.update_h, HRho.iteration_max in *.
    destruct (Z.ltb_spec (HRho.iteration s1) 30).
    { injection Hup as <-. cbn. rewrite Hlo. apply Qle_refl. }
    destruct (Z.eqb_spec (HRho.iteration s1) 30).
    { injection Hup as <-. cbn. rewrite Hlo. apply Qle_refl. }
    destruct (Z.ltb_spec (HRho.iteration s1) (5 * 30)); [|discriminate].
    injection Hup as <-. cbn [HRho.h_lower_bound].
    destruct (HRho.h_too_large nm ndim sph s1).
    - rewrite Hlo. apply Qle_refl.
    - rewrite Hh. apply Qlt_le_weak, Hs. lia. }
  destruct (Qltb hmax (h (HRho.parti s2))) eqn:Hmax.
  { injection Hrun as <- <-. split; [exact Hlow|].
    split; [discriminate|]. intros _. now apply Qltb_lt. }
  destruct (Qltb (HRho.h_lower_bound s2) (h (HRho.parti s2))) eqn:Hin;
    cbn [andb] in Hrun.
  - destruct (Qltb (h (HRho.parti s2)) (HRho.h_upper_bound s2));
      injection Hrun as <- <-; (split; [exact Hlow|]);
      (split; [|discriminate]).
    + intros _ _. now apply Qltb_lt.
    + discriminate.
  - injection Hrun as <- <-. split; [exact Hlow|]. split; discriminate.
Qed.

Lemma h_loop_lower_bound (fuel : nat) : forall s s' next,
  HRho.h_loop density_pass nm ndim sph hmax fuel s = Done (s', next) ->
  bracketed s ->
  (HRho.h_lower_bound s <= HRho.h_lower_bound s')%Q /\
  (next = HRho.hreturn0 -> (hmax < h (HRho.parti s'))%Q).
Proof.
  induction fuel as [|fuel IH]; intros s s' next Hrun Hs; [discriminate|].
  cbn [HRho.h_loop] in Hrun.
  apply bind_Done in Hrun as ([s1 n1] & Hit & Hrun). cbn [fst snd] in Hrun.
  destruct (h_iteration_lower_bound s s1 n1 Hit Hs) as (Hlo & Hcont & Hret).
  destruct n1; try (injection Hrun as <- <-; split; [exact Hlo|]; auto;
                    discriminate).
  destruct (IH s1 s' next Hrun (Hcont eq_refl)) as (Hlo' & Hret').
  split; [eapply Qle_trans; eassumption | exact Hret'].
Qed.

End HBracket.

Lemma fmax_ge_r (x y : Q) : (y <= fmax x y)%Q.
Proof.
  unfold fmax. destruct (Qltb x y) eqn:E; [apply Qle_refl|].
  now apply Qltb_ge.
Qed.

Lemma GradhSph_density_pass_keeps (ndim : nat) (sph : Sph) (Nneib : Z)
    (m drsqd : list Q) (s s1 : HRho.hloop) :
  GradhSph.density_pass ndim sph Nneib m drsqd s = Done s1 ->
  h (HRho.parti s1) = h (HRho.parti s) /\
  HRho.h_lower_bound s1 = HRho.h_lower_bound s /\
  HRho.iteration s1 = HRho.iteration s + 1.
Proof.
  unfold GradhSph.density_pass. cbv zeta. intros Hrun.
  apply bind_Done in Hrun as (p & Hloop & Hrun). injection Hrun as <-.
  cbn [HRho.parti HRho.h_lower_bound HRho.iteration].
  split; [|split; reflexivity].
  assert (Hp : h p = h (HRho.parti s)).
  { destruct (Z.le_gt_cases 0 Nneib) as [Hpos|Hneg].
    - apply (for_range_invariant (fun _ q => h q = h (HRho.parti s)))
        in Hloop; [exact Hloop | exact Hpos | | reflexivity].
      intros j q q' _ Hq Hbody. unfold GradhSph.density_sum in Hbody.
      apply bind_Done in Hbody as (d & _ & Hbody).
      apply bind_Done in Hbody as (mj & _ & Hbody).
      injection Hbody as <-. exact Hq.
    - rewrite for_range_empty in Hloop by lia. injection Hloop as <-.
      reflexivity. }
  destruct (Qltb 0 _); exact Hp.
Qed.

(** The loops after the h-rho iteration leave the smoothing length, its
    inverse, the kernel range and the velocity divergence alone. *)
Lemma finish_loops_keep (ndim : nat) (sph : Sph) (nbody : Nbody)
    (drsqd gpot_ : list Q) (invhsqd : Q)
    (invhsqd_of : Star.NbodyParticle -> Q) (N : Z) (p p' : SphParticle) :
  for_range 0 N (HRho.potmin_check sph drsqd gpot_ invhsqd) p = Done p' \/
  for_range 0 N (HRho.chi_sum ndim sph nbody invhsqd_of) p = Done p' ->
  h p' = h p /\ invh p' = invh p /\ hrangesqd p' = hrangesqd p /\
  div_v p' = div_v p.
Proof.
  pose (P := fun (_ : Z) (q : SphParticle) =>
    h q = h p /\ invh q = invh p /\ hrangesqd q = hrangesqd p /\
    div_v q = div_v p).
  intros Hrun.
  destruct (Z.le_gt_cases 0 N) as [Hpos|Hneg].
  2:{ rewrite !for_range_empty in Hrun by lia.
      destruct Hrun as [Hrun|Hrun]; injection Hrun as <-; auto. }
  destruct Hrun as [Hrun|Hrun];
    apply (for_range_invariant P) in Hrun; try exact Hrun; try exact Hpos;
    try (unfold P; auto; fail).
  - unfold P. intros j q q' _ Hq Hbody. unfold HRho.potmin_check in Hbody.
    apply bind_Done in Hbody as (g & _ & Hbody).
    destruct (Qltb _ g); [|injection Hbody as <-; exact Hq].
    apply bind_Done in Hbody as (d & _ & Hbody).
    destruct (Qltb _ _); injection Hbody as <-; exact Hq.
  - unfold P. intros j q q' _ Hq Hbody. unfold HRho.chi_sum in Hbody.
    apply bind_Done in Hbody as (star & _ & Hbody).
    injection Hbody as <-. exact Hq.
Qed.

Lemma GradhSph_finish_h_result (nm : Numerics) (ndim : nat) (sph : Sph)
    (Nneib : Z) (hmax : Q) (drsqd gpot_ : list Q) (nbody : Nbody)
    (s : HRho.hloop) (code : Z) (parti' : SphParticle) :
  GradhSph.finish_h nm ndim sph Nneib hmax drsqd gpot_ nbody s
  = Done (code, parti') ->
  (code = 1 /\ (h parti' <= hmax)%Q \/ code = -1 /\ (hmax < h parti')%Q) /\
  (HRho.h_lower_bound s <= h parti')%Q /\
  invh parti' = (1 / h parti')%Q /\
  hrangesqd parti'
  = (kernfacsqd sph * kernrangesqd (kernp sph) * h parti' * h parti')%Q /\
  div_v parti' = 0%Q.
Proof.
  unfold GradhSph.finish_h. cbv zeta. intros Hrun.
  set (hnew := fmax _ (HRho.h_lower_bound s)) in Hrun.
  set (p0 := set_div_v 0 _) in Hrun.
  assert (H0 : h p0 = hnew /\ invh p0 = (1 / hnew)%Q /\
               hrangesqd p0
               = (kernfacsqd sph * kernrangesqd (kernp sph) * hnew * hnew)%Q
               /\ div_v p0 = 0%Q).
  { subst p0. fields. auto. }
  clearbody p0.
  apply bind_Done in Hrun as (p1 & H1 & Hrun).
  assert (K1 : h p1 = h p0 /\ invh p1 = invh p0 /\
               hrangesqd p1 = hrangesqd p0 /\ div_v p1 = div_v p0).
  { destruct (create_sinks sph =? 1).
    - apply (finish_loops_keep ndim sph nbody drsqd gpot_
               (HRho.invhsqd s) (fun _ => 0%Q) Nneib
               (set_potmin true p0) p1).
      left. exact H1.
    - injection H1 as <-. auto. }
  apply bind_Done in Hrun as (p2 & H2 & Hrun).
  assert (K2 : h p2 = h p1 /\ invh p2 = invh p1 /\
               hrangesqd p2 = hrangesqd p1 /\ div_v p2 = div_v p1).
  { destruct (nbody_softening nbody =? 1);
      [apply (finish_loops_keep ndim sph nbody drsqd gpot_ 0%Q
                (fun star => (2 / (h p1 + Star.h star)) ^ 2)%Q
                (Nstar nbody) p1 p2)
      |apply (finish_loops_keep ndim sph nbody drsqd gpot_ 0%Q
                (fun _ => 4 * invh p1 * invh p1)%Q
                (Nstar nbody) p1 p2)]; right; exact H2. }
  destruct H0 as (A1 & A2 & A3 & A4), K1 as (B1 & B2 & B3 & B4),
    K2 as (C1 & C2 & C3 & C4).
  set (p3 := set_chi _ p2) in Hrun.
  assert (D : h p3 = h p2 /\ invh p3 = invh p2 /\
              hrangesqd p3 = hrangesqd p2 /\ div_v p3 = div_v p2)
    by (subst p3; fields; auto).
  clearbody p3. destruct D as (D1 & D2 & D3 & D4).
  assert (Hh : h p3 = hnew) by congruence.
  destruct (Qltb hmax (h p3)) eqn:Hmax; injection Hrun as <- <-;
    rewrite Hh in *.
  - split; [right; split; [reflexivity | now apply Qltb_lt]|].
    split; [apply fmax_ge_r|]. repeat split; congruence.
  - split; [left; split; [reflexivity | now apply Qltb_ge]|].
    split; [apply fmax_ge_r|]. repeat split; congruence.
Qed.

(** X30.  What [GradhSph::ComputeH] hands back.  With code 0 the smoothing
    length is above [hmax].  With any other code it is at least the lower
    bound the routine starts from ([hmin_sink] for a particle that belongs
    to a sink, 0 otherwise), code 1 says that it is at most [hmax] and code
    -1 that it is above; its inverse and the squared kernel range are set
    from it, and the velocity divergence is zero. *)
Theorem ComputeH_smoothing_length (nm : Numerics) (ndim : nat) (sph : Sph)
    (i Nneib : Z) (hmax : Q) (m mu drsqd gpot_ : list Q)
    (parti : SphParticle) (nbody : Nbody) (code : Z)
    (parti' : SphParticle) :
  GradhSph.ComputeH nm ndim sph i Nneib hmax m mu drsqd gpot_ parti nbody
  = Done (code, parti') ->
  let hmin :=
    if negb (sinkid parti =? -1) then hmin_sink sph else 0%Q in
  code = 0 /\ (hmax < h parti')%Q \/
  (code = 1 /\ (h parti' <= hmax)%Q \/ code = -1 /\ (hmax < h parti')%Q) /\
  (hmin <= h parti')%Q /\
  invh parti' = (1 / h parti')%Q /\
  hrangesqd parti'
  = (kernfacsqd sph * kernrangesqd (kernp sph) * h parti' * h parti')%Q /\
  div_v parti' = 0%Q.
Proof.
  unfold GradhSph.ComputeH. cbv zeta. intros Hrun.
  apply bind_Done in Hrun as ([s' next] & Hloop & Hrun).
  cbn [fst snd] in Hrun.
  apply (h_loop_lower_bound _ nm ndim sph hmax
           (GradhSph_density_pass_keeps ndim sph Nneib m drsqd)) in Hloop
    as (Hlo & Hret);
    [|intros Hit; cbn [HRho.iteration] in Hit;
      unfold HRho.iteration_max in Hit; lia].
  cbn [HRho.h_lower_bound] in Hlo.
  destruct next;
    try (right; apply GradhSph_finish_h_result in Hrun
           as (Hcode & Hlow & Hrest);
         split; [exact Hcode|]; split; [|exact Hrest];
         eapply Qle_trans; eassumption).
  left. injection Hrun as <- <-. split; [reflexivity | now apply Hret].
Qed.

Lemma ComputeH_smoothing_length_witness :
  0 = 0 /\ ((1#5) < h (HRho.parti Samples.moved))%Q \/
  (0 = 1 /\ (h (HRho.parti Samples.moved) <= 1#5)%Q \/
   0 = -1 /\ ((1#5) < h (HRho.parti Samples.moved))%Q) /\
  ((if negb (sinkid Samples.part0 =? -1)
    then hmin_sink (Samples.sph_with [] 0) else 0%Q)
   <= h (HRho.parti Samples.moved))%Q /\
  invh (HRho.parti Samples.moved) = (1 / h (HRho.parti Samples.moved))%Q /\
  hrangesqd (HRho.parti Samples.moved)
  = (kernfacsqd (Samples.sph_with [] 0)
     * kernrangesqd (kernp (Samples.sph_with [] 0))
     * h (HRho.parti Samples.moved) * h (HRho.parti Samples.moved))%Q /\
  div_v (HRho.parti Samples.moved) = 0%Q.
Proof.
  apply (ComputeH_smoothing_length Samples.numerics 1
           (Samples.sph_with [] 0) 0 1 (1#5) Samples.masses Samples.masses
           Samples.distances_sqd Samples.potentials Samples.part0
           Samples.no_stars 0 (HRho.parti Samples.moved)).
  vm_compute. reflexivity.
Defined.

(** ** The theorems at sample data *)

Lemma ComputeDirectGravForces_skips_active_lower_witness :
  GradhSphGrav.ComputeDirectGravForces Samples.numerics 3 1 2 [0; 1]
    [0; 0; 0; 0; 0; 0]%Q [0; 0]%Q Samples.part0 Cases.lower_active
  = Done (GradhSphGrav.mkdirect Samples.part0 [0; 0; 0; 0; 0; 0]%Q
            [0; 0]%Q).
Proof.
  apply (ComputeDirectGravForces_skips_active_lower Samples.numerics 3 1 2
           [0; 1] [0; 0; 0; 0; 0; 0]%Q [0; 0]%Q Samples.part0
           Cases.lower_active).
  intros jj Hjj. assert (Hcases : jj = 0 \/ jj = 1) by lia.
  destruct Hcases as [-> | ->].
  - exists 0, Samples.left. repeat split; (reflexivity || lia).
  - exists 1, Samples.right. repeat split; (reflexivity || lia).
Defined.

Lemma direct_step_balance_witness :
  m (GradhSphGrav.parti Cases.direct_summed)
  = m (GradhSphGrav.parti Cases.direct_start).
Proof.
  apply (direct_step_balance Samples.numerics 3 0 [1] Cases.lower_active
           0 1 Samples.right Cases.direct_start Cases.direct_summed).
  - vm_compute. reflexivity.
  - lia.
  - reflexivity.
  - reflexivity.
  - left. lia.
Defined.

Lemma star_forces_touch_active_stars_only_witness :
  length Cases.stars_pulled = length Cases.stars /\
  forall (i : nat) s, Cases.stars !! i = Some s ->
    exists s', Cases.stars_pulled !! i = Some s' /\ forces_only s s' /\
               (Star.active s = false \/ 2 <= Z.of_nat i -> s' = s).
Proof.
  apply (star_forces_touch_active_stars_only Samples.numerics 3
           Samples.cone 2 0 [] Cases.stars Cases.stars_pulled).
  left. vm_compute. reflexivity.
Defined.

Lemma leapfrog_velocity_second_order_witness :
  let dt := ((1#2) * to_float (Star.nstep Cases.star_a))%Q in
  let kicked := NbodyLeapfrogDKD.advance_star 3 3 4 (1#2) Cases.star_a in
  let with_forces :=
    Star.mkNbodyParticle (Star.active kicked) (Star.nstep kicked)
      (Star.nlast kicked) (Star.r kicked) (Star.v kicked) [3; 0; 0]%Q
      (Star.r0 kicked) (Star.v0 kicked) (Star.a0 kicked) (Star.m kicked)
      (Star.h kicked) (Star.gpot kicked) in
  let corrected := LeapfrogDKD.correct_star 3 4 (1#2) with_forces in
  (vget (Star.v corrected) 0
   == vget (Star.v0 Cases.star_a) 0
      + (1#2) * (vget (Star.a0 Cases.star_a) 0 + vget [3; 0; 0]%Q 0) * dt)%Q.
Proof.
  apply (leapfrog_velocity_second_order 3 3 4 (1#2) Cases.star_a
           [3; 0; 0]%Q 0); [reflexivity | lia | lia].
Defined.

Lemma EndTimestep_then_AdvanceParticles_witness :
  exists s',
    Cases.stars_restarted !! 0%nat = Some s' /\ Star.nlast s' = 4 /\
    (forall k, (k < 3)%nat ->
       (vget (Star.r s') k == vget (Star.r Cases.star_a) k)%Q /\
       ((k < 3)%nat ->
        (vget (Star.v s') k == vget (Star.v Cases.star_a) k)%Q)) /\
    (forall k, (3 <= k < 3)%nat ->
       (vget (Star.v s') k == vget (Star.v0 Cases.star_a) k)%Q).
Proof.
  apply (EndTimestep_then_AdvanceParticles 3 3 4 2 (1#2) Cases.stars
           Cases.stars_ended Cases.stars_restarted 0 Cases.star_a).
  - vm_compute. reflexivity.
  - vm_compute. reflexivity.
  - lia.
  - reflexivity.
  - reflexivity.
  - cbn. lia.
  - cbn. lia.
Defined.

Lemma AdvanceParticles_idempotent_witness :
  NbodyLeapfrogDKD.AdvanceParticles 3 3 1 2 Cases.stars_moved (1#2)
  = Done Cases.stars_moved.
Proof.
  apply (AdvanceParticles_idempotent 3 3 1 2 (1#2) Cases.stars
           Cases.stars_moved).
  vm_compute. reflexivity.
Defined.

Lemma LoadBalancing_transfers_match_witness :
  exists calendar,
    MpiControl.CreateLeagueCalendar 4 = Done calendar /\
    forall a b row_a (n : nat),
      0 <= a < 4 -> calendar !! Z.to_nat a = Some row_a ->
      (MpiExchange.transfers a row_a !! n = Some (MpiExchange.send_to b) ->
       exists row_b,
         0 <= b < 4 /\ calendar !! Z.to_nat b = Some row_b /\
         MpiExchange.transfers b row_b !! n
         = Some (MpiExchange.receive_from a)) /\
      (MpiExchange.transfers a row_a !! n
       = Some (MpiExchange.receive_from b) ->
       exists row_b,
         0 <= b < 4 /\ calendar !! Z.to_nat b = Some row_b /\
         MpiExchange.transfers b row_b !! n = Some (MpiExchange.send_to a)).
Proof.
  apply (LoadBalancing_transfers_match 4); [lia | reflexivity].
Defined.

Lemma boxes_round_trip_witness :
  exists received,
    MpiExchange.unpack_boxes 3 2 Cases.packed Cases.blank
    = Done received /\
    length received = length Cases.blank /\
    forall (inode : nat) node, Z.of_nat inode < 2 ->
      Cases.domains !! inode = Some node ->
      exists node',
        received !! inode = Some node' /\
        forall k, (k < 3)%nat ->
          vget (MpiExchange.bmin node') k = vget (MpiExchange.bmin node) k /\
          vget (MpiExchange.bmax node') k = vget (MpiExchange.bmax node) k.
Proof.
  apply (boxes_round_trip 3 2 Cases.domains Cases.blank
           (replicate 12 0%Q) Cases.packed).
  - vm_compute. reflexivity.
  - cbn. lia.
  - repeat constructor.
Defined.

Lemma ghost_exports_match_displacements_witness :
  snd Cases.exported = snd Cases.counted /\
  forall (inode : nat) ids, Z.of_nat inode < 2 ->
    Cases.export_lists !! inode = Some ids ->
    exists d,
      snd (fst Cases.counted) !! inode = Some d /\
      fst (fst Cases.counted) !! inode = Some (Z.of_nat (length ids)) /\
      d + Z.of_nat (length ids) <= snd Cases.counted /\
      forall (ip : nat) id, ids !! ip = Some id ->
        exists p, Cases.lower_active !! Z.to_nat id = Some p /\
                  fst Cases.exported !! Z.to_nat (d + Z.of_nat ip)
                  = Some p.
Proof.
  apply (ghost_exports_match_displacements 2 Cases.export_lists [0; 0]
           [0; 0] (fst (fst Cases.counted)) (snd (fst Cases.counted))
           (snd Cases.counted) (snd Cases.exported) Cases.lower_active
           (replicate 3 Samples.part0) (fst Cases.exported)).
  - lia.
  - vm_compute. reflexivity.
  - vm_compute. reflexivity.
Defined.
